(** * Register binding manager of the arm64 JIT emitter

    A shallow embedding of [lib/VM/JIT/arm64/JitEmitter.cpp]: the emitter
    object becomes a record, every member function a computation in a
    state-and-error monad over that record, and the assembler becomes the list
    of instructions emitted so far. *)

From Stdlib Require Import ZArith Lia.
From stdpp Require Import base option list gmap strings.

Local Open Scope string_scope.
Local Open Scope list_scope.
Local Open Scope Z_scope.

(** ** Values of the header that the emitter manipulates *)

Module FRType.
(** Modelled from the spec: [enum class FRType] is declared in the header
    [JitEmitter.h]; the speculative type tag is Number / Bool / Unknown. *)
Inductive t := Number | Bool | Unknown.
#[global] Instance eq_dec : EqDecision t.
Proof. solve_decision. Defined.
End FRType.

(** Modelled from the spec: class [FR] of [JitEmitter.h], an index into the
    interpreter frame or the invalid value of a default-constructed [FR()]. *)
Inductive FR := FRInvalid | FRIdx (index : nat).

#[global] Instance FR_eq_dec : EqDecision FR.
Proof. solve_decision. Defined.

Definition FR_isValid (fr : FR) : bool :=
  match fr with FRInvalid => false | FRIdx _ => true end.
Definition FR_index (fr : FR) : nat :=
  match fr with FRInvalid => 0 | FRIdx i => i end.

(** Modelled from the spec: class [HWReg] of [JitEmitter.h], a handle for one
    physical register of the integer ([GpX]) or vector ([VecD]) class, or the
    invalid handle of a default-constructed [HWReg()]. *)
Inductive HWReg := HWInvalid | HWGpX (i : nat) | HWVecD (i : nat).

#[global] Instance HWReg_eq_dec : EqDecision HWReg.
Proof. solve_decision. Defined.

Inductive RegClass := GpX | VecD.

#[global] Instance RegClass_eq_dec : EqDecision RegClass.
Proof. solve_decision. Defined.

Definition HWReg_of (index : nat) (TAG : RegClass) : HWReg :=
  match TAG with GpX => HWGpX index | VecD => HWVecD index end.

Definition isValid (r : HWReg) : bool :=
  match r with HWInvalid => false | _ => true end.
Definition isGpX (r : HWReg) : bool :=
  match r with HWGpX _ => true | _ => false end.
Definition isVecD (r : HWReg) : bool :=
  match r with HWVecD _ => true | _ => false end.
Definition isValidGpX (r : HWReg) : bool := isGpX r.
Definition isValidVecD (r : HWReg) : bool := isVecD r.
Definition indexInClass (r : HWReg) : nat :=
  match r with HWInvalid => 0 | HWGpX i => i | HWVecD i => i end.
(** The two classes share one table of 64 entries: integer registers first. *)
Definition combinedIndex (r : HWReg) : nat :=
  match r with HWInvalid => 64 | HWGpX i => i | HWVecD i => 32 + i end.

(** Modelled from the spec: [struct FRState] of [JitEmitter.h], the binding
    record of one frame register (section 3 of the specification). *)
Record FRState := mkFRState {
  globalType : FRType.t;
  localType : FRType.t;
  globalReg : HWReg;
  localGpX : HWReg;
  localVecD : HWReg;
  frameUpToDate : bool;
  globalRegUpToDate : bool;
}.

#[global] Instance FRState_eq_dec : EqDecision FRState.
Proof. solve_decision. Defined.

Definition set_localType (v : FRType.t) (s : FRState) : FRState :=
  mkFRState (globalType s) v (globalReg s) (localGpX s) (localVecD s)
            (frameUpToDate s) (globalRegUpToDate s).
Definition set_localGpX (v : HWReg) (s : FRState) : FRState :=
  mkFRState (globalType s) (localType s) (globalReg s) v (localVecD s)
            (frameUpToDate s) (globalRegUpToDate s).
Definition set_localVecD (v : HWReg) (s : FRState) : FRState :=
  mkFRState (globalType s) (localType s) (globalReg s) (localGpX s) v
            (frameUpToDate s) (globalRegUpToDate s).
Definition set_frameUpToDate (v : bool) (s : FRState) : FRState :=
  mkFRState (globalType s) (localType s) (globalReg s) (localGpX s)
            (localVecD s) v (globalRegUpToDate s).
Definition set_globalRegUpToDate (v : bool) (s : FRState) : FRState :=
  mkFRState (globalType s) (localType s) (globalReg s) (localGpX s)
            (localVecD s) (frameUpToDate s) v.

(** ** The pool of temporary registers *)

Module TempRegAlloc.
(** Modelled from the spec: class [TempRegAlloc] of [JitEmitter.h]: per
    register class, the set of indices available for allocation plus an LRU
    ordering used to pick an eviction victim.  [avail_] has one flag per
    register of the range; [lru_] lists the registers in use, the least
    recently used at the head. *)
Record t := mk { first_ : nat; avail_ : list bool; lru_ : list nat }.

#[global] Instance eq_dec : EqDecision t.
Proof. solve_decision. Defined.

Definition init (range : nat * nat) : t :=
  mk (fst range) (replicate (S (snd range) - fst range) true) [].

Definition inRange (ra : t) (index : nat) : bool :=
  bool_decide (first_ ra ≤ index < first_ ra + length (avail_ ra))%nat.

Definition isAvail (ra : t) (index : nat) : bool :=
  inRange ra index && default false (avail_ ra !! (index - first_ ra)%nat).

Definition use (index : nat) (ra : t) : t :=
  mk (first_ ra) (avail_ ra)
     (filter (λ j, j ≠ index) (lru_ ra) ++ [index]).

Definition firstAvail (ra : t) : option nat :=
  fst <$> list_find (λ b, b = true) (avail_ ra).

(** [alloc(preferred)]: nothing when the pool is exhausted; otherwise the
    preferred register when it is available, else the lowest available one.
    The register is marked in use and becomes the most recently used. *)
Definition alloc (preferred : option nat) (ra : t) : option (nat * t) :=
  match firstAvail ra with
  | None => None
  | Some k =>
      let k' := match preferred with
                | Some p => if isAvail ra p then (p - first_ ra)%nat else k
                | None => k
                end in
      Some ((first_ ra + k')%nat,
            use (first_ ra + k')%nat
                (mk (first_ ra) (<[k' := false]> (avail_ ra)) (lru_ ra)))
  end.

Definition free (index : nat) (ra : t) : t :=
  mk (first_ ra) (<[(index - first_ ra)%nat := true]> (avail_ ra))
     (filter (λ j, j ≠ index) (lru_ ra)).

Definition leastRecentlyUsed (ra : t) : option nat := head (lru_ ra).
End TempRegAlloc.

(** ** The assembler *)

(** Labels handed out by the assembler; a default-constructed label is
    invalid. *)
Inductive Label := LInvalid | LId (id : nat).

#[global] Instance Label_eq_dec : EqDecision Label.
Proof. solve_decision. Defined.

(** Operands of the instructions: 64-bit and 32-bit views of the integer
    registers, the vector registers, and the fixed registers of the emitter
    ([xRuntime], [xFrame], [xDoubleLim], declared in the header). *)
Inductive AReg :=
| X (n : nat) | W (n : nat) | D (n : nat)
| xRuntime | xFrame | xDoubleLim.

#[global] Instance AReg_eq_dec : EqDecision AReg.
Proof. solve_decision. Defined.

Definition a64GpX (r : HWReg) : AReg := X (indexInClass r).
Definition a64VecD (r : HWReg) : AReg := D (indexInClass r).

(** Error codes of the encoder, [asmjit::Error]. *)
Inductive AsmError :=
| kErrorOk | kErrorInvalidImmediate | kErrorInvalidDisplacement
| kErrorOther (code : nat).

#[global] Instance AsmError_eq_dec : EqDecision AsmError.
Proof. solve_decision. Defined.

(** The instructions the modelled emitters hand to the assembler.
    [ILoadFrame]/[IStoreFrame] are the [ldr]/[str] of a frame slot emitted by
    [_loadFrame]/[_storeFrame]; [IFast] stands for whatever the [fast]
    callback of an arithmetic operation emits. *)
Inductive Instr :=
| IMov (dst src : AReg)
| IMovImm (dst : AReg) (imm : Z)
| IFmov (dst src : AReg)
| ILoadFrame (dst : HWReg) (fr : FR)
| IStoreFrame (src : HWReg) (fr : FR)
| ILdrRoData (dst : AReg) (ofs : Z)
| ILdr (dst base : AReg) (ofs : Z)
| ILdur (dst base : AReg) (ofs : Z)
| IAddImm (dst src : AReg) (imm : Z)
| ISubImm (dst src : AReg) (imm : Z)
| ISub (dst src1 src2 : AReg)
| ICmp (l r : AReg)
| ICmpImm (l : AReg) (imm : Z)
| IB_hs (target : Label)
| IB_lo (target : Label)
| IB (target : Label)
| IBl (target : Label)
| IBind (l : Label)
| IFcmpZero (l : AReg)
| IB_mi (target : Label)
| IB_gt (target : Label)
| ICbnz (l : AReg) (target : Label)
| ICbz (l : AReg) (target : Label)
| IFast (res dl dr : AReg).

#[global] Instance Instr_eq_dec : EqDecision Instr.
Proof. solve_decision. Defined.

(** ** The emitter object *)

Inductive SlowKind :=
| SlowLoadParam | SlowToNumber | SlowArithUnop | SlowArithBinOp | SlowJCond.

#[global] Instance SlowKind_eq_dec : EqDecision SlowKind.
Proof. solve_decision. Defined.

(** An entry of the slow-path queue.  The [emit] closure of the source is
    represented by [kind], which selects the emission routine. *)
Record SlowPath := mkSlowPath {
  slowPathLab : Label;
  contLab : Label;
  target : Label;
  name : string;
  frRes : FR;
  frInput1 : FR;
  frInput2 : FR;
  hwRes : HWReg;
  invert : bool;
  slowCall : option Z;
  slowCallName : string;
  kind : SlowKind;
}.

(** The assembler [a]: the instructions emitted so far and the table of the
    labels created so far (a label's id is its position in the table). *)
Record Assembler := mkAssembler {
  instrs : list Instr;
  labels : list (option string);
}.

Record Emitter := mkEmitter {
  frameRegs_ : list FRState;
  hwRegs_ : list FR;
  gpTemp_ : TempRegAlloc.t;
  vecTemp_ : TempRegAlloc.t;
  a : Assembler;
  slowPaths_ : list SlowPath;
  roData_ : list Z;
  fp64ConstMap_ : gmap Z Z;
  thunkMap_ : gmap Z nat;
  thunks_ : list (Label * Z);
  expectedError_ : AsmError;
  roOfsReadPropertyCachePtr_ : Z;
  roOfsWritePropertyCachePtr_ : Z;
}.

Definition with_frameRegs (v : list FRState) (e : Emitter) : Emitter :=
  mkEmitter v (hwRegs_ e) (gpTemp_ e) (vecTemp_ e) (a e) (slowPaths_ e)
    (roData_ e) (fp64ConstMap_ e) (thunkMap_ e) (thunks_ e) (expectedError_ e)
    (roOfsReadPropertyCachePtr_ e) (roOfsWritePropertyCachePtr_ e).
Definition with_hwRegs (v : list FR) (e : Emitter) : Emitter :=
  mkEmitter (frameRegs_ e) v (gpTemp_ e) (vecTemp_ e) (a e) (slowPaths_ e)
    (roData_ e) (fp64ConstMap_ e) (thunkMap_ e) (thunks_ e) (expectedError_ e)
    (roOfsReadPropertyCachePtr_ e) (roOfsWritePropertyCachePtr_ e).
Definition with_gpTemp (v : TempRegAlloc.t) (e : Emitter) : Emitter :=
  mkEmitter (frameRegs_ e) (hwRegs_ e) v (vecTemp_ e) (a e) (slowPaths_ e)
    (roData_ e) (fp64ConstMap_ e) (thunkMap_ e) (thunks_ e) (expectedError_ e)
    (roOfsReadPropertyCachePtr_ e) (roOfsWritePropertyCachePtr_ e).
Definition with_vecTemp (v : TempRegAlloc.t) (e : Emitter) : Emitter :=
  mkEmitter (frameRegs_ e) (hwRegs_ e) (gpTemp_ e) v (a e) (slowPaths_ e)
    (roData_ e) (fp64ConstMap_ e) (thunkMap_ e) (thunks_ e) (expectedError_ e)
    (roOfsReadPropertyCachePtr_ e) (roOfsWritePropertyCachePtr_ e).
Definition with_a (v : Assembler) (e : Emitter) : Emitter :=
  mkEmitter (frameRegs_ e) (hwRegs_ e) (gpTemp_ e) (vecTemp_ e) v
    (slowPaths_ e) (roData_ e) (fp64ConstMap_ e) (thunkMap_ e) (thunks_ e)
    (expectedError_ e)
    (roOfsReadPropertyCachePtr_ e) (roOfsWritePropertyCachePtr_ e).
Definition with_slowPaths (v : list SlowPath) (e : Emitter) : Emitter :=
  mkEmitter (frameRegs_ e) (hwRegs_ e) (gpTemp_ e) (vecTemp_ e) (a e) v
    (roData_ e) (fp64ConstMap_ e) (thunkMap_ e) (thunks_ e) (expectedError_ e)
    (roOfsReadPropertyCachePtr_ e) (roOfsWritePropertyCachePtr_ e).
Definition with_roData (v : list Z) (e : Emitter) : Emitter :=
  mkEmitter (frameRegs_ e) (hwRegs_ e) (gpTemp_ e) (vecTemp_ e) (a e)
    (slowPaths_ e) v (fp64ConstMap_ e) (thunkMap_ e) (thunks_ e)
    (expectedError_ e)
    (roOfsReadPropertyCachePtr_ e) (roOfsWritePropertyCachePtr_ e).
Definition with_fp64ConstMap (v : gmap Z Z) (e : Emitter) : Emitter :=
  mkEmitter (frameRegs_ e) (hwRegs_ e) (gpTemp_ e) (vecTemp_ e) (a e)
    (slowPaths_ e) (roData_ e) v (thunkMap_ e) (thunks_ e) (expectedError_ e)
    (roOfsReadPropertyCachePtr_ e) (roOfsWritePropertyCachePtr_ e).
Definition with_thunkMap (v : gmap Z nat) (e : Emitter) : Emitter :=
  mkEmitter (frameRegs_ e) (hwRegs_ e) (gpTemp_ e) (vecTemp_ e) (a e)
    (slowPaths_ e) (roData_ e) (fp64ConstMap_ e) v (thunks_ e)
    (expectedError_ e)
    (roOfsReadPropertyCachePtr_ e) (roOfsWritePropertyCachePtr_ e).
Definition with_thunks (v : list (Label * Z)) (e : Emitter) : Emitter :=
  mkEmitter (frameRegs_ e) (hwRegs_ e) (gpTemp_ e) (vecTemp_ e) (a e)
    (slowPaths_ e) (roData_ e) (fp64ConstMap_ e) (thunkMap_ e) v
    (expectedError_ e)
    (roOfsReadPropertyCachePtr_ e) (roOfsWritePropertyCachePtr_ e).
Definition with_expectedError (v : AsmError) (e : Emitter) : Emitter :=
  mkEmitter (frameRegs_ e) (hwRegs_ e) (gpTemp_ e) (vecTemp_ e) (a e)
    (slowPaths_ e) (roData_ e) (fp64ConstMap_ e) (thunkMap_ e) (thunks_ e) v
    (roOfsReadPropertyCachePtr_ e) (roOfsWritePropertyCachePtr_ e).

(** ** The monad of the member functions

    A member function either returns a value and the updated emitter, or the
    compilation stops: a failed [assert], a call of [hermes_fatal], or an
    access outside of [frameRegs_]/[hwRegs_] (undefined behaviour in the
    source, an error here). *)

Inductive Error :=
| AssertFailed (msg : string)
| Fatal (msg : string)
| OutOfRange.

Inductive Result (A : Type) := Ok (x : A) | Err (e : Error).
Arguments Ok {A} x.
Arguments Err {A} e.

Definition M (A : Type) : Type := Emitter → Result (A * Emitter).

#[global] Instance M_ret : MRet M := λ A x st, Ok (x, st).
#[global] Instance M_bind : MBind M := λ A B f m st,
  match m st with
  | Ok (x, st') => f x st'
  | Err e => Err e
  end.

Definition fail {A} (e : Error) : M A := λ _, Err e.
Definition get : M Emitter := λ st, Ok (st, st).
Definition modify (f : Emitter → Emitter) : M unit := λ st, Ok ((), f st).
Definition assert (b : bool) (msg : string) : M unit :=
  if b then mret () else fail (AssertFailed msg).
Definition hermes_fatal {A} (msg : string) : M A := fail (Fatal msg).
Definition when (b : bool) (m : M unit) : M unit := if b then m else mret ().

Fixpoint forEach {A} (l : list A) (f : A → M unit) : M unit :=
  match l with
  | [] => mret ()
  | x :: l' => f x ;; forEach l' f
  end.

(** [frameRegs_[fr.index()]], read and updated in place. *)
Definition frState (fr : FR) : M FRState := λ st,
  match fr with
  | FRIdx i =>
      match frameRegs_ st !! i with
      | Some s => Ok (s, st)
      | None => Err OutOfRange
      end
  | FRInvalid => Err OutOfRange
  end.

Definition updFR (fr : FR) (f : FRState → FRState) : M unit :=
  s ← frState fr;
  modify (λ st,
    with_frameRegs (<[FR_index fr := f s]> (frameRegs_ st)) st).

(** [hwRegs_[hwReg.combinedIndex()].contains], read and written. *)
Definition contains (hwReg : HWReg) : M FR := λ st,
  match hwRegs_ st !! combinedIndex hwReg with
  | Some fr => Ok (fr, st)
  | None => Err OutOfRange
  end.

Definition setContains (hwReg : HWReg) (fr : FR) : M unit :=
  _ ← contains hwReg;
  modify (λ st,
    with_hwRegs (<[combinedIndex hwReg := fr]> (hwRegs_ st)) st).

(** One call of an emission method of the assembler [a]. *)
Definition emit (i : Instr) : M unit :=
  modify (λ st,
    with_a (mkAssembler (instrs (a st) ++ [i]) (labels (a st))) st).

(** [a.newNamedLabel(name)] and [a.newLabel()]. *)
Definition newLabel (name : option string) : M Label := λ st,
  Ok (LId (length (labels (a st))),
      with_a (mkAssembler (instrs (a st)) (labels (a st) ++ [name])) st).

(** The constants and helpers that the emitter takes from headers outside of
    this file: the ranges of the temporary registers of both classes
    ([kGPTemp], [kVecTemp], inclusive), the frame layout of
    [hbc::StackFrameLayout], the raw bits of [_sh_ljs_undefined()], the
    address of every runtime helper, and the answers of the encoder for the
    two emissions whose range error the emitter expects. *)
Record Env := mkEnv {
  kGPTemp : nat * nat;
  kVecTemp : nat * nat;
  CalleeClosureOrCB : Z;
  NewTarget : Z;
  ThisArg : Z;
  ArgCount : Z;
  undefinedRaw : Z;
  PROPERTY_CACHING_DISABLED : Z;
  sizeofPropertyCacheEntry : Z;
  addrOf : string → Z;
  encodeCmpImm : Z → AsmError;
  encodeLdur : Z → AsmError;
}.

Section Code.
Context (E : Env).

Definition isTempGpX (hwReg : HWReg) : bool :=
  isValidGpX hwReg &&
  bool_decide (fst (kGPTemp E) ≤ indexInClass hwReg ≤ snd (kGPTemp E))%nat.
Definition isTempVecD (hwReg : HWReg) : bool :=
  isValidVecD hwReg &&
  bool_decide (fst (kVecTemp E) ≤ indexInClass hwReg ≤ snd (kVecTemp E))%nat.
Definition isTemp (hwReg : HWReg) : bool :=
  isTempGpX hwReg || isTempVecD hwReg.

(** The registers of a pool, in the order of the loops
    [for (i = first; i <= second; ++i)]. *)
Definition rangeOf (range : nat * nat) : list nat :=
  seq (fst range) (S (snd range) - fst range).

Definition useReg (hwReg : HWReg) : M HWReg :=
  if negb (isValid hwReg) then mret hwReg
  else
    (if isGpX hwReg then
       when (isTempGpX hwReg)
         (modify (λ st,
            with_gpTemp (TempRegAlloc.use (indexInClass hwReg) (gpTemp_ st)) st))
     else
       when (isTempVecD hwReg)
         (modify (λ st,
            with_vecTemp
              (TempRegAlloc.use (indexInClass hwReg) (vecTemp_ st)) st))) ;;
    mret hwReg.

Definition movHWReg (use : bool) (dst src : HWReg) : M unit :=
  when (bool_decide (dst ≠ src))
    (if isVecD dst && isVecD src then emit (IFmov (a64VecD dst) (a64VecD src))
     else if isVecD dst then emit (IFmov (a64VecD dst) (a64GpX src))
     else if isVecD src then emit (IFmov (a64GpX dst) (a64VecD src))
     else emit (IMov (a64GpX dst) (a64GpX src))) ;;
  when use (useReg src ;; useReg dst ;; mret ()).

Definition _storeFrame (src : HWReg) (fr : FR) : M unit :=
  emit (IStoreFrame src fr).
Definition _loadFrame (dst : HWReg) (fr : FR) : M unit :=
  emit (ILoadFrame dst fr).

Definition _storeHWRegToFrame (fr : FR) (src : HWReg) : M unit :=
  _storeFrame src fr ;;
  updFR fr (set_frameUpToDate true).

Definition freeReg (hwReg : HWReg) : M unit :=
  if negb (isValid hwReg) then mret ()
  else
    fr ← contains hwReg;
    setContains hwReg FRInvalid ;;
    if isGpX hwReg then
      (if FR_isValid fr then
         s ← frState fr;
         assert (bool_decide (localGpX s = hwReg)) "localGpX == hwReg" ;;
         updFR fr (set_localGpX HWInvalid)
       else mret ()) ;;
      when (isTempGpX hwReg)
        (modify (λ st,
           with_gpTemp
             (TempRegAlloc.free (indexInClass hwReg) (gpTemp_ st)) st))
    else
      (if FR_isValid fr then
         s ← frState fr;
         assert (bool_decide (localVecD s = hwReg)) "localVecD == hwReg" ;;
         updFR fr (set_localVecD HWInvalid)
       else mret ()) ;;
      when (isTempVecD hwReg)
        (modify (λ st,
           with_vecTemp
             (TempRegAlloc.free (indexInClass hwReg) (vecTemp_ st)) st)).

Definition spillTempReg (toSpill : HWReg) : M unit :=
  assert (isTemp toSpill) "isTemp(toSpill)" ;;
  fr ← contains toSpill;
  setContains toSpill FRInvalid ;;
  assert (FR_isValid fr) "Allocated tmp register is unused" ;;
  s ← frState fr;
  assert (bool_decide (globalReg s ≠ toSpill))
    "global regs can't be temporary" ;;
  (if isValid (globalReg s) then
     when (negb (globalRegUpToDate s))
       (movHWReg false (globalReg s) toSpill ;;
        updFR fr (set_globalRegUpToDate true))
   else
     when (negb (frameUpToDate s))
       (_storeHWRegToFrame fr toSpill ;;
        updFR fr (set_frameUpToDate true))) ;;
  s ← frState fr;
  if bool_decide (localGpX s = toSpill) then updFR fr (set_localGpX HWInvalid)
  else if bool_decide (localVecD s = toSpill) then
    updFR fr (set_localVecD HWInvalid)
  else assert false "local reg not used by FR".

Definition syncAndFreeTempReg (hwReg : HWReg) : M unit :=
  if negb (isValid hwReg) || negb (isTemp hwReg) then mret ()
  else
    fr ← contains hwReg;
    if negb (FR_isValid fr) then mret ()
    else spillTempReg hwReg ;; freeReg hwReg.

Definition isFRInRegister (fr : FR) : M HWReg :=
  s ← frState fr;
  if isValid (localGpX s) then useReg (localGpX s)
  else if isValid (localVecD s) then useReg (localVecD s)
  else if isValid (globalReg s) then mret (globalReg s)
  else mret HWInvalid.

Definition syncToMem (fr : FR) : M unit :=
  s ← frState fr;
  if frameUpToDate s then mret ()
  else
    hwReg ← isFRInRegister fr;
    assert (isValid hwReg)
      "FR is not synced to frame and is not in a register" ;;
    when (isValid (globalReg s) && negb (globalRegUpToDate s))
      (assert (bool_decide (hwReg ≠ globalReg s)) "FR is in a global reg" ;;
       movHWReg false (globalReg s) hwReg ;;
       updFR fr (set_globalRegUpToDate true)) ;;
    _storeHWRegToFrame fr hwReg.

(** The body of one iteration of the two loops of [syncAllTempExcept]; the
    loop over the vector registers skips a frame register that also has a
    local integer register ([skipIfGpX]). *)
Definition syncOneTemp (skipIfGpX : bool) (exceptFR : FR) (hwReg : HWReg)
  : M unit :=
  fr ← contains hwReg;
  if negb (FR_isValid fr) || bool_decide (fr = exceptFR) then mret ()
  else
    s ← frState fr;
    assert (bool_decide ((if skipIfGpX then localVecD s else localGpX s)
                         = hwReg))
      "tmpreg not bound to FR localreg" ;;
    if skipIfGpX && isValid (localGpX s) then mret ()
    else if isValid (globalReg s) then
      when (negb (globalRegUpToDate s))
        (movHWReg false (globalReg s) hwReg ;;
         updFR fr (set_globalRegUpToDate true))
    else
      when (negb (frameUpToDate s)) (_storeHWRegToFrame fr hwReg).

Definition syncAllTempExcept (exceptFR : FR) : M unit :=
  forEach (rangeOf (kGPTemp E))
    (λ i, syncOneTemp false exceptFR (HWReg_of i GpX)) ;;
  forEach (rangeOf (kVecTemp E))
    (λ i, syncOneTemp true exceptFR (HWReg_of i VecD)).

Definition freeFRTemp (fr : FR) : M unit :=
  s ← frState fr;
  when (isValid (localGpX s))
    (assert (isTempGpX (localGpX s)) "isTempGpX(frState.localGpX)" ;;
     setContains (localGpX s) FRInvalid ;;
     modify (λ st,
       with_gpTemp
         (TempRegAlloc.free (indexInClass (localGpX s)) (gpTemp_ st)) st) ;;
     updFR fr (set_localGpX HWInvalid)) ;;
  s ← frState fr;
  when (isValid (localVecD s))
    (assert (isTempVecD (localVecD s)) "isTempVecD(frState.localVecD)" ;;
     setContains (localVecD s) FRInvalid ;;
     modify (λ st,
       with_vecTemp
         (TempRegAlloc.free (indexInClass (localVecD s)) (vecTemp_ st)) st) ;;
     updFR fr (set_localVecD HWInvalid)).

Definition freeOneTemp (exceptFR : FR) (hwReg : HWReg) : M unit :=
  fr ← contains hwReg;
  if negb (FR_isValid fr) || bool_decide (fr = exceptFR) then mret ()
  else freeFRTemp fr.

Definition freeAllTempExcept (exceptFR : FR) : M unit :=
  forEach (rangeOf (kGPTemp E))
    (λ i, freeOneTemp exceptFR (HWReg_of i GpX)) ;;
  forEach (rangeOf (kVecTemp E))
    (λ i, freeOneTemp exceptFR (HWReg_of i VecD)).

Definition assignAllocatedLocalHWReg (fr : FR) (hwReg : HWReg) : M unit :=
  setContains hwReg fr ;;
  if isGpX hwReg then updFR fr (set_localGpX hwReg)
  else updFR fr (set_localVecD hwReg).

(** The pool [ra] that [_allocTemp<TAG>] receives by reference. *)
Definition pool (TAG : RegClass) (st : Emitter) : TempRegAlloc.t :=
  match TAG with GpX => gpTemp_ st | VecD => vecTemp_ st end.
Definition with_pool (TAG : RegClass) (ra : TempRegAlloc.t) : Emitter → Emitter :=
  match TAG with GpX => with_gpTemp ra | VecD => with_vecTemp ra end.

(** [ra.alloc(pr)] on the pool of class [TAG]. *)
Definition ra_alloc (TAG : RegClass) (pr : option nat) : M (option nat) :=
  λ st,
    match TempRegAlloc.alloc pr (pool TAG st) with
    | Some (r, ra') => Ok (Some r, with_pool TAG ra' st)
    | None => Ok (None, st)
    end.

Definition _allocTemp (TAG : RegClass) (preferred : option HWReg) : M HWReg :=
  let pr := indexInClass <$> preferred in
  optReg ← ra_alloc TAG pr;
  match optReg with
  | Some r => mret (HWReg_of r TAG)
  | None =>
      (* Spill one register. *)
      st ← get;
      match (match pr with
             | Some p => Some p
             | None => TempRegAlloc.leastRecentlyUsed (pool TAG st)
             end) with
      | None => fail (AssertFailed "leastRecentlyUsed: no register in use")
      | Some index =>
          spillTempReg (HWReg_of index TAG) ;;
          modify (λ st,
            with_pool TAG (TempRegAlloc.free index (pool TAG st)) st) ;;
          (* Allocate again. This must succeed. *)
          optReg ← ra_alloc TAG None;
          match optReg with
          | Some r => mret (HWReg_of r TAG)
          | None => fail (AssertFailed "alloc after spill")
          end
      end
  end.

Definition allocTempGpX (preferred : option HWReg) : M HWReg :=
  _allocTemp GpX preferred.
Definition allocTempVecD (preferred : option HWReg) : M HWReg :=
  _allocTemp VecD preferred.
Definition allocAndLogTempGpX : M HWReg := allocTempGpX None.

Definition getOrAllocFRInVecD (fr : FR) (load : bool) : M HWReg :=
  s ← frState fr;
  if isValid (localVecD s) then useReg (localVecD s)
  else if isValidVecD (globalReg s) then
    when (load && negb (globalRegUpToDate s))
      (assert (isValid (localGpX s))
         "If globalReg is not up to date, there must be a localReg" ;;
       movHWReg true (globalReg s) (localGpX s) ;;
       updFR fr (set_globalRegUpToDate true)) ;;
    mret (globalReg s)
  else
    hwVecD ← allocTempVecD None;
    assignAllocatedLocalHWReg fr hwVecD ;;
    when load
      (s ← frState fr;
       if isValid (localGpX s) then movHWReg false hwVecD (localGpX s)
       else if isValidGpX (globalReg s) then
         assert (globalRegUpToDate s)
           "globalReg must be up to date if no local regs" ;;
         movHWReg false hwVecD (globalReg s)
       else
         _loadFrame hwVecD fr ;;
         updFR fr (set_frameUpToDate true)) ;;
    mret hwVecD.

Definition getOrAllocFRInGpX (fr : FR) (load : bool) : M HWReg :=
  s ← frState fr;
  if isValid (localGpX s) then useReg (localGpX s)
  else if isValidGpX (globalReg s) then
    when (load && negb (globalRegUpToDate s))
      (assert (isValid (localVecD s))
         "If globalReg is not up to date, there must be a localReg" ;;
       movHWReg true (globalReg s) (localVecD s) ;;
       updFR fr (set_globalRegUpToDate true)) ;;
    mret (globalReg s)
  else
    hwGpX ← allocTempGpX None;
    assignAllocatedLocalHWReg fr hwGpX ;;
    when load
      (s ← frState fr;
       if isValid (localVecD s) then movHWReg false hwGpX (localVecD s)
       else if isValidVecD (globalReg s) then
         assert (globalRegUpToDate s)
           "globalReg must be up to date if no local regs" ;;
         movHWReg false hwGpX (globalReg s)
       else
         _loadFrame hwGpX fr ;;
         updFR fr (set_frameUpToDate true)) ;;
    mret hwGpX.

(** The [preferred] register is only reset when it is not an integer
    register; the allocation itself does not receive it. *)
Definition getOrAllocFRInAnyReg (fr : FR) (load : bool)
    (preferred : option HWReg) : M HWReg :=
  tmp ← isFRInRegister fr;
  if isValid tmp then mret tmp
  else
    hwGpX ← allocTempGpX None;
    assignAllocatedLocalHWReg fr hwGpX ;;
    when load
      (_loadFrame hwGpX fr ;;
       updFR fr (set_frameUpToDate true)) ;;
    mret hwGpX.

Definition frUpdateType (fr : FR) (type : FRType.t) : M unit :=
  updFR fr (set_localType type).

Definition frUpdatedWithHWReg (fr : FR) (hwReg : HWReg)
    (localType : option FRType.t) : M unit :=
  updFR fr (set_frameUpToDate false) ;;
  s ← frState fr;
  (if bool_decide (globalReg s = hwReg) then
     updFR fr (set_globalRegUpToDate true) ;;
     when (isValid (localGpX s)) (freeReg (localGpX s)) ;;
     s ← frState fr;
     when (isValid (localVecD s)) (freeReg (localVecD s))
   else
     updFR fr (set_globalRegUpToDate false) ;;
     if bool_decide (hwReg = localGpX s) then freeReg (localVecD s)
     else
       assert (bool_decide (hwReg = localVecD s))
         "Updated reg doesn't match any FRState register" ;;
       freeReg (localGpX s)) ;;
  match localType with
  | Some type => frUpdateType fr type
  | None => mret ()
  end.

Definition movHWFromFR (hwRes : HWReg) (src : FR) : M unit :=
  s ← frState src;
  if isValid (localGpX s) then movHWReg true hwRes (localGpX s)
  else if isValid (localVecD s) then movHWReg true hwRes (localVecD s)
  else if isValid (globalReg s) && globalRegUpToDate s then
    movHWReg true hwRes (globalReg s)
  else
    r ← useReg hwRes;
    _loadFrame r src.

Definition movFRFromHW (dst : FR) (src : HWReg) (type : option FRType.t)
  : M unit :=
  s ← frState dst;
  if isValid (localGpX s) then
    movHWReg false (localGpX s) src ;;
    frUpdatedWithHWReg dst (localGpX s) type
  else if isValid (localVecD s) then
    movHWReg false (localVecD s) src ;;
    frUpdatedWithHWReg dst (localVecD s) type
  else if isValid (globalReg s) then
    movHWReg false (globalReg s) src ;;
    frUpdatedWithHWReg dst (globalReg s) type
  else
    _storeHWRegToFrame dst src ;;
    match type with
    | Some t => frUpdateType dst t
    | None => mret ()
    end ;;
    updFR dst (set_frameUpToDate true).

(** ** Read-only data and thunks *)

Definition uint32 (z : Z) : Z := z mod 2 ^ 32.
Definition int32 (z : Z) : Z := (z + 2 ^ 31) mod 2 ^ 32 - 2 ^ 31.
Definition INT32_MAX : Z := 2 ^ 31 - 1.

(** The eight bytes of a 64-bit value, as [memcpy] lays them out
    (little-endian). *)
Definition bytes64 (bits : Z) : list Z :=
  map (λ i : Z, Z.land (Z.shiftr bits (8 * i)) 255) [0; 1; 2; 3; 4; 5; 6; 7].

Definition isCheapConst (k : Z) : bool :=
  bool_decide
    (length (filter (λ i : Z, (Z.land k (Z.shiftl 65535 (16 * i)) ≠ 0)%Z)
               [0; 1; 2; 3]%Z) ≤ 2)%nat.

(** The data descriptors that [reserveData] records for the logger are not
    modelled: they do not influence the emitted code. *)
Definition reserveData (dsize align : Z) : M Z :=
  st ← get;
  let oldSize := Z.of_nat (length (roData_ st)) in
  let dataOfs := Z.land (oldSize + align - 1) (Z.lnot (align - 1)) in
  if bool_decide (INT32_MAX ≤ dataOfs) then hermes_fatal "JIT RO data overflow"
  else
    modify (λ st,
      with_roData (resize (Z.to_nat (dataOfs + dsize)) 0 (roData_ st)) st) ;;
    mret dataOfs.

(** [memcpy(roData_.data() + dataOfs, &v, 8)]. *)
Definition memcpy64 (dataOfs : Z) (v : Z) : M unit :=
  modify (λ st,
    with_roData
      (take (Z.to_nat dataOfs) (roData_ st) ++ bytes64 v ++
       drop (Z.to_nat dataOfs + 8) (roData_ st)) st).

Definition uint64Const (bits : Z) : M Z :=
  st ← get;
  match fp64ConstMap_ st !! bits with
  | Some ofs => mret ofs
  | None =>
      dataOfs ← reserveData 8 8;
      memcpy64 dataOfs bits ;;
      modify (λ st,
        with_fp64ConstMap (<[bits := dataOfs]> (fp64ConstMap_ st)) st) ;;
      mret dataOfs
  end.

Definition registerCall (fn : Z) (name : option string) : M Label :=
  st ← get;
  idx ← match thunkMap_ st !! fn with
        | Some idx => mret idx
        | None =>
            let idx := length (thunks_ st) in
            modify (λ st, with_thunkMap (<[fn := idx]> (thunkMap_ st)) st) ;;
            dataOfs ← reserveData 8 8;
            memcpy64 dataOfs fn ;;
            l ← newLabel name;
            modify (λ st, with_thunks (thunks_ st ++ [(l, dataOfs)]) st) ;;
            mret idx
        end;
  st ← get;
  match thunks_ st !! idx with
  | Some th => mret (fst th)
  | None => fail OutOfRange
  end.

(** [Emitter::call(void *fn, const char *name)]. *)
Definition call_fn (fn : Z) (name : option string) : M unit :=
  l ← registerCall fn name;
  emit (IBl l).

(** [EMIT_RUNTIME_CALL(em, type, func)]. *)
Definition EMIT_RUNTIME_CALL (func : string) : M unit :=
  call_fn (addrOf E func) (Some func).

Definition loadFrameAddr (dst : AReg) (frameReg : FR) : M unit :=
  if bool_decide (frameReg = FRIdx 0) then emit (IMov dst xFrame)
  else emit (IAddImm dst xFrame (Z.of_nat (FR_index frameReg) * 8)).

Definition loadBits64InGp (dest : AReg) (bits : Z) : M unit :=
  if isCheapConst bits then emit (IMovImm dest bits)
  else
    ofs ← uint64Const bits;
    emit (ILdrRoData dest ofs).

(** ** Encoder errors *)

(** [OurErrorHandler::handleError]. *)
Definition handleError (err : AsmError) : M unit :=
  st ← get;
  if bool_decide (err = expectedError_ st) then mret ()
  else hermes_fatal "AsmJit error".

(** An emission whose encoding the encoder answers with [err]: on success
    the instruction is appended, otherwise the error handler runs and the
    error code is returned to the caller. *)
Definition tryEmit (err : AsmError) (i : Instr) : M AsmError :=
  if bool_decide (err = kErrorOk) then emit i ;; mret kErrorOk
  else handleError err ;; mret err.

(** [llvh::SaveAndRestore<asmjit::Error> sav(expectedError_, expected)]
    around [body]. *)
Definition SaveAndRestore {A} (expected : AsmError) (body : M A) : M A :=
  st ← get;
  let old := expectedError_ st in
  modify (with_expectedError expected) ;;
  r ← body;
  modify (with_expectedError old) ;;
  mret r.

(** ** Operation emitters *)

(** Modelled from the spec: [isFRKnownType]/[isFRKnownNumber] of
    [JitEmitter.h]: the static type of an operand is its [localType]. *)
Definition isFRKnownType (fr : FR) (frType : FRType.t) : M bool :=
  s ← frState fr;
  mret (bool_decide (localType s = frType)).
Definition isFRKnownNumber (fr : FR) : M bool :=
  isFRKnownType fr FRType.Number.

Definition newSlowPathLabel : M Label := newLabel None.
Definition newContLabel : M Label := newLabel None.

Definition pushSlowPath (sp : SlowPath) : M unit :=
  modify (λ st, with_slowPaths (slowPaths_ st ++ [sp]) st).

Definition newBasicBlock (label : Label) : M unit :=
  syncAllTempExcept FRInvalid ;;
  freeAllTempExcept FRInvalid ;;
  st ← get;
  forEach (seq 0 (length (frameRegs_ st)))
    (λ i,
       updFR (FRIdx i) (λ s, set_localType (globalType s) s) ;;
       s ← frState (FRIdx i);
       assert (negb (isValid (localGpX s))) "!frState.localGpX" ;;
       assert (negb (isValid (localVecD s))) "!frState.localVecD") ;;
  emit (IBind label).

Definition mov (frRes frInput : FR) (logComment : bool) : M unit :=
  if bool_decide (frRes = frInput) then mret ()
  else
    hwInput ← getOrAllocFRInAnyReg frInput true None;
    hwDest ← getOrAllocFRInAnyReg frRes false None;
    movHWReg false hwDest hwInput ;;
    s ← frState frInput;
    frUpdatedWithHWReg frRes hwDest (Some (localType s)).

Definition loadConstBits64 (frRes : FR) (bits : Z) (type : FRType.t) : M unit :=
  hwRes ← getOrAllocFRInGpX frRes false;
  loadBits64InGp (a64GpX hwRes) bits ;;
  frUpdatedWithHWReg frRes hwRes (Some type).

(** The compare of the argument count with [paramIndex] in [loadParam]: the
    scope that expects [kErrorInvalidImmediate] around [a.cmp(wTmp,
    paramIndex)] and the block [if (err) { ... }] that follows it. *)
Definition loadParam_cmp (wTmp : AReg) (paramIndex : Z) : M unit :=
  err ← SaveAndRestore kErrorInvalidImmediate
          (tryEmit (encodeCmpImm E paramIndex) (ICmpImm wTmp paramIndex));
  (* Does paramIndex fit in the 12-bit unsigned immediate? *)
  when (bool_decide (err ≠ kErrorOk))
    (hwTmp2 ← allocAndLogTempGpX;
     let wTmp2 := W (indexInClass hwTmp2) in
     loadBits64InGp wTmp2 paramIndex ;;
     emit (ICmp wTmp wTmp2) ;;
     freeReg hwTmp2).

(** The load of the parameter in [loadParam]: the scope that expects
    [kErrorInvalidDisplacement] around [a.ldur(hwRes.a64GpX(), Mem(xFrame,
    ofs))] and the block [if (err) { ... }] that follows it. *)
Definition loadParam_ldur (hwRes : HWReg) (ofs : Z) : M unit :=
  err ← SaveAndRestore kErrorInvalidDisplacement
          (tryEmit (encodeLdur E ofs) (ILdur (a64GpX hwRes) xFrame ofs));
  (* Does the offset fit in the 9-bit signed offset? *)
  when (bool_decide (err ≠ kErrorOk))
    (let ofs := int32 (- ofs) in
     let xRes := a64GpX hwRes in
     (if bool_decide (ofs ≤ 4095) then emit (ISubImm xRes xFrame ofs)
      else
        loadBits64InGp xRes ofs ;;
        emit (ISub xRes xFrame xRes)) ;;
     emit (ILdr xRes xRes 0)).

Definition loadParam (frRes : FR) (paramIndex : Z) : M unit :=
  slowPathLab ← newSlowPathLabel;
  contLab ← newContLabel;
  hwTmp ← allocAndLogTempGpX;
  let wTmp := W (indexInClass hwTmp) in
  emit (ILdur wTmp xFrame (ArgCount E * 8)) ;;
  loadParam_cmp wTmp paramIndex ;;
  emit (IB_lo slowPathLab) ;;
  freeReg hwTmp ;;
  hwRes ← getOrAllocFRInGpX frRes false;
  let ofs := int32 (int32 (ThisArg E - int32 paramIndex) * 8) in
  if bool_decide (0 ≤ ofs) then hermes_fatal "JIT integer overflow"
  else
    loadParam_ldur hwRes ofs ;;
    emit (IBind contLab) ;;
    frUpdatedWithHWReg frRes hwRes None ;;
    pushSlowPath
      (mkSlowPath slowPathLab contLab LInvalid "LoadParam" frRes FRInvalid
         FRInvalid hwRes false None "" SlowLoadParam).

(** The guard of an operand that is not statically a number: compare with
    the tagged-double threshold and branch to the slow path. *)
Definition guardNumber (hw : HWReg) (slowPathLab : Label) : M unit :=
  emit (ICmp (a64GpX hw) xDoubleLim) ;;
  emit (IB_hs slowPathLab).

Definition arithBinOp (forceNumber : bool) (frRes frLeft frRight : FR)
    (name : string) (slowCall : Z) (slowCallName : string) : M unit :=
  '(leftIsNum, rightIsNum, slow) ←
    (if forceNumber then
       updFR frLeft (set_localType FRType.Number) ;;
       updFR frRight (set_localType FRType.Number) ;;
       mret (true, true, false)
     else
       leftIsNum ← isFRKnownNumber frLeft;
       rightIsNum ← isFRKnownNumber frRight;
       mret (leftIsNum, rightIsNum, negb (rightIsNum && leftIsNum)));
  '(slowPathLab, contLab) ←
    (if slow : bool then
       slowPathLab ← newSlowPathLabel;
       contLab ← newContLabel;
       syncAllTempExcept
         (if bool_decide (frRes ≠ frLeft) && bool_decide (frRes ≠ frRight)
          then frRes else FRInvalid) ;;
       syncToMem frLeft ;;
       syncToMem frRight ;;
       mret (slowPathLab, contLab)
     else mret (LInvalid, LInvalid));
  hwLeft ←
    (if leftIsNum : bool then getOrAllocFRInVecD frLeft true
     else
       hwLeft ← getOrAllocFRInGpX frLeft true;
       guardNumber hwLeft slowPathLab ;;
       mret hwLeft);
  hwRight ←
    (if rightIsNum : bool then getOrAllocFRInVecD frRight true
     else
       hwRight ← getOrAllocFRInGpX frRight true;
       guardNumber hwRight slowPathLab ;;
       mret hwRight);
  hwLeft ← (if negb leftIsNum then getOrAllocFRInVecD frLeft true
            else mret hwLeft);
  hwRight ← (if negb rightIsNum then getOrAllocFRInVecD frRight true
             else mret hwRight);
  hwRes ← getOrAllocFRInVecD frRes false;
  emit (IFast (a64VecD hwRes) (a64VecD hwLeft) (a64VecD hwRight)) ;;
  frUpdatedWithHWReg frRes hwRes
    (if negb slow then Some FRType.Number else None) ;;
  if negb slow then mret ()
  else
    freeAllTempExcept frRes ;;
    emit (IBind contLab) ;;
    pushSlowPath
      (mkSlowPath slowPathLab contLab LInvalid name frRes frLeft frRight
         hwRes false (Some slowCall) slowCallName SlowArithBinOp).

(** The [emit] closures of the queued slow paths. *)
Definition emitSlowPath (sl : SlowPath) : M unit :=
  match kind sl with
  | SlowLoadParam =>
      emit (IBind (slowPathLab sl)) ;;
      loadBits64InGp (a64GpX (hwRes sl)) (undefinedRaw E) ;;
      emit (IB (contLab sl))
  | SlowToNumber =>
      emit (IBind (slowPathLab sl)) ;;
      emit (IMov (X 0) xRuntime) ;;
      loadFrameAddr (X 1) (frInput1 sl) ;;
      call_fn (default 0 (slowCall sl)) (Some (slowCallName sl)) ;;
      movHWReg false (hwRes sl) (HWVecD 0) ;;
      emit (IB (contLab sl))
  | SlowArithUnop =>
      emit (IBind (slowPathLab sl)) ;;
      emit (IMov (X 0) xRuntime) ;;
      loadFrameAddr (X 1) (frInput1 sl) ;;
      call_fn (default 0 (slowCall sl)) (Some (slowCallName sl)) ;;
      movHWReg false (hwRes sl) (HWGpX 0) ;;
      emit (IB (contLab sl))
  | SlowArithBinOp =>
      emit (IBind (slowPathLab sl)) ;;
      emit (IMov (X 0) xRuntime) ;;
      loadFrameAddr (X 1) (frInput1 sl) ;;
      loadFrameAddr (X 2) (frInput2 sl) ;;
      call_fn (default 0 (slowCall sl)) (Some (slowCallName sl)) ;;
      movHWReg false (hwRes sl) (HWGpX 0) ;;
      emit (IB (contLab sl))
  | SlowJCond =>
      emit (IBind (slowPathLab sl)) ;;
      emit (IMov (X 0) xRuntime) ;;
      loadFrameAddr (X 1) (frInput1 sl) ;;
      loadFrameAddr (X 2) (frInput2 sl) ;;
      call_fn (default 0 (slowCall sl)) (Some (slowCallName sl)) ;;
      (if invert sl then emit (ICbz (W 0) (target sl))
       else emit (ICbnz (W 0) (target sl))) ;;
      emit (IB (contLab sl))
  end.

(** ** Calls *)

(** [FR{...}] of a 32-bit unsigned index expression. *)
Definition mkFR (z : Z) : FR := FRIdx (Z.to_nat (uint32 z)).

Definition nRegs (st : Emitter) : Z := uint32 (Z.of_nat (length (frameRegs_ st))).

(** The block that [call], [callN] and [callWithNewTarget] repeat for the
    callee, the arguments and the new target: store [src] to the right
    location [slot] in the frame, if it isn't already there
    ([if (src != slot) { freeFRTemp(slot); reg = getOrAllocFRInAnyReg(src,
    true); movFRFromHW(slot, reg, frameRegs_[src.index()].localType); }]). *)
Definition placeInFrame (slot src : FR) : M unit :=
  when (bool_decide (src ≠ slot))
    (freeFRTemp slot ;;
     reg ← getOrAllocFRInAnyReg src true None;
     s ← frState src;
     movFRFromHW slot reg (Some (localType s))).

(** The three statements that end every emitter with a result: the result
    of the helper arrives in [x0] and is bound to [frRes]
    ([hwRes = getOrAllocFRInAnyReg(frRes, false, preferred);
    movHWReg<use>(hwRes, HWReg::gpX(0)); frUpdatedWithHWReg(frRes, hwRes)]). *)
Definition resultFromX0 (frRes : FR) (preferred : option HWReg) (use : bool)
  : M unit :=
  hwRes ← getOrAllocFRInAnyReg frRes false preferred;
  movHWReg use hwRes (HWGpX 0) ;;
  frUpdatedWithHWReg frRes hwRes None.

(** [Emitter::call(FR frRes, FR frCallee, uint32_t argc)], up to the
    [bl] of the helper. *)
Definition call_before_bl (frCallee : FR) (argc : Z) : M unit :=
  st ← get;
  let nRegs := nRegs st in
  syncAllTempExcept FRInvalid ;;
  let calleeFrameArg := mkFR (nRegs + CalleeClosureOrCB E) in
  placeInFrame calleeFrameArg frCallee ;;
  (* Store undefined as the new target. *)
  let ntFrameArg := mkFR (nRegs + NewTarget E) in
  loadConstBits64 ntFrameArg (undefinedRaw E) FRType.Unknown ;;
  syncToMem calleeFrameArg ;;
  syncToMem ntFrameArg ;;
  forEach (seqZ 0 argc) (λ i, syncToMem (mkFR (nRegs + ThisArg E - i))) ;;
  freeAllTempExcept FRInvalid ;;
  emit (IMov (X 0) xRuntime) ;;
  emit (IMov (X 1) xFrame) ;;
  emit (IMovImm (W 2) (uint32 (argc - 1))).

Definition call (frRes frCallee : FR) (argc : Z) : M unit :=
  call_before_bl frCallee argc ;;
  EMIT_RUNTIME_CALL "_sh_ljs_call" ;;
  resultFromX0 frRes (Some (HWGpX 0)) false.

Definition callN_before_bl (frCallee : FR) (args : list FR) : M unit :=
  st ← get;
  let nRegs := nRegs st in
  let calleeFrameArg := mkFR (nRegs + CalleeClosureOrCB E) in
  placeInFrame calleeFrameArg frCallee ;;
  syncToMem calleeFrameArg ;;
  forEach (imap (λ i arg, (Z.of_nat i, arg)) args)
    (λ '(i, arg),
       let argLoc := mkFR (nRegs + ThisArg E - i) in
       placeInFrame argLoc arg ;;
       syncToMem argLoc) ;;
  let ntFrameArg := mkFR (nRegs + NewTarget E) in
  loadConstBits64 ntFrameArg (undefinedRaw E) FRType.Unknown ;;
  syncToMem ntFrameArg ;;
  syncAllTempExcept FRInvalid ;;
  freeAllTempExcept FRInvalid ;;
  emit (IMov (X 0) xRuntime) ;;
  emit (IMov (X 1) xFrame) ;;
  emit (IMovImm (W 2) (uint32 (Z.of_nat (length args) - 1))).

Definition callN (frRes frCallee : FR) (args : list FR) : M unit :=
  callN_before_bl frCallee args ;;
  EMIT_RUNTIME_CALL "_sh_ljs_call" ;;
  resultFromX0 frRes (Some (HWGpX 0)) false.

Definition callBuiltin_before_bl (builtinIndex argc : Z) : M unit :=
  st ← get;
  let nRegs := nRegs st in
  (* CallBuiltin internally sets "this", so we don't sync it to memory. *)
  forEach (seqZ 1 (argc - 1)) (λ i, syncToMem (mkFR (nRegs + ThisArg E - i))) ;;
  syncAllTempExcept FRInvalid ;;
  freeAllTempExcept FRInvalid ;;
  emit (IMov (X 0) xRuntime) ;;
  emit (IMov (X 1) xFrame) ;;
  emit (IMovImm (W 2) (uint32 (argc - 1))) ;;
  emit (IMovImm (W 3) builtinIndex).

Definition callBuiltin (frRes : FR) (builtinIndex argc : Z) : M unit :=
  callBuiltin_before_bl builtinIndex argc ;;
  EMIT_RUNTIME_CALL "_sh_ljs_call_builtin" ;;
  resultFromX0 frRes (Some (HWGpX 0)) false.

Definition callWithNewTarget_before_bl (frRes frCallee frNewTarget : FR)
    (argc : Z) : M unit :=
  st ← get;
  let nRegs := nRegs st in
  let calleeFrameArg := mkFR (nRegs + CalleeClosureOrCB E) in
  placeInFrame calleeFrameArg frCallee ;;
  let ntFrameArg := mkFR (nRegs + NewTarget E) in
  placeInFrame ntFrameArg frNewTarget ;;
  (* Sync the set up call stack to the frame memory. *)
  forEach (seqZ 0 argc) (λ i, syncToMem (mkFR (nRegs + ThisArg E - i))) ;;
  syncToMem calleeFrameArg ;;
  syncToMem ntFrameArg ;;
  syncAllTempExcept FRInvalid ;;
  freeAllTempExcept frRes ;;
  emit (IMov (X 0) xRuntime) ;;
  emit (IMov (X 1) xFrame) ;;
  emit (IMovImm (W 2) (uint32 (argc - 1))).

Definition callWithNewTarget (frRes frCallee frNewTarget : FR) (argc : Z)
  : M unit :=
  callWithNewTarget_before_bl frRes frCallee frNewTarget argc ;;
  EMIT_RUNTIME_CALL "_sh_ljs_call" ;;
  resultFromX0 frRes None false.

Definition getBuiltinClosure_before_bl (frRes : FR) (builtinIndex : Z)
  : M unit :=
  syncAllTempExcept frRes ;;
  freeAllTempExcept frRes ;;
  emit (IMov (X 0) xRuntime) ;;
  emit (IMovImm (W 1) builtinIndex).

Definition getBuiltinClosure (frRes : FR) (builtinIndex : Z) : M unit :=
  getBuiltinClosure_before_bl frRes builtinIndex ;;
  EMIT_RUNTIME_CALL "_sh_ljs_get_builtin_closure" ;;
  resultFromX0 frRes None false.

(** ** Property access, environments, strings *)

Definition loadConstString_before_bl (frRes : FR) (runtimeModule stringID : Z)
  : M unit :=
  syncAllTempExcept frRes ;;
  freeAllTempExcept FRInvalid ;;
  emit (IMov (X 0) xRuntime) ;;
  loadBits64InGp (X 1) runtimeModule ;;
  emit (IMovImm (W 2) stringID).

Definition loadConstString (frRes : FR) (runtimeModule stringID : Z) : M unit :=
  loadConstString_before_bl frRes runtimeModule stringID ;;
  EMIT_RUNTIME_CALL "_sh_ljs_get_bytecode_string" ;;
  resultFromX0 frRes (Some (HWGpX 0)) true.

Definition declareGlobalVar_before_bl (symID : Z) : M unit :=
  syncAllTempExcept FRInvalid ;;
  freeAllTempExcept FRInvalid ;;
  emit (IMov (X 0) xRuntime) ;;
  emit (IMovImm (W 1) symID).

Definition declareGlobalVar (symID : Z) : M unit :=
  declareGlobalVar_before_bl symID ;;
  EMIT_RUNTIME_CALL "_sh_ljs_declare_global_var".

Definition createTopLevelEnvironment_before_bl (frRes : FR) (size : Z)
  : M unit :=
  syncAllTempExcept frRes ;;
  freeAllTempExcept FRInvalid ;;
  emit (IMov (X 0) xRuntime) ;;
  emit (IMovImm (X 1) 0) ;;
  emit (IMovImm (W 2) size).

Definition createTopLevelEnvironment (frRes : FR) (size : Z) : M unit :=
  createTopLevelEnvironment_before_bl frRes size ;;
  EMIT_RUNTIME_CALL "_sh_ljs_create_environment" ;;
  resultFromX0 frRes (Some (HWGpX 0)) false.

Definition storeToEnvironment_before_bl (frEnv : FR) (slot : Z) (frValue : FR)
  : M unit :=
  (* Make sure x0, x1, x2, x3 are unused. *)
  syncAndFreeTempReg (HWGpX 0) ;;
  syncAndFreeTempReg (HWGpX 1) ;;
  syncAndFreeTempReg (HWGpX 2) ;;
  syncAndFreeTempReg (HWGpX 3) ;;
  (* Make sure all FRs can be accessed. Some of them might be in temp regs. *)
  syncAllTempExcept FRInvalid ;;
  emit (IMov (X 0) xRuntime) ;;
  movHWFromFR (HWGpX 1) frEnv ;;
  movHWFromFR (HWGpX 2) frValue ;;
  emit (IMovImm (W 3) slot).

Definition storeToEnvironment (np : bool) (frEnv : FR) (slot : Z) (frValue : FR)
  : M unit :=
  storeToEnvironment_before_bl frEnv slot frValue ;;
  (if np then EMIT_RUNTIME_CALL "_sh_ljs_store_np_to_env"
   else EMIT_RUNTIME_CALL "_sh_ljs_store_to_env") ;;
  (* No temp registers available anymore. *)
  freeAllTempExcept FRInvalid.

Definition createClosure_before_bl (frRes frEnv : FR)
    (runtimeModule functionID : Z) : M unit :=
  syncAllTempExcept (if bool_decide (frRes ≠ frEnv) then frRes else FRInvalid) ;;
  syncToMem frEnv ;;
  emit (IMov (X 0) xRuntime) ;;
  loadFrameAddr (X 1) frEnv ;;
  loadBits64InGp (X 2) runtimeModule ;;
  loadBits64InGp (W 3) functionID.

Definition createClosure (frRes frEnv : FR) (runtimeModule functionID : Z)
  : M unit :=
  createClosure_before_bl frRes frEnv runtimeModule functionID ;;
  EMIT_RUNTIME_CALL "_sh_ljs_create_bytecode_closure" ;;
  freeAllTempExcept FRInvalid ;;
  resultFromX0 frRes (Some (HWGpX 0)) false.

Definition putByValImpl_before_bl (frTarget frKey frValue : FR) : M unit :=
  syncAllTempExcept FRInvalid ;;
  syncToMem frTarget ;;
  syncToMem frKey ;;
  syncToMem frValue ;;
  freeAllTempExcept FRInvalid ;;
  emit (IMov (X 0) xRuntime) ;;
  loadFrameAddr (X 1) frTarget ;;
  loadFrameAddr (X 2) frKey ;;
  loadFrameAddr (X 3) frValue.

Definition putByValImpl (frTarget frKey frValue : FR) (shImpl : Z)
    (shImplName : string) : M unit :=
  putByValImpl_before_bl frTarget frKey frValue ;;
  call_fn shImpl (Some shImplName).

(** The inline-cache argument of [getByIdImpl]/[putByIdImpl]. *)
Definition cacheArg (dst : AReg) (roOfs cacheIdx : Z) : M unit :=
  if bool_decide (cacheIdx = PROPERTY_CACHING_DISABLED E) then
    emit (IMovImm dst 0)
  else
    emit (ILdrRoData dst roOfs) ;;
    when (bool_decide (cacheIdx ≠ 0))
      (emit (IAddImm dst dst (sizeofPropertyCacheEntry E * cacheIdx))).

Definition getByIdImpl_before_bl (frRes : FR) (symID : Z) (frSource : FR)
    (cacheIdx : Z) : M unit :=
  syncAllTempExcept
    (if bool_decide (frRes ≠ frSource) then frRes else FRInvalid) ;;
  syncToMem frSource ;;
  freeAllTempExcept FRInvalid ;;
  emit (IMov (X 0) xRuntime) ;;
  loadFrameAddr (X 1) frSource ;;
  emit (IMovImm (W 2) symID) ;;
  st ← get;
  cacheArg (X 3) (roOfsReadPropertyCachePtr_ st) cacheIdx.

Definition getByIdImpl (frRes : FR) (symID : Z) (frSource : FR) (cacheIdx : Z)
    (shImpl : Z) (shImplName : string) : M unit :=
  getByIdImpl_before_bl frRes symID frSource cacheIdx ;;
  call_fn shImpl (Some shImplName) ;;
  resultFromX0 frRes (Some (HWGpX 0)) false ;;
  freeAllTempExcept frRes.

Definition getByVal_before_bl (frRes frSource frKey : FR) : M unit :=
  syncAllTempExcept
    (if bool_decide (frRes ≠ frSource) && bool_decide (frRes ≠ frKey)
     then frRes else FRInvalid) ;;
  syncToMem frSource ;;
  syncToMem frKey ;;
  freeAllTempExcept FRInvalid ;;
  emit (IMov (X 0) xRuntime) ;;
  loadFrameAddr (X 1) frSource ;;
  loadFrameAddr (X 2) frKey.

Definition getByVal (frRes frSource frKey : FR) : M unit :=
  getByVal_before_bl frRes frSource frKey ;;
  EMIT_RUNTIME_CALL "_sh_ljs_get_by_val_rjs" ;;
  resultFromX0 frRes (Some (HWGpX 0)) false.

Definition getByIndex_before_bl (frRes frSource : FR) (key : Z) : M unit :=
  syncAllTempExcept
    (if bool_decide (frRes ≠ frSource) then frRes else FRInvalid) ;;
  syncToMem frSource ;;
  freeAllTempExcept FRInvalid ;;
  emit (IMov (X 0) xRuntime) ;;
  loadFrameAddr (X 1) frSource ;;
  emit (IMovImm (W 2) key).

Definition getByIndex (frRes frSource : FR) (key : Z) : M unit :=
  getByIndex_before_bl frRes frSource key ;;
  EMIT_RUNTIME_CALL "_sh_ljs_get_by_index_rjs" ;;
  resultFromX0 frRes (Some (HWGpX 0)) false.

Definition putByIdImpl_before_bl (frTarget : FR) (symID : Z) (frValue : FR)
    (cacheIdx : Z) : M unit :=
  syncAllTempExcept FRInvalid ;;
  syncToMem frTarget ;;
  syncToMem frValue ;;
  freeAllTempExcept FRInvalid ;;
  emit (IMov (X 0) xRuntime) ;;
  loadFrameAddr (X 1) frTarget ;;
  emit (IMovImm (W 2) symID) ;;
  loadFrameAddr (X 3) frValue ;;
  st ← get;
  cacheArg (X 4) (roOfsWritePropertyCachePtr_ st) cacheIdx.

Definition putByIdImpl (frTarget : FR) (symID : Z) (frValue : FR)
    (cacheIdx : Z) (shImpl : Z) (shImplName : string) : M unit :=
  putByIdImpl_before_bl frTarget symID frValue cacheIdx ;;
  call_fn shImpl (Some shImplName).

Definition isIn_before_bl (frRes frLeft frRight : FR) : M unit :=
  syncAllTempExcept
    (if bool_decide (frRes ≠ frLeft) && bool_decide (frRes ≠ frRight)
     then frRes else FRInvalid) ;;
  syncToMem frLeft ;;
  syncToMem frRight ;;
  freeAllTempExcept FRInvalid ;;
  emit (IMov (X 0) xRuntime) ;;
  loadFrameAddr (X 1) frLeft ;;
  loadFrameAddr (X 2) frRight.

Definition isIn (frRes frLeft frRight : FR) : M unit :=
  isIn_before_bl frRes frLeft frRight ;;
  EMIT_RUNTIME_CALL "_sh_ljs_is_in_rjs" ;;
  resultFromX0 frRes (Some (HWGpX 0)) false.

(** [jmpTrueFalse]: only an input of unknown type calls out. *)
Definition jmpTrueFalse_before_bl (frInput : FR) : M unit :=
  (* TODO: we should inline all of it. *)
  syncAllTempExcept FRInvalid ;;
  movHWFromFR (HWGpX 0) frInput.

Definition jmpTrueFalse (onTrue : bool) (target : Label) (frInput : FR)
  : M unit :=
  (* Do this always, since this could be the end of the BB. *)
  syncAllTempExcept FRInvalid ;;
  isNum ← isFRKnownType frInput FRType.Number;
  isBool ← isFRKnownType frInput FRType.Bool;
  if isNum : bool then
    hwInput ← getOrAllocFRInVecD frInput true;
    emit (IFcmpZero (a64VecD hwInput)) ;;
    if onTrue then
      emit (IB_mi target) ;;
      emit (IB_gt target)
    else
      label ← newLabel None;
      emit (IB_mi label) ;;
      emit (IB_gt label) ;;
      emit (IB target) ;;
      emit (IBind label)
  else if isBool : bool then
    hwInput ← getOrAllocFRInGpX frInput true;
    let wInput := W (indexInClass hwInput) in
    if onTrue then emit (ICbnz wInput target)
    else emit (ICbz wInput target)
  else
    jmpTrueFalse_before_bl frInput ;;
    EMIT_RUNTIME_CALL "_sh_ljs_to_boolean" ;;
    (if onTrue then emit (ICbnz (W 0) target)
     else emit (ICbz (W 0) target)) ;;
    freeAllTempExcept FRInvalid.

(** ** The calls into the runtime

    The member functions that call a helper of the runtime from the main
    line of the code (not from a slow path), with their arguments. *)
Inductive CallOut :=
| CoCall (frRes frCallee : FR) (argc : Z)
| CoCallN (frRes frCallee : FR) (args : list FR)
| CoCallBuiltin (frRes : FR) (builtinIndex argc : Z)
| CoCallWithNewTarget (frRes frCallee frNewTarget : FR) (argc : Z)
| CoGetBuiltinClosure (frRes : FR) (builtinIndex : Z)
| CoLoadConstString (frRes : FR) (runtimeModule stringID : Z)
| CoDeclareGlobalVar (symID : Z)
| CoCreateTopLevelEnvironment (frRes : FR) (size : Z)
| CoStoreToEnvironment (np : bool) (frEnv : FR) (slot : Z) (frValue : FR)
| CoCreateClosure (frRes frEnv : FR) (runtimeModule functionID : Z)
| CoPutByValImpl (frTarget frKey frValue : FR)
| CoGetByIdImpl (frRes : FR) (symID : Z) (frSource : FR) (cacheIdx : Z)
| CoGetByVal (frRes frSource frKey : FR)
| CoGetByIndex (frRes frSource : FR) (key : Z)
| CoPutByIdImpl (frTarget : FR) (symID : Z) (frValue : FR) (cacheIdx : Z)
| CoIsIn (frRes frLeft frRight : FR)
| CoJmpTrueFalse (frInput : FR).

(** What the member function does before it emits the branch to the
    helper. *)
Definition beforeCall (op : CallOut) : M unit :=
  match op with
  | CoCall _ frCallee argc => call_before_bl frCallee argc
  | CoCallN _ frCallee args => callN_before_bl frCallee args
  | CoCallBuiltin _ builtinIndex argc => callBuiltin_before_bl builtinIndex argc
  | CoCallWithNewTarget frRes frCallee frNewTarget argc =>
      callWithNewTarget_before_bl frRes frCallee frNewTarget argc
  | CoGetBuiltinClosure frRes builtinIndex =>
      getBuiltinClosure_before_bl frRes builtinIndex
  | CoLoadConstString frRes runtimeModule stringID =>
      loadConstString_before_bl frRes runtimeModule stringID
  | CoDeclareGlobalVar symID => declareGlobalVar_before_bl symID
  | CoCreateTopLevelEnvironment frRes size =>
      createTopLevelEnvironment_before_bl frRes size
  | CoStoreToEnvironment _ frEnv slot frValue =>
      storeToEnvironment_before_bl frEnv slot frValue
  | CoCreateClosure frRes frEnv runtimeModule functionID =>
      createClosure_before_bl frRes frEnv runtimeModule functionID
  | CoPutByValImpl frTarget frKey frValue =>
      putByValImpl_before_bl frTarget frKey frValue
  | CoGetByIdImpl frRes symID frSource cacheIdx =>
      getByIdImpl_before_bl frRes symID frSource cacheIdx
  | CoGetByVal frRes frSource frKey => getByVal_before_bl frRes frSource frKey
  | CoGetByIndex frRes frSource key => getByIndex_before_bl frRes frSource key
  | CoPutByIdImpl frTarget symID frValue cacheIdx =>
      putByIdImpl_before_bl frTarget symID frValue cacheIdx
  | CoIsIn frRes frLeft frRight => isIn_before_bl frRes frLeft frRight
  | CoJmpTrueFalse frInput => jmpTrueFalse_before_bl frInput
  end.

(** The frame register that the member function passes to
    [syncAllTempExcept]: the result register, unless it is also an input;
    none for the functions that pass [FR()]. *)
Definition exemptOf (op : CallOut) : FR :=
  match op with
  | CoGetBuiltinClosure frRes _ | CoLoadConstString frRes _ _
  | CoCreateTopLevelEnvironment frRes _ => frRes
  | CoCreateClosure frRes frEnv _ _ =>
      if bool_decide (frRes ≠ frEnv) then frRes else FRInvalid
  | CoGetByIdImpl frRes _ frSource _ | CoGetByIndex frRes frSource _ =>
      if bool_decide (frRes ≠ frSource) then frRes else FRInvalid
  | CoGetByVal frRes frA frB | CoIsIn frRes frA frB =>
      if bool_decide (frRes ≠ frA) && bool_decide (frRes ≠ frB)
      then frRes else FRInvalid
  | _ => FRInvalid
  end.

(** ** Emitting the queued slow paths *)

(** [emitSlowPaths]: the loop [while (!slowPaths_.empty())] emits the slow
    path at the front of the queue and pops it.  The loop is unrolled [fuel]
    times; [None] means that the queue was not empty after [fuel]
    iterations. *)
Fixpoint emitSlowPaths (fuel : nat) (st : Emitter)
  : option (Result (unit * Emitter)) :=
  match slowPaths_ st with
  | [] => Some (Ok ((), st))
  | sp :: _ =>
      match fuel with
      | O => None
      | S fuel' =>
          match emitSlowPath sp st with
          | Ok (_, st1) =>
              emitSlowPaths fuel' (with_slowPaths (tail (slowPaths_ st1)) st1)
          | Err e => Some (Err e)
          end
      end
  end.

(** ** Conversion to a number *)

Definition toNumber (frRes frInput : FR) : M unit :=
  known ← isFRKnownNumber frInput;
  if known : bool then mov frRes frInput false
  else
    slowPathLab ← newSlowPathLabel;
    contLab ← newContLabel;
    syncAllTempExcept
      (if bool_decide (frRes ≠ frInput) then frRes else FRInvalid) ;;
    syncToMem frInput ;;
    hwInput ← getOrAllocFRInGpX frInput true;
    emit (ICmp (a64GpX hwInput) xDoubleLim) ;;
    emit (IB_hs slowPathLab) ;;
    hwRes ← (if bool_decide (frRes ≠ frInput) then
               hwRes ← getOrAllocFRInVecD frRes false;
               movHWReg false hwRes hwInput ;;
               mret hwRes
             else mret hwInput);
    frUpdatedWithHWReg frRes hwRes (Some FRType.Number) ;;
    freeAllTempExcept frRes ;;
    emit (IBind contLab) ;;
    pushSlowPath
      (mkSlowPath slowPathLab contLab LInvalid "toNumber" frRes frInput
         FRInvalid hwRes false (Some (addrOf E "_sh_ljs_to_double_rjs"))
         "_sh_ljs_to_double_rjs" SlowToNumber).

(** ** The operation emitters

    The member functions that emit the code of one operation, with their
    arguments. *)
Inductive EmitOp :=
| OpNewBasicBlock (label : Label)
| OpMov (frRes frInput : FR) (logComment : bool)
| OpLoadParam (frRes : FR) (paramIndex : Z)
| OpLoadConstBits64 (frRes : FR) (bits : Z) (type : FRType.t)
| OpToNumber (frRes frInput : FR)
| OpArithBinOp (forceNumber : bool) (frRes frLeft frRight : FR)
    (name : string) (slowCall : Z) (slowCallName : string)
| OpJmpTrueFalse (onTrue : bool) (target : Label) (frInput : FR)
| OpCall (frRes frCallee : FR) (argc : Z)
| OpCallN (frRes frCallee : FR) (args : list FR)
| OpCallBuiltin (frRes : FR) (builtinIndex argc : Z)
| OpCallWithNewTarget (frRes frCallee frNewTarget : FR) (argc : Z)
| OpGetBuiltinClosure (frRes : FR) (builtinIndex : Z)
| OpLoadConstString (frRes : FR) (runtimeModule stringID : Z)
| OpDeclareGlobalVar (symID : Z)
| OpCreateTopLevelEnvironment (frRes : FR) (size : Z)
| OpStoreToEnvironment (np : bool) (frEnv : FR) (slot : Z) (frValue : FR)
| OpCreateClosure (frRes frEnv : FR) (runtimeModule functionID : Z)
| OpPutByValImpl (frTarget frKey frValue : FR) (shImpl : Z)
    (shImplName : string)
| OpGetByIdImpl (frRes : FR) (symID : Z) (frSource : FR) (cacheIdx : Z)
    (shImpl : Z) (shImplName : string)
| OpGetByVal (frRes frSource frKey : FR)
| OpGetByIndex (frRes frSource : FR) (key : Z)
| OpPutByIdImpl (frTarget : FR) (symID : Z) (frValue : FR) (cacheIdx : Z)
    (shImpl : Z) (shImplName : string)
| OpIsIn (frRes frLeft frRight : FR).

Definition emitOp (op : EmitOp) : M unit :=
  match op with
  | OpNewBasicBlock label => newBasicBlock label
  | OpMov frRes frInput logComment => mov frRes frInput logComment
  | OpLoadParam frRes paramIndex => loadParam frRes paramIndex
  | OpLoadConstBits64 frRes bits type => loadConstBits64 frRes bits type
  | OpToNumber frRes frInput => toNumber frRes frInput
  | OpArithBinOp forceNumber frRes frLeft frRight name slowCall slowCallName =>
      arithBinOp forceNumber frRes frLeft frRight name slowCall slowCallName
  | OpJmpTrueFalse onTrue target frInput => jmpTrueFalse onTrue target frInput
  | OpCall frRes frCallee argc => call frRes frCallee argc
  | OpCallN frRes frCallee args => callN frRes frCallee args
  | OpCallBuiltin frRes builtinIndex argc =>
      callBuiltin frRes builtinIndex argc
  | OpCallWithNewTarget frRes frCallee frNewTarget argc =>
      callWithNewTarget frRes frCallee frNewTarget argc
  | OpGetBuiltinClosure frRes builtinIndex =>
      getBuiltinClosure frRes builtinIndex
  | OpLoadConstString frRes runtimeModule stringID =>
      loadConstString frRes runtimeModule stringID
  | OpDeclareGlobalVar symID => declareGlobalVar symID
  | OpCreateTopLevelEnvironment frRes size =>
      createTopLevelEnvironment frRes size
  | OpStoreToEnvironment np frEnv slot frValue =>
      storeToEnvironment np frEnv slot frValue
  | OpCreateClosure frRes frEnv runtimeModule functionID =>
      createClosure frRes frEnv runtimeModule functionID
  | OpPutByValImpl frTarget frKey frValue shImpl shImplName =>
      putByValImpl frTarget frKey frValue shImpl shImplName
  | OpGetByIdImpl frRes symID frSource cacheIdx shImpl shImplName =>
      getByIdImpl frRes symID frSource cacheIdx shImpl shImplName
  | OpGetByVal frRes frSource frKey => getByVal frRes frSource frKey
  | OpGetByIndex frRes frSource key => getByIndex frRes frSource key
  | OpPutByIdImpl frTarget symID frValue cacheIdx shImpl shImplName =>
      putByIdImpl frTarget symID frValue cacheIdx shImpl shImplName
  | OpIsIn frRes frLeft frRight => isIn frRes frLeft frRight
  end.

End Code.

(** ** Invariants of the binding state *)

(** The three kinds of location of a frame register's value. *)
Definition hasLocal (s : FRState) : Prop :=
  isValid (localGpX s) ∨ isValid (localVecD s).
(** The value is in a location that survives a call: the pinned register,
    marked up to date, or the frame slot, marked up to date. *)
Definition synced (s : FRState) : Prop :=
  (isValid (globalReg s) ∧ globalRegUpToDate s) ∨ frameUpToDate s.
(** At least one location holds the latest value. *)
Definition authoritative (s : FRState) : Prop := hasLocal s ∨ synced s.

Definition AuthExcept (X : list FR) (st : Emitter) : Prop :=
  ∀ i s, frameRegs_ st !! i = Some s → FRIdx i ∉ X → authoritative s.
Definition SyncedExcept (X : list FR) (st : Emitter) : Prop :=
  ∀ i s, frameRegs_ st !! i = Some s → FRIdx i ∉ X → synced s.
Definition NoLocalExcept (X : list FR) (st : Emitter) : Prop :=
  ∀ i s, frameRegs_ st !! i = Some s → FRIdx i ∉ X →
         localGpX s = HWInvalid ∧ localVecD s = HWInvalid.

Definition classOf (r : HWReg) : RegClass := if isVecD r then VecD else GpX.
Definition localOf (TAG : RegClass) (s : FRState) : HWReg :=
  match TAG with GpX => localGpX s | VecD => localVecD s end.

(** The instruction that [movHWReg] emits for a move between two registers
    (none when they are the same register). *)
Definition movInstr (dst src : HWReg) : list Instr :=
  if bool_decide (dst ≠ src) then
    [if isVecD dst && isVecD src then IFmov (a64VecD dst) (a64VecD src)
     else if isVecD dst then IFmov (a64VecD dst) (a64GpX src)
     else if isVecD src then IFmov (a64GpX dst) (a64VecD src)
     else IMov (a64GpX dst) (a64GpX src)]
  else [].

(** The register that [isFRInRegister] reports for a frame register: the
    local integer register, else the local vector register, else the global
    register. *)
Definition registerOf (s : FRState) : HWReg :=
  if isValid (localGpX s) then localGpX s
  else if isValid (localVecD s) then localVecD s
  else globalReg s.

Definition checkAuthoritative (s : FRState) : bool :=
  isValid (localGpX s) || isValid (localVecD s) ||
  (isValid (globalReg s) && globalRegUpToDate s) || frameUpToDate s.
Definition checkSynced (s : FRState) : bool :=
  (isValid (globalReg s) && globalRegUpToDate s) || frameUpToDate s.

Section Invariants.
Context (E : Env).

(** The registers of both temporary ranges are registers of the machine. *)
Definition EnvOK : Prop :=
  (snd (kGPTemp E) < 32)%nat ∧ (snd (kVecTemp E) < 32)%nat.

Definition rangeOfClass (TAG : RegClass) : nat * nat :=
  match TAG with GpX => kGPTemp E | VecD => kVecTemp E end.

(** A pool covers the range of its class. *)
Definition PoolOK (TAG : RegClass) (st : Emitter) : Prop :=
  TempRegAlloc.first_ (pool TAG st) = fst (rangeOfClass TAG) ∧
  length (TempRegAlloc.avail_ (pool TAG st)) =
    (S (snd (rangeOfClass TAG)) - fst (rangeOfClass TAG))%nat.

(** Register [r] is a temporary register that the table of hardware
    registers attributes to frame register [i] and that its pool does not
    offer for allocation. *)
Definition ownedBy (st : Emitter) (i : nat) (r : HWReg) : Prop :=
  isTemp E r ∧
  hwRegs_ st !! combinedIndex r = Some (FRIdx i) ∧
  TempRegAlloc.isAvail (pool (classOf r) st) (indexInClass r) = false.

(** Every local binding of a frame register is a temporary register of the
    right class that the frame register owns. *)
Definition Bound (st : Emitter) : Prop :=
  PoolOK GpX st ∧ PoolOK VecD st ∧
  ∀ i s, frameRegs_ st !! i = Some s →
    (isValid (localGpX s) → isGpX (localGpX s) ∧ ownedBy st i (localGpX s)) ∧
    (isValid (localVecD s) → isVecD (localVecD s) ∧ ownedBy st i (localVecD s)).

(** Conversely, the owner recorded for a temporary register has it as its
    local register of that class. *)
Definition Owned (st : Emitter) : Prop :=
  length (hwRegs_ st) = 64%nat ∧
  ∀ r i, isTemp E r → hwRegs_ st !! combinedIndex r = Some (FRIdx i) →
         ∃ s, frameRegs_ st !! i = Some s ∧ localOf (classOf r) s = r.

(** Executable checks of the invariants, for concrete emitters. *)
Definition checkLocal (st : Emitter) (TAG : RegClass) (i : nat) (s : FRState)
  : bool :=
  let r := localOf TAG s in
  negb (isValid r) ||
  (bool_decide (classOf r = TAG) && isTemp E r &&
   bool_decide (hwRegs_ st !! combinedIndex r = Some (FRIdx i)) &&
   negb (TempRegAlloc.isAvail (pool TAG st) (indexInClass r))).
Definition checkPool (TAG : RegClass) (st : Emitter) : bool :=
  bool_decide (TempRegAlloc.first_ (pool TAG st) = fst (rangeOfClass TAG)) &&
  bool_decide (length (TempRegAlloc.avail_ (pool TAG st)) =
               (S (snd (rangeOfClass TAG)) - fst (rangeOfClass TAG))%nat).
Definition checkBound (st : Emitter) : bool :=
  checkPool GpX st && checkPool VecD st &&
  forallb (λ p, checkLocal st GpX (fst p) (snd p) &&
                checkLocal st VecD (fst p) (snd p))
          (imap pair (frameRegs_ st)).

Definition checkOwned (st : Emitter) : bool :=
  bool_decide (length (hwRegs_ st) = 64%nat) &&
  forallb (λ r,
             match hwRegs_ st !! combinedIndex r with
             | Some (FRIdx i) =>
                 match frameRegs_ st !! i with
                 | Some s => bool_decide (localOf (classOf r) s = r)
                 | None => false
                 end
             | _ => true
             end)
          ((HWGpX <$> rangeOf (kGPTemp E)) ++ (HWVecD <$> rangeOf (kVecTemp E))).

End Invariants.

(** The part of the emitter that the binding invariants read, and the rest
    of it. *)
Definition bindingView (st : Emitter) :=
  (frameRegs_ st, hwRegs_ st,
   TempRegAlloc.first_ (gpTemp_ st), TempRegAlloc.avail_ (gpTemp_ st),
   TempRegAlloc.first_ (vecTemp_ st), TempRegAlloc.avail_ (vecTemp_ st)).

Definition codeOf (st : Emitter) :=
  (a st, slowPaths_ st, roData_ st, fp64ConstMap_ st, thunkMap_ st, thunks_ st,
   expectedError_ st, roOfsReadPropertyCachePtr_ st,
   roOfsWritePropertyCachePtr_ st).

Definition set_local (TAG : RegClass) (v : HWReg) (s : FRState) : FRState :=
  match TAG with GpX => set_localGpX v s | VecD => set_localVecD v s end.
Definition otherClass (TAG : RegClass) : RegClass :=
  match TAG with GpX => VecD | VecD => GpX end.

(** ** Weakest preconditions

    [wp m Q st]: if [m] returns from [st], the result and the final emitter
    satisfy [Q].  [twp m Q st]: [m] returns from [st], and the result and the
    final emitter satisfy [Q]. *)

Definition wp {A} (m : M A) (Q : A → Emitter → Prop) (st : Emitter) : Prop :=
  ∀ x st', m st = Ok (x, st') → Q x st'.
Definition twp {A} (m : M A) (Q : A → Emitter → Prop) (st : Emitter) : Prop :=
  ∃ x st', m st = Ok (x, st') ∧ Q x st'.

(** ** Relations between the emitter before and after a member function

    [Pres R m]: whenever [m] returns, the initial and the final emitter are
    related by [R]. *)
Definition Pres (R : Emitter → Emitter → Prop) {A} (m : M A) : Prop :=
  ∀ st x st', m st = Ok (x, st') → R st st'.

(** The binding state is untouched. *)
Definition sameView (st st' : Emitter) : Prop :=
  bindingView st' = bindingView st.

(** [emitAll l st]: the emitter [st] after the instructions [l]. *)
Definition emitAll (l : list Instr) (st : Emitter) : Emitter :=
  with_a (mkAssembler (instrs (a st) ++ l) (labels (a st))) st.

(** What [spillTempReg] does for the owner of the spilled register [r]: the
    flag of the fallback location that it sets, and the instruction that
    writes the value there. *)
Definition spillFlags (s : FRState) : FRState :=
  if isValid (globalReg s) then set_globalRegUpToDate true s
  else set_frameUpToDate true s.
Definition spillInstrs (r : HWReg) (i : nat) (s : FRState) : list Instr :=
  if isValid (globalReg s) then
    if globalRegUpToDate s then [] else movInstr (globalReg s) r
  else
    if frameUpToDate s then [] else [IStoreFrame r (FRIdx i)].

(** The binding record of a frame register after [syncToMem]. *)
Definition memSynced (s : FRState) : FRState :=
  if frameUpToDate s then s
  else set_frameUpToDate true
         (if isValid (globalReg s) && negb (globalRegUpToDate s)
          then set_globalRegUpToDate true s else s).

Section Effects.
Context (E : Env).

(** What [_allocTemp] did to the frame registers: nothing, or the spill of
    one register [victim] owned by frame register [i]. *)
Definition allocEffect (TAG : RegClass) (st st' : Emitter) : Prop :=
  (frameRegs_ st' = frameRegs_ st ∧ instrs (a st') = instrs (a st)) ∨
  (∃ victim i s,
     classOf victim = TAG ∧ isTemp E victim ∧
     hwRegs_ st !! combinedIndex victim = Some (FRIdx i) ∧
     frameRegs_ st !! i = Some s ∧ localOf TAG s = victim ∧
     frameRegs_ st' =
       <[i := set_local TAG HWInvalid (spillFlags s)]> (frameRegs_ st) ∧
     instrs (a st') = instrs (a st) ++ spillInstrs victim i s).

(** The binding record of a frame register after
    [frUpdatedWithHWReg(fr, hwReg, localType)]. *)
Definition updatedWith (hwReg : HWReg) (localType : option FRType.t)
    (s : FRState) : FRState :=
  let s1 := set_frameUpToDate false s in
  let s2 :=
    if bool_decide (globalReg s = hwReg) then
      set_localVecD HWInvalid
        (set_localGpX HWInvalid (set_globalRegUpToDate true s1))
    else if bool_decide (hwReg = localGpX s) then
      set_localVecD HWInvalid (set_globalRegUpToDate false s1)
    else set_localGpX HWInvalid (set_globalRegUpToDate false s1) in
  match localType with
  | Some type => set_localType type s2
  | None => s2
  end.

End Effects.

(** The table of hardware registers after the owner of [r] released it. *)
Definition clearOwner (r : HWReg) (t : list FR) : list FR :=
  if isValid r then <[combinedIndex r := FRInvalid]> t else t.

(** ** Relations for the sync passes *)

(** The tables and pools that the bindings refer to. *)
Definition restView (st : Emitter) :=
  (hwRegs_ st,
   TempRegAlloc.first_ (gpTemp_ st), TempRegAlloc.avail_ (gpTemp_ st),
   TempRegAlloc.first_ (vecTemp_ st), TempRegAlloc.avail_ (vecTemp_ st)).

(** [flagsUp s s']: the binding record [s'] is [s] with, possibly, more
    locations marked up to date. *)
Definition flagsUp (s s' : FRState) : Prop :=
  globalType s' = globalType s ∧ localType s' = localType s ∧
  globalReg s' = globalReg s ∧ localGpX s' = localGpX s ∧
  localVecD s' = localVecD s ∧
  (frameUpToDate s → frameUpToDate s') ∧
  (globalRegUpToDate s → globalRegUpToDate s').

(** What a sync pass may do to the emitter: mark more locations up to date,
    and emit code. *)
Definition syncStep (st st' : Emitter) : Prop :=
  Forall2 flagsUp (frameRegs_ st) (frameRegs_ st') ∧
  restView st' = restView st.

(** [keeps X st st']: every frame register outside [X] that was synced still
    is. *)
Definition keeps (X : list FR) (st st' : Emitter) : Prop :=
  length (frameRegs_ st') = length (frameRegs_ st) ∧
  ∀ i s s', FRIdx i ∉ X → frameRegs_ st !! i = Some s →
            frameRegs_ st' !! i = Some s' → synced s → synced s'.

(** ** Shapes of the emitted code *)

(** The instructions of a guard: the compare with the tagged-double
    threshold and the branch to a slow path. *)
Definition isGuard (i : Instr) : bool :=
  match i with
  | ICmp _ xDoubleLim | IB_hs _ => true
  | _ => false
  end.
Definition isFast (i : Instr) : bool :=
  match i with IFast _ _ _ => true | _ => false end.
Definition isBl (i : Instr) : bool :=
  match i with IBl _ => true | _ => false end.
Definition notBl (i : Instr) : bool := negb (isBl i).
(** Data movement: what the register allocator and the sync passes emit. *)
Definition isMove (i : Instr) : bool :=
  match i with
  | IMov _ _ | IFmov _ _ | ILoadFrame _ _ | IStoreFrame _ _ => true
  | _ => false
  end.

(** [emitsOnly P st st']: between [st] and [st'] the emitter appended
    instructions that satisfy [P], left the queue of slow paths and the
    thunks alone and kept the constants that were interned. *)
Definition emitsOnly (P : Instr → bool) (st st' : Emitter) : Prop :=
  slowPaths_ st' = slowPaths_ st ∧
  (thunkMap_ st', thunks_ st') = (thunkMap_ st, thunks_ st) ∧
  (∀ bits ofs, fp64ConstMap_ st !! bits = Some ofs →
               fp64ConstMap_ st' !! bits = Some ofs) ∧
  ∃ code, instrs (a st') = instrs (a st) ++ code ∧ forallb P code = true.

(** The guard of an operand held in [hw], unless the operand is known to be
    a number. *)
Definition guardOf (known : bool) (hw : HWReg) (lab : Label) : list Instr :=
  if known then [] else [ICmp (a64GpX hw) xDoubleLim; IB_hs lab].

(** [guardedBy g st st']: since [st] the emitter emitted the guard
    instructions [g], in this order, among other instructions, none of which
    is the fast instruction; the queue of slow paths is unchanged. *)
Definition guardedBy (g : list Instr) (st st' : Emitter) : Prop :=
  slowPaths_ st' = slowPaths_ st ∧
  ∃ code, instrs (a st') = instrs (a st) ++ code ∧
          List.filter isGuard code = g ∧ List.filter isFast code = [].

(** [fastAfter g f st st']: since [st] the emitter emitted the guard
    instructions [g], then the fast instruction [f], once, and no guard
    after it; the queue of slow paths is unchanged. *)
Definition fastAfter (g : list Instr) (f : Instr) (st st' : Emitter) : Prop :=
  slowPaths_ st' = slowPaths_ st ∧
  ∃ pre post, instrs (a st') = instrs (a st) ++ pre ++ f :: post ∧
              List.filter isGuard pre = g ∧ List.filter isGuard post = [] ∧
              List.filter isFast (pre ++ post) = [].

(** ** The shape of a call

    [stored X st st']: every frame register outside [X] whose frame slot was
    up to date still has it up to date. *)
Definition stored (X : list FR) (st st' : Emitter) : Prop :=
  length (frameRegs_ st') = length (frameRegs_ st) ∧
  ∀ i s s', FRIdx i ∉ X → frameRegs_ st !! i = Some s →
            frameRegs_ st' !! i = Some s' →
            frameUpToDate s → frameUpToDate s'.

(** The frame slots of the frame registers [X] are up to date. *)
Definition storedIn (X : list FR) (st : Emitter) : Prop :=
  ∀ i s, FRIdx i ∈ X → frameRegs_ st !! i = Some s → frameUpToDate s.

Section CallShape.
Context (E : Env).

(** The outgoing slots of a call from a frame of [nRegs] registers: the
    callee, the new target and the arguments, [this] first. *)
Definition calleeSlot (nRegs : Z) : FR := mkFR (nRegs + CalleeClosureOrCB E).
Definition newTargetSlot (nRegs : Z) : FR := mkFR (nRegs + NewTarget E).
Definition argSlot (nRegs : Z) (i : Z) : FR := mkFR (nRegs + ThisArg E - i).
Definition argSlots (nRegs : Z) (argc : Z) : list FR :=
  argSlot nRegs <$> seqZ 0 argc.
Definition outgoingSlots (nRegs : Z) (argc : Z) : list FR :=
  calleeSlot nRegs :: newTargetSlot nRegs :: argSlots nRegs argc.

(** [code] loads the constant [bits] into a register: by immediate moves
    when it is cheap, else from its slot of the pool of constants. *)
Definition loadsConst (bits : Z) (code : list Instr) (st' : Emitter) : Prop :=
  ∃ dst,
    if isCheapConst bits then IMovImm dst bits ∈ code
    else ∃ ofs, ILdrRoData dst ofs ∈ code ∧
                fp64ConstMap_ st' !! bits = Some ofs.

(** Between [st] and [st'] the emitter emitted exactly one call, to the thunk
    of the helper [func], with [count] in [w2], the runtime in [x0] and the
    frame in [x1]; before the call it loaded the constant [undefinedRaw]. *)
Definition callsOnce (func : string) (count : Z) (st st' : Emitter) : Prop :=
  ∃ lab pre post,
    instrs (a st') =
      instrs (a st) ++ pre ++
      [IMov (X 0) xRuntime; IMov (X 1) xFrame; IMovImm (W 2) count; IBl lab]
      ++ post ∧
    List.filter isBl (pre ++ post) = [] ∧
    loadsConst (undefinedRaw E) pre st' ∧
    ∃ idx ofs, thunkMap_ st' !! addrOf E func = Some idx ∧
               thunks_ st' !! idx = Some (lab, ofs).

End CallShape.

(** ** Registers handed out for a frame register *)

(** [hw] is a register of class [TAG] that holds the frame register with the
    binding record [s]: its local register of that class, or its global
    register when it has no local register of that class. *)
Definition holdsIn (TAG : RegClass) (hw : HWReg) (s : FRState) : Prop :=
  isValid hw ∧ classOf hw = TAG ∧
  (localOf TAG s = hw ∨ (localOf TAG s = HWInvalid ∧ globalReg s = hw)).

(** ** Dropping the temporary registers *)

(** The binding record of a frame register after [freeFRTemp]: both local
    registers are gone, the flags and the types are as before. *)
Definition clearLocals (s : FRState) : FRState :=
  set_localVecD HWInvalid (set_localGpX HWInvalid s).

(** [dropped ex st st']: since [st] nothing was emitted, and some frame
    registers other than [ex] lost their local registers. *)
Definition dropped (ex : FR) (st st' : Emitter) : Prop :=
  a st' = a st ∧ length (frameRegs_ st') = length (frameRegs_ st) ∧
  ∀ i s, frameRegs_ st !! i = Some s →
    ∃ s', frameRegs_ st' !! i = Some s' ∧
          (s' = s ∨ (FRIdx i ≠ ex ∧ s' = clearLocals s)).

(** The register with combined index [k] has no owner, or is owned by [ex]. *)
Definition idle (ex : FR) (st : Emitter) (k : nat) : Prop :=
  hwRegs_ st !! k = Some FRInvalid ∨ hwRegs_ st !! k = Some ex.

(** ** A sync pass that has nothing left to do *)

(** The location that a sync pass writes for a frame register (the global
    register when there is one, else the frame slot) is up to date. *)
Definition settled (s : FRState) : bool :=
  if isValid (globalReg s) then globalRegUpToDate s else frameUpToDate s.

(** The iteration of [syncAllTempExcept(ex)] for the temporary register [hw]
    has nothing to do: [hw] has no owner, or its owner is [ex], or the owner
    is settled (or, in the loop over the vector registers, also has a local
    integer register). *)
Definition quiet (b : bool) (ex : FR) (hw : HWReg) (st : Emitter) : Prop :=
  ∃ fr, hwRegs_ st !! combinedIndex hw = Some fr ∧
    (fr = FRInvalid ∨ fr = ex ∨
     ∃ i s, fr = FRIdx i ∧ frameRegs_ st !! i = Some s ∧
            (if b then localVecD s else localGpX s) = hw ∧
            (b && isValid (localGpX s) || settled s) = true).

(** ** The contents of the read-only data *)

(** The eight bytes at the 8-aligned offset [ofs] of the read-only data are
    the bytes of [v]. *)
Definition slotHolds (st : Emitter) (ofs v : Z) : Prop :=
  0 ≤ ofs ∧ ofs mod 8 = 0 ∧
  take 8 (drop (Z.to_nat ofs) (roData_ st)) = bytes64 v.

(** Every interned constant sits at the offset recorded for it, and every
    registered function has a thunk whose slot holds its address. *)
Definition DataOK (st : Emitter) : Prop :=
  (∀ bits ofs, fp64ConstMap_ st !! bits = Some ofs → slotHolds st ofs bits) ∧
  (∀ fn idx, thunkMap_ st !! fn = Some idx →
     ∃ l ofs, thunks_ st !! idx = Some (l, ofs) ∧ slotHolds st ofs fn).

(** ** The table of thunks *)

(** The map of registered functions and the list of thunks agree: every
    function is mapped to a position of the list, no two functions to the
    same one, and the labels of the thunks are labels that the assembler
    created, all different. *)
Definition ThunksOK (st : Emitter) : Prop :=
  (∀ fn idx, thunkMap_ st !! fn = Some idx →
     (idx < length (thunks_ st))%nat) ∧
  (∀ fn1 fn2 idx, thunkMap_ st !! fn1 = Some idx →
     thunkMap_ st !! fn2 = Some idx → fn1 = fn2) ∧
  (∀ idx l ofs, thunks_ st !! idx = Some (l, ofs) →
     ∃ k, l = LId k ∧ (k < length (labels (a st)))%nat) ∧
  NoDup (fst <$> thunks_ st).

(** ** The code of the slow paths *)

(** [appends st st']: since [st] the emitter only appended instructions; the
    binding state and the queue of slow paths are as they were. *)
Definition appends (st st' : Emitter) : Prop :=
  bindingView st' = bindingView st ∧ slowPaths_ st' = slowPaths_ st ∧
  ∃ code, instrs (a st') = instrs (a st) ++ code.

(** [blk] is the block of the slow path [sp]: it starts by binding the label
    of the slow path and ends with the branch back to its continuation. *)
Definition slowBlock (sp : SlowPath) (blk : list Instr) : Prop :=
  ∃ mid, blk = IBind (slowPathLab sp) :: mid ++ [IB (contLab sp)].

(** ** What the emitters leave alone in the binding records *)

(** [statics X st st']: every frame register has the global register and
    the global type it had, and every frame register outside of [X] the
    local type it had. *)
Definition statics (X : FR → Prop) (st st' : Emitter) : Prop :=
  length (frameRegs_ st') = length (frameRegs_ st) ∧
  ∀ i s s', frameRegs_ st !! i = Some s → frameRegs_ st' !! i = Some s' →
    globalReg s' = globalReg s ∧ globalType s' = globalType s ∧
    (¬ X (FRIdx i) → localType s' = localType s).

(** ** The constructor and the stack frame

    The parts of [Emitter::Emitter], [frameSetup] and [leave] that pin frame
    registers to callee-saved registers and that save and restore these
    registers.  The ranges of the callee-saved registers ([kGPSaved],
    [kVecSaved], inclusive) are constants of the header. *)

Definition set_global (hwReg : HWReg) (type : FRType.t) (s : FRState)
  : FRState :=
  mkFRState type (localType s) hwReg (localGpX s) (localVecD s)
            (frameUpToDate s) (globalRegUpToDate s).

(** [frameRegs_[frIndex].globalReg = hwReg; frameRegs_[frIndex].globalType =
    type]; nothing when [frIndex] is outside of [frameRegs_]. *)
Definition setGlobal (frIndex : nat) (hwReg : HWReg) (type : FRType.t)
    (frs : list FRState) : option (list FRState) :=
  s ← frs !! frIndex;
  Some (<[frIndex := set_global hwReg type s]> frs).

(** The instructions of the prologue and of the epilogue that use the stack
    pointer: [sub sp, sp, imm], [add sp, sp, imm], [stp]/[str]/[ldp]/[ldr]
    of registers at [sp + ofs], [add x29, sp, ofs] and [ret x30]. *)
Inductive StackInstr :=
| SSubSp (imm : Z)
| SAddSp (imm : Z)
| SStp (r1 r2 : AReg) (ofs : Z)
| SStr (r : AReg) (ofs : Z)
| SLdp (r1 r2 : AReg) (ofs : Z)
| SLdr (r : AReg) (ofs : Z)
| SAddFp (ofs : Z)
| SRet.

#[global] Instance StackInstr_eq_dec : EqDecision StackInstr.
Proof. solve_decision. Defined.

(** The loop [for (i = 0; i < n; i += 2, stackOfs += 16)] of [frameSetup]
    and [leave], by recursion on the number [n - i] of registers that are
    left: two registers at a time with [pair], a last single one with
    [single].  The result is the code and the final [stackOfs]. *)
Fixpoint pairLoop (pair : AReg → AReg → Z → StackInstr)
    (single : AReg → Z → StackInstr) (reg : nat → AReg)
    (left : nat) (i : nat) (stackOfs : Z) : list StackInstr * Z :=
  match left with
  | O => ([], stackOfs)
  | S O => ([single (reg i) stackOfs], stackOfs + 16)
  | S (S left') =>
      let '(code, ofs) :=
        pairLoop pair single reg left' (i + 2) (stackOfs + 16) in
      (pair (reg i) (reg (i + 1)%nat) stackOfs :: code, ofs)
  end.

(** [(4 + ((gpSaveCount + 1) & ~1) + ((vecSaveCount + 1) & ~1) + 2) * 8]. *)
Definition frameSize (gpSaveCount vecSaveCount : nat) : Z :=
  (4 + Z.land (Z.of_nat gpSaveCount + 1) (Z.lnot 1) +
   Z.land (Z.of_nat vecSaveCount + 1) (Z.lnot 1) + 2) * 8.

Section Prologue.
Context (kGPSaved kVecSaved : nat * nat).

(** The first loop of the constructor, over the number registers: a vector
    register while there is one, else an integer register, else the loop
    ends.  [nextVec] and [nextGp] are threaded through. *)
Fixpoint assignNumbers (frIndexes : list nat) (nextVec nextGp : nat)
    (frs : list FRState) : option (nat * nat * list FRState) :=
  match frIndexes with
  | [] => Some (nextVec, nextGp, frs)
  | frIndex :: rest =>
      if bool_decide (nextVec ≤ snd kVecSaved)%nat then
        frs' ← setGlobal frIndex (HWVecD nextVec) FRType.Number frs;
        assignNumbers rest (S nextVec) nextGp frs'
      else if bool_decide (nextGp ≤ snd kGPSaved)%nat then
        frs' ← setGlobal frIndex (HWGpX nextGp) FRType.Number frs;
        assignNumbers rest nextVec (S nextGp) frs'
      else Some (nextVec, nextGp, frs)
  end.

(** The second loop, over the non-pointer registers: integer registers
    first. *)
Fixpoint assignNonPointers (frIndexes : list nat) (nextVec nextGp : nat)
    (frs : list FRState) : option (nat * nat * list FRState) :=
  match frIndexes with
  | [] => Some (nextVec, nextGp, frs)
  | frIndex :: rest =>
      if bool_decide (nextGp ≤ snd kGPSaved)%nat then
        frs' ← setGlobal frIndex (HWGpX nextGp) FRType.Unknown frs;
        assignNonPointers rest nextVec (S nextGp) frs'
      else if bool_decide (nextVec ≤ snd kVecSaved)%nat then
        frs' ← setGlobal frIndex (HWVecD nextVec) FRType.Unknown frs;
        assignNonPointers rest (S nextVec) nextGp frs'
      else Some (nextVec, nextGp, frs)
  end.

(** The two loops of the constructor on the frame registers [frs]: both run
    over the indices from 0.  The result is the final [nextVec], [nextGp]
    and the frame registers. *)
Definition assignGlobals (numCount npCount : nat) (frs : list FRState)
  : option (nat * nat * list FRState) :=
  '(nextVec, nextGp, frs1) ←
    assignNumbers (seq 0 numCount) (fst kVecSaved) (fst kGPSaved) frs;
  assignNonPointers (seq 0 npCount) nextVec nextGp frs1.

(** [frameSetup], from its assertions to [a.add(x29, sp, stackOfs)]: the
    code that builds the stack frame, and the values of [gpSaveCount_] and
    [vecSaveCount_]. *)
Definition frameSetup_stack (gpSaveCount vecSaveCount : nat)
  : Result (list StackInstr * (nat * nat)) :=
  if negb (bool_decide
             (gpSaveCount ≤ snd kGPSaved - fst kGPSaved + 1)%nat) then
    Err (AssertFailed "Too many callee saved GP regs")
  else if negb (bool_decide
                  (vecSaveCount ≤ snd kVecSaved - fst kVecSaved + 1)%nat) then
    Err (AssertFailed "Too many callee saved Vec regs")
  else
    (* Always save x22. *)
    let gpSaveCount := if bool_decide (gpSaveCount = 0%nat) then 1%nat
                       else gpSaveCount in
    (* We always save x19, x20, x21. *)
    let gpSaveCount := (gpSaveCount + 3)%nat in
    let '(gpCode, stackOfs) :=
      pairLoop SStp SStr (λ i, X (19 + i)) gpSaveCount 0 (4 * 8) in
    let '(vecCode, stackOfs) :=
      pairLoop SStp SStr (λ i, D (fst kVecSaved + i)) vecSaveCount 0
        stackOfs in
    Ok (SSubSp (frameSize gpSaveCount vecSaveCount) :: gpCode ++ vecCode ++
        [SStp (X 29) (X 30) stackOfs; SAddFp stackOfs],
        (gpSaveCount, vecSaveCount)).

(** [leave], from the first loop to [a.ret(x30)]. *)
Definition leave_stack (gpSaveCount_ vecSaveCount_ : nat) : list StackInstr :=
  let '(gpCode, stackOfs) :=
    pairLoop SLdp SLdr (λ i, X (19 + i)) gpSaveCount_ 0 (4 * 8) in
  let '(vecCode, stackOfs) :=
    pairLoop SLdp SLdr (λ i, D (fst kVecSaved + i)) vecSaveCount_ 0
      stackOfs in
  gpCode ++ vecCode ++
  [SLdp (X 29) (X 30) stackOfs;
   SAddSp (frameSize gpSaveCount_ vecSaveCount_); SRet].

End Prologue.

(** The load that undoes a store. *)
Definition restoreOf (i : StackInstr) : StackInstr :=
  match i with
  | SStp r1 r2 ofs => SLdp r1 r2 ofs
  | SStr r ofs => SLdr r ofs
  | _ => i
  end.

(** The registers that a piece of code stores, with the offsets of their
    8-byte slots from the stack pointer. *)
Definition savedSlots (code : list StackInstr) : list (AReg * Z) :=
  code ≫= λ i,
    match i with
    | SStp r1 r2 ofs => [(r1, ofs); (r2, ofs + 8)]
    | SStr r ofs => [(r, ofs)]
    | _ => []
    end.

(** The machine register of a register handle. *)
Definition a64Reg (r : HWReg) : AReg :=
  if isVecD r then a64VecD r else a64GpX r.

(** The global registers handed out so far are registers of the callee-saved
    ranges below [nextVec] and [nextGp], and no two frame registers have the
    same one. *)
Definition pinsBelow (firstVec firstGp nextVec nextGp : nat)
    (frs : list FRState) : Prop :=
  (∀ i s, frs !! i = Some s →
     match globalReg s with
     | HWInvalid => True
     | HWGpX k => (firstGp ≤ k < nextGp)%nat
     | HWVecD k => (firstVec ≤ k < nextVec)%nat
     end) ∧
  (∀ i j si sj, frs !! i = Some si → frs !! j = Some sj →
     isValid (globalReg si) → globalReg si = globalReg sj → i = j).

(** ** Consistency of the binding state across an operation

    [Consistent E X st]: the local bindings are consistent ([Bound]) and every
    frame register outside of [X] has an authoritative location. *)
Definition Consistent (E : Env) (X : list FR) (st : Emitter) : Prop :=
  Bound E st ∧ AuthExcept X st.

(** [AllSynced E X st]: the local bindings are consistent and every frame
    register outside of [X] is synced. *)
Definition AllSynced (E : Env) (X : list FR) (st : Emitter) : Prop :=
  Bound E st ∧ SyncedExcept X st.

(** The relation of a member function that keeps the bindings consistent. *)
Definition boundKept (E : Env) (st st' : Emitter) : Prop :=
  Bound E st → Bound E st'.

(** The frame register [fr] has an authoritative location. *)
Definition AuthAt (fr : FR) (st : Emitter) : Prop :=
  ∀ i s, fr = FRIdx i → frameRegs_ st !! i = Some s → authoritative s.

(** The binding record of [fr] is as it was. *)
Definition recordKept (fr : FR) (st st' : Emitter) : Prop :=
  ∀ i, fr = FRIdx i → frameRegs_ st' !! i = frameRegs_ st !! i.

(** No frame register has [r] as a local register. *)
Definition unowned (r : HWReg) (st : Emitter) : Prop :=
  ∀ j sj, frameRegs_ st !! j = Some sj → localOf (classOf r) sj ≠ r.

(** ** Loading a frame register into a register

    [latestIn TAG hw i s code]: with the binding record [s] of frame register
    [i], [code] brings the latest value of the frame register into the
    register [hw] of class [TAG]: it is empty and [hw] already holds the
    value, or it copies the value from the local register of the other class
    or from the global register marked up to date, or it loads it from the
    frame slot, which is marked up to date. *)
Definition latestIn (TAG : RegClass) (hw : HWReg) (i : nat) (s : FRState)
    (code : list Instr) : Prop :=
  (code = [] ∧
   (hw = localOf TAG s ∨ (hw = globalReg s ∧ globalRegUpToDate s))) ∨
  (∃ r, isValid r ∧
        (r = localOf (otherClass TAG) s ∨
         (r = globalReg s ∧ globalRegUpToDate s)) ∧
        code = movInstr hw r) ∨
  (frameUpToDate s ∧ code = [ILoadFrame hw (FRIdx i)]).

(** [spillOf E TAG i st code]: [code] is empty, or it is the write-back of a
    temporary register of class [TAG] owned by a frame register other than
    [i]. *)
Definition spillOf (E : Env) (TAG : RegClass) (i : nat) (st : Emitter)
    (code : list Instr) : Prop :=
  code = [] ∨
  ∃ victim j sj,
    j ≠ i ∧ frameRegs_ st !! j = Some sj ∧ localOf TAG sj = victim ∧
    isTemp E victim ∧ code = spillInstrs victim j sj.

(** ** The read-only data and the tables of interned values

    [dataKept st st']: the read-only data, the map of interned constants and
    the thunks are as they were. *)
Definition dataView (st : Emitter) :=
  (roData_ st, fp64ConstMap_ st, thunkMap_ st, thunks_ st).
Definition dataKept (st st' : Emitter) : Prop := dataView st' = dataView st.

(** ** A concrete configuration

    The runs below instantiate the header constants: sixteen temporary
    registers per class ([x0]-[x15], [d16]-[d31]), the frame layout of the
    interpreter, an encoder that accepts compare immediates of 12 bits and
    load displacements of 9 bits. *)

Definition E0 : Env := {|
  kGPTemp := (0%nat, 15%nat);
  kVecTemp := (16%nat, 31%nat);
  CalleeClosureOrCB := -6;
  NewTarget := -5;
  ThisArg := -7;
  ArgCount := -4;
  undefinedRaw := 0xfffa000000000000;
  PROPERTY_CACHING_DISABLED := 0;
  sizeofPropertyCacheEntry := 8;
  addrOf := λ func, 0x10000 + 16 * Z.of_nat (String.length func);
  encodeCmpImm := λ imm,
    if bool_decide (0 ≤ imm < 4096) then kErrorOk else kErrorInvalidImmediate;
  encodeLdur := λ ofs,
    if bool_decide (-256 ≤ ofs < 256) then kErrorOk
    else kErrorInvalidDisplacement;
|}.

(** An emitter with the given binding state that has not emitted anything. *)
Definition emitterOf (frs : list FRState) (hw : list FR)
    (gp vec : TempRegAlloc.t) : Emitter :=
  mkEmitter frs hw gp vec (mkAssembler [] []) [] [] ∅ ∅ [] kErrorOk 0 0.

(** A frame register without registers whose frame slot is up to date. *)
Definition inFrame : FRState :=
  mkFRState FRType.Unknown FRType.Unknown HWInvalid HWInvalid HWInvalid
            true false.

(** The pool of class [TAG] of [E0] after allocating the registers [rs]. *)
Definition poolWith (range : nat * nat) (rs : list nat) : TempRegAlloc.t :=
  foldl (λ ra r, default ra (snd <$> TempRegAlloc.alloc (Some r) ra))
        (TempRegAlloc.init range) rs.

(** The table of hardware registers in which the registers [rs] are owned
    as listed. *)
Definition hwTable (rs : list (HWReg * nat)) : list FR :=
  foldl (λ t '(r, i), <[combinedIndex r := FRIdx i]> t)
        (replicate 64 FRInvalid) rs.

(** Frame register 0 is pinned to [x22], which is up to date, and is also
    bound to the temporary [d16]; its frame slot is stale. *)
Definition st_pinned_and_local : Emitter :=
  emitterOf
    [mkFRState FRType.Number FRType.Number (HWGpX 22) HWInvalid (HWVecD 16)
               false true]
    (hwTable [(HWVecD 16, 0%nat)])
    (poolWith (kGPTemp E0) []) (poolWith (kVecTemp E0) [16%nat]).

(** Twelve frame registers in their frame slots, no register in use. *)
Definition st_fresh : Emitter :=
  emitterOf (replicate 12 inFrame) (hwTable [])
    (poolWith (kGPTemp E0) []) (poolWith (kVecTemp E0) []).

(** As [st_fresh], with the temporary [x0] allocated and not owned by a frame
    register. *)
Definition st_x0_scratch : Emitter :=
  emitterOf (replicate 12 inFrame) (hwTable [])
    (poolWith (kGPTemp E0) [0%nat]) (poolWith (kVecTemp E0) []).

(** [E0] with an encoder that fails on every compare immediate with an error
    that the emitter does not expect. *)
Definition E0_broken_encoder : Env := {|
  kGPTemp := kGPTemp E0;
  kVecTemp := kVecTemp E0;
  CalleeClosureOrCB := CalleeClosureOrCB E0;
  NewTarget := NewTarget E0;
  ThisArg := ThisArg E0;
  ArgCount := ArgCount E0;
  undefinedRaw := undefinedRaw E0;
  PROPERTY_CACHING_DISABLED := PROPERTY_CACHING_DISABLED E0;
  sizeofPropertyCacheEntry := sizeofPropertyCacheEntry E0;
  addrOf := addrOf E0;
  encodeCmpImm := λ _, kErrorOther 7;
  encodeLdur := encodeLdur E0;
|}.

(** Frame register 0 lives only in the temporary [x0]: its frame slot is
    stale and it has no global register (the state after a constant has been
    loaded into it). *)
Definition st_only_local : Emitter :=
  emitterOf
    (mkFRState FRType.Unknown FRType.Number HWInvalid (HWGpX 0) HWInvalid
               false false :: replicate 11 inFrame)
    (hwTable [(HWGpX 0, 0%nat)])
    (poolWith (kGPTemp E0) [0%nat]) (poolWith (kVecTemp E0) []).

(** Sixteen frame registers that live only in the sixteen integer
    temporaries, which are thus all in use: frame register [j] owns the
    [j]-th register of the allocation order [x3, x0, x1, x2, x4, ..., x15],
    so that [x3] is the least recently used one. *)
Definition gp_order : list nat :=
  [3; 0; 1; 2; 4; 5; 6; 7; 8; 9; 10; 11; 12; 13; 14; 15]%nat.
Definition onlyInGpX (r : nat) : FRState :=
  mkFRState FRType.Unknown FRType.Unknown HWInvalid (HWGpX r) HWInvalid
            false false.
Definition st_gp_exhausted : Emitter :=
  emitterOf (onlyInGpX <$> gp_order)
    (hwTable (imap (λ j r, (HWGpX r, j)) gp_order))
    (poolWith (kGPTemp E0) gp_order) (poolWith (kVecTemp E0) []).

(** * Properties *)

(** ** Reasoning in the monad *)

Lemma bind_Ok {A B} (m : M A) (f : A → M B) st r st' :
  (m ≫= f) st = Ok (r, st') ↔
  ∃ x st1, m st = Ok (x, st1) ∧ f x st1 = Ok (r, st').
Proof.
  unfold mbind, M_bind. split.
  - destruct (m st) as [[x st1]|e]; [|discriminate]. eauto.
  - intros (x & st1 & -> & H). exact H.
Qed.

Lemma bind_run {A B} (m : M A) (f : A → M B) st x st1 :
  m st = Ok (x, st1) → (m ≫= f) st = f x st1.
Proof. unfold mbind, M_bind. by intros ->. Qed.

Lemma ret_Ok {A} (x y : A) st st' :
  (mret x : M A) st = Ok (y, st') ↔ x = y ∧ st = st'.
Proof. unfold mret, M_ret. split; [by inversion 1|by intros [-> ->]]. Qed.

Ltac msimpl :=
  repeat (unfold mbind, M_bind, mret, M_ret, get, modify, when, assert, fail,
            hermes_fatal in *; simpl in * ).

(** ** Rules of the weakest preconditions *)

Lemma twp_wp {A} (m : M A) Q st : twp m Q st → wp m Q st.
Proof. intros (x & st' & Hm & HQ) y st2 Hm2. congruence. Qed.

Lemma wp_mono {A} (m : M A) (Q Q' : A → Emitter → Prop) st :
  wp m Q st → (∀ x st', Q x st' → Q' x st') → wp m Q' st.
Proof. intros H HQ x st' Hm. eauto. Qed.
Lemma twp_mono {A} (m : M A) (Q Q' : A → Emitter → Prop) st :
  twp m Q st → (∀ x st', Q x st' → Q' x st') → twp m Q' st.
Proof. intros (x & st' & Hm & H) HQ. exists x, st'. eauto. Qed.

Lemma wp_bind {A B} (m : M A) (f : A → M B) Q st :
  wp m (λ x st1, wp (f x) Q st1) st → wp (m ≫= f) Q st.
Proof.
  intros H y st' Hb. apply bind_Ok in Hb as (x & st1 & Hm & Hf).
  exact (H x st1 Hm y st' Hf).
Qed.
Lemma twp_bind {A B} (m : M A) (f : A → M B) Q st :
  twp m (λ x st1, twp (f x) Q st1) st → twp (m ≫= f) Q st.
Proof.
  intros (x & st1 & Hm & y & st' & Hf & HQ). exists y, st'.
  split; [|done]. by rewrite (bind_run _ _ _ _ _ Hm).
Qed.

Lemma wp_ret {A} (x : A) (Q : A → Emitter → Prop) st :
  Q x st → wp (mret x) Q st.
Proof. intros H y st' [-> ->]%ret_Ok. done. Qed.
Lemma twp_ret {A} (x : A) (Q : A → Emitter → Prop) st :
  Q x st → twp (mret x) Q st.
Proof. intros H. by exists x, st. Qed.

Lemma wp_get (Q : Emitter → Emitter → Prop) st : Q st st → wp get Q st.
Proof. intros H y st' [= <- <-]. done. Qed.
Lemma twp_get (Q : Emitter → Emitter → Prop) st : Q st st → twp get Q st.
Proof. intros H. by exists st, st. Qed.

Lemma wp_modify f (Q : unit → Emitter → Prop) st :
  Q () (f st) → wp (modify f) Q st.
Proof. intros H y st' [= <- <-]. done. Qed.
Lemma twp_modify f (Q : unit → Emitter → Prop) st :
  Q () (f st) → twp (modify f) Q st.
Proof. intros H. by exists (), (f st). Qed.

Lemma wp_fail {A} e (Q : A → Emitter → Prop) st : wp (fail e) Q st.
Proof. intros y st' [=]. Qed.

Lemma wp_assert (b : bool) msg (Q : unit → Emitter → Prop) st :
  (b = true → Q () st) → wp (assert b msg) Q st.
Proof. destruct b; intros H y st'; [intros [= <- <-]; auto|intros [=]]. Qed.
Lemma twp_assert (b : bool) msg (Q : unit → Emitter → Prop) st :
  b = true → Q () st → twp (assert b msg) Q st.
Proof. intros -> H. by exists (), st. Qed.

Lemma wp_when (b : bool) m (Q : unit → Emitter → Prop) st :
  (b = true → wp m Q st) → (b = false → Q () st) → wp (when b m) Q st.
Proof. destruct b; simpl; intros H1 H2; [auto|apply wp_ret; auto]. Qed.
Lemma twp_when (b : bool) m (Q : unit → Emitter → Prop) st :
  (b = true → twp m Q st) → (b = false → Q () st) → twp (when b m) Q st.
Proof. destruct b; simpl; intros H1 H2; [auto|apply twp_ret; auto]. Qed.

Lemma wp_frState fr (Q : FRState → Emitter → Prop) st :
  (∀ i s, fr = FRIdx i → frameRegs_ st !! i = Some s → Q s st) →
  wp (frState fr) Q st.
Proof.
  intros H y st'. unfold frState. destruct fr as [|i]; [discriminate|].
  destruct (frameRegs_ st !! i) as [s|] eqn:Hl; [|discriminate].
  intros [= <- <-]. eauto.
Qed.
Lemma twp_frState i s (Q : FRState → Emitter → Prop) st :
  frameRegs_ st !! i = Some s → Q s st → twp (frState (FRIdx i)) Q st.
Proof. intros Hl H. exists s, st. unfold frState. by rewrite Hl. Qed.

Lemma wp_updFR fr f (Q : unit → Emitter → Prop) st :
  (∀ i s, fr = FRIdx i → frameRegs_ st !! i = Some s →
          Q () (with_frameRegs (<[i := f s]> (frameRegs_ st)) st)) →
  wp (updFR fr f) Q st.
Proof.
  intros H. unfold updFR. apply wp_bind, wp_frState. intros i s -> Hl.
  apply wp_modify. simpl. eauto.
Qed.
Lemma twp_updFR i s f (Q : unit → Emitter → Prop) st :
  frameRegs_ st !! i = Some s →
  Q () (with_frameRegs (<[i := f s]> (frameRegs_ st)) st) →
  twp (updFR (FRIdx i) f) Q st.
Proof.
  intros Hl H. unfold updFR. apply twp_bind. eapply twp_frState; [done|].
  by apply twp_modify.
Qed.

Lemma wp_contains r (Q : FR → Emitter → Prop) st :
  (∀ fr, hwRegs_ st !! combinedIndex r = Some fr → Q fr st) →
  wp (contains r) Q st.
Proof.
  intros H y st'. unfold contains.
  destruct (hwRegs_ st !! combinedIndex r) as [fr|] eqn:Hl; [|discriminate].
  intros [= <- <-]. eauto.
Qed.
Lemma twp_contains r fr (Q : FR → Emitter → Prop) st :
  hwRegs_ st !! combinedIndex r = Some fr → Q fr st → twp (contains r) Q st.
Proof. intros Hl H. exists fr, st. unfold contains. by rewrite Hl. Qed.

Lemma wp_setContains r fr (Q : unit → Emitter → Prop) st :
  (∀ old, hwRegs_ st !! combinedIndex r = Some old →
     Q () (with_hwRegs (<[combinedIndex r := fr]> (hwRegs_ st)) st)) →
  wp (setContains r fr) Q st.
Proof.
  intros H. unfold setContains. apply wp_bind, wp_contains. intros old Hl.
  apply wp_modify. eauto.
Qed.
Lemma twp_setContains r fr old (Q : unit → Emitter → Prop) st :
  hwRegs_ st !! combinedIndex r = Some old →
  Q () (with_hwRegs (<[combinedIndex r := fr]> (hwRegs_ st)) st) →
  twp (setContains r fr) Q st.
Proof.
  intros Hl H. unfold setContains. apply twp_bind.
  eapply twp_contains; [done|]. by apply twp_modify.
Qed.

Lemma wp_emit i (Q : unit → Emitter → Prop) st :
  Q () (with_a (mkAssembler (instrs (a st) ++ [i]) (labels (a st))) st) →
  wp (emit i) Q st.
Proof. apply wp_modify. Qed.
Lemma twp_emit i (Q : unit → Emitter → Prop) st :
  Q () (with_a (mkAssembler (instrs (a st) ++ [i]) (labels (a st))) st) →
  twp (emit i) Q st.
Proof. apply twp_modify. Qed.

Lemma wp_forEach {A} (I : Emitter → Prop) (l : list A) (f : A → M unit) st :
  I st → (∀ x st1, x ∈ l → I st1 → wp (f x) (λ _, I) st1) →
  wp (forEach l f) (λ _, I) st.
Proof.
  revert st. induction l as [|x l IH]; intros st HI Hf; simpl.
  - by apply wp_ret.
  - apply wp_bind. eapply wp_mono; [apply Hf; [left|done]|].
    intros ? st1 HI1. apply IH; [done|]. intros y st2 Hy. apply Hf. by right.
Qed.
Lemma twp_forEach {A} (I : Emitter → Prop) (l : list A) (f : A → M unit) st :
  I st → (∀ x st1, x ∈ l → I st1 → twp (f x) (λ _, I) st1) →
  twp (forEach l f) (λ _, I) st.
Proof.
  revert st. induction l as [|x l IH]; intros st HI Hf; simpl.
  - by apply twp_ret.
  - apply twp_bind. eapply twp_mono; [apply Hf; [left|done]|].
    intros ? st1 HI1. apply IH; [done|]. intros y st2 Hy. apply Hf. by right.
Qed.

(** A loop whose invariant depends on the part of the list already
    processed. *)
Lemma wp_forEach_prefix {A} (I : list A → Emitter → Prop) (l : list A)
    (f : A → M unit) st :
  I [] st →
  (∀ l1 x l2 st1, l = l1 ++ x :: l2 → I l1 st1 →
     wp (f x) (λ _, I (l1 ++ [x])) st1) →
  wp (forEach l f) (λ _, I l) st.
Proof.
  intros HI Hf.
  cut (∀ l1 l2 st1, l = l1 ++ l2 → I l1 st1 → wp (forEach l2 f) (λ _, I l) st1).
  { intros H. by apply (H [] l). }
  intros l1 l2. revert l1. induction l2 as [|x l2 IH]; intros l1 st1 Hl HI1.
  - simpl. apply wp_ret. rewrite app_nil_r in Hl. by rewrite Hl.
  - simpl. apply wp_bind. eapply wp_mono; [by eapply Hf|].
    intros ? st2 HI2. apply (IH (l1 ++ [x])); [|done].
    by rewrite <- app_assoc.
Qed.
Lemma twp_forEach_prefix {A} (I : list A → Emitter → Prop) (l : list A)
    (f : A → M unit) st :
  I [] st →
  (∀ l1 x l2 st1, l = l1 ++ x :: l2 → I l1 st1 →
     twp (f x) (λ _, I (l1 ++ [x])) st1) →
  twp (forEach l f) (λ _, I l) st.
Proof.
  intros HI Hf.
  cut (∀ l1 l2 st1, l = l1 ++ l2 → I l1 st1 →
         twp (forEach l2 f) (λ _, I l) st1).
  { intros H. by apply (H [] l). }
  intros l1 l2. revert l1. induction l2 as [|x l2 IH]; intros l1 st1 Hl HI1.
  - simpl. apply twp_ret. rewrite app_nil_r in Hl. by rewrite Hl.
  - simpl. apply twp_bind. eapply twp_mono; [by eapply Hf|].
    intros ? st2 HI2. apply (IH (l1 ++ [x])); [|done].
    by rewrite <- app_assoc.
Qed.

(** ** Relational facts, compositionally *)

Section Pres.
Context (R : Emitter → Emitter → Prop) `{!PreOrder R}.

Lemma Pres_ret {A} (x : A) : Pres R (mret x).
Proof. intros st y st' [_ <-]%ret_Ok. reflexivity. Qed.
Lemma Pres_bind {A B} (m : M A) (f : A → M B) :
  Pres R m → (∀ x, Pres R (f x)) → Pres R (m ≫= f).
Proof.
  intros Hm Hf st y st' (x & st1 & H1 & H2)%bind_Ok.
  etrans; [by eapply Hm|by eapply Hf].
Qed.
Lemma Pres_fail {A} e : Pres R (fail e : M A).
Proof. intros st x st' [=]. Qed.
Lemma Pres_fatal {A} msg : Pres R (hermes_fatal msg : M A).
Proof. intros st x st' [=]. Qed.
Lemma Pres_get : Pres R get.
Proof. intros st x st' [= _ <-]. reflexivity. Qed.
Lemma Pres_assert b msg : Pres R (assert b msg).
Proof. destruct b; [apply Pres_ret|apply Pres_fail]. Qed.
Lemma Pres_when b m : Pres R m → Pres R (when b m).
Proof. destruct b; [done|intros _; apply Pres_ret]. Qed.
Lemma Pres_forEach {A} (l : list A) f :
  (∀ x, Pres R (f x)) → Pres R (forEach l f).
Proof.
  intros Hf. induction l as [|x l IH]; simpl; [apply Pres_ret|].
  apply Pres_bind; [apply Hf|by intros _].
Qed.
Lemma Pres_frState fr : Pres R (frState fr).
Proof.
  intros st x st'. unfold frState. destruct fr; [done|].
  destruct (_ !! _); [|done]. intros [= _ <-]. reflexivity.
Qed.
Lemma Pres_contains r : Pres R (contains r).
Proof.
  intros st x st'. unfold contains.
  destruct (_ !! _); [|done]. intros [= _ <-]. reflexivity.
Qed.
Lemma Pres_modify f : (∀ st, R st (f st)) → Pres R (modify f).
Proof. intros H st [] st' [= <-]. apply H. Qed.
Lemma Pres_wp {A} (m : M A) (Q : A → Emitter → Prop) st :
  Pres R m → (∀ x st', R st st' → Q x st') → wp m Q st.
Proof. intros Hm HQ x st' Hr. eauto. Qed.

End Pres.

Lemma Pres_weaken (R R' : Emitter → Emitter → Prop) {A} (m : M A) :
  (∀ st st', R st st' → R' st st') → Pres R m → Pres R' m.
Proof. intros H Hm st x st' Hr. eauto. Qed.

Ltac pres_step :=
  lazymatch goal with
  | |- PreOrder _ => exact _
  | |- Pres _ (mret _) => apply Pres_ret
  | |- Pres _ (_ ≫= _) => apply Pres_bind; [..|intros ?]
  | |- Pres _ (when _ _) => apply Pres_when
  | |- Pres _ (forEach _ _) => apply Pres_forEach; [..|intros ?]
  | |- Pres _ (assert _ _) => apply Pres_assert
  | |- Pres _ (fail _) => apply Pres_fail
  | |- Pres _ (hermes_fatal _) => apply Pres_fatal
  | |- Pres _ get => apply Pres_get
  | |- Pres _ (frState _) => apply Pres_frState
  | |- Pres _ (contains _) => apply Pres_contains
  | |- Pres _ (if ?b then _ else _) => destruct b
  | |- Pres _ (match ?x with _ => _ end) => destruct x
  | |- Pres _ (let _ := _ in _) => cbv zeta
  end.

#[local] Instance sameView_preorder : PreOrder sameView.
Proof. split; [done|]. unfold sameView. intros ???. congruence. Qed.

(** ** Read-only data: alignment *)

Lemma align8_aligned (n : Z) :
  0 ≤ n → n mod 8 = 0 → Z.land (n + 8 - 1) (Z.lnot (8 - 1)) = n.
Proof.
  intros Hn Hmod.
  rewrite <- Z.ldiff_land.
  change (8 - 1) with (Z.ones 3).
  rewrite Z.ldiff_ones_r by lia.
  rewrite Z.shiftr_div_pow2, Z.shiftl_mul_pow2 by lia.
  change (2 ^ 3) with 8.
  replace (n + 8 - 1) with (n + 7) by lia.
  pose proof (Z.div_mod n 8 ltac:(lia)) as Hd.
  assert ((n + 7) / 8 = n / 8) as ->; [|lia].
  symmetry. apply Z.div_unique with (r := 7); lia.
Qed.

Section Props.
Context (E : Env).

Lemma reserveData_aligned st :
  Z.of_nat (length (roData_ st)) mod 8 = 0 →
  Z.of_nat (length (roData_ st)) < INT32_MAX →
  reserveData 8 8 st =
    Ok (Z.of_nat (length (roData_ st)),
        with_roData (roData_ st ++ replicate 8 0) st).
Proof.
  intros Hmod Hlt. unfold reserveData. msimpl.
  rewrite align8_aligned by lia.
  rewrite bool_decide_false by lia.
  do 3 f_equal.
  rewrite Z2Nat.inj_add, Nat2Z.id by lia.
  change (Z.to_nat 8) with 8%nat.
  by rewrite resize_add, resize_all, drop_all.
Qed.

(** ** Constant pool and thunks *)

Lemma uint64Const_known bits ofs st :
  fp64ConstMap_ st !! bits = Some ofs → uint64Const bits st = Ok (ofs, st).
Proof. intros H. unfold uint64Const. msimpl. by rewrite H. Qed.

Lemma uint64Const_fresh bits ofs st st1 :
  fp64ConstMap_ st !! bits = None →
  uint64Const bits st = Ok (ofs, st1) →
  fp64ConstMap_ st1 !! bits = Some ofs.
Proof.
  intros Hnone. unfold uint64Const, reserveData, memcpy64. msimpl.
  rewrite Hnone. case_bool_decide; [discriminate|].
  intros [= <- <-]. simpl. apply lookup_insert_eq.
Qed.

Lemma uint64Const_fresh_aligned bits st :
  fp64ConstMap_ st !! bits = None →
  Z.of_nat (length (roData_ st)) mod 8 = 0 →
  Z.of_nat (length (roData_ st)) < INT32_MAX →
  ∃ st1, uint64Const bits st = Ok (Z.of_nat (length (roData_ st)), st1) ∧
         roData_ st1 = roData_ st ++ bytes64 bits.
Proof.
  intros Hnone Hmod Hlt. unfold uint64Const.
  rewrite (bind_run _ _ st st st) by done. rewrite Hnone.
  rewrite (bind_run _ _ _ _ _ (reserveData_aligned st Hmod Hlt)).
  unfold memcpy64. msimpl. eexists; split; [reflexivity|]. simpl.
  rewrite Nat2Z.id, take_app_length.
  rewrite drop_ge by (rewrite length_app; simpl; lia).
  reflexivity.
Qed.

Lemma registerCall_known fn name idx th st :
  thunkMap_ st !! fn = Some idx → thunks_ st !! idx = Some th →
  registerCall fn name st = Ok (fst th, st).
Proof. intros H1 H2. unfold registerCall. msimpl. by rewrite H1, H2. Qed.

Lemma registerCall_inv fn name l st st1 :
  registerCall fn name st = Ok (l, st1) →
  ∃ idx th, thunkMap_ st1 !! fn = Some idx ∧ thunks_ st1 !! idx = Some th ∧
            fst th = l ∧
            (thunkMap_ st !! fn = None →
             ∃ ofs, thunks_ st1 = thunks_ st ++ [(l, ofs)]) ∧
            (is_Some (thunkMap_ st !! fn) → st1 = st).
Proof.
  unfold registerCall, reserveData, memcpy64, newLabel. msimpl.
  destruct (thunkMap_ st !! fn) as [idx|] eqn:Hm.
  - destruct (thunks_ st !! idx) as [th|] eqn:Ht; [|discriminate].
    intros [= <- <-]. exists idx, th. rewrite Hm, Ht.
    split_and!; done.
  - case_bool_decide; [discriminate|]. simpl.
    rewrite lookup_app_r by done. rewrite Nat.sub_diag. simpl.
    intros [= <- <-]. simpl. eexists _, _. rewrite lookup_insert_eq.
    split; [done|]. rewrite lookup_app_r by done. rewrite Nat.sub_diag. simpl.
    split_and!; try done; eauto.
Qed.

(** C8: interning the same 64-bit constant twice returns the same offset and
    leaves the emitter (in particular the read-only data) untouched the second
    time, while the first interning of a new constant appends its eight bytes;
    registering the same function pointer twice returns the same thunk label
    and leaves the emitter (in particular the list of thunks) untouched the
    second time, while the first registration of a new pointer creates one
    thunk. *)
Theorem interning_is_idempotent :
  (∀ bits st ofs st1,
     uint64Const bits st = Ok (ofs, st1) →
     uint64Const bits st1 = Ok (ofs, st1)) ∧
  (∀ bits st,
     fp64ConstMap_ st !! bits = None →
     Z.of_nat (length (roData_ st)) mod 8 = 0 →
     Z.of_nat (length (roData_ st)) < INT32_MAX →
     ∃ st1, uint64Const bits st = Ok (Z.of_nat (length (roData_ st)), st1) ∧
            roData_ st1 = roData_ st ++ bytes64 bits) ∧
  (∀ fn name name' st l st1,
     registerCall fn name st = Ok (l, st1) →
     registerCall fn name' st1 = Ok (l, st1) ∧
     (thunkMap_ st !! fn = None →
      ∃ ofs, thunks_ st1 = thunks_ st ++ [(l, ofs)])).
Proof.
  split_and!.
  - intros bits st ofs st1 H.
    destruct (fp64ConstMap_ st !! bits) as [o|] eqn:Hm.
    + rewrite (uint64Const_known _ _ _ Hm) in H. injection H as <- <-.
      by apply uint64Const_known.
    + apply uint64Const_known. by eapply uint64Const_fresh.
  - apply uint64Const_fresh_aligned.
  - intros fn name name' st l st1 H.
    apply registerCall_inv in H as (idx & th & Hm & Ht & <- & Hnew & _).
    split; [|done]. by eapply registerCall_known.
Qed.

(** ** Moves *)

(** C10: [mov] of a frame register onto itself returns at once: nothing is
    emitted and the emitter, hence every binding, flag and type, is left as it
    was. *)
Theorem mov_same_register (fr : FR) (logComment : bool) (st : Emitter) :
  mov E fr fr logComment st = Ok ((), st).
Proof. unfold mov. by rewrite bool_decide_true. Qed.

(** ** Synchronisation to memory *)

Lemma useReg_fields r st :
  ∃ st', useReg E r st = Ok (r, st') ∧ frameRegs_ st' = frameRegs_ st ∧
         hwRegs_ st' = hwRegs_ st ∧ a st' = a st.
Proof.
  unfold useReg. destruct r; simpl; msimpl; eauto.
  - destruct (isTempGpX _ _); simpl; eauto.
  - destruct (isTempVecD _ _); simpl; eauto.
Qed.

Lemma isFRInRegister_run i s st :
  frameRegs_ st !! i = Some s →
  ∃ st', isFRInRegister E (FRIdx i) st = Ok (registerOf s, st') ∧
         frameRegs_ st' = frameRegs_ st ∧ hwRegs_ st' = hwRegs_ st ∧
         a st' = a st.
Proof.
  intros Hl. unfold isFRInRegister, registerOf.
  rewrite (bind_run _ _ st s st) by (unfold frState; by rewrite Hl).
  destruct (isValid (localGpX s)); [apply useReg_fields|].
  destruct (isValid (localVecD s)); [apply useReg_fields|].
  destruct (globalReg s); simpl; eauto.
Qed.

Lemma movHWReg_false dst src st :
  ∃ st', movHWReg E false dst src st = Ok ((), st') ∧
         frameRegs_ st' = frameRegs_ st ∧ hwRegs_ st' = hwRegs_ st ∧
         gpTemp_ st' = gpTemp_ st ∧ vecTemp_ st' = vecTemp_ st ∧
         instrs (a st') = instrs (a st) ++ movInstr dst src.
Proof.
  unfold movHWReg, movInstr. msimpl. unfold emit. msimpl.
  case_bool_decide; simpl.
  - repeat (destruct (isVecD _); simpl); eauto 10.
  - rewrite app_nil_r. eauto 10.
Qed.

Lemma twp_unit (m : M unit) (Q : Emitter → Prop) st :
  twp m (λ _, Q) st → ∃ st', m st = Ok ((), st') ∧ Q st'.
Proof. intros ([] & st' & H & HQ). eauto. Qed.

Lemma twp_run {A} (m : M A) x st st' (Q : A → Emitter → Prop) :
  m st = Ok (x, st') → Q x st' → twp m Q st.
Proof. intros. by exists x, st'. Qed.

Lemma twp_movHWReg_false dst src (Q : unit → Emitter → Prop) st :
  (∀ st', frameRegs_ st' = frameRegs_ st → hwRegs_ st' = hwRegs_ st →
          gpTemp_ st' = gpTemp_ st → vecTemp_ st' = vecTemp_ st →
          instrs (a st') = instrs (a st) ++ movInstr dst src → Q () st') →
  twp (movHWReg E false dst src) Q st.
Proof.
  intros H. destruct (movHWReg_false dst src st) as (st' & Hr & ? & ? & ? & ? & ?).
  eapply twp_run; eauto.
Qed.

(** C3 (amended): [syncToMem] of a frame register whose frame slot is marked
    up to date emits nothing and leaves the emitter as it is.  Otherwise it
    emits a store to the frame slot whose source is the register that
    [isFRInRegister] reports (the local integer register, else the local
    vector register, else the global register), preceded by a move of that
    register into the global register when the global register exists and is
    stale; it then marks the frame slot, and the refreshed global register, up
    to date. *)
Theorem syncToMem_stores_from_local_first i s st :
  frameRegs_ st !! i = Some s →
  (frameUpToDate s = true → syncToMem E (FRIdx i) st = Ok ((), st)) ∧
  (frameUpToDate s = false →
   isValid (registerOf s) →
   (isValid (globalReg s) → globalRegUpToDate s = false →
    registerOf s ≠ globalReg s) →
   ∃ st', syncToMem E (FRIdx i) st = Ok ((), st') ∧
     instrs (a st') =
       instrs (a st) ++
       (if isValid (globalReg s) && negb (globalRegUpToDate s)
        then movInstr (globalReg s) (registerOf s) else []) ++
       [IStoreFrame (registerOf s) (FRIdx i)] ∧
     frameRegs_ st' =
       <[i := set_frameUpToDate true
                (if isValid (globalReg s) && negb (globalRegUpToDate s)
                 then set_globalRegUpToDate true s else s)]> (frameRegs_ st)).
Proof.
  intros Hl. unfold syncToMem.
  rewrite (bind_run _ _ st s st) by (unfold frState; by rewrite Hl).
  split; intros Hf; rewrite Hf; [done|]. intros Hv Hne.
  destruct (isFRInRegister_run i s st Hl) as (st1 & Hr & Hfr1 & Hhw1 & Ha1).
  rewrite (bind_run _ _ _ _ _ Hr).
  apply twp_unit, twp_bind, twp_assert; [by apply Is_true_true|].
  apply twp_bind, twp_when.
  - intros Hg. apply andb_true_iff in Hg as [Hg1 Hg2].
    apply negb_true_iff in Hg2.
    apply twp_bind, twp_assert;
      [apply bool_decide_eq_true, Hne; [by apply Is_true_true|done]|].
    apply twp_bind, twp_movHWReg_false. intros st2 Hfr2 _ _ _ Hi2.
    eapply twp_updFR; [by rewrite Hfr2, Hfr1|].
    unfold _storeHWRegToFrame, _storeFrame. apply twp_bind, twp_emit.
    eapply twp_updFR.
    { simpl. rewrite Hfr2, Hfr1. apply list_lookup_insert_eq.
      by eapply lookup_lt_Some. }
    simpl. rewrite Hi2, Ha1, Hfr2, Hfr1, Hg1, Hg2. simpl.
    rewrite list_insert_insert_eq, <- app_assoc. done.
  - intros Hg. unfold _storeHWRegToFrame, _storeFrame.
    apply twp_bind, twp_emit.
    eapply twp_updFR; [simpl; by rewrite Hfr1|].
    simpl. by rewrite Ha1, Hfr1, Hg.
Qed.

(** ** Encoder range errors *)

Lemma land_high_word (k : Z) (i : Z) :
  0 ≤ k < 2 ^ 32 → i = 2 ∨ i = 3 → Z.land k (Z.shiftl 65535 (16 * i)) = 0.
Proof.
  intros Hk Hi.
  rewrite <- (Z.mod_small k (2 ^ 32)) by lia.
  rewrite <- Z.land_ones by lia. rewrite <- Z.land_assoc.
  destruct Hi as [-> | ->]; apply Z.land_0_r.
Qed.

Lemma isCheapConst_uint32 (k : Z) : 0 ≤ k < 2 ^ 32 → isCheapConst k = true.
Proof.
  intros Hk. unfold isCheapConst. apply bool_decide_eq_true.
  rewrite !filter_cons, filter_nil.
  rewrite (decide_False (P := Z.land k (Z.shiftl 65535 (16 * 2)) ≠ 0))
    by (rewrite land_high_word; auto).
  rewrite (decide_False (P := Z.land k (Z.shiftl 65535 (16 * 3)) ≠ 0))
    by (rewrite land_high_word; auto).
  repeat case_decide; simpl; lia.
Qed.

Lemma tryEmit_expected err i st :
  err ≠ kErrorOk → expectedError_ st = err → tryEmit err i st = Ok (err, st).
Proof.
  intros Hne Hexp. unfold tryEmit, handleError. msimpl.
  rewrite bool_decide_false by done. by rewrite bool_decide_true.
Qed.

Lemma tryEmit_unexpected err i st :
  err ≠ kErrorOk → expectedError_ st ≠ err →
  tryEmit err i st = Err (Fatal "AsmJit error").
Proof.
  intros Hne Hexp. unfold tryEmit, handleError. msimpl.
  rewrite bool_decide_false by done. by rewrite bool_decide_false.
Qed.

Lemma loadParam_cmp_unexpected wTmp p st :
  encodeCmpImm E p ≠ kErrorOk →
  encodeCmpImm E p ≠ kErrorInvalidImmediate →
  loadParam_cmp E wTmp p st = Err (Fatal "AsmJit error").
Proof.
  intros H1 H2. unfold loadParam_cmp, SaveAndRestore. msimpl.
  rewrite tryEmit_unexpected; done.
Qed.

Lemma loadParam_ldur_unexpected hwRes ofs st :
  encodeLdur E ofs ≠ kErrorOk →
  encodeLdur E ofs ≠ kErrorInvalidDisplacement →
  loadParam_ldur E hwRes ofs st = Err (Fatal "AsmJit error").
Proof.
  intros H1 H2. unfold loadParam_ldur, SaveAndRestore. msimpl.
  rewrite tryEmit_unexpected; done.
Qed.

Lemma int32_small z : - 2 ^ 31 ≤ z < 2 ^ 31 → int32 z = z.
Proof. intros H. unfold int32. rewrite Z.mod_small; lia. Qed.

Lemma loadParam_ldur_expected hwRes ofs st :
  encodeLdur E ofs = kErrorInvalidDisplacement →
  - 2 ^ 31 < ofs < 0 →
  ∃ st', loadParam_ldur E hwRes ofs st = Ok ((), st') ∧
    instrs (a st') =
      instrs (a st) ++
      (if bool_decide (- ofs ≤ 4095)
       then [ISubImm (a64GpX hwRes) xFrame (- ofs)]
       else [IMovImm (a64GpX hwRes) (- ofs);
             ISub (a64GpX hwRes) xFrame (a64GpX hwRes)]) ++
      [ILdr (a64GpX hwRes) (a64GpX hwRes) 0] ∧
    frameRegs_ st' = frameRegs_ st ∧ hwRegs_ st' = hwRegs_ st ∧
    gpTemp_ st' = gpTemp_ st ∧ vecTemp_ st' = vecTemp_ st ∧
    expectedError_ st' = expectedError_ st.
Proof.
  intros Herr Hofs. unfold loadParam_ldur, SaveAndRestore. msimpl.
  rewrite tryEmit_expected by (rewrite Herr; done). simpl. rewrite Herr. simpl.
  rewrite int32_small by lia.
  case_bool_decide.
  - unfold emit. msimpl. eexists; split; [done|]. simpl.
    rewrite <- app_assoc. done.
  - unfold loadBits64InGp. rewrite isCheapConst_uint32 by lia.
    unfold emit. msimpl. eexists; split; [done|]. simpl.
    rewrite <- !app_assoc. done.
Qed.

Lemma firstAvail_Some ra k :
  TempRegAlloc.firstAvail ra = Some k →
  TempRegAlloc.avail_ ra !! k = Some true.
Proof.
  unfold TempRegAlloc.firstAvail. intros H.
  apply fmap_Some in H as ([k' b] & Hf & ->).
  apply list_find_Some in Hf as (Hl & -> & _). done.
Qed.

Lemma isTempGpX_pool st k :
  PoolOK E GpX st → (k < length (TempRegAlloc.avail_ (gpTemp_ st)))%nat →
  isTempGpX E (HWGpX (fst (kGPTemp E) + k)) = true.
Proof.
  intros [Hf Hlen] Hk. unfold isTempGpX. simpl in *.
  apply bool_decide_eq_true. lia.
Qed.

Lemma allocTemp_available TAG st k :
  TempRegAlloc.firstAvail (pool TAG st) = Some k →
  let ra := pool TAG st in
  let r := (TempRegAlloc.first_ ra + k)%nat in
  _allocTemp E TAG None st =
    Ok (HWReg_of r TAG,
        with_pool TAG
          (TempRegAlloc.use r
             (TempRegAlloc.mk (TempRegAlloc.first_ ra)
                (<[k := false]> (TempRegAlloc.avail_ ra))
                (TempRegAlloc.lru_ ra))) st).
Proof.
  intros Hk. unfold _allocTemp, ra_alloc, TempRegAlloc.alloc.
  simpl fmap. unfold mbind, M_bind. rewrite Hk. reflexivity.
Qed.

Lemma freeReg_unowned_temp_GpX t st :
  hwRegs_ st !! t = Some FRInvalid →
  isTempGpX E (HWGpX t) = true →
  freeReg E (HWGpX t) st =
    Ok ((), with_gpTemp (TempRegAlloc.free t (gpTemp_ st)) st).
Proof.
  intros Hhw Htmp. unfold freeReg.
  cbn [negb isValid isGpX isVecD indexInClass].
  erewrite bind_run; [|unfold contains; cbn [combinedIndex]; by rewrite Hhw].
  erewrite bind_run;
    [|unfold setContains; erewrite bind_run;
      [|unfold contains; cbn [combinedIndex]; by rewrite Hhw]; reflexivity].
  cbn [FR_isValid combinedIndex]. rewrite Htmp.
  unfold when, mbind, M_bind, mret, M_ret, modify.
  rewrite list_insert_id by done. by destruct st.
Qed.

Lemma loadParam_cmp_expected wTmp p st k :
  encodeCmpImm E p = kErrorInvalidImmediate →
  0 ≤ p < 2 ^ 32 →
  PoolOK E GpX st →
  TempRegAlloc.firstAvail (gpTemp_ st) = Some k →
  hwRegs_ st !! (fst (kGPTemp E) + k)%nat = Some FRInvalid →
  ∃ st', loadParam_cmp E wTmp p st = Ok ((), st') ∧
    instrs (a st') =
      instrs (a st) ++ [IMovImm (W (fst (kGPTemp E) + k)) p;
                        ICmp wTmp (W (fst (kGPTemp E) + k))] ∧
    frameRegs_ st' = frameRegs_ st ∧ hwRegs_ st' = hwRegs_ st ∧
    TempRegAlloc.avail_ (gpTemp_ st') = TempRegAlloc.avail_ (gpTemp_ st) ∧
    vecTemp_ st' = vecTemp_ st ∧
    expectedError_ st' = expectedError_ st.
Proof.
  intros Herr Hp Hpool Hk Hhw.
  pose proof (firstAvail_Some _ _ Hk) as Hav.
  pose proof (isTempGpX_pool st k Hpool (lookup_lt_Some _ _ _ Hav)) as Htmp.
  destruct Hpool as [Hfirst Hlen]. simpl in Hfirst.
  unfold loadParam_cmp, SaveAndRestore.
  apply twp_unit, twp_bind, twp_bind, twp_get, twp_bind, twp_modify.
  apply twp_bind. eapply twp_run.
  { apply tryEmit_expected; [by rewrite Herr|done]. }
  apply twp_bind, twp_modify, twp_ret. rewrite Herr.
  apply twp_when; [intros _|done].
  apply twp_bind. eapply twp_run.
  { unfold allocAndLogTempGpX, allocTempGpX.
    apply (allocTemp_available GpX). exact Hk. }
  simpl pool. rewrite Hfirst.
  unfold loadBits64InGp. rewrite isCheapConst_uint32 by lia.
  apply twp_bind, twp_emit, twp_bind, twp_emit.
  eapply twp_run; [by apply freeReg_unowned_temp_GpX|].
  simpl. rewrite <- app_assoc. split_and!; try done.
  replace (fst (kGPTemp E) + k - fst (kGPTemp E))%nat with k by lia.
  rewrite list_insert_insert_eq. by rewrite list_insert_id.
Qed.

(** C9: in [loadParam], an encoder error that matches the error code expected
    around the emission is recovered locally.  When the compare immediate is
    rejected, a temporary register is allocated, the full constant is loaded
    into it, the compare is emitted between registers and the temporary is
    free again afterwards; when the load displacement is rejected, the address
    is computed by a subtraction (from an immediate, or from the constant
    loaded into the result register) and the load is emitted without
    displacement.  In both cases the expected error code is restored.  Any
    other encoder error ends the compilation with a fatal error. *)
Theorem loadParam_recovers_expected_errors (wTmp : AReg) (hwRes : HWReg)
    (p ofs : Z) (st : Emitter) :
  (encodeCmpImm E p = kErrorInvalidImmediate →
   0 ≤ p < 2 ^ 32 →
   PoolOK E GpX st →
   ∀ k, TempRegAlloc.firstAvail (gpTemp_ st) = Some k →
   hwRegs_ st !! (fst (kGPTemp E) + k)%nat = Some FRInvalid →
   ∃ st', loadParam_cmp E wTmp p st = Ok ((), st') ∧
     instrs (a st') =
       instrs (a st) ++ [IMovImm (W (fst (kGPTemp E) + k)) p;
                         ICmp wTmp (W (fst (kGPTemp E) + k))] ∧
     TempRegAlloc.avail_ (gpTemp_ st') = TempRegAlloc.avail_ (gpTemp_ st) ∧
     frameRegs_ st' = frameRegs_ st ∧
     expectedError_ st' = expectedError_ st) ∧
  (encodeLdur E ofs = kErrorInvalidDisplacement →
   - 2 ^ 31 < ofs < 0 →
   ∃ st', loadParam_ldur E hwRes ofs st = Ok ((), st') ∧
     instrs (a st') =
       instrs (a st) ++
       (if bool_decide (- ofs ≤ 4095)
        then [ISubImm (a64GpX hwRes) xFrame (- ofs)]
        else [IMovImm (a64GpX hwRes) (- ofs);
              ISub (a64GpX hwRes) xFrame (a64GpX hwRes)]) ++
       [ILdr (a64GpX hwRes) (a64GpX hwRes) 0] ∧
     gpTemp_ st' = gpTemp_ st ∧
     frameRegs_ st' = frameRegs_ st ∧
     expectedError_ st' = expectedError_ st) ∧
  (encodeCmpImm E p ≠ kErrorOk →
   encodeCmpImm E p ≠ kErrorInvalidImmediate →
   loadParam_cmp E wTmp p st = Err (Fatal "AsmJit error")) ∧
  (encodeLdur E ofs ≠ kErrorOk →
   encodeLdur E ofs ≠ kErrorInvalidDisplacement →
   loadParam_ldur E hwRes ofs st = Err (Fatal "AsmJit error")).
Proof.
  split_and!.
  - intros Herr Hp Hpool k Hk Hhw.
    destruct (loadParam_cmp_expected wTmp p st k Herr Hp Hpool Hk Hhw)
      as (st' & ? & ? & ? & ? & ? & ? & ?). eauto 10.
  - intros Herr Hofs.
    destruct (loadParam_ldur_expected hwRes ofs st Herr Hofs)
      as (st' & ? & ? & ? & ? & ? & ? & ?). eauto 10.
  - apply loadParam_cmp_unexpected.
  - apply loadParam_ldur_unexpected.
Qed.

(** ** The invariant [Bound] under the updates of the binding state *)

Lemma isAvail_view ra ra' idx :
  TempRegAlloc.first_ ra' = TempRegAlloc.first_ ra →
  TempRegAlloc.avail_ ra' = TempRegAlloc.avail_ ra →
  TempRegAlloc.isAvail ra' idx = TempRegAlloc.isAvail ra idx.
Proof.
  intros H1 H2. unfold TempRegAlloc.isAvail, TempRegAlloc.inRange.
  by rewrite H1, H2.
Qed.

Lemma ownedBy_view st st' i r :
  bindingView st' = bindingView st → ownedBy E st i r → ownedBy E st' i r.
Proof.
  unfold bindingView. intros [= Hf Hh Hg1 Hg2 Hv1 Hv2] (Ht & Hhw & Hav).
  split_and!; [done|by rewrite Hh|].
  rewrite <- Hav. destruct (classOf r); simpl; by apply isAvail_view.
Qed.

Lemma PoolOK_view st st' TAG :
  bindingView st' = bindingView st → PoolOK E TAG st → PoolOK E TAG st'.
Proof.
  unfold bindingView, PoolOK. intros [= Hf Hh Hg1 Hg2 Hv1 Hv2].
  destruct TAG; simpl; by rewrite ?Hg1, ?Hg2, ?Hv1, ?Hv2.
Qed.

Lemma Bound_view st st' :
  bindingView st' = bindingView st → Bound E st → Bound E st'.
Proof.
  intros Hv (Hg & Hvec & Hb). split_and!; [by eapply PoolOK_view..|].
  intros i s Hl.
  assert (frameRegs_ st' = frameRegs_ st) as Hfr by (by injection Hv).
  rewrite Hfr in Hl. destruct (Hb i s Hl) as [H1 H2].
  split; intros Hval; [destruct (H1 Hval)|destruct (H2 Hval)];
    eauto using ownedBy_view.
Qed.

Lemma AuthExcept_frameRegs X st st' :
  frameRegs_ st' = frameRegs_ st → AuthExcept X st → AuthExcept X st'.
Proof. unfold AuthExcept. intros ->. auto. Qed.

Lemma isTemp_index r :
  EnvOK E → isTemp E r → (indexInClass r < 32)%nat.
Proof.
  intros [H1 H2]. unfold isTemp, isTempGpX, isTempVecD.
  destruct r; simpl; [done|..]; rewrite ?orb_false_r; intros H;
    apply bool_decide_unpack in H; lia.
Qed.

Lemma combinedIndex_inj r1 r2 :
  EnvOK E → isTemp E r1 → isTemp E r2 →
  combinedIndex r1 = combinedIndex r2 → r1 = r2.
Proof.
  intros HE H1 H2 Hc.
  pose proof (isTemp_index _ HE H1). pose proof (isTemp_index _ HE H2).
  destruct r1, r2; simpl in *; try done; try (f_equal; lia); lia.
Qed.

Lemma isTemp_valid r : isTemp E r → isValid r.
Proof. by destruct r. Qed.

Lemma isTemp_class r :
  isTemp E r → if isVecD r then isTempVecD E r else isTempGpX E r.
Proof.
  unfold isTemp. destruct r; simpl; try done.
  - by rewrite orb_false_r.
Qed.

(** The local bindings of a frame register, as Bound sees them. *)
Lemma Bound_local st i s TAG :
  Bound E st → frameRegs_ st !! i = Some s → isValid (localOf TAG s) →
  classOf (localOf TAG s) = TAG ∧ ownedBy E st i (localOf TAG s).
Proof.
  intros (_ & _ & Hb) Hl Hv. destruct (Hb i s Hl) as [H1 H2].
  destruct TAG; simpl in *.
  - destruct (H1 Hv) as [Hc Ho]. split; [|done].
    unfold classOf. by destruct (localGpX s).
  - destruct (H2 Hv) as [Hc Ho]. split; [|done].
    unfold classOf. by destruct (localVecD s).
Qed.

Lemma Bound_intro st :
  PoolOK E GpX st → PoolOK E VecD st →
  (∀ i s TAG, frameRegs_ st !! i = Some s → isValid (localOf TAG s) →
     classOf (localOf TAG s) = TAG ∧ ownedBy E st i (localOf TAG s)) →
  Bound E st.
Proof.
  intros Hg Hv H. split_and!; [done..|]. intros i s Hl. split; intros Hval.
  - destruct (H i s GpX Hl Hval) as [Hc Ho]. split; [|done]. simpl in *.
    unfold classOf in Hc. by destruct (localGpX s).
  - destruct (H i s VecD Hl Hval) as [Hc Ho]. split; [|done]. simpl in *.
    unfold classOf in Hc. by destruct (localVecD s).
Qed.

Lemma localOf_set_local_eq TAG v s : localOf TAG (set_local TAG v s) = v.
Proof. by destruct TAG. Qed.
Lemma localOf_set_local_ne TAG TAG' v s :
  TAG ≠ TAG' → localOf TAG' (set_local TAG v s) = localOf TAG' s.
Proof. by destruct TAG, TAG'. Qed.

(** A change of the flags or of the type of one frame register. *)
Lemma Bound_flags st st' i s s' :
  Bound E st → frameRegs_ st !! i = Some s →
  localGpX s' = localGpX s → localVecD s' = localVecD s →
  frameRegs_ st' = <[i := s']> (frameRegs_ st) →
  hwRegs_ st' = hwRegs_ st → gpTemp_ st' = gpTemp_ st →
  vecTemp_ st' = vecTemp_ st →
  Bound E st'.
Proof.
  intros HB Hl Hg Hv Hfr Hhw Hgp Hvec.
  assert (∀ j r, ownedBy E st j r → ownedBy E st' j r) as Hown.
  { intros j r (? & ? & Hav). split_and!; [done|by rewrite Hhw|].
    rewrite <- Hav. destruct (classOf r); simpl; by rewrite ?Hgp, ?Hvec. }
  apply Bound_intro.
  - destruct HB as (H & _). unfold PoolOK in *. simpl in *. by rewrite Hgp.
  - destruct HB as (_ & H & _). unfold PoolOK in *. simpl in *. by rewrite Hvec.
  - intros j sj TAG Hlj Hval. rewrite Hfr in Hlj.
    destruct (decide (i = j)) as [<-|Hne].
    + rewrite list_lookup_insert_eq in Hlj by (by eapply lookup_lt_Some).
      injection Hlj as <-.
      assert (localOf TAG s' = localOf TAG s) as Heq by (by destruct TAG).
      rewrite Heq in *. destruct (Bound_local st i s TAG HB Hl Hval). eauto.
    + rewrite list_lookup_insert_ne in Hlj by done.
      destruct (Bound_local st j sj TAG HB Hlj Hval). eauto.
Qed.

Lemma same_class_index r1 r2 :
  classOf r1 = classOf r2 → isValid r1 → isValid r2 →
  indexInClass r1 = indexInClass r2 → r1 = r2.
Proof. destruct r1, r2; simpl; try done; by intros _ _ _ ->. Qed.

Lemma isAvail_free_other ra idx idx' :
  (TempRegAlloc.first_ ra ≤ idx)%nat → idx ≠ idx' →
  TempRegAlloc.isAvail (TempRegAlloc.free idx ra) idx' =
  TempRegAlloc.isAvail ra idx'.
Proof.
  intros Hle Hne. unfold TempRegAlloc.isAvail, TempRegAlloc.inRange,
    TempRegAlloc.free. simpl. rewrite length_insert.
  case_bool_decide as Hr; simpl; [|done].
  rewrite list_lookup_insert_ne by lia. done.
Qed.

Lemma isTemp_first st r :
  PoolOK E (classOf r) st → isTemp E r →
  (TempRegAlloc.first_ (pool (classOf r) st) ≤ indexInClass r)%nat.
Proof.
  intros [Hf _] Ht. rewrite Hf. apply isTemp_class in Ht.
  unfold classOf. destruct r; simpl in *; [done|..];
    apply andb_prop_elim in Ht as [_ Ht]; apply bool_decide_unpack in Ht;
    simpl in Ht; lia.
Qed.

Lemma Bound_PoolOK st TAG : Bound E st → PoolOK E TAG st.
Proof. intros (? & ? & _). by destruct TAG. Qed.

(** A frame register gives up a local register: its field is cleared, the
    table entry of the register is cleared, and the register either stays
    in use or goes back to its pool. *)
Lemma Bound_clear st st' i s TAG :
  EnvOK E → Bound E st → frameRegs_ st !! i = Some s →
  isValid (localOf TAG s) →
  frameRegs_ st' = <[i := set_local TAG HWInvalid s]> (frameRegs_ st) →
  hwRegs_ st' =
    <[combinedIndex (localOf TAG s) := FRInvalid]> (hwRegs_ st) →
  (pool TAG st' = pool TAG st ∨
   pool TAG st' =
     TempRegAlloc.free (indexInClass (localOf TAG s)) (pool TAG st)) →
  pool (otherClass TAG) st' = pool (otherClass TAG) st →
  Bound E st'.
Proof.
  intros HE HB Hl Hval Hfr Hhw Hpool Hother.
  destruct (Bound_local st i s TAG HB Hl Hval) as [Hcls Hown].
  set (r := localOf TAG s) in *.
  assert (∀ j rj, rj ≠ r → ownedBy E st j rj → ownedBy E st' j rj) as Hkeep.
  { intros j rj Hne (Ht & Hhwj & Hav). split_and!; [done|..].
    - rewrite Hhw. rewrite list_lookup_insert_ne; [done|].
      intros Heq. apply Hne. symmetry.
      apply combinedIndex_inj; [done|by destruct Hown|done|done].
    - destruct (decide (classOf rj = TAG)) as [Hc|Hc].
      + rewrite Hc in *. destruct Hpool as [-> | ->]; [done|].
        rewrite isAvail_free_other; [done| |].
        { rewrite <- Hcls. apply isTemp_first; [|by destruct Hown].
          rewrite Hcls. by apply Bound_PoolOK. }
        intros Hidx. apply Hne.
        apply same_class_index;
          [congruence|by apply isTemp_valid|
           apply isTemp_valid; by destruct Hown|done].
      + assert (classOf rj = otherClass TAG) as Ho by
          (destruct (classOf rj), TAG; done).
        rewrite Ho in *. by rewrite Hother. }
  apply Bound_intro.
  - destruct HB as (H & _). unfold PoolOK in *.
    destruct TAG; simpl in *; [|by rewrite Hother].
    destruct Hpool as [-> | ->]; [done|]. simpl. by rewrite length_insert.
  - destruct HB as (_ & H & _). unfold PoolOK in *.
    destruct TAG; simpl in *; [by rewrite Hother|].
    destruct Hpool as [-> | ->]; [done|]. simpl. by rewrite length_insert.
  - intros j sj TAG' Hlj Hvalj. rewrite Hfr in Hlj.
    destruct (decide (i = j)) as [<-|Hne].
    + rewrite list_lookup_insert_eq in Hlj by (by eapply lookup_lt_Some).
      injection Hlj as <-.
      destruct (decide (TAG = TAG')) as [<-|Hc].
      { by rewrite localOf_set_local_eq in Hvalj. }
      rewrite localOf_set_local_ne in * by done.
      destruct (Bound_local st i s TAG' HB Hl Hvalj) as [Hc' Ho'].
      split; [done|]. apply Hkeep; [|done].
      intros Heq. apply Hc. congruence.
    + rewrite list_lookup_insert_ne in Hlj by done.
      destruct (Bound_local st j sj TAG' HB Hlj Hvalj) as [Hc' Ho'].
      split; [done|]. apply Hkeep; [|done].
      intros Heq. destruct Ho' as (_ & Hh' & _), Hown as (_ & Hh & _).
      rewrite Heq in Hh'. congruence.
Qed.

Lemma alloc_Some pr ra r ra' :
  TempRegAlloc.alloc pr ra = Some (r, ra') →
  ∃ k, r = (TempRegAlloc.first_ ra + k)%nat ∧
       TempRegAlloc.avail_ ra !! k = Some true ∧
       TempRegAlloc.first_ ra' = TempRegAlloc.first_ ra ∧
       TempRegAlloc.avail_ ra' = <[k := false]> (TempRegAlloc.avail_ ra).
Proof.
  unfold TempRegAlloc.alloc.
  destruct (TempRegAlloc.firstAvail ra) as [k|] eqn:Hk; [|done].
  apply firstAvail_Some in Hk.
  destruct pr as [p|]; [destruct (TempRegAlloc.isAvail ra p) eqn:Hp|];
    intros [= <- <-]; simpl; eauto.
  exists (p - TempRegAlloc.first_ ra)%nat.
  unfold TempRegAlloc.isAvail, TempRegAlloc.inRange in Hp.
  apply andb_true_iff in Hp as [Hr Hp]. apply bool_decide_eq_true in Hr.
  destruct (TempRegAlloc.avail_ ra !! (p - _)%nat) as [[]|] eqn:Hl; try done.
Qed.

Lemma alloc_None pr ra :
  TempRegAlloc.alloc pr ra = None → ∀ idx, TempRegAlloc.isAvail ra idx = false.
Proof.
  unfold TempRegAlloc.alloc.
  destruct (TempRegAlloc.firstAvail ra) as [k|] eqn:Hk; [done|]. intros _ idx.
  unfold TempRegAlloc.firstAvail in Hk. apply fmap_None in Hk.
  unfold TempRegAlloc.isAvail.
  destruct (TempRegAlloc.avail_ ra !! _) as [[]|] eqn:Hl; simpl;
    rewrite ?andb_false_r; try done.
  eapply list_find_None in Hk. eapply Forall_lookup_1 in Hk; [|done]. done.
Qed.

Lemma isAvail_insert_false ra ra' k idx :
  TempRegAlloc.first_ ra' = TempRegAlloc.first_ ra →
  TempRegAlloc.avail_ ra' = <[k := false]> (TempRegAlloc.avail_ ra) →
  TempRegAlloc.isAvail ra idx = false → TempRegAlloc.isAvail ra' idx = false.
Proof.
  intros Hf Ha. unfold TempRegAlloc.isAvail, TempRegAlloc.inRange.
  rewrite Hf, Ha, length_insert. intros H.
  apply andb_false_iff in H as [H|H]; [by rewrite H|].
  apply andb_false_iff. right.
  destruct (decide (k = idx - TempRegAlloc.first_ ra)%nat) as [->|Hne].
  - destruct (decide (idx - TempRegAlloc.first_ ra <
                      length (TempRegAlloc.avail_ ra))%nat).
    + by rewrite list_lookup_insert_eq.
    + rewrite list_insert_ge by lia. done.
  - by rewrite list_lookup_insert_ne.
Qed.

Lemma isAvail_insert_false_eq ra ra' k :
  TempRegAlloc.first_ ra' = TempRegAlloc.first_ ra →
  TempRegAlloc.avail_ ra' = <[k := false]> (TempRegAlloc.avail_ ra) →
  TempRegAlloc.isAvail ra' (TempRegAlloc.first_ ra + k) = false.
Proof.
  intros Hf Ha. unfold TempRegAlloc.isAvail, TempRegAlloc.inRange.
  rewrite Hf, Ha, length_insert.
  replace (TempRegAlloc.first_ ra + k - TempRegAlloc.first_ ra)%nat with k
    by lia.
  case_bool_decide; simpl; [|done].
  rewrite list_lookup_insert_eq by lia. done.
Qed.

Lemma isAvail_use ra idx idx' :
  TempRegAlloc.isAvail (TempRegAlloc.use idx ra) idx' =
  TempRegAlloc.isAvail ra idx'.
Proof. done. Qed.

(** The pool of one class changes; nothing that is in use becomes
    available. *)
Lemma Bound_pool st st' TAG :
  Bound E st →
  frameRegs_ st' = frameRegs_ st → hwRegs_ st' = hwRegs_ st →
  pool (otherClass TAG) st' = pool (otherClass TAG) st →
  TempRegAlloc.first_ (pool TAG st') = TempRegAlloc.first_ (pool TAG st) →
  length (TempRegAlloc.avail_ (pool TAG st')) =
    length (TempRegAlloc.avail_ (pool TAG st)) →
  (∀ j s, frameRegs_ st !! j = Some s → isValid (localOf TAG s) →
     TempRegAlloc.isAvail (pool TAG st') (indexInClass (localOf TAG s)) =
       false) →
  Bound E st'.
Proof.
  intros HB Hfr Hhw Hother Hf Hlen Hav.
  apply Bound_intro.
  - pose proof (Bound_PoolOK _ GpX HB) as H. unfold PoolOK in *.
    destruct TAG; simpl in *; [by rewrite Hf, Hlen|by rewrite Hother].
  - pose proof (Bound_PoolOK _ VecD HB) as H. unfold PoolOK in *.
    destruct TAG; simpl in *; [by rewrite Hother|by rewrite Hf, Hlen].
  - intros j s TAG' Hl Hval. rewrite Hfr in Hl.
    destruct (Bound_local st j s TAG' HB Hl Hval) as [Hc (Ht & Hh & Ha)].
    split; [done|]. split_and!; [done|by rewrite Hhw|].
    rewrite Hc in *. destruct (decide (TAG' = TAG)) as [->|Hne]; [by eauto|].
    assert (TAG' = otherClass TAG) as -> by (by destruct TAG, TAG').
    by rewrite Hother.
Qed.

Lemma Bound_avail_not_local st TAG idx j s :
  Bound E st → TempRegAlloc.isAvail (pool TAG st) idx = true →
  frameRegs_ st !! j = Some s → localOf TAG s ≠ HWReg_of idx TAG.
Proof.
  intros HB Hav Hl Heq.
  assert (isValid (localOf TAG s)) as Hval by (rewrite Heq; by destruct TAG).
  destruct (Bound_local st j s TAG HB Hl Hval) as [Hc (_ & _ & Ha)].
  rewrite Hc, Heq in Ha. destruct TAG; simpl in *; congruence.
Qed.

(** A register in use that no frame register has as local register becomes
    the local register of frame register [i]. *)
Lemma Bound_assign st st' i s r :
  EnvOK E → Bound E st → frameRegs_ st !! i = Some s → isTemp E r →
  TempRegAlloc.isAvail (pool (classOf r) st) (indexInClass r) = false →
  (∀ j sj, frameRegs_ st !! j = Some sj → localOf (classOf r) sj ≠ r) →
  frameRegs_ st' = <[i := set_local (classOf r) r s]> (frameRegs_ st) →
  hwRegs_ st' = <[combinedIndex r := FRIdx i]> (hwRegs_ st) →
  (combinedIndex r < length (hwRegs_ st))%nat →
  gpTemp_ st' = gpTemp_ st → vecTemp_ st' = vecTemp_ st →
  Bound E st'.
Proof.
  intros HE HB Hl Ht Hav Hfree Hfr Hhw Hlen Hgp Hvec.
  assert (∀ TAG, pool TAG st' = pool TAG st) as Hpool
    by (by intros []; simpl).
  assert (∀ j rj, rj ≠ r → ownedBy E st j rj → ownedBy E st' j rj) as Hkeep.
  { intros j rj Hne (Htj & Hhwj & Havj). split_and!; [done|..].
    - rewrite Hhw. rewrite list_lookup_insert_ne; [done|].
      intros Heq. apply Hne. symmetry. by apply combinedIndex_inj.
    - by rewrite Hpool. }
  apply Bound_intro.
  - pose proof (Bound_PoolOK _ GpX HB) as H. unfold PoolOK in *.
    simpl in *. by rewrite Hgp.
  - pose proof (Bound_PoolOK _ VecD HB) as H. unfold PoolOK in *.
    simpl in *. by rewrite Hvec.
  - intros j sj TAG Hlj Hval. rewrite Hfr in Hlj.
    destruct (decide (i = j)) as [<-|Hne].
    + rewrite list_lookup_insert_eq in Hlj by (by eapply lookup_lt_Some).
      injection Hlj as <-.
      destruct (decide (classOf r = TAG)) as [<-|Hc].
      * rewrite localOf_set_local_eq. split; [done|].
        split_and!; [done|..].
        -- rewrite Hhw. by rewrite list_lookup_insert_eq.
        -- by rewrite Hpool.
      * rewrite localOf_set_local_ne in * by done.
        destruct (Bound_local st i s TAG HB Hl Hval) as [Hc' Ho'].
        split; [done|]. apply Hkeep; [|done]. intros Heq. congruence.
    + rewrite list_lookup_insert_ne in Hlj by done.
      destruct (Bound_local st j sj TAG HB Hlj Hval) as [Hc' Ho'].
      split; [done|]. apply Hkeep; [|done].
      intros Heq. apply (Hfree j sj Hlj).
      assert (classOf r = TAG) as -> by (by rewrite <- Heq). done.
Qed.

(** ** The member functions of the binding manager, one by one *)

Lemma emitAll_nil st : emitAll [] st = st.
Proof. unfold emitAll. rewrite app_nil_r. by destruct st as [? ? ? ? []]. Qed.

Lemma movHWReg_false_run dst src st :
  movHWReg E false dst src st = Ok ((), emitAll (movInstr dst src) st).
Proof.
  unfold movHWReg, movInstr. msimpl. unfold emit. msimpl.
  case_bool_decide; simpl.
  - by repeat (destruct (isVecD _); simpl).
  - by rewrite emitAll_nil.
Qed.

Lemma wp_movHWReg_false dst src (Q : unit → Emitter → Prop) st :
  Q () (emitAll (movInstr dst src) st) → wp (movHWReg E false dst src) Q st.
Proof. intros H x st'. rewrite movHWReg_false_run. by intros [= <- <-]. Qed.

Lemma set_flag_id s :
  (globalRegUpToDate s = true → set_globalRegUpToDate true s = s) ∧
  (frameUpToDate s = true → set_frameUpToDate true s = s) ∧
  (localGpX s = HWInvalid → set_localGpX HWInvalid s = s) ∧
  (localVecD s = HWInvalid → set_localVecD HWInvalid s = s).
Proof. destruct s; simpl; split_and!; by intros ->. Qed.

Lemma not_valid_invalid r : isValid r = false → r = HWInvalid.
Proof. by destruct r. Qed.

Lemma spillFlags_locals s TAG :
  localOf TAG (spillFlags s) = localOf TAG s.
Proof. unfold spillFlags. by destruct (isValid (globalReg s)), TAG. Qed.

(** The local register that [spillTempReg] clears is the one of the class
    of the spilled register. *)
Lemma spill_clears_own_class st i s r (Q : unit → Emitter → Prop) st2 :
  Bound E st → frameRegs_ st !! i = Some s → isValid r →
  frameRegs_ st2 !! i = Some (spillFlags s) →
  (localOf (classOf r) s = r →
   Q () (with_frameRegs
           (<[i := set_local (classOf r) HWInvalid (spillFlags s)]>
              (frameRegs_ st2)) st2)) →
  wp (if bool_decide (localGpX (spillFlags s) = r)
      then updFR (FRIdx i) (set_localGpX HWInvalid)
      else if bool_decide (localVecD (spillFlags s) = r)
           then updFR (FRIdx i) (set_localVecD HWInvalid)
           else assert false "local reg not used by FR") Q st2.
Proof.
  intros HB Hl Hrv Hl2 HQ.
  pose proof (spillFlags_locals s GpX) as HG.
  pose proof (spillFlags_locals s VecD) as HV. simpl in HG, HV.
  rewrite HG, HV.
  case_bool_decide as H1; [|case_bool_decide as H2].
  - assert (isValid (localOf GpX s)) as Hv by (simpl; by rewrite H1).
    destruct (Bound_local st i s GpX HB Hl Hv) as [Hc _].
    simpl in Hc. rewrite H1 in Hc. rewrite Hc in HQ.
    apply wp_updFR. intros ? s2 [= <-] Hs2. rewrite Hl2 in Hs2.
    injection Hs2 as <-. by apply HQ.
  - assert (isValid (localOf VecD s)) as Hv by (simpl; by rewrite H2).
    destruct (Bound_local st i s VecD HB Hl Hv) as [Hc _].
    simpl in Hc. rewrite H2 in Hc. rewrite Hc in HQ.
    apply wp_updFR. intros ? s2 [= <-] Hs2. rewrite Hl2 in Hs2.
    injection Hs2 as <-. by apply HQ.
  - by apply wp_assert.
Qed.

Lemma spillTempReg_spec r st :
  EnvOK E → Bound E st →
  wp (spillTempReg E r)
    (λ _ st',
       ∃ i s, hwRegs_ st !! combinedIndex r = Some (FRIdx i) ∧
              frameRegs_ st !! i = Some s ∧ localOf (classOf r) s = r ∧
              isTemp E r ∧
              frameRegs_ st' =
                <[i := set_local (classOf r) HWInvalid (spillFlags s)]>
                  (frameRegs_ st) ∧
              hwRegs_ st' = <[combinedIndex r := FRInvalid]> (hwRegs_ st) ∧
              gpTemp_ st' = gpTemp_ st ∧ vecTemp_ st' = vecTemp_ st ∧
              instrs (a st') = instrs (a st) ++ spillInstrs r i s ∧
              Bound E st') st.
Proof.
  intros HE HB. unfold spillTempReg.
  apply wp_bind, wp_assert. intros Htmp%Is_true_true.
  apply wp_bind, wp_contains. intros fr Hfr.
  apply wp_bind, wp_setContains. intros _ _.
  apply wp_bind, wp_assert. intros Hvalid.
  destruct fr as [|i]; [done|].
  apply wp_bind, wp_frState. intros i' s [= <-] Hl. simpl in Hl.
  apply wp_bind, wp_assert. intros Hng%bool_decide_eq_true.
  set (st1 := with_hwRegs (<[combinedIndex r:=FRInvalid]> (hwRegs_ st)) st).
  (* the state once the fallback location has been written *)
  apply wp_bind.
  apply wp_mono with
    (Q := λ _ st2, frameRegs_ st2 = <[i := spillFlags s]> (frameRegs_ st) ∧
                   hwRegs_ st2 = hwRegs_ st1 ∧ gpTemp_ st2 = gpTemp_ st ∧
                   vecTemp_ st2 = vecTemp_ st ∧
                   instrs (a st2) = instrs (a st) ++ spillInstrs r i s).
  { unfold spillFlags, spillInstrs.
    destruct (isValid (globalReg s)).
    - apply wp_when.
      + intros Hg%negb_true_iff. rewrite Hg.
        apply wp_bind, wp_movHWReg_false.
        apply wp_updFR. intros ? s2 [= <-] Hl2. simpl in *.
        rewrite Hl in Hl2. by injection Hl2 as <-.
      + intros Hg%negb_false_iff. rewrite Hg. simpl.
        rewrite (proj1 (set_flag_id s) Hg), list_insert_id, app_nil_r; done.
    - apply wp_when.
      + intros Hg%negb_true_iff. rewrite Hg.
        unfold _storeHWRegToFrame, _storeFrame.
        apply wp_bind, wp_bind, wp_emit.
        apply wp_updFR. intros ? s2 [= <-] Hl2.
        apply wp_updFR. intros ? s3 [= <-] Hl3. simpl in *.
        rewrite Hl in Hl2. injection Hl2 as <-.
        rewrite list_lookup_insert_eq in Hl3 by (by eapply lookup_lt_Some).
        injection Hl3 as <-. rewrite list_insert_insert_eq. done.
      + intros Hg%negb_false_iff. rewrite Hg. simpl.
        rewrite (proj1 (proj2 (set_flag_id s)) Hg), list_insert_id,
          app_nil_r; done. }
  intros ? st2 (Hfr2 & Hhw2 & Hgp2 & Hvec2 & Hi2).
  assert (frameRegs_ st2 !! i = Some (spillFlags s)) as Hl2.
  { rewrite Hfr2. apply list_lookup_insert_eq. by eapply lookup_lt_Some. }
  assert (isValid r) as Hrv by (by apply isTemp_valid).
  apply wp_bind, wp_frState. intros ? s2 [= <-] Hl2'.
  rewrite Hl2 in Hl2'. injection Hl2' as <-.
  eapply spill_clears_own_class; [done..|]. intros Hloc.
  exists i, s. simpl. rewrite Hfr2, list_insert_insert_eq.
  split_and!; try done.
  (* the invariant: first the flags, then the cleared binding *)
  assert (Bound E (with_frameRegs (<[i := spillFlags s]> (frameRegs_ st)) st))
    as HB1.
  { apply (Bound_flags st _ i s (spillFlags s)); try done;
      [apply (spillFlags_locals s GpX)|apply (spillFlags_locals s VecD)]. }
  eapply (Bound_clear _ _ i (spillFlags s) (classOf r)); [done|exact HB1|..].
  - simpl. apply list_lookup_insert_eq. by eapply lookup_lt_Some.
  - by rewrite spillFlags_locals, Hloc.
  - simpl. by rewrite !list_insert_insert_eq.
  - simpl. by rewrite spillFlags_locals, Hloc, Hhw2.
  - left. by destruct (classOf r); simpl.
  - by destruct (classOf r); simpl.
Qed.

Lemma wp_freeReg r (Q : unit → Emitter → Prop) st :
  EnvOK E → Bound E st →
  (isValid r = false → Q () st) →
  (∀ st', isValid r → hwRegs_ st !! combinedIndex r = Some FRInvalid →
          frameRegs_ st' = frameRegs_ st → a st' = a st → Bound E st' →
          Q () st') →
  (∀ st' i s, isValid r → hwRegs_ st !! combinedIndex r = Some (FRIdx i) →
          frameRegs_ st !! i = Some s → localOf (classOf r) s = r →
          frameRegs_ st' =
            <[i := set_local (classOf r) HWInvalid s]> (frameRegs_ st) →
          a st' = a st → Bound E st' → Q () st') →
  wp (freeReg E r) Q st.
Proof.
  intros HE HB Hinv Hunowned Howned. unfold freeReg.
  destruct (isValid r) eqn:Hv; simpl; [|by apply wp_ret, Hinv].
  apply wp_bind, wp_contains. intros fr Hfr.
  apply wp_bind, wp_setContains. intros _ _.
  set (st1 := with_hwRegs (<[combinedIndex r:=FRInvalid]> (hwRegs_ st)) st).
  (* both classes run the same code on their own field and pool *)
  assert (∀ TAG msg, classOf r = TAG →
    wp ((if FR_isValid fr
         then s ← frState fr;
              assert (bool_decide (localOf TAG s = r)) msg ;;
              updFR fr (set_local TAG HWInvalid)
         else mret ()) ;;
        when (match TAG with GpX => isTempGpX E r | VecD => isTempVecD E r end)
          (modify (λ st, with_pool TAG
                     (TempRegAlloc.free (indexInClass r) (pool TAG st)) st)))
       Q st1) as Hgen.
  { intros TAG msg Hc. apply wp_bind.
    destruct fr as [|i]; simpl.
    - (* nobody owns the register *)
      assert (st1 = st) as ->.
      { unfold st1. rewrite list_insert_id by done. by destruct st. }
      apply wp_ret. apply wp_when.
      + intros Ht. apply wp_modify.
        apply Hunowned; [done|done|by destruct TAG|by destruct TAG|].
        apply (Bound_pool st _ TAG);
          [done|by destruct TAG|by destruct TAG|by destruct TAG|
           by destruct TAG|destruct TAG; simpl; by rewrite length_insert|].
        intros j s Hl Hval.
          destruct (Bound_local st j s TAG HB Hl Hval) as [Hc' (Ht' & Hh & Ha)].
          rewrite Hc' in Ha.
          assert (localOf TAG s ≠ r) as Hne by (intros Heq; congruence).
          assert (indexInClass r ≠ indexInClass (localOf TAG s)) as Hidx.
          { intros Heq. apply Hne. apply same_class_index; try done.
            - congruence.
            - by rewrite Hv. }
          assert (pool TAG (with_pool TAG
                    (TempRegAlloc.free (indexInClass r) (pool TAG st)) st)
                  = TempRegAlloc.free (indexInClass r) (pool TAG st)) as ->
            by (by destruct TAG).
          rewrite isAvail_free_other; [done| |done].
          rewrite <- Hc. apply isTemp_first.
          -- rewrite Hc. by apply Bound_PoolOK.
          -- unfold isTemp. destruct TAG; rewrite Ht; [done|].
             by rewrite orb_true_r.
      + intros Ht. by apply Hunowned.
    - (* frame register [i] owns the register *)
      apply wp_bind, wp_frState. intros ? s [= <-] Hl.
      apply wp_bind, wp_assert. intros Hloc%bool_decide_eq_true.
      apply wp_updFR. intros ? s' [= <-] Hl'. simpl in Hl, Hl'.
      rewrite Hl in Hl'. injection Hl' as <-.
      assert (isValid (localOf TAG s)) as Hval by (by rewrite Hloc, Hv).
      destruct (Bound_local st i s TAG HB Hl Hval) as [Hc' (Ht' & Hh & Ha)].
      rewrite Hloc in Ht'.
      assert ((match TAG with GpX => isTempGpX E r | VecD => isTempVecD E r end)
              = true) as ->.
      { apply isTemp_class in Ht'. unfold classOf in Hc.
        destruct (isVecD r), TAG; try done; by apply Is_true_true. }
      simpl. apply wp_modify. rewrite <- Hc in *.
      apply (Howned _ i s);
        [done|done|done|done|by destruct (classOf r)|by destruct (classOf r)|].
      apply (Bound_clear st _ i s (classOf r)); [done|done|done|exact Hval|..].
      + by destruct (classOf r).
      + rewrite Hloc. by destruct (classOf r).
      + right. rewrite Hloc. by destruct (classOf r).
      + by destruct (classOf r). }
  destruct r as [|k|k]; [done|..].
  - exact (Hgen GpX _ eq_refl).
  - exact (Hgen VecD _ eq_refl).
Qed.

Lemma wp_freeFRTemp fr (Q : unit → Emitter → Prop) st :
  EnvOK E → Bound E st →
  (∀ st' i s, fr = FRIdx i → frameRegs_ st !! i = Some s →
     frameRegs_ st' =
       <[i := set_localVecD HWInvalid (set_localGpX HWInvalid s)]>
         (frameRegs_ st) →
     a st' = a st → Bound E st' → Q () st') →
  wp (freeFRTemp E fr) Q st.
Proof.
  intros HE HB HQ. unfold freeFRTemp.
  apply wp_bind, wp_frState. intros i s -> Hl.
  apply wp_bind.
  apply wp_mono with
    (Q := λ _ st1, frameRegs_ st1 =
                     <[i := set_localGpX HWInvalid s]> (frameRegs_ st) ∧
                   a st1 = a st ∧ Bound E st1).
  { apply wp_when.
    - intros Hv%Is_true_true. apply wp_bind, wp_assert. intros _.
      apply wp_bind, wp_setContains. intros _ _.
      apply wp_bind, wp_modify.
      apply wp_updFR. intros ? s' [= <-] Hl'. simpl in Hl'.
      rewrite Hl in Hl'. injection Hl' as <-. simpl.
      split_and!; [done..|].
      apply (Bound_clear st _ i s GpX); try done. by right.
    - intros Hv%not_valid_invalid.
      rewrite (proj1 (proj2 (proj2 (set_flag_id s))) Hv).
      by rewrite list_insert_id. }
  intros ? st1 (Hfr1 & Ha1 & HB1).
  assert (frameRegs_ st1 !! i = Some (set_localGpX HWInvalid s)) as Hl1.
  { rewrite Hfr1. apply list_lookup_insert_eq. by eapply lookup_lt_Some. }
  apply wp_bind, wp_frState. intros ? s1 [= <-] Hl1'.
  rewrite Hl1 in Hl1'. injection Hl1' as <-.
  apply wp_when.
  - intros Hv%Is_true_true. apply wp_bind, wp_assert. intros _.
    apply wp_bind, wp_setContains. intros _ _.
    apply wp_bind, wp_modify.
    apply wp_updFR. intros ? s' [= <-] Hl'. simpl in Hl'.
    rewrite Hl1 in Hl'. injection Hl' as <-.
    apply (HQ _ i s); [done|done|..].
    + simpl. by rewrite Hfr1, list_insert_insert_eq.
    + done.
    + apply (Bound_clear st1 _ i (set_localGpX HWInvalid s) VecD); try done.
      by right.
  - intros Hv%not_valid_invalid. simpl in Hv.
    apply (HQ _ i s); [done|done| |done|done].
    rewrite Hfr1. f_equal. destruct s; simpl in *. by rewrite Hv.
Qed.

Lemma wp_assignAllocatedLocalHWReg fr r (Q : unit → Emitter → Prop) st :
  EnvOK E → Bound E st → isTemp E r →
  TempRegAlloc.isAvail (pool (classOf r) st) (indexInClass r) = false →
  (∀ j sj, frameRegs_ st !! j = Some sj → localOf (classOf r) sj ≠ r) →
  (∀ st' i s, fr = FRIdx i → frameRegs_ st !! i = Some s →
     frameRegs_ st' = <[i := set_local (classOf r) r s]> (frameRegs_ st) →
     a st' = a st → Bound E st' → Q () st') →
  wp (assignAllocatedLocalHWReg fr r) Q st.
Proof.
  intros HE HB Ht Hav Hfree HQ. unfold assignAllocatedLocalHWReg.
  apply wp_bind, wp_setContains. intros old Hold.
  assert (wp (updFR fr (set_local (classOf r) r)) Q
            (with_hwRegs (<[combinedIndex r:=fr]> (hwRegs_ st)) st)) as H.
  { apply wp_updFR. intros i s -> Hl. simpl in Hl.
    apply (HQ _ i s); [done..|].
    apply (Bound_assign st _ i s r); try done.
    by eapply lookup_lt_Some. }
  unfold classOf in H. destruct r; [done|exact H|exact H].
Qed.

Lemma classOf_HWReg_of idx TAG : classOf (HWReg_of idx TAG) = TAG.
Proof. by destruct TAG. Qed.
Lemma indexInClass_HWReg_of idx TAG : indexInClass (HWReg_of idx TAG) = idx.
Proof. by destruct TAG. Qed.
Lemma isValid_HWReg_of idx TAG : isValid (HWReg_of idx TAG).
Proof. by destruct TAG. Qed.

Lemma isTemp_HWReg_of st TAG k :
  PoolOK E TAG st →
  (k < length (TempRegAlloc.avail_ (pool TAG st)))%nat →
  isTemp E (HWReg_of (TempRegAlloc.first_ (pool TAG st) + k) TAG).
Proof.
  intros [Hf Hlen] Hk. rewrite Hf. apply Is_true_true.
  unfold isTemp, isTempGpX, isTempVecD.
  destruct TAG; simpl in *; rewrite ?orb_false_r;
    apply bool_decide_eq_true; lia.
Qed.

Lemma Bound_free_unbound st TAG idx :
  Bound E st → isTemp E (HWReg_of idx TAG) →
  (∀ j sj, frameRegs_ st !! j = Some sj → localOf TAG sj ≠ HWReg_of idx TAG) →
  Bound E (with_pool TAG (TempRegAlloc.free idx (pool TAG st)) st).
Proof.
  intros HB Ht Hfree.
  apply (Bound_pool st _ TAG);
    [done|by destruct TAG|by destruct TAG|by destruct TAG|by destruct TAG|
     destruct TAG; simpl; by rewrite length_insert|].
  intros j s Hl Hval.
  destruct (Bound_local st j s TAG HB Hl Hval) as [Hc (Ht' & Hh & Ha)].
  rewrite Hc in Ha.
  assert (pool TAG (with_pool TAG (TempRegAlloc.free idx (pool TAG st)) st)
          = TempRegAlloc.free idx (pool TAG st)) as -> by (by destruct TAG).
  rewrite isAvail_free_other; [done|..].
  - pose proof (isTemp_first st (HWReg_of idx TAG)) as H.
    rewrite classOf_HWReg_of, indexInClass_HWReg_of in H.
    apply H; [by apply Bound_PoolOK|done].
  - intros Heq. apply (Hfree j s Hl).
    apply same_class_index.
    + by rewrite classOf_HWReg_of.
    + done.
    + apply isValid_HWReg_of.
    + by rewrite indexInClass_HWReg_of.
Qed.

Lemma wp_ra_alloc TAG pr (Q : option nat → Emitter → Prop) st :
  Bound E st →
  ((∀ idx, TempRegAlloc.isAvail (pool TAG st) idx = false) → Q None st) →
  (∀ r st', isTemp E (HWReg_of r TAG) →
     TempRegAlloc.isAvail (pool TAG st') r = false →
     (∀ j sj, frameRegs_ st' !! j = Some sj → localOf TAG sj ≠ HWReg_of r TAG) →
     frameRegs_ st' = frameRegs_ st → hwRegs_ st' = hwRegs_ st →
     a st' = a st → Bound E st' → Q (Some r) st') →
  wp (ra_alloc TAG pr) Q st.
Proof.
  intros HB Hnone Hsome o st'. unfold ra_alloc.
  destruct (TempRegAlloc.alloc pr (pool TAG st)) as [[r ra']|] eqn:Ha.
  - intros [= <- <-].
    destruct (alloc_Some _ _ _ _ Ha) as (k & -> & Hk & Hf & Hav).
    assert (pool TAG (with_pool TAG ra' st) = ra') as Hp by (by destruct TAG).
    apply Hsome.
    + apply isTemp_HWReg_of; [by apply Bound_PoolOK|by eapply lookup_lt_Some].
    + rewrite Hp. by apply isAvail_insert_false_eq.
    + intros j sj Hl. assert (frameRegs_ (with_pool TAG ra' st) = frameRegs_ st)
        as Hfr by (by destruct TAG). rewrite Hfr in Hl.
      eapply Bound_avail_not_local; [done| |done].
      unfold TempRegAlloc.isAvail, TempRegAlloc.inRange.
      replace (TempRegAlloc.first_ (pool TAG st) + k -
               TempRegAlloc.first_ (pool TAG st))%nat with k by lia.
      rewrite Hk. simpl. rewrite andb_true_r. apply bool_decide_eq_true.
      apply lookup_lt_Some in Hk. lia.
    + by destruct TAG.
    + by destruct TAG.
    + by destruct TAG.
    + apply (Bound_pool st _ TAG);
        [done|by destruct TAG|by destruct TAG|by destruct TAG|
         by rewrite Hp|by rewrite Hp, Hav, length_insert|].
      intros j s Hl Hval. rewrite Hp.
      destruct (Bound_local st j s TAG HB Hl Hval) as [Hc (_ & _ & Ha')].
      rewrite Hc in Ha'. by eapply isAvail_insert_false.
  - intros [= <- <-]. apply Hnone. by eapply alloc_None.
Qed.

Lemma wp_allocTemp TAG pr (Q : HWReg → Emitter → Prop) st :
  EnvOK E → Bound E st →
  (∀ hw st', isTemp E hw → classOf hw = TAG →
     TempRegAlloc.isAvail (pool TAG st') (indexInClass hw) = false →
     (∀ j sj, frameRegs_ st' !! j = Some sj → localOf TAG sj ≠ hw) →
     allocEffect E TAG st st' → Bound E st' → Q hw st') →
  wp (_allocTemp E TAG pr) Q st.
Proof.
  intros HE HB HQ. unfold _allocTemp.
  apply wp_bind, wp_ra_alloc; [done|..].
  - (* the pool is exhausted: spill one register *)
    intros Hfull. apply wp_bind, wp_get.
    destruct (match indexInClass <$> pr with
              | Some p => Some p
              | None => TempRegAlloc.leastRecentlyUsed (pool TAG st)
              end) as [index|]; [|apply wp_fail].
    apply wp_bind.
    eapply wp_mono; [by apply spillTempReg_spec|].
    intros ? st1 (i & s & Hhw & Hl & Hloc & Ht & Hfr1 & Hhw1 & Hgp1 & Hvec1
                  & Hi1 & HB1).
    rewrite classOf_HWReg_of in *.
    assert (∀ j sj, frameRegs_ st1 !! j = Some sj →
                    localOf TAG sj ≠ HWReg_of index TAG) as Hnone.
    { intros j sj Hlj Heq.
      assert (isValid (localOf TAG sj)) as Hv
        by (rewrite Heq; apply isValid_HWReg_of).
      destruct (Bound_local st1 j sj TAG HB1 Hlj Hv) as [_ (_ & Hh & _)].
      rewrite Heq, Hhw1 in Hh.
      rewrite list_lookup_insert_eq in Hh by (by eapply lookup_lt_Some).
      done. }
    apply wp_bind, wp_modify.
    pose proof (Bound_free_unbound st1 TAG index HB1 Ht Hnone) as HB2.
    apply wp_bind, wp_ra_alloc; [done|intros _; apply wp_fail|].
    intros r st3 Ht3 Hav3 Hfree3 Hfr3 Hhw3 Ha3 HB3.
    apply wp_ret. apply HQ; try done.
    + apply classOf_HWReg_of.
    + by rewrite indexInClass_HWReg_of.
    + right. exists (HWReg_of index TAG), i, s.
      rewrite classOf_HWReg_of.
      split_and!; try done.
      * rewrite Hfr3. by destruct TAG.
      * rewrite Ha3. by destruct TAG.
  - intros r st1 Ht1 Hav1 Hfree1 Hfr1 Hhw1 Ha1 HB1.
    apply wp_ret. apply HQ; try done.
    + apply classOf_HWReg_of.
    + by rewrite indexInClass_HWReg_of.
    + left. by rewrite Ha1.
Qed.

Lemma wp_freeReg_local i s TAG (Q : unit → Emitter → Prop) st :
  EnvOK E → Bound E st → frameRegs_ st !! i = Some s →
  (∀ st', frameRegs_ st' = <[i := set_local TAG HWInvalid s]> (frameRegs_ st) →
          a st' = a st → Bound E st' → Q () st') →
  wp (freeReg E (localOf TAG s)) Q st.
Proof.
  intros HE HB Hl HQ. apply wp_freeReg; [done|done|..].
  - intros Hv%not_valid_invalid. apply HQ; [|done|done].
    rewrite list_insert_id; [done|]. rewrite Hl. f_equal.
    destruct TAG, s; simpl in *; by rewrite Hv.
  - intros st' Hv Hhw _ _ _.
    destruct (Bound_local st i s TAG HB Hl Hv) as [_ (_ & Hh & _)]. congruence.
  - intros st' j sj Hv Hhw Hlj Hloc Hfr Ha HB'.
    destruct (Bound_local st i s TAG HB Hl Hv) as [Hc (_ & Hh & _)].
    assert (j = i) as -> by congruence.
    assert (sj = s) as -> by congruence.
    rewrite Hc in Hfr. by apply HQ.
Qed.

Lemma wp_frUpdatedWithHWReg fr hwReg ty (Q : unit → Emitter → Prop) st :
  EnvOK E → Bound E st →
  (∀ st' i s, fr = FRIdx i → frameRegs_ st !! i = Some s →
     globalReg s = hwReg ∨ hwReg = localGpX s ∨ hwReg = localVecD s →
     frameRegs_ st' = <[i := updatedWith hwReg ty s]> (frameRegs_ st) →
     a st' = a st → Bound E st' → Q () st') →
  wp (frUpdatedWithHWReg E fr hwReg ty) Q st.
Proof.
  intros HE HB HQ. unfold frUpdatedWithHWReg.
  apply wp_bind, wp_updFR. intros i s0 -> Hl0.
  set (st1 := with_frameRegs _ st).
  assert (Bound E st1) as HB1
    by (by apply (Bound_flags st _ i s0 (set_frameUpToDate false s0))).
  assert (frameRegs_ st1 !! i = Some (set_frameUpToDate false s0)) as Hl1.
  { simpl. apply list_lookup_insert_eq. by eapply lookup_lt_Some. }
  apply wp_bind, wp_frState. intros ? s [= <-] Hl1'.
  rewrite Hl1 in Hl1'. injection Hl1' as <-.
  (* the flags and bindings, before the type *)
  apply wp_bind.
  apply wp_mono with
    (Q := λ _ st2, frameRegs_ st2 =
                     <[i := updatedWith hwReg None s0]> (frameRegs_ st) ∧
                   a st2 = a st ∧ Bound E st2 ∧
                   (globalReg s0 = hwReg ∨ hwReg = localGpX s0 ∨
                    hwReg = localVecD s0)).
  2:{ intros ? st2 (Hfr2 & Ha2 & HB2 & Hreg). destruct ty as [t|].
      - apply wp_updFR. intros ? s2 [= <-] Hl2.
        rewrite Hfr2, list_lookup_insert_eq in Hl2
          by (by eapply lookup_lt_Some).
        injection Hl2 as <-.
        apply (HQ _ i s0); [done|done|done| |done|].
        + simpl. by rewrite Hfr2, list_insert_insert_eq.
        + apply (Bound_flags st2 _ i (updatedWith hwReg None s0)
                   (set_localType t (updatedWith hwReg None s0)));
            try done.
          rewrite Hfr2. apply list_lookup_insert_eq. by eapply lookup_lt_Some.
      - apply wp_ret. by apply (HQ _ i s0). }
  unfold updatedWith. simpl globalReg. simpl localGpX. simpl localVecD.
  case_bool_decide as Hg.
  - apply wp_bind, wp_updFR. intros ? s1 [= <-] Hl1'.
    rewrite Hl1 in Hl1'. injection Hl1' as <-.
    set (s2 := set_globalRegUpToDate true (set_frameUpToDate false s0)).
    set (st2 := with_frameRegs _ st1).
    assert (frameRegs_ st2 = <[i := s2]> (frameRegs_ st)) as Hfr2.
    { simpl. by rewrite list_insert_insert_eq. }
    assert (Bound E st2) as HB2.
    { apply (Bound_flags st1 _ i (set_frameUpToDate false s0) s2); done. }
    assert (frameRegs_ st2 !! i = Some s2) as Hl2.
    { rewrite Hfr2. apply list_lookup_insert_eq. by eapply lookup_lt_Some. }
    apply wp_bind.
    apply wp_mono with
      (Q := λ _ st3, frameRegs_ st3 =
                       <[i := set_localGpX HWInvalid s2]> (frameRegs_ st) ∧
                     a st3 = a st ∧ Bound E st3).
    { apply wp_when.
      - intros _. apply (wp_freeReg_local i s2 GpX); [done..|].
        intros st3 Hfr3 Ha3 HB3. split_and!; [|done..].
        by rewrite Hfr3, Hfr2, list_insert_insert_eq.
      - intros Hv%not_valid_invalid. split_and!; [|done..].
        rewrite Hfr2. f_equal.
        symmetry. by apply set_flag_id. }
    intros ? st3 (Hfr3 & Ha3 & HB3).
    assert (frameRegs_ st3 !! i = Some (set_localGpX HWInvalid s2)) as Hl3.
    { rewrite Hfr3. apply list_lookup_insert_eq. by eapply lookup_lt_Some. }
    apply wp_bind, wp_frState. intros ? s3 [= <-] Hl3'.
    rewrite Hl3 in Hl3'. injection Hl3' as <-.
    apply wp_when.
    + intros _. apply (wp_freeReg_local i _ VecD); [done..|].
      intros st4 Hfr4 Ha4 HB4. split_and!; [|congruence|done|by left].
      by rewrite Hfr4, Hfr3, list_insert_insert_eq.
    + intros Hv%not_valid_invalid. split_and!; [|done|done|by left].
      rewrite Hfr3. f_equal. symmetry. by apply set_flag_id.
  - apply wp_bind, wp_updFR. intros ? s1 [= <-] Hl1'.
    rewrite Hl1 in Hl1'. injection Hl1' as <-.
    set (s2 := set_globalRegUpToDate false (set_frameUpToDate false s0)).
    set (st2 := with_frameRegs _ st1).
    assert (frameRegs_ st2 = <[i := s2]> (frameRegs_ st)) as Hfr2.
    { simpl. by rewrite list_insert_insert_eq. }
    assert (Bound E st2) as HB2.
    { apply (Bound_flags st1 _ i (set_frameUpToDate false s0) s2); done. }
    assert (frameRegs_ st2 !! i = Some s2) as Hl2.
    { rewrite Hfr2. apply list_lookup_insert_eq. by eapply lookup_lt_Some. }
    case_bool_decide as Hloc.
    + apply (wp_freeReg_local i s2 VecD); [done..|].
      intros st3 Hfr3 Ha3 HB3. split_and!; [|done|done|by right; left].
      by rewrite Hfr3, Hfr2, list_insert_insert_eq.
    + apply wp_bind, wp_assert. intros Hv%bool_decide_eq_true.
      apply (wp_freeReg_local i s2 GpX); [done..|].
      intros st3 Hfr3 Ha3 HB3. split_and!; [|done|done|by right; right].
      by rewrite Hfr3, Hfr2, list_insert_insert_eq.
Qed.

(** ** At least one authoritative location *)

Lemma AuthExcept_insert X st st' i s s' :
  AuthExcept X st → frameRegs_ st !! i = Some s →
  frameRegs_ st' = <[i := s']> (frameRegs_ st) →
  (authoritative s → authoritative s') → AuthExcept X st'.
Proof.
  intros HA Hl Hfr Hs j sj Hlj Hj. rewrite Hfr in Hlj.
  destruct (decide (i = j)) as [<-|Hne].
  - rewrite list_lookup_insert_eq in Hlj by (by eapply lookup_lt_Some).
    injection Hlj as <-. apply Hs. by eapply HA.
  - rewrite list_lookup_insert_ne in Hlj by done. by eapply HA.
Qed.

Lemma AuthExcept_insert_auth X st st' i s' :
  AuthExcept (FRIdx i :: X) st →
  frameRegs_ st' = <[i := s']> (frameRegs_ st) →
  authoritative s' → AuthExcept X st'.
Proof.
  intros HA Hfr Hs j sj Hlj Hj. rewrite Hfr in Hlj.
  destruct (decide (i = j)) as [<-|Hne].
  - apply list_lookup_insert_Some in Hlj as [(_ & <- & _)|[? _]]; done.
  - rewrite list_lookup_insert_ne in Hlj by done. eapply HA; [done|].
    intros [[= ->]|?]%elem_of_cons; done.
Qed.

Lemma AuthExcept_weaken X Y st :
  AuthExcept X st → X ⊆ Y → AuthExcept Y st.
Proof. intros HA Hsub j sj Hlj Hj. eapply HA; [done|]. set_solver. Qed.

Lemma AuthExcept_invalid X st :
  AuthExcept (FRInvalid :: X) st → AuthExcept X st.
Proof.
  intros HA j sj Hlj Hj. eapply HA; [done|].
  intros [[=]|?]%elem_of_cons; done.
Qed.

Lemma spillFlags_synced s : synced (spillFlags s).
Proof.
  unfold spillFlags, synced. destruct (isValid (globalReg s)) eqn:Hg; simpl.
  - left. by rewrite Hg.
  - by right.
Qed.

Lemma synced_set_local TAG v s : synced (set_local TAG v s) ↔ synced s.
Proof. by destruct TAG. Qed.

Lemma updatedWith_authoritative hwReg ty s :
  isValid hwReg →
  globalReg s = hwReg ∨ hwReg = localGpX s ∨ hwReg = localVecD s →
  authoritative (updatedWith hwReg ty s).
Proof.
  intros Hv Hreg.
  assert (∀ s2, authoritative s2 →
            authoritative (match ty with
                           | Some t => set_localType t s2 | None => s2 end))
    as Hty by (by destruct ty).
  unfold updatedWith. apply Hty. clear Hty.
  case_bool_decide as Hg; [|case_bool_decide as Hl].
  - right. left. simpl. by rewrite Hg.
  - left. left. simpl. by rewrite <- Hl.
  - left. right. simpl. destruct Hreg as [?|[?|<-]]; done.
Qed.

(** ** Member functions that leave the binding state alone *)

Create HintDb pres.

Ltac solve_pres :=
  repeat first
    [ pres_step
    | solve [eauto with pres]
    | apply Pres_modify; intros ?; reflexivity ].

Lemma sameView_emit i : Pres sameView (emit i).
Proof. apply Pres_modify. done. Qed.
Lemma sameView_useReg r : Pres sameView (useReg E r).
Proof. unfold useReg. solve_pres. Qed.
#[local] Hint Resolve sameView_emit sameView_useReg : pres.
Lemma sameView_movHWReg u dst src : Pres sameView (movHWReg E u dst src).
Proof. unfold movHWReg. solve_pres. Qed.
Lemma sameView_loadFrame dst fr : Pres sameView (_loadFrame dst fr).
Proof. unfold _loadFrame. solve_pres. Qed.
Lemma sameView_storeFrame src fr : Pres sameView (_storeFrame src fr).
Proof. unfold _storeFrame. solve_pres. Qed.
#[local] Hint Resolve sameView_movHWReg sameView_loadFrame
  sameView_storeFrame : pres.
Lemma sameView_isFRInRegister fr : Pres sameView (isFRInRegister E fr).
Proof. unfold isFRInRegister. solve_pres. Qed.
Lemma sameView_movHWFromFR hwRes src : Pres sameView (movHWFromFR E hwRes src).
Proof. unfold movHWFromFR. solve_pres. Qed.
Lemma sameView_newLabel name : Pres sameView (newLabel name).
Proof. intros st x st' [= _ <-]. reflexivity. Qed.
Lemma sameView_reserveData dsize align : Pres sameView (reserveData dsize align).
Proof. unfold reserveData. solve_pres. Qed.
Lemma sameView_memcpy64 ofs v : Pres sameView (memcpy64 ofs v).
Proof. unfold memcpy64. solve_pres. Qed.
#[local] Hint Resolve sameView_isFRInRegister sameView_movHWFromFR
  sameView_newLabel sameView_reserveData sameView_memcpy64 : pres.
Lemma sameView_uint64Const bits : Pres sameView (uint64Const bits).
Proof. unfold uint64Const. solve_pres. Qed.
Lemma sameView_registerCall fn name : Pres sameView (registerCall fn name).
Proof. unfold registerCall. solve_pres. Qed.
#[local] Hint Resolve sameView_uint64Const sameView_registerCall : pres.
Lemma sameView_call_fn fn name : Pres sameView (call_fn fn name).
Proof. unfold call_fn. solve_pres. Qed.
#[local] Hint Resolve sameView_call_fn : pres.
Lemma sameView_EMIT_RUNTIME_CALL func : Pres sameView (EMIT_RUNTIME_CALL E func).
Proof. unfold EMIT_RUNTIME_CALL. solve_pres. Qed.
Lemma sameView_loadFrameAddr dst fr : Pres sameView (loadFrameAddr dst fr).
Proof. unfold loadFrameAddr. solve_pres. Qed.
Lemma sameView_loadBits64InGp dst bits : Pres sameView (loadBits64InGp dst bits).
Proof. unfold loadBits64InGp. solve_pres. Qed.
Lemma sameView_pushSlowPath sp : Pres sameView (pushSlowPath sp).
Proof. unfold pushSlowPath. solve_pres. Qed.
Lemma sameView_guardNumber hw l : Pres sameView (guardNumber hw l).
Proof. unfold guardNumber. solve_pres. Qed.
Lemma sameView_cacheArg dst ofs idx : Pres sameView (cacheArg E dst ofs idx).
Proof. unfold cacheArg. solve_pres. Qed.
Lemma sameView_isFRKnownType fr t : Pres sameView (isFRKnownType fr t).
Proof. unfold isFRKnownType. solve_pres. Qed.
#[local] Hint Resolve sameView_EMIT_RUNTIME_CALL sameView_loadFrameAddr
  sameView_loadBits64InGp sameView_pushSlowPath sameView_guardNumber
  sameView_cacheArg sameView_isFRKnownType : pres.

Lemma sameView_Bound st st' : sameView st st' → Bound E st → Bound E st'.
Proof. apply Bound_view. Qed.
Lemma sameView_frameRegs st st' : sameView st st' → frameRegs_ st' = frameRegs_ st.
Proof. by intros [= ? _]. Qed.
Lemma sameView_hwRegs st st' : sameView st st' → hwRegs_ st' = hwRegs_ st.
Proof. by intros [= _ ? _]. Qed.

Lemma Bound_flags_view st st' i s s' :
  Bound E st → frameRegs_ st !! i = Some s →
  localGpX s' = localGpX s → localVecD s' = localVecD s →
  frameRegs_ st' = <[i := s']> (frameRegs_ st) →
  sameView (with_frameRegs (frameRegs_ st') st) st' →
  Bound E st'.
Proof.
  intros HB Hl Hg Hv Hfr Hview.
  eapply sameView_Bound; [exact Hview|].
  by apply (Bound_flags st _ i s s').
Qed.

Lemma memSynced_locals s :
  localGpX (memSynced s) = localGpX s ∧ localVecD (memSynced s) = localVecD s.
Proof.
  unfold memSynced. destruct (frameUpToDate s); [done|].
  by destruct (isValid (globalReg s) && negb (globalRegUpToDate s)).
Qed.

Lemma wp_syncToMem fr (Q : unit → Emitter → Prop) st :
  (∀ st' i s, fr = FRIdx i → frameRegs_ st !! i = Some s →
     frameRegs_ st' = <[i := memSynced s]> (frameRegs_ st) →
     sameView (with_frameRegs (frameRegs_ st') st) st' → Q () st') →
  wp (syncToMem E fr) Q st.
Proof.
  intros HQ. unfold syncToMem.
  apply wp_bind, wp_frState. intros i s -> Hl.
  destruct (frameUpToDate s) eqn:Hup.
  { apply wp_ret. apply (HQ _ i s); [done|done|..].
    - unfold memSynced. rewrite Hup. by rewrite list_insert_id.
    - by destruct st. }
  apply wp_bind. eapply Pres_wp; [apply sameView_isFRInRegister|].
  intros hwReg st1 Hv1.
  pose proof (sameView_frameRegs _ _ Hv1) as Hfr1.
  apply wp_bind, wp_assert. intros _.
  apply wp_bind.
  apply wp_mono with
    (Q := λ _ st2,
       frameRegs_ st2 =
         <[i := if isValid (globalReg s) && negb (globalRegUpToDate s)
                then set_globalRegUpToDate true s else s]> (frameRegs_ st) ∧
       sameView (with_frameRegs (frameRegs_ st2) st) st2).
  { apply wp_when.
    - intros Hg. rewrite Hg. apply wp_bind, wp_assert. intros _.
      apply wp_bind. eapply Pres_wp; [apply sameView_movHWReg|].
      intros ? st2 Hv2. pose proof (sameView_frameRegs _ _ Hv2) as Hfr2.
      apply wp_updFR. intros ? s2 [= <-] Hl2.
      rewrite Hfr2, Hfr1, Hl in Hl2. injection Hl2 as <-. simpl.
      rewrite Hfr2, Hfr1. split; [done|].
      unfold sameView, bindingView in *. simpl.
      injection Hv1 as ?????. injection Hv2 as ?????. by f_equal; congruence.
    - intros Hg. rewrite Hg. rewrite Hfr1, list_insert_id by done.
      split; [done|]. unfold sameView, bindingView in *. simpl.
      injection Hv1 as ?????. by f_equal; congruence. }
  intros ? st2 (Hfr2 & Hv2).
  unfold _storeHWRegToFrame.
  apply wp_bind. eapply Pres_wp; [apply sameView_storeFrame|].
  intros ? st3 Hv3. pose proof (sameView_frameRegs _ _ Hv3) as Hfr3.
  apply wp_updFR. intros ? s3 [= <-] Hl3.
  rewrite Hfr3, Hfr2, list_lookup_insert_eq in Hl3
    by (by eapply lookup_lt_Some).
  injection Hl3 as <-.
  apply (HQ _ i s); [done|done|..].
  - simpl. rewrite Hfr3, Hfr2, list_insert_insert_eq.
    unfold memSynced. by rewrite Hup.
  - unfold sameView, bindingView in *. simpl.
    injection Hv2 as ?????. injection Hv3 as ?????. by f_equal; congruence.
Qed.

Lemma memSynced_authoritative s :
  authoritative s → authoritative (memSynced s).
Proof.
  intros _. unfold memSynced.
  destruct (frameUpToDate s) eqn:Hup.
  - right. right. by rewrite Hup.
  - right. by right.
Qed.

Lemma spilled_authoritative TAG s :
  authoritative (set_local TAG HWInvalid (spillFlags s)).
Proof. right. apply synced_set_local, spillFlags_synced. Qed.

Lemma wp_unit (m : M unit) (P : Emitter → Prop) st :
  wp m (λ _, P) st → ∀ st', m st = Ok ((), st') → P st'.
Proof. intros H st' Hrun. exact (H () st' Hrun). Qed.

(** C1 (amended): the binding state stays consistent under its mutations.
    In a state where every local binding is a temporary register owned by its
    frame register ([Bound]) and every frame register has at least one
    authoritative location (a local register, the global register marked up
    to date, or the frame slot marked up to date), [frUpdatedWithHWReg] with a
    valid register, [spillTempReg] and [syncToMem] leave every frame register
    with at least one authoritative location.  [freeReg] does so for every
    frame register other than the owner of the freed register, and for the
    owner when it is synced or keeps its local register of the other class. *)
Theorem mutations_keep_a_location (st : Emitter) :
  EnvOK E → Bound E st → AuthExcept [] st →
  (∀ fr hwReg ty st',
     isValid hwReg → frUpdatedWithHWReg E fr hwReg ty st = Ok ((), st') →
     AuthExcept [] st') ∧
  (∀ r st', spillTempReg E r st = Ok ((), st') → AuthExcept [] st') ∧
  (∀ fr st', syncToMem E fr st = Ok ((), st') → AuthExcept [] st') ∧
  (∀ r st', freeReg E r st = Ok ((), st') →
     ∀ i s', frameRegs_ st' !! i = Some s' →
       hwRegs_ st !! combinedIndex r ≠ Some (FRIdx i) ∨
       (∃ s, frameRegs_ st !! i = Some s ∧
             (synced s ∨ isValid (localOf (otherClass (classOf r)) s))) →
       authoritative s').
Proof.
  intros HE HB HA. split_and!.
  - intros fr hwReg ty st' Hv. revert st'.
    apply wp_unit, wp_frUpdatedWithHWReg; [done..|].
    intros st2 i s -> Hl Hreg Hfr _ _.
    eapply AuthExcept_insert; [done..|]. intros _.
    by apply updatedWith_authoritative.
  - intros r st' Hrun.
    destruct (spillTempReg_spec r st HE HB _ _ Hrun)
      as (i & s & _ & Hl & _ & _ & Hfr & _).
    eapply AuthExcept_insert; [done..|]. intros _.
    apply spilled_authoritative.
  - intros fr. apply wp_unit, wp_syncToMem.
    intros st2 i s -> Hl Hfr _.
    eapply AuthExcept_insert; [done..|]. apply memSynced_authoritative.
  - intros r.
    apply (wp_unit _ (λ st', ∀ i s', frameRegs_ st' !! i = Some s' →
             hwRegs_ st !! combinedIndex r ≠ Some (FRIdx i) ∨
             (∃ s, frameRegs_ st !! i = Some s ∧
                (synced s ∨ isValid (localOf (otherClass (classOf r)) s))) →
             authoritative s')).
    apply wp_freeReg; [done..| | |].
    + intros _ i s' Hl _. by eapply HA; [|apply not_elem_of_nil].
    + intros st2 _ _ Hfr _ _ i s' Hl _. rewrite Hfr in Hl.
      by eapply HA; [|apply not_elem_of_nil].
    + intros st2 j sj Hv Hhw Hlj Hloc Hfr _ _ i s' Hl Hcase.
      rewrite Hfr in Hl.
      destruct (decide (j = i)) as [->|Hne].
      * rewrite list_lookup_insert_eq in Hl by (by eapply lookup_lt_Some).
        injection Hl as <-.
        destruct Hcase as [?|(s & Hs & Hcase)]; [done|].
        assert (s = sj) as -> by congruence.
        destruct Hcase as [Hsy|Hother].
        -- right. by apply synced_set_local.
        -- left. destruct (classOf r); simpl in *; [by right|by left].
      * rewrite list_lookup_insert_ne in Hl by done.
        by eapply HA; [|apply not_elem_of_nil].
Qed.

(** ** The executable checks are sound *)

Lemma checkBound_sound st : checkBound E st = true → Bound E st.
Proof.
  unfold checkBound. intros H.
  apply andb_true_iff in H as [H Hall]. apply andb_true_iff in H as [Hg Hv].
  assert (∀ TAG, checkPool E TAG st = true → PoolOK E TAG st) as Hpool.
  { intros TAG Hp. unfold checkPool in Hp.
    apply andb_true_iff in Hp as [H1%bool_decide_eq_true H2%bool_decide_eq_true].
    by split. }
  apply Bound_intro; [by apply Hpool..|].
  intros i s TAG Hl Hval.
  rewrite forallb_forall in Hall.
  specialize (Hall (i, s)). simpl in Hall.
  assert ((checkLocal E st GpX i s && checkLocal E st VecD i s) = true) as Hc.
  { apply Hall. apply list_elem_of_In, list_elem_of_lookup. exists i.
    rewrite list_lookup_imap, Hl. done. }
  apply andb_true_iff in Hc as [Hc1 Hc2].
  assert (checkLocal E st TAG i s = true) as Hc by (by destruct TAG).
  unfold checkLocal in Hc. apply Is_true_true in Hval. rewrite Hval in Hc.
  simpl in Hc.
  apply andb_true_iff in Hc as [Hc Ha]. apply andb_true_iff in Hc as [Hc Hh].
  apply andb_true_iff in Hc as [Hcl Ht].
  apply bool_decide_eq_true in Hcl, Hh. apply negb_true_iff in Ha.
  split; [done|]. split_and!; [by apply Is_true_true|done|by rewrite Hcl].
Qed.

Lemma checkAuthoritative_sound s :
  checkAuthoritative s = true → authoritative s.
Proof.
  unfold checkAuthoritative, authoritative, hasLocal, synced. intros H.
  repeat (apply orb_true_iff in H as [H|H]).
  - left. left. by apply Is_true_true.
  - left. right. by apply Is_true_true.
  - apply andb_true_iff in H as [H1 H2]. right. left.
    split; by apply Is_true_true.
  - right. right. by apply Is_true_true.
Qed.

Lemma checkSynced_sound s : checkSynced s = true → synced s.
Proof.
  unfold checkSynced, synced. intros H.
  apply orb_true_iff in H as [H|H].
  - apply andb_true_iff in H as [H1 H2]. left. split; by apply Is_true_true.
  - right. by apply Is_true_true.
Qed.

Lemma checkSynced_complete s : synced s → checkSynced s = true.
Proof.
  unfold checkSynced, synced. intros [[H1 H2]|H]; apply orb_true_iff.
  - left. apply andb_true_iff. split; by apply Is_true_true.
  - right. by apply Is_true_true.
Qed.

Lemma checkAuthoritative_complete s :
  authoritative s → checkAuthoritative s = true.
Proof.
  unfold checkAuthoritative, authoritative, hasLocal, synced.
  intros [[H|H]|[[H1 H2]|H]]; apply Is_true_true in H || idtac.
  - by rewrite H.
  - rewrite H. by rewrite orb_true_r.
  - apply Is_true_true in H1, H2. rewrite H1, H2. simpl.
    by rewrite !orb_true_r.
  - rewrite H. by rewrite !orb_true_r.
Qed.

Lemma AuthExcept_check st :
  forallb checkAuthoritative (frameRegs_ st) = true → AuthExcept [] st.
Proof.
  rewrite forallb_forall. intros H i s Hl _.
  apply checkAuthoritative_sound, H, list_elem_of_In.
  by eapply list_elem_of_lookup_2.
Qed.

(** ** Eviction *)

Lemma exhausted_alloc_None pr ra :
  (∀ idx, TempRegAlloc.isAvail ra idx = false) →
  TempRegAlloc.alloc pr ra = None.
Proof.
  intros Hfull. unfold TempRegAlloc.alloc.
  destruct (TempRegAlloc.firstAvail ra) as [k|] eqn:Hk; [|done].
  apply firstAvail_Some in Hk.
  specialize (Hfull (TempRegAlloc.first_ ra + k)%nat).
  unfold TempRegAlloc.isAvail, TempRegAlloc.inRange in Hfull.
  replace (TempRegAlloc.first_ ra + k - TempRegAlloc.first_ ra)%nat with k
    in Hfull by lia.
  rewrite Hk in Hfull. simpl in Hfull. rewrite andb_true_r in Hfull.
  apply bool_decide_eq_false in Hfull. apply lookup_lt_Some in Hk. lia.
Qed.

Lemma exhausted_lookup ra k b :
  (∀ idx, TempRegAlloc.isAvail ra idx = false) →
  TempRegAlloc.avail_ ra !! k = Some b → b = false.
Proof.
  intros Hfull Hk. destruct b; [|done].
  specialize (Hfull (TempRegAlloc.first_ ra + k)%nat).
  unfold TempRegAlloc.isAvail, TempRegAlloc.inRange in Hfull.
  replace (TempRegAlloc.first_ ra + k - TempRegAlloc.first_ ra)%nat with k
    in Hfull by lia.
  rewrite Hk in Hfull. simpl in Hfull. rewrite andb_true_r in Hfull.
  apply bool_decide_eq_false in Hfull. apply lookup_lt_Some in Hk. lia.
Qed.

(** After the only free register of an exhausted pool has been released,
    the next allocation returns it. *)
Lemma alloc_after_free ra index :
  (∀ idx, TempRegAlloc.isAvail ra idx = false) →
  (TempRegAlloc.first_ ra ≤ index <
   TempRegAlloc.first_ ra + length (TempRegAlloc.avail_ ra))%nat →
  ∃ ra', TempRegAlloc.alloc None (TempRegAlloc.free index ra) =
           Some (index, ra').
Proof.
  intros Hfull Hr. unfold TempRegAlloc.alloc.
  assert (TempRegAlloc.firstAvail (TempRegAlloc.free index ra) =
          Some (index - TempRegAlloc.first_ ra)%nat) as ->.
  { unfold TempRegAlloc.firstAvail, TempRegAlloc.free. simpl.
    apply fmap_Some. exists ((index - TempRegAlloc.first_ ra)%nat, true).
    split; [|done]. apply list_find_Some. split_and!; [|done|].
    - apply list_lookup_insert_eq. lia.
    - intros j b Hj Hlt Hb. subst b.
      rewrite list_lookup_insert_ne in Hj by lia.
      by apply (exhausted_lookup _ _ _ Hfull) in Hj. }
  simpl. replace (TempRegAlloc.first_ ra + (index - TempRegAlloc.first_ ra))%nat
    with index by lia.
  eauto.
Qed.

Lemma isTemp_inRange st TAG index :
  PoolOK E TAG st → isTemp E (HWReg_of index TAG) →
  (TempRegAlloc.first_ (pool TAG st) ≤ index <
   TempRegAlloc.first_ (pool TAG st) +
   length (TempRegAlloc.avail_ (pool TAG st)))%nat.
Proof.
  intros [Hf Hlen] Ht. rewrite Hf, Hlen. apply isTemp_class in Ht.
  destruct TAG; simpl in *;
    apply andb_prop_elim in Ht as [_ Ht]; apply bool_decide_unpack in Ht;
    simpl in Ht; lia.
Qed.

(** What [_allocTemp] has done when it returns on an exhausted pool. *)
Lemma allocTemp_spills_victim (TAG : RegClass) (preferred : option HWReg)
    (st : Emitter) (hw : HWReg) (st' : Emitter) :
  EnvOK E → Bound E st →
  (∀ idx, TempRegAlloc.isAvail (pool TAG st) idx = false) →
  _allocTemp E TAG preferred st = Ok (hw, st') →
  ∃ index i s,
    match preferred with
    | Some p => index = indexInClass p
    | None => TempRegAlloc.leastRecentlyUsed (pool TAG st) = Some index
    end ∧
    hw = HWReg_of index TAG ∧
    hwRegs_ st !! combinedIndex hw = Some (FRIdx i) ∧
    frameRegs_ st !! i = Some s ∧ localOf TAG s = hw ∧
    frameRegs_ st' =
      <[i := set_local TAG HWInvalid (spillFlags s)]> (frameRegs_ st) ∧
    hwRegs_ st' = <[combinedIndex hw := FRInvalid]> (hwRegs_ st) ∧
    instrs (a st') = instrs (a st) ++ spillInstrs hw i s ∧
    synced (set_local TAG HWInvalid (spillFlags s)).
Proof.
  intros HE HB Hfull. revert hw st'.
  change (wp (_allocTemp E TAG preferred)
            (λ hw st', ∃ index i s,
               match preferred with
               | Some p => index = indexInClass p
               | None =>
                   TempRegAlloc.leastRecentlyUsed (pool TAG st) = Some index
               end ∧
               hw = HWReg_of index TAG ∧
               hwRegs_ st !! combinedIndex hw = Some (FRIdx i) ∧
               frameRegs_ st !! i = Some s ∧ localOf TAG s = hw ∧
               frameRegs_ st' =
                 <[i := set_local TAG HWInvalid (spillFlags s)]>
                   (frameRegs_ st) ∧
               hwRegs_ st' = <[combinedIndex hw := FRInvalid]> (hwRegs_ st) ∧
               instrs (a st') = instrs (a st) ++ spillInstrs hw i s ∧
               synced (set_local TAG HWInvalid (spillFlags s))) st).
  unfold _allocTemp. apply wp_bind.
  intros o st0. unfold ra_alloc.
  rewrite (exhausted_alloc_None _ _ Hfull). intros [= <- <-].
  apply wp_bind, wp_get.
  destruct (match indexInClass <$> preferred with
            | Some p => Some p
            | None => TempRegAlloc.leastRecentlyUsed (pool TAG st)
            end) as [index|] eqn:Hindex; [|apply wp_fail].
  apply wp_bind.
  eapply wp_mono; [by apply spillTempReg_spec|].
  intros ? st1 (i & s & Hhw & Hl & Hloc & Ht & Hfr1 & Hhw1 & Hgp1 & Hvec1
                & Hi1 & HB1).
  rewrite classOf_HWReg_of in *.
  apply wp_bind, wp_modify.
  assert (pool TAG st1 = pool TAG st) as Hpool by (by destruct TAG).
  destruct (alloc_after_free (pool TAG st) index Hfull) as [ra' Halloc].
  { apply isTemp_inRange; [by apply Bound_PoolOK|done]. }
  apply wp_bind. intros o st3. unfold ra_alloc.
  assert (pool TAG (with_pool TAG (TempRegAlloc.free index (pool TAG st1)) st1)
          = TempRegAlloc.free index (pool TAG st)) as ->
    by (rewrite Hpool; by destruct TAG).
  rewrite Halloc. intros [= <- <-]. apply wp_ret.
  exists index, i, s. split_and!; try done.
  - destruct preferred as [p|]; simpl in Hindex; [by injection Hindex|done].
  - rewrite <- Hfr1. by destruct TAG.
  - rewrite <- Hhw1. by destruct TAG.
  - rewrite <- Hi1. by destruct TAG.
  - apply synced_set_local, spillFlags_synced.
Qed.

Lemma twp_any {A} (m : M A) st :
  (∃ x st', m st = Ok (x, st')) ↔ twp m (λ _ _, True) st.
Proof.
  split; [intros (x & st' & H); by exists x, st'|
          intros (x & st' & H & _); by exists x, st'].
Qed.

Lemma spillTempReg_returns r i s st :
  isTemp E r → hwRegs_ st !! combinedIndex r = Some (FRIdx i) →
  frameRegs_ st !! i = Some s → globalReg s ≠ r →
  localOf (classOf r) s = r →
  ∃ st', spillTempReg E r st = Ok ((), st').
Proof.
  intros Ht Hhw Hl Hg Hloc.
  cut (twp (spillTempReg E r) (λ _ _, True) st).
  { intros ([] & st' & H & _). eauto. }
  unfold spillTempReg.
  apply twp_bind, twp_assert; [by apply Is_true_true|].
  apply twp_bind. eapply twp_contains; [done|].
  apply twp_bind. eapply twp_setContains; [done|].
  apply twp_bind, twp_assert; [done|].
  apply twp_bind. eapply twp_frState; [done|].
  apply twp_bind, twp_assert; [by apply bool_decide_eq_true|].
  apply twp_bind.
  apply twp_mono with
    (Q := λ _ st2, ∃ s2, frameRegs_ st2 !! i = Some s2 ∧
                         localGpX s2 = localGpX s ∧ localVecD s2 = localVecD s).
  { destruct (isValid (globalReg s)); apply twp_when.
    - intros _. apply twp_bind. eapply twp_run; [apply movHWReg_false_run|].
      eapply twp_updFR; [exact Hl|]. simpl.
      exists (set_globalRegUpToDate true s). split; [|done].
      apply list_lookup_insert_eq. by eapply lookup_lt_Some.
    - intros _. by exists s.
    - intros _. unfold _storeHWRegToFrame, _storeFrame.
      apply twp_bind, twp_bind, twp_emit. eapply twp_updFR; [exact Hl|].
      eapply twp_updFR.
      { simpl. apply list_lookup_insert_eq. by eapply lookup_lt_Some. }
      simpl. exists (set_frameUpToDate true (set_frameUpToDate true s)).
      split; [|done].
      apply list_lookup_insert_eq. rewrite length_insert.
      by eapply lookup_lt_Some.
    - intros _. by exists s. }
  intros ? st2 (s2 & Hl2 & HG & HV).
  apply twp_bind. eapply twp_frState; [done|].
  rewrite HG, HV.
  destruct r as [|k|k]; simpl in Hloc.
  - done.
  - rewrite bool_decide_true by done. by eapply twp_updFR.
  - case_bool_decide; [by eapply twp_updFR|].
    rewrite bool_decide_true by done. by eapply twp_updFR.
Qed.

Lemma allocTemp_returns TAG preferred index i s st :
  EnvOK E → Bound E st →
  (∀ idx, TempRegAlloc.isAvail (pool TAG st) idx = false) →
  match preferred with
  | Some p => index = indexInClass p
  | None => TempRegAlloc.leastRecentlyUsed (pool TAG st) = Some index
  end →
  isTemp E (HWReg_of index TAG) →
  hwRegs_ st !! combinedIndex (HWReg_of index TAG) = Some (FRIdx i) →
  frameRegs_ st !! i = Some s → globalReg s ≠ HWReg_of index TAG →
  localOf TAG s = HWReg_of index TAG →
  ∃ hw st', _allocTemp E TAG preferred st = Ok (hw, st').
Proof.
  intros HE HB Hfull Hindex Ht Hhw Hl Hg Hloc.
  destruct (spillTempReg_returns (HWReg_of index TAG) i s st)
    as [st1 Hspill]; try done.
  { by rewrite classOf_HWReg_of. }
  pose proof (spillTempReg_spec _ st HE HB _ _ Hspill)
    as (_ & _ & _ & _ & _ & _ & _ & _ & Hgp1 & Hvec1 & _).
  assert (pool TAG st1 = pool TAG st) as Hpool by (by destruct TAG).
  destruct (alloc_after_free (pool TAG st) index Hfull) as [ra' Halloc].
  { apply isTemp_inRange; [by apply Bound_PoolOK|done]. }
  cut (twp (_allocTemp E TAG preferred) (λ _ _, True) st).
  { intros (hw & st' & H & _). eauto. }
  unfold _allocTemp.
  apply twp_bind. eapply twp_run.
  { unfold ra_alloc. by rewrite (exhausted_alloc_None _ _ Hfull). }
  apply twp_bind, twp_get.
  assert ((match indexInClass <$> preferred with
           | Some p => Some p
           | None => TempRegAlloc.leastRecentlyUsed (pool TAG st)
           end) = Some index) as ->.
  { destruct preferred; simpl; [by rewrite Hindex|done]. }
  apply twp_bind. eapply twp_run; [exact Hspill|].
  apply twp_bind, twp_modify.
  apply twp_bind. eapply twp_run.
  { unfold ra_alloc.
    assert (pool TAG (with_pool TAG (TempRegAlloc.free index (pool TAG st1))
                        st1)
            = TempRegAlloc.free index (pool TAG st)) as ->
      by (rewrite Hpool; by destruct TAG).
    by rewrite Halloc. }
  by apply twp_ret.
Qed.

(** C2: when the pool of temporary registers of a class is exhausted,
    [_allocTemp] evicts exactly one register: the one that was explicitly
    asked for, whatever its recency, and otherwise the least recently used
    one.  The frame register that owns it first gets its value written to
    the fallback location ([spillInstrs]: a move into the global register if
    there is one and it is stale, else a store to the frame slot if that is
    stale; [spillFlags] marks that location up to date), then loses this one
    local binding; no other frame register changes, and the evicted register
    is the one returned. *)
Theorem allocTemp_evicts_one (TAG : RegClass) (preferred : option HWReg)
    (st : Emitter) (index i : nat) (s : FRState) :
  EnvOK E → Bound E st →
  (∀ idx, TempRegAlloc.isAvail (pool TAG st) idx = false) →
  match preferred with
  | Some p => index = indexInClass p
  | None => TempRegAlloc.leastRecentlyUsed (pool TAG st) = Some index
  end →
  frameRegs_ st !! i = Some s →
  localOf TAG s = HWReg_of index TAG →
  globalReg s ≠ HWReg_of index TAG →
  ∃ st', _allocTemp E TAG preferred st = Ok (HWReg_of index TAG, st') ∧
    frameRegs_ st' =
      <[i := set_local TAG HWInvalid (spillFlags s)]> (frameRegs_ st) ∧
    hwRegs_ st' =
      <[combinedIndex (HWReg_of index TAG) := FRInvalid]> (hwRegs_ st) ∧
    instrs (a st') = instrs (a st) ++ spillInstrs (HWReg_of index TAG) i s ∧
    synced (set_local TAG HWInvalid (spillFlags s)).
Proof.
  intros HE HB Hfull Hindex Hl Hloc Hg.
  destruct (Bound_local st i s TAG HB Hl) as [_ (Ht & Hhw & _)].
  { rewrite Hloc. apply isValid_HWReg_of. }
  rewrite Hloc in Ht, Hhw.
  destruct (allocTemp_returns TAG preferred index i s st)
    as (hw & st' & Hrun); try done.
  exists st'.
  destruct (allocTemp_spills_victim TAG preferred st hw st' HE HB Hfull Hrun)
    as (index' & i' & s' & Hindex' & -> & Hhw' & Hl' & _ & Hfr & Hhwr & Hi & Hs).
  assert (index' = index) as ->.
  { destruct preferred; [congruence|].
    rewrite Hindex in Hindex'. by injection Hindex'. }
  assert (i' = i) as -> by congruence.
  assert (s' = s) as -> by congruence.
  done.
Qed.

(** ** Sync passes *)

#[local] Instance flagsUp_preorder : PreOrder flagsUp.
Proof.
  split.
  - intros s. by split_and!.
  - intros s1 s2 s3 (?&?&?&?&?&?&?) (?&?&?&?&?&?&?).
    split_and!; try congruence; auto.
Qed.

#[local] Instance syncStep_preorder : PreOrder syncStep.
Proof.
  split.
  - intros st. split; reflexivity.
  - intros st1 st2 st3 [H1 H1'] [H2 H2']. split; [|congruence].
    by etrans.
Qed.

#[local] Instance keeps_preorder X : PreOrder (keeps X).
Proof.
  split.
  - intros st. split; [done|]. intros i s s' _ H1 H2. congruence.
  - intros st1 st2 st3 [L1 H1] [L2 H2]. split; [congruence|].
    intros i s s' HX Hl Hl' Hs.
    destruct (lookup_lt_is_Some_2 (frameRegs_ st2) i) as [s2 Hl2].
    { rewrite L1. by eapply lookup_lt_Some. }
    eauto.
Qed.

Lemma flagsUp_synced s s' : flagsUp s s' → synced s → synced s'.
Proof.
  intros (_ & _ & Hg & _ & _ & Hf & Hgu) [[H1 H2]|H]; [left|right; auto].
  rewrite Hg. auto.
Qed.

Lemma sameView_syncStep st st' : sameView st st' → syncStep st st'.
Proof.
  unfold sameView, bindingView. intros [= Hf Hh Hg1 Hg2 Hv1 Hv2]. split.
  - rewrite Hf. reflexivity.
  - unfold restView. congruence.
Qed.

Lemma syncStep_keeps X st st' : syncStep st st' → keeps X st st'.
Proof.
  intros [H _]. split; [symmetry; by eapply Forall2_length|].
  intros i s s' _ Hl Hl'. apply flagsUp_synced.
  by eapply Forall2_lookup_lr.
Qed.

Lemma keeps_frameRegs X st st' :
  frameRegs_ st' = frameRegs_ st → keeps X st st'.
Proof. intros H. split; rewrite H; [done|]. intros; congruence. Qed.

Lemma sameView_keeps X st st' : sameView st st' → keeps X st st'.
Proof. intros H. by apply syncStep_keeps, sameView_syncStep. Qed.

Lemma keeps_weaken X Y st st' : X ⊆ Y → keeps X st st' → keeps Y st st'.
Proof. intros HXY [HL H]. split; [done|]. intros i s s' Hi. apply H. set_solver. Qed.

Lemma SyncedExcept_keeps X Y st st' :
  SyncedExcept X st → keeps Y st st' → SyncedExcept (X ++ Y) st'.
Proof.
  intros HS [HL HK] i s' Hl' Hi.
  destruct (lookup_lt_is_Some_2 (frameRegs_ st) i) as [s Hl].
  { rewrite <- HL. by eapply lookup_lt_Some. }
  apply (HK i s s'); [set_solver|done..|]. apply (HS i s Hl). set_solver.
Qed.

Lemma restView_ownedBy st st' i r :
  restView st' = restView st → ownedBy E st i r → ownedBy E st' i r.
Proof.
  unfold restView. intros [= Hh Hg1 Hg2 Hv1 Hv2] (Ht & Hhw & Hav).
  split_and!; [done|by rewrite Hh|].
  rewrite <- Hav. destruct (classOf r); simpl; by apply isAvail_view.
Qed.

Lemma restView_PoolOK st st' TAG :
  restView st' = restView st → PoolOK E TAG st → PoolOK E TAG st'.
Proof.
  unfold restView, PoolOK. intros [= Hh Hg1 Hg2 Hv1 Hv2].
  destruct TAG; simpl; by rewrite ?Hg1, ?Hg2, ?Hv1, ?Hv2.
Qed.

Lemma syncStep_Bound st st' : syncStep st st' → Bound E st → Bound E st'.
Proof.
  intros [HF HR] (Hg & Hv & Hb).
  split_and!; [by eapply restView_PoolOK..|].
  intros i s' Hl'.
  destruct (Forall2_lookup_r _ _ _ _ _ HF Hl')
    as (s & Hl & _ & _ & _ & HG & HV & _).
  destruct (Hb i s Hl) as [H1 H2]. rewrite HG, HV.
  split; intros Hval; [destruct (H1 Hval)|destruct (H2 Hval)];
    (split; [done|by eapply restView_ownedBy]).
Qed.

Lemma syncStep_Owned st st' : syncStep st st' → Owned E st → Owned E st'.
Proof.
  intros [HF HR] [HL HO].
  assert (hwRegs_ st' = hwRegs_ st) as Hh by (by injection HR).
  split; [by rewrite Hh|]. intros r i Ht Hhw. rewrite Hh in Hhw.
  destruct (HO r i Ht Hhw) as (s & Hl & Hloc).
  destruct (Forall2_lookup_l _ _ _ _ _ HF Hl)
    as (s' & Hl' & _ & _ & _ & HG & HV & _).
  exists s'. split; [done|]. rewrite <- Hloc at 2.
  by destruct (classOf r).
Qed.

Lemma Pres_updFR (R : Emitter → Emitter → Prop) fr f :
  (∀ st i s, fr = FRIdx i → frameRegs_ st !! i = Some s →
     R st (with_frameRegs (<[i := f s]> (frameRegs_ st)) st)) →
  Pres R (updFR fr f).
Proof.
  intros H st [] st'. revert st'. apply wp_unit, wp_updFR.
  intros i s -> Hl. by apply H.
Qed.

Lemma wp_conj {A} (m : M A) (Q1 Q2 : A → Emitter → Prop) st :
  wp m Q1 st → wp m Q2 st → wp m (λ x st', Q1 x st' ∧ Q2 x st') st.
Proof. intros H1 H2 x st' Hr. split; eauto. Qed.

Lemma syncStep_insert st i s s' :
  frameRegs_ st !! i = Some s → flagsUp s s' →
  syncStep st (with_frameRegs (<[i := s']> (frameRegs_ st)) st).
Proof.
  intros Hl Hf. split; [|done]. simpl.
  rewrite <- (list_insert_id _ _ _ Hl) at 1.
  apply Forall2_insert; [reflexivity|done].
Qed.

Lemma syncStep_of_sameView {A} (m : M A) : Pres sameView m → Pres syncStep m.
Proof. apply Pres_weaken, sameView_syncStep. Qed.

Lemma syncStep_set_global fr :
  Pres syncStep (updFR fr (set_globalRegUpToDate true)).
Proof.
  apply Pres_updFR. intros st i s _ Hl. eapply syncStep_insert; [done|].
  by split_and!.
Qed.
Lemma syncStep_set_frame fr :
  Pres syncStep (updFR fr (set_frameUpToDate true)).
Proof.
  apply Pres_updFR. intros st i s _ Hl. eapply syncStep_insert; [done|].
  by split_and!.
Qed.
#[local] Hint Resolve syncStep_set_global syncStep_set_frame : pres.

Ltac solve_pres_via lift :=
  repeat first
    [ pres_step
    | solve [eauto with pres]
    | apply lift; solve [eauto with pres] ].

Lemma syncStep_storeHWRegToFrame fr src :
  Pres syncStep (_storeHWRegToFrame fr src).
Proof. unfold _storeHWRegToFrame. solve_pres_via @syncStep_of_sameView. Qed.
#[local] Hint Resolve syncStep_storeHWRegToFrame : pres.

Lemma syncStep_syncOneTemp b ex hw : Pres syncStep (syncOneTemp E b ex hw).
Proof. unfold syncOneTemp. solve_pres_via @syncStep_of_sameView. Qed.
#[local] Hint Resolve syncStep_syncOneTemp : pres.

Lemma syncStep_syncAllTempExcept ex : Pres syncStep (syncAllTempExcept E ex).
Proof. unfold syncAllTempExcept. solve_pres_via @syncStep_of_sameView. Qed.

Lemma syncStep_syncToMem fr : Pres syncStep (syncToMem E fr).
Proof. unfold syncToMem. solve_pres_via @syncStep_of_sameView. Qed.
#[local] Hint Resolve syncStep_syncAllTempExcept syncStep_syncToMem : pres.

Lemma syncStep_hwRegs st st' : syncStep st st' → hwRegs_ st' = hwRegs_ st.
Proof. intros [_ H]. by injection H. Qed.

(** What one iteration of [syncAllTempExcept] does for the owner of the
    register it visits. *)
Lemma wp_syncOneTemp b ex hw st :
  wp (syncOneTemp E b ex hw)
     (λ _ st', syncStep st st' ∧
        ∀ i s', hwRegs_ st !! combinedIndex hw = Some (FRIdx i) →
                FRIdx i ≠ ex → frameRegs_ st' !! i = Some s' →
                (b = true ∧ isValid (localGpX s')) ∨ synced s') st.
Proof.
  apply wp_conj; [eapply Pres_wp; [apply syncStep_syncOneTemp|done]|].
  unfold syncOneTemp. apply wp_bind, wp_contains. intros fr Hhw.
  destruct (negb (FR_isValid fr) || bool_decide (fr = ex)) eqn:Hskip.
  { apply wp_ret. intros i s' Hi Hne. rewrite Hhw in Hi. injection Hi as ->.
    simpl in Hskip. by rewrite bool_decide_false in Hskip. }
  apply wp_bind, wp_frState. intros i s -> Hl.
  apply wp_bind, wp_assert. intros _.
  assert (∀ (Q : FRState → Prop) st',
            (∀ s', frameRegs_ st' !! i = Some s' → Q s') →
            ∀ j s', hwRegs_ st !! combinedIndex hw = Some (FRIdx j) →
                    FRIdx j ≠ ex → frameRegs_ st' !! j = Some s' → Q s')
    as Hown.
  { intros Q st' HQ j s' Hj _. rewrite Hhw in Hj. injection Hj as <-. auto. }
  destruct (b && isValid (localGpX s)) eqn:Hb.
  { apply wp_ret. apply Hown. intros s' Hl'. left.
    apply andb_true_iff in Hb as [-> Hv]. split; [done|].
    rewrite Hl in Hl'. injection Hl' as <-. by apply Is_true_true. }
  destruct (isValid (globalReg s)) eqn:Hg.
  - apply wp_when.
    + intros Hup. apply wp_bind, wp_movHWReg_false. apply wp_updFR.
      intros ? s0 [= <-] Hl0. simpl in Hl0. apply Hown. intros s'. simpl.
      rewrite list_lookup_insert_eq by (by eapply lookup_lt_Some).
      intros [= <-]. right. left. simpl.
      rewrite Hl in Hl0. injection Hl0 as <-. by rewrite Hg.
    + intros Hup%negb_false_iff. apply Hown. intros s' Hl'. right. left.
      rewrite Hl in Hl'. injection Hl' as <-. by rewrite Hg, Hup.
  - apply wp_when.
    + intros Hup. unfold _storeHWRegToFrame, _storeFrame.
      apply wp_bind, wp_emit. apply wp_updFR.
      intros ? s0 [= <-] Hl0. simpl in Hl0. apply Hown. intros s'. simpl.
      rewrite list_lookup_insert_eq by (by eapply lookup_lt_Some).
      intros [= <-]. right. by right.
    + intros Hup%negb_false_iff. apply Hown. intros s' Hl'. right. right.
      rewrite Hl in Hl'. injection Hl' as <-. by rewrite Hup.
Qed.

Lemma isTemp_in_range r :
  isTemp E r →
  r = HWReg_of (indexInClass r) (classOf r) ∧
  indexInClass r ∈ rangeOf (rangeOfClass E (classOf r)).
Proof.
  intros Ht. pose proof (isTemp_class _ Ht) as Hc.
  unfold classOf, rangeOf. destruct r as [|k|k]; simpl in *; [done|..];
    (split; [done|]); apply andb_prop_elim in Hc as [_ Hc];
    apply bool_decide_unpack in Hc; simpl in Hc; apply elem_of_seq; lia.
Qed.

Lemma in_range_isTemp TAG r :
  r ∈ rangeOf (rangeOfClass E TAG) → isTemp E (HWReg_of r TAG).
Proof.
  unfold rangeOf. intros Hr%elem_of_seq. apply Is_true_true.
  unfold isTemp, isTempGpX, isTempVecD.
  destruct TAG; simpl in *; rewrite ?orb_false_r;
    apply bool_decide_eq_true; lia.
Qed.

(** One of the two loops of [syncAllTempExcept]. *)
Lemma wp_syncLoop b TAG ex st :
  wp (forEach (rangeOf (rangeOfClass E TAG))
        (λ r, syncOneTemp E b ex (HWReg_of r TAG)))
     (λ _ st', syncStep st st' ∧
        ∀ r i s', r ∈ rangeOf (rangeOfClass E TAG) →
          hwRegs_ st !! combinedIndex (HWReg_of r TAG) = Some (FRIdx i) →
          FRIdx i ≠ ex → frameRegs_ st' !! i = Some s' →
          (b = true ∧ isValid (localGpX s')) ∨ synced s') st.
Proof.
  apply (wp_forEach_prefix
    (λ l1 st1, syncStep st st1 ∧
       ∀ r i s', r ∈ l1 →
         hwRegs_ st !! combinedIndex (HWReg_of r TAG) = Some (FRIdx i) →
         FRIdx i ≠ ex → frameRegs_ st1 !! i = Some s' →
         (b = true ∧ isValid (localGpX s')) ∨ synced s')).
  - split; [reflexivity|]. intros r i s' Hr. by apply elem_of_nil in Hr.
  - intros l1 x l2 st1 _ [HS HI].
    eapply wp_mono; [apply wp_syncOneTemp|].
    intros ? st2 [HS2 Hx]. split; [by etrans|].
    intros r i s' [Hr|Hr%list_elem_of_singleton]%elem_of_app Hhw Hne Hl'.
    + destruct HS2 as [HF _].
      destruct (Forall2_lookup_r _ _ _ _ _ HF Hl') as (s1 & Hl1 & Hfl).
      destruct (HI r i s1 Hr Hhw Hne Hl1) as [[-> Hv]|Hs].
      * left. split; [done|]. destruct Hfl as (_ & _ & _ & -> & _). done.
      * right. by eapply flagsUp_synced.
    + subst r. apply (Hx i s'); [|done..].
      by rewrite (syncStep_hwRegs _ _ HS).
Qed.

(** [syncAllTempExcept(exceptFR)]: afterwards every frame register that is
    bound to a temporary register, apart from [exceptFR], is synced. *)
Lemma wp_syncAllTempExcept ex (Q : unit → Emitter → Prop) st :
  Bound E st →
  (∀ st', syncStep st st' →
     (∀ i s', frameRegs_ st' !! i = Some s' → FRIdx i ≠ ex →
              hasLocal s' → synced s') → Q () st') →
  wp (syncAllTempExcept E ex) Q st.
Proof.
  intros HB HQ. unfold syncAllTempExcept. apply wp_bind.
  eapply wp_mono; [apply (wp_syncLoop false GpX)|].
  intros [] st1 [HS1 HG]. eapply wp_mono; [apply (wp_syncLoop true VecD)|].
  intros [] st2 [HS2 HV]. apply HQ; [by etrans|].
  assert (Bound E st2) as HB2 by (by eapply syncStep_Bound, syncStep_Bound).
  assert (hwRegs_ st2 = hwRegs_ st) as Hh2.
  { by rewrite (syncStep_hwRegs _ _ HS2), (syncStep_hwRegs _ _ HS1). }
  assert (hwRegs_ st1 = hwRegs_ st) as Hh1 by apply (syncStep_hwRegs _ _ HS1).
  intros i s' Hl' Hne Hloc.
  assert (isValid (localGpX s') → synced s') as HGp.
  { intros Hv. destruct (Bound_local st2 i s' GpX HB2 Hl' Hv)
      as [Hc (Ht & Hhw & _)].
    destruct (isTemp_in_range _ Ht) as [Hr Hin]. rewrite Hc in Hr, Hin.
    destruct HS2 as [HF _].
    destruct (Forall2_lookup_r _ _ _ _ _ HF Hl') as (s1 & Hl1 & Hfl).
    eapply flagsUp_synced; [done|].
    assert (hwRegs_ st !! combinedIndex (HWReg_of (indexInClass (localGpX s'))
                                           GpX) = Some (FRIdx i)) as Hhw0.
    { simpl in Hr. cbn [HWReg_of]. rewrite <- Hr. by rewrite <- Hh2. }
    by destruct (HG _ i s1 Hin Hhw0 Hne Hl1) as [[[=] _]|Hs]. }
  destruct Hloc as [Hv|Hv]; [auto|].
  destruct (Bound_local st2 i s' VecD HB2 Hl' Hv) as [Hc (Ht & Hhw & _)].
  destruct (isTemp_in_range _ Ht) as [Hr Hin]. rewrite Hc in Hr, Hin.
  assert (hwRegs_ st1 !! combinedIndex (HWReg_of (indexInClass (localVecD s'))
                                          VecD) = Some (FRIdx i)) as Hhw0.
  { simpl in Hr. cbn [HWReg_of]. rewrite <- Hr. by rewrite Hh1, <- Hh2. }
  destruct (HV _ i s' Hin Hhw0 Hne Hl') as [[_ Hgx]|Hs]; auto.
Qed.

(** After a sync pass, every frame register that had an authoritative
    location is synced, the exempted one apart. *)
Lemma syncAllTempExcept_synced ex X (Q : unit → Emitter → Prop) st :
  Bound E st → AuthExcept X st →
  (∀ st', syncStep st st' → Bound E st' → SyncedExcept (ex :: X) st' →
          Q () st') →
  wp (syncAllTempExcept E ex) Q st.
Proof.
  intros HB HA HQ. apply wp_syncAllTempExcept; [done|].
  intros st' HS Hsync. apply HQ; [done|by eapply syncStep_Bound|].
  intros i s' Hl' Hi.
  apply not_elem_of_cons in Hi as [Hne HX].
  destruct (HS) as [HF _].
  destruct (Forall2_lookup_r _ _ _ _ _ HF Hl') as (s & Hl & Hfl).
  destruct (HA i s Hl HX) as [Hloc|Hs]; [|by eapply flagsUp_synced].
  apply (Hsync i s' Hl'); [congruence|].
  destruct Hfl as (_ & _ & _ & HG & HV & _). unfold hasLocal.
  by rewrite HG, HV.
Qed.

(** ** Synced frame registers stay synced *)

Lemma keeps_of_sameView X {A} (m : M A) : Pres sameView m → Pres (keeps X) m.
Proof. apply Pres_weaken, sameView_keeps. Qed.
Lemma keeps_of_syncStep X {A} (m : M A) : Pres syncStep m → Pres (keeps X) m.
Proof. apply Pres_weaken, syncStep_keeps. Qed.

Lemma keeps_insert X st i s s' :
  frameRegs_ st !! i = Some s → (FRIdx i ∈ X ∨ (synced s → synced s')) →
  keeps X st (with_frameRegs (<[i := s']> (frameRegs_ st)) st).
Proof.
  intros Hl H. split; simpl; [by rewrite length_insert|].
  intros j s1 s2 Hj Hl1 Hl2. destruct (decide (j = i)) as [->|Hne].
  - rewrite list_lookup_insert_eq in Hl2 by (by eapply lookup_lt_Some).
    injection Hl2 as <-. destruct H as [?|H]; [done|].
    rewrite Hl in Hl1. by injection Hl1 as <-.
  - rewrite list_lookup_insert_ne in Hl2 by done.
    rewrite Hl1 in Hl2. by injection Hl2 as <-.
Qed.

Lemma keeps_updFR X fr f :
  (∀ s, synced s → synced (f s)) → Pres (keeps X) (updFR fr f).
Proof.
  intros H. apply Pres_updFR. intros st i s _ Hl.
  eapply keeps_insert; [done|]. right. apply H.
Qed.
Lemma keeps_updFR_in X fr f : fr ∈ X → Pres (keeps X) (updFR fr f).
Proof.
  intros H. apply Pres_updFR. intros st i s -> Hl.
  eapply keeps_insert; [done|]. by left.
Qed.

Lemma keeps_ra_alloc X TAG pr : Pres (keeps X) (ra_alloc TAG pr).
Proof.
  intros st x st'. unfold ra_alloc.
  destruct (TempRegAlloc.alloc pr (pool TAG st)) as [[r ra']|];
    intros [= <- <-]; [|reflexivity].
  apply keeps_frameRegs. by destruct TAG.
Qed.
#[local] Hint Resolve keeps_ra_alloc : pres.

Ltac solve_keeps :=
  repeat first
    [ pres_step
    | solve [eauto with pres]
    | apply keeps_of_sameView; solve [eauto with pres]
    | apply keeps_of_syncStep; solve [eauto with pres]
    | apply Pres_modify; intros ?; apply keeps_frameRegs; reflexivity
    | apply keeps_updFR; intros ?; unfold synced; simpl; intros [[??]|?];
      solve [by left | by right]
    | apply keeps_updFR_in; set_solver ].

Lemma keeps_setContains X r fr : Pres (keeps X) (setContains r fr).
Proof. unfold setContains. solve_keeps. Qed.
#[local] Hint Resolve keeps_setContains : pres.

Lemma keeps_freeReg X r : Pres (keeps X) (freeReg E r).
Proof. unfold freeReg. solve_keeps. Qed.
#[local] Hint Resolve keeps_freeReg : pres.

Lemma keeps_spillTempReg X r : Pres (keeps X) (spillTempReg E r).
Proof. unfold spillTempReg, _storeHWRegToFrame. solve_keeps. Qed.
#[local] Hint Resolve keeps_spillTempReg : pres.

Lemma keeps_syncAndFreeTempReg X r : Pres (keeps X) (syncAndFreeTempReg E r).
Proof. unfold syncAndFreeTempReg. solve_keeps. Qed.

Lemma keeps_freeFRTemp X fr : Pres (keeps X) (freeFRTemp E fr).
Proof. unfold freeFRTemp. solve_keeps. Qed.
#[local] Hint Resolve keeps_syncAndFreeTempReg keeps_freeFRTemp : pres.

Lemma keeps_freeAllTempExcept X ex : Pres (keeps X) (freeAllTempExcept E ex).
Proof. unfold freeAllTempExcept, freeOneTemp. solve_keeps. Qed.

Lemma keeps_assignAllocatedLocalHWReg X fr r :
  Pres (keeps X) (assignAllocatedLocalHWReg fr r).
Proof. unfold assignAllocatedLocalHWReg. solve_keeps. Qed.
#[local] Hint Resolve keeps_freeAllTempExcept
  keeps_assignAllocatedLocalHWReg : pres.

Lemma keeps_allocTemp X TAG pr : Pres (keeps X) (_allocTemp E TAG pr).
Proof.
  unfold _allocTemp. solve_keeps.
  apply Pres_modify. intros st. apply keeps_frameRegs. by destruct TAG.
Qed.
#[local] Hint Resolve keeps_allocTemp : pres.

Lemma keeps_getOrAllocFRInVecD X fr load :
  Pres (keeps X) (getOrAllocFRInVecD E fr load).
Proof. unfold getOrAllocFRInVecD, allocTempVecD. solve_keeps. Qed.
Lemma keeps_getOrAllocFRInGpX X fr load :
  Pres (keeps X) (getOrAllocFRInGpX E fr load).
Proof. unfold getOrAllocFRInGpX, allocTempGpX. solve_keeps. Qed.
Lemma keeps_getOrAllocFRInAnyReg X fr load pr :
  Pres (keeps X) (getOrAllocFRInAnyReg E fr load pr).
Proof. unfold getOrAllocFRInAnyReg, allocTempGpX. solve_keeps. Qed.
#[local] Hint Resolve keeps_getOrAllocFRInVecD keeps_getOrAllocFRInGpX
  keeps_getOrAllocFRInAnyReg : pres.

Lemma keeps_frUpdatedWithHWReg X fr r ty :
  fr ∈ X → Pres (keeps X) (frUpdatedWithHWReg E fr r ty).
Proof. intros H. unfold frUpdatedWithHWReg, frUpdateType. solve_keeps. Qed.

Lemma keeps_movFRFromHW X dst src ty :
  dst ∈ X → Pres (keeps X) (movFRFromHW E dst src ty).
Proof.
  intros H. unfold movFRFromHW, frUpdateType.
  pose proof (keeps_frUpdatedWithHWReg X dst) as Hupd.
  solve_keeps.
Qed.

Lemma keeps_placeInFrame X slot src :
  slot ∈ X → Pres (keeps X) (placeInFrame E slot src).
Proof.
  intros H. unfold placeInFrame.
  pose proof (keeps_movFRFromHW X slot) as Hmov. solve_keeps.
Qed.

Lemma keeps_loadConstBits64 X fr bits ty :
  fr ∈ X → Pres (keeps X) (loadConstBits64 E fr bits ty).
Proof.
  intros H. unfold loadConstBits64.
  pose proof (keeps_frUpdatedWithHWReg X fr) as Hupd. solve_keeps.
Qed.

(** ** The binding invariants along the call sequences *)

Lemma flagsUp_authoritative s s' :
  flagsUp s s' → authoritative s → authoritative s'.
Proof.
  intros Hf [Hloc|Hs]; [left|right; by eapply flagsUp_synced].
  destruct Hf as (_ & _ & _ & HG & HV & _). unfold hasLocal.
  by rewrite HG, HV.
Qed.

Lemma syncStep_AuthExcept X st st' :
  syncStep st st' → AuthExcept X st → AuthExcept X st'.
Proof.
  intros [HF _] HA i s' Hl' Hi.
  destruct (Forall2_lookup_r _ _ _ _ _ HF Hl') as (s & Hl & Hfl).
  eapply flagsUp_authoritative; [done|]. by eapply HA.
Qed.

Lemma AuthExcept_insert_drop X st st' i s' :
  AuthExcept X st → frameRegs_ st' = <[i := s']> (frameRegs_ st) →
  AuthExcept (FRIdx i :: X) st'.
Proof.
  intros HA Hfr j sj Hlj Hj. rewrite Hfr in Hlj.
  apply not_elem_of_cons in Hj as [Hne HX].
  rewrite list_lookup_insert_ne in Hlj by congruence. by eapply HA.
Qed.

(** [J X st]: the invariants that the call sequences maintain. *)
Lemma wp_sameView_J {A} (m : M A) X (Q : A → Emitter → Prop) st :
  Pres sameView m → Bound E st → AuthExcept X st →
  (∀ x st', sameView st st' → Bound E st' → AuthExcept X st' → Q x st') →
  wp m Q st.
Proof.
  intros Hm HB HA HQ. eapply Pres_wp; [done|]. intros x st' Hv.
  apply HQ; [done|by eapply sameView_Bound|].
  eapply AuthExcept_frameRegs; [|done]. by apply sameView_frameRegs.
Qed.

Lemma wp_syncStep_J {A} (m : M A) X (Q : A → Emitter → Prop) st :
  Pres syncStep m → Bound E st → AuthExcept X st →
  (∀ x st', syncStep st st' → Bound E st' → AuthExcept X st' → Q x st') →
  wp m Q st.
Proof.
  intros Hm HB HA HQ. eapply Pres_wp; [done|]. intros x st' Hv.
  apply HQ; [done|by eapply syncStep_Bound|by eapply syncStep_AuthExcept].
Qed.

Lemma allocEffect_AuthExcept X TAG st st' :
  allocEffect E TAG st st' → AuthExcept X st → AuthExcept X st'.
Proof.
  intros [[Hfr _]|(v & i & s & _ & _ & _ & Hl & _ & Hfr & _)] HA.
  - by eapply AuthExcept_frameRegs.
  - eapply AuthExcept_insert; [done..|]. intros _.
    apply spilled_authoritative.
Qed.

(** Allocating a temporary for [fr] and binding it. *)
Lemma wp_alloc_assign {B} fr X (Q : B → Emitter → Prop) st
    (k : HWReg → M B) :
  EnvOK E → Bound E st → AuthExcept X st →
  (∀ hw st', isValid hw → Bound E st' → AuthExcept X st' →
             wp (k hw) Q st') →
  wp (hw ← _allocTemp E GpX None; assignAllocatedLocalHWReg fr hw ;; k hw)
     Q st.
Proof.
  intros HE HB HA HQ. apply wp_bind, wp_allocTemp; [done..|].
  intros hw st1 Ht Hc Hav Hfree Heff HB1.
  apply wp_bind. rewrite <- Hc in Hav, Hfree.
  apply wp_assignAllocatedLocalHWReg; [done..|].
  intros st2 i s -> Hl Hfr _ HB2.
  apply HQ; [by apply isTemp_valid|done|].
  eapply AuthExcept_insert; [by eapply allocEffect_AuthExcept|done..|].
  intros _. left. apply isTemp_valid in Ht.
  unfold hasLocal. destruct (classOf hw); simpl; auto.
Qed.

Lemma wp_updFR_J fr f X (Q : unit → Emitter → Prop) st :
  Bound E st → AuthExcept X st →
  (∀ s, localGpX (f s) = localGpX s ∧ localVecD (f s) = localVecD s ∧
        (authoritative s → authoritative (f s))) →
  (∀ st', Bound E st' → AuthExcept X st' → Q () st') →
  wp (updFR fr f) Q st.
Proof.
  intros HB HA Hf HQ. apply wp_updFR. intros i s -> Hl.
  destruct (Hf s) as (HG & HV & Hauth). apply HQ.
  - by apply (Bound_flags st _ i s (f s)).
  - by eapply AuthExcept_insert.
Qed.

Lemma wp_getOrAllocFRInAnyReg fr load pr X (Q : HWReg → Emitter → Prop) st :
  EnvOK E → Bound E st → AuthExcept X st →
  (∀ hw st', isValid hw → Bound E st' → AuthExcept X st' → Q hw st') →
  wp (getOrAllocFRInAnyReg E fr load pr) Q st.
Proof.
  intros HE HB HA HQ. unfold getOrAllocFRInAnyReg, allocTempGpX.
  apply wp_bind.
  eapply wp_sameView_J; [apply sameView_isFRInRegister|done..|].
  intros tmp st1 _ HB1 HA1.
  destruct (isValid tmp) eqn:Hv; [apply wp_ret, HQ; by try apply Is_true_true|].
  apply wp_alloc_assign with (X := X); [done..|].
  intros hw st2 Hhw HB2 HA2. apply wp_bind.
  apply wp_when; [intros _|intros _; by apply wp_ret, HQ].
  apply wp_bind.
  eapply wp_sameView_J; [apply sameView_loadFrame|done..|].
  intros [] st3 _ HB3 HA3. eapply wp_updFR_J; [done..| |].
  - intros s. split_and!; [done..|]. intros _. right. by right.
  - intros st4 HB4 HA4. by apply wp_ret, HQ.
Qed.

Lemma wp_useReg_J r X (Q : HWReg → Emitter → Prop) st :
  Bound E st → AuthExcept X st →
  (∀ st', Bound E st' → AuthExcept X st' → Q r st') →
  wp (useReg E r) Q st.
Proof.
  intros HB HA HQ hw st' Hrun.
  destruct (useReg_fields r st) as (st2 & Hrun2 & _).
  assert (hw = r ∧ st' = st2) as [-> ->]
    by (rewrite Hrun2 in Hrun; by injection Hrun).
  eapply (wp_sameView_J (useReg E r) X (λ _ st', Q r st'));
    [apply sameView_useReg|done|done| |exact Hrun2].
  intros ? st3 _ HB3 HA3. by apply HQ.
Qed.

Lemma wp_getOrAllocFRInGpX fr load X (Q : HWReg → Emitter → Prop) st :
  EnvOK E → Bound E st → AuthExcept X st →
  (∀ hw st', isValid hw → Bound E st' → AuthExcept X st' → Q hw st') →
  wp (getOrAllocFRInGpX E fr load) Q st.
Proof.
  intros HE HB HA HQ. unfold getOrAllocFRInGpX, allocTempGpX.
  apply wp_bind, wp_frState. intros i s -> Hl.
  destruct (isValid (localGpX s)) eqn:Hv.
  { eapply wp_useReg_J; [done..|]. intros st1 HB1 HA1.
    apply HQ; by try apply Is_true_true. }
  destruct (isValidGpX (globalReg s)) eqn:Hg.
  { assert (isValid (globalReg s)) as Hgv by (by destruct (globalReg s)).
    apply wp_bind. apply wp_when; [intros _|intros _; by apply wp_ret, HQ].
    apply wp_bind, wp_assert. intros _. apply wp_bind.
    eapply wp_sameView_J; [apply sameView_movHWReg|done..|].
    intros [] st1 _ HB1 HA1. eapply wp_updFR_J; [done..| |].
    - intros s1. split_and!; [done..|]. intros [Hloc|Hs]; [by left|right].
      destruct Hs as [[H1 H2]|H]; [by left|by right].
    - intros st2 HB2 HA2. by apply wp_ret, HQ. }
  apply wp_alloc_assign with (X := X); [done..|].
  intros hw st2 Hhw HB2 HA2. apply wp_bind.
  apply wp_when; [intros _|intros _; by apply wp_ret, HQ].
  apply wp_bind, wp_frState. intros ? s2 [= <-] Hl2.
  destruct (isValid (localVecD s2)).
  { eapply wp_sameView_J; [apply sameView_movHWReg|done..|].
    intros [] st3 _ HB3 HA3. by apply wp_ret, HQ. }
  destruct (isValidVecD (globalReg s2)).
  { apply wp_bind, wp_assert. intros _.
    eapply wp_sameView_J; [apply sameView_movHWReg|done..|].
    intros [] st3 _ HB3 HA3. by apply wp_ret, HQ. }
  apply wp_bind.
  eapply wp_sameView_J; [apply sameView_loadFrame|done..|].
  intros [] st3 _ HB3 HA3. eapply wp_updFR_J; [done..| |].
  - intros s3. split_and!; [done..|]. intros _. right. by right.
  - intros st4 HB4 HA4. by apply wp_ret, HQ.
Qed.

Lemma wp_frUpdateType_J fr ty X (Q : unit → Emitter → Prop) st :
  Bound E st → AuthExcept X st →
  (∀ st', Bound E st' → AuthExcept X st' → Q () st') →
  wp (frUpdateType fr ty) Q st.
Proof.
  intros HB HA HQ. unfold frUpdateType. eapply wp_updFR_J; [done..| |done].
  intros s. by split_and!.
Qed.

Lemma wp_frUpdatedWithHWReg_J fr hw ty X (Q : unit → Emitter → Prop) st :
  EnvOK E → Bound E st → AuthExcept (fr :: X) st → isValid hw →
  (∀ st', Bound E st' → AuthExcept X st' → Q () st') →
  wp (frUpdatedWithHWReg E fr hw ty) Q st.
Proof.
  intros HE HB HA Hv HQ. apply wp_frUpdatedWithHWReg; [done..|].
  intros st' i s -> Hl Hreg Hfr _ HB'. apply HQ; [done|].
  eapply AuthExcept_insert_auth; [done..|].
  by apply updatedWith_authoritative.
Qed.

Lemma wp_movFRFromHW_J dst src ty X (Q : unit → Emitter → Prop) st :
  EnvOK E → Bound E st → AuthExcept (dst :: X) st →
  (∀ st', Bound E st' → AuthExcept X st' → Q () st') →
  wp (movFRFromHW E dst src ty) Q st.
Proof.
  intros HE HB HA HQ. unfold movFRFromHW.
  apply wp_bind, wp_frState. intros i s -> Hl.
  destruct (isValid (localGpX s)) eqn:Hv1; [|
    destruct (isValid (localVecD s)) eqn:Hv2; [|
      destruct (isValid (globalReg s)) eqn:Hv3]].
  1-3: apply wp_bind;
    (eapply wp_sameView_J; [apply sameView_movHWReg|done..|]);
    intros [] st1 _ HB1 HA1;
    (apply wp_frUpdatedWithHWReg_J with (X := X); [done..| |done]);
    by apply Is_true_true.
  apply wp_bind.
  eapply wp_syncStep_J; [apply syncStep_storeHWRegToFrame|done..|].
  intros [] st1 _ HB1 HA1. apply wp_bind.
  apply wp_mono with (Q := λ _ st2, Bound E st2 ∧ AuthExcept (FRIdx i :: X) st2).
  { destruct ty; [by eapply wp_frUpdateType_J|by apply wp_ret]. }
  intros [] st2 [HB2 HA2]. apply wp_updFR. intros ? s2 [= <-] Hl2. apply HQ.
  - by apply (Bound_flags st2 _ i s2 (set_frameUpToDate true s2)).
  - eapply AuthExcept_insert_auth; [done..|]. right. by right.
Qed.

Lemma wp_freeFRTemp_J fr X (Q : unit → Emitter → Prop) st :
  EnvOK E → Bound E st → AuthExcept X st →
  (∀ st', Bound E st' → AuthExcept (fr :: X) st' → Q () st') →
  wp (freeFRTemp E fr) Q st.
Proof.
  intros HE HB HA HQ. apply wp_freeFRTemp; [done..|].
  intros st' i s -> Hl Hfr _ HB'. apply HQ; [done|].
  by eapply AuthExcept_insert_drop.
Qed.

Lemma wp_placeInFrame_J slot src X (Q : unit → Emitter → Prop) st :
  EnvOK E → Bound E st → AuthExcept X st →
  (∀ st', Bound E st' → AuthExcept X st' → Q () st') →
  wp (placeInFrame E slot src) Q st.
Proof.
  intros HE HB HA HQ. unfold placeInFrame.
  apply wp_when; [intros _|intros _; by apply HQ].
  apply wp_bind, wp_freeFRTemp_J with (X := X); [done..|].
  intros st1 HB1 HA1. apply wp_bind.
  apply wp_getOrAllocFRInAnyReg with (X := slot :: X); [done..|].
  intros reg st2 _ HB2 HA2. apply wp_bind.
  eapply Pres_wp; [apply (Pres_frState eq)|]. intros s ? <-.
  by apply wp_movFRFromHW_J with (X := X).
Qed.

Lemma wp_loadConstBits64_J fr bits ty X (Q : unit → Emitter → Prop) st :
  EnvOK E → Bound E st → AuthExcept X st →
  (∀ st', Bound E st' → AuthExcept X st' → Q () st') →
  wp (loadConstBits64 E fr bits ty) Q st.
Proof.
  intros HE HB HA HQ. unfold loadConstBits64. apply wp_bind.
  apply wp_getOrAllocFRInGpX with (X := X); [done..|].
  intros hw st1 Hhw HB1 HA1. apply wp_bind.
  eapply wp_sameView_J; [apply sameView_loadBits64InGp|done..|].
  intros [] st2 _ HB2 HA2.
  apply wp_frUpdatedWithHWReg_J with (X := X); [done| done| |done|done].
  eapply AuthExcept_weaken; [done|]. set_solver.
Qed.

(** ** Calls into the runtime *)

Lemma SyncedExcept_weaken X Y st :
  SyncedExcept X st → X ⊆ Y → SyncedExcept Y st.
Proof. intros HS Hsub j sj Hlj Hj. eapply HS; [done|]. set_solver. Qed.

Lemma memSynced_frame s : frameUpToDate (memSynced s).
Proof. unfold memSynced. by destruct (frameUpToDate s) eqn:Hup; [rewrite Hup|]. Qed.

(** [syncToMem(fr)] leaves [fr] synced. *)
Lemma wp_syncToMem_synced fr X (Q : unit → Emitter → Prop) st :
  SyncedExcept X st →
  (∀ st', SyncedExcept (list_difference X [fr]) st' → Q () st') →
  wp (syncToMem E fr) Q st.
Proof.
  intros HS HQ. apply wp_syncToMem. intros st' i s -> Hl Hfr _.
  apply HQ. intros j sj Hlj Hj. rewrite Hfr in Hlj.
  destruct (decide (j = i)) as [->|Hne].
  - rewrite list_lookup_insert_eq in Hlj by (by eapply lookup_lt_Some).
    injection Hlj as <-. right. apply memSynced_frame.
  - rewrite list_lookup_insert_ne in Hlj by done.
    apply (HS j sj Hlj). intros Hin. apply Hj.
    apply list_elem_of_difference. split; [done|].
    intros [= ->]%list_elem_of_singleton. done.
Qed.

Lemma wp_syncAndFreeTempReg_J r X (Q : unit → Emitter → Prop) st :
  EnvOK E → Bound E st → AuthExcept X st →
  (∀ st', Bound E st' → AuthExcept X st' → Q () st') →
  wp (syncAndFreeTempReg E r) Q st.
Proof.
  intros HE HB HA HQ. unfold syncAndFreeTempReg.
  destruct (negb (isValid r) || negb (isTemp E r)); [by apply wp_ret, HQ|].
  apply wp_bind, wp_contains. intros fr Hfr.
  destruct (negb (FR_isValid fr)); [by apply wp_ret, HQ|].
  apply wp_bind. eapply wp_mono; [by apply spillTempReg_spec|].
  intros [] st1 (i & s & Hhw & Hl & _ & _ & Hfr1 & Hhw1 & _ & _ & _ & HB1).
  assert (AuthExcept X st1) as HA1.
  { eapply AuthExcept_insert; [done..|]. intros _.
    apply spilled_authoritative. }
  assert (hwRegs_ st1 !! combinedIndex r = Some FRInvalid) as Hcl.
  { rewrite Hhw1. apply list_lookup_insert_eq. by eapply lookup_lt_Some. }
  apply wp_freeReg; [done..| | |].
  - intros _. by apply HQ.
  - intros st2 _ _ Hfr2 _ HB2. apply HQ; [done|].
    by eapply AuthExcept_frameRegs.
  - intros st2 j sj _ Hj. congruence.
Qed.

Ltac keeps_rest HS :=
  eapply (Pres_wp (keeps [])); [solve_keeps|];
  let HK := fresh "HK" in
  intros [] ? HK;
  eapply SyncedExcept_weaken;
    [exact (SyncedExcept_keeps _ _ _ _ HS HK)|set_solver].

Lemma Pres_syncLoop_J {A} (l : list A) (f : A → M unit) X
    (Q : unit → Emitter → Prop) st :
  Bound E st → AuthExcept X st →
  (∀ x st1, Bound E st1 → AuthExcept X st1 →
     wp (f x) (λ _ st2, Bound E st2 ∧ AuthExcept X st2) st1) →
  (∀ st', Bound E st' → AuthExcept X st' → Q () st') →
  wp (forEach l f) Q st.
Proof.
  intros HB HA Hf HQ.
  eapply wp_mono;
    [apply (wp_forEach (λ st1, Bound E st1 ∧ AuthExcept X st1)); [done|]|].
  - intros x st1 _ [HB1 HA1]. by apply Hf.
  - intros [] st' [HB' HA']. by apply HQ.
Qed.


(** ** Block boundaries *)

Lemma twp_Pres {A} (R : Emitter → Emitter → Prop) (m : M A) st :
  Pres R m → twp m (λ _ _, True) st → twp m (λ _ st', R st st') st.
Proof. intros HP (x & st' & Hr & _). exists x, st'. split; [done|]. eauto. Qed.

Lemma Owned_lookup st r :
  EnvOK E → Owned E st → isTemp E r →
  ∃ fr, hwRegs_ st !! combinedIndex r = Some fr.
Proof.
  intros HE [HL _] Ht. apply lookup_lt_is_Some_2. rewrite HL.
  pose proof (isTemp_index _ HE Ht). destruct r; simpl in *; lia.
Qed.

(** One iteration of [syncAllTempExcept] returns. *)
Lemma syncOneTemp_returns ex hw st :
  EnvOK E → Owned E st → isTemp E hw →
  twp (syncOneTemp E (isVecD hw) ex hw) (λ _ _, True) st.
Proof.
  intros HE HO Ht. unfold syncOneTemp.
  destruct (Owned_lookup st hw HE HO Ht) as [fr Hfr].
  apply twp_bind. eapply twp_contains; [done|].
  destruct (negb (FR_isValid fr) || bool_decide (fr = ex)) eqn:Hskip;
    [by apply twp_ret|].
  destruct fr as [|i]; [done|].
  destruct HO as [_ HO]. destruct (HO hw i Ht Hfr) as (s & Hl & Hloc).
  apply twp_bind. eapply twp_frState; [done|].
  apply twp_bind, twp_assert.
  { apply bool_decide_eq_true. rewrite <- Hloc at 2. unfold classOf.
    by destruct (isVecD hw). }
  destruct (isVecD hw && isValid (localGpX s)); [by apply twp_ret|].
  destruct (isValid (globalReg s)).
  - apply twp_when; [intros _|done].
    apply twp_bind, twp_movHWReg_false.
    intros st1 Hfr1 _ _ _ _. eapply twp_updFR; [by rewrite Hfr1|done].
  - apply twp_when; [intros _|done].
    unfold _storeHWRegToFrame, _storeFrame.
    apply twp_bind, twp_emit. by eapply twp_updFR.
Qed.

Lemma twp_syncLoop TAG ex st :
  EnvOK E → Owned E st →
  twp (forEach (rangeOf (rangeOfClass E TAG))
         (λ r, syncOneTemp E (isVecD (HWReg_of r TAG)) ex (HWReg_of r TAG)))
      (λ _ st', syncStep st st') st.
Proof.
  intros HE HO. apply twp_forEach; [reflexivity|].
  intros r st1 Hr HS1.
  eapply twp_mono;
    [apply (twp_Pres syncStep); [apply syncStep_syncOneTemp|]|].
  - apply syncOneTemp_returns; [done|by eapply syncStep_Owned|].
    by apply in_range_isTemp.
  - intros [] st2 HS2. by etrans.
Qed.

(** [syncAllTempExcept] returns, whatever it is asked to exempt. *)
Lemma twp_syncAllTempExcept ex st :
  EnvOK E → Owned E st →
  twp (syncAllTempExcept E ex) (λ _ st', syncStep st st') st.
Proof.
  intros HE HO. unfold syncAllTempExcept. apply twp_bind.
  eapply twp_mono; [apply (twp_syncLoop GpX ex st HE HO)|].
  intros [] st1 HS1.
  eapply twp_mono;
    [apply (twp_syncLoop VecD ex st1 HE); by eapply syncStep_Owned|].
  intros [] st2 HS2. by etrans.
Qed.

Lemma clearOwner_length r t : length (clearOwner r t) = length t.
Proof. unfold clearOwner. destruct (isValid r); by rewrite ?length_insert. Qed.

Lemma clearOwner_lookup r t k fr :
  clearOwner r t !! k = Some fr →
  fr = FRInvalid ∨ (t !! k = Some fr ∧ (isValid r → k ≠ combinedIndex r)).
Proof.
  unfold clearOwner. destruct (isValid r) eqn:Hv; [|by right].
  intros [(-> & <- & _)|[Hne Hl]]%list_lookup_insert_Some; [by left|].
  right. split; [done|]. intros _. congruence.
Qed.

Lemma clearOwner_cleared r t :
  isValid r → (combinedIndex r < length t)%nat →
  clearOwner r t !! combinedIndex r = Some FRInvalid.
Proof.
  intros Hv%Is_true_true Hlt. unfold clearOwner. rewrite Hv.
  by apply list_lookup_insert_eq.
Qed.

Lemma clearOwner_stable r t k :
  t !! k = Some FRInvalid → clearOwner r t !! k = Some FRInvalid.
Proof.
  intros Hl. unfold clearOwner. destruct (isValid r); [|done].
  destruct (decide (combinedIndex r = k)) as [<-|Hne].
  - apply list_lookup_insert_eq. by eapply lookup_lt_Some.
  - by rewrite list_lookup_insert_ne.
Qed.

(** [freeFRTemp(fr)] returns and releases both local registers of [fr]. *)
Lemma twp_freeFRTemp i s (Q : unit → Emitter → Prop) st :
  EnvOK E → Bound E st → Owned E st → frameRegs_ st !! i = Some s →
  (∀ st',
     frameRegs_ st' =
       <[i := set_localVecD HWInvalid (set_localGpX HWInvalid s)]>
         (frameRegs_ st) →
     hwRegs_ st' = clearOwner (localVecD s) (clearOwner (localGpX s) (hwRegs_ st)) →
     a st' = a st → Bound E st' → Q () st') →
  twp (freeFRTemp E (FRIdx i)) Q st.
Proof.
  intros HE HB HO Hl HQ.
  cut (twp (freeFRTemp E (FRIdx i))
         (λ _ st', hwRegs_ st' =
            clearOwner (localVecD s) (clearOwner (localGpX s) (hwRegs_ st))) st).
  { intros ([] & st' & Hrun & Hhw). exists (), st'. split; [done|].
    revert Hhw. revert st' Hrun.
    apply (wp_unit (freeFRTemp E (FRIdx i))
             (λ st', hwRegs_ st' = _ → Q () st')).
    apply wp_freeFRTemp; [done..|].
    intros st' ? s' [= <-] Hl'. rewrite Hl in Hl'. injection Hl' as <-.
    intros Hfr Ha HB' Hhw. by apply HQ. }
  unfold freeFRTemp. apply twp_bind. eapply twp_frState; [done|].
  assert (∀ TAG, isValid (localOf TAG s) →
            isTemp E (localOf TAG s) ∧ classOf (localOf TAG s) = TAG) as Hloc.
  { intros TAG Hv. destruct (Bound_local st i s TAG HB Hl Hv) as [Hc (Ht & _)].
    done. }
  apply twp_bind.
  apply twp_mono with
    (Q := λ _ st1, frameRegs_ st1 = <[i := set_localGpX HWInvalid s]>
                                      (frameRegs_ st) ∧
                   hwRegs_ st1 = clearOwner (localGpX s) (hwRegs_ st)).
  { unfold clearOwner. destruct (isValid (localGpX s)) eqn:Hv; simpl.
    - apply Is_true_true in Hv. destruct (Hloc GpX Hv) as [Ht Hc].
      simpl in Ht, Hc. pose proof (isTemp_class _ Ht) as Htc.
      unfold classOf in Hc. destruct (isVecD (localGpX s)); [done|].
      destruct (Owned_lookup st _ HE HO Ht) as [old Hold].
      apply twp_bind, twp_assert; [by apply Is_true_true|].
      apply twp_bind. eapply twp_setContains; [done|].
      apply twp_bind, twp_modify.
      eapply twp_updFR; [done|]. done.
    - apply twp_ret. split; [|done].
      apply not_valid_invalid in Hv.
      rewrite (proj1 (proj2 (proj2 (set_flag_id s))) Hv).
      by rewrite list_insert_id. }
  intros [] st1 [Hfr1 Hhw1].
  assert (frameRegs_ st1 !! i = Some (set_localGpX HWInvalid s)) as Hl1.
  { rewrite Hfr1. apply list_lookup_insert_eq. by eapply lookup_lt_Some. }
  apply twp_bind. eapply twp_frState; [done|]. simpl.
  unfold clearOwner at 1. destruct (isValid (localVecD s)) eqn:Hv; simpl.
  - apply Is_true_true in Hv. destruct (Hloc VecD Hv) as [Ht Hc].
    simpl in Ht, Hc. pose proof (isTemp_class _ Ht) as Htc.
    unfold classOf in Hc. destruct (isVecD (localVecD s)); [|done].
    destruct (Owned_lookup st _ HE HO Ht) as [old Hold].
    assert (is_Some (hwRegs_ st1 !! combinedIndex (localVecD s)))
      as [old1 Hold1].
    { apply lookup_lt_is_Some_2. rewrite Hhw1, clearOwner_length.
      by eapply lookup_lt_Some. }
    apply twp_bind, twp_assert; [by apply Is_true_true|].
    apply twp_bind. eapply twp_setContains; [done|].
    apply twp_bind, twp_modify.
    eapply twp_updFR; [done|]. simpl. by rewrite Hhw1.
  - by apply twp_ret.
Qed.

Lemma freeFRTemp_Owned st st' i s :
  EnvOK E → Bound E st → Owned E st → frameRegs_ st !! i = Some s →
  frameRegs_ st' =
    <[i := set_localVecD HWInvalid (set_localGpX HWInvalid s)]>
      (frameRegs_ st) →
  hwRegs_ st' = clearOwner (localVecD s) (clearOwner (localGpX s) (hwRegs_ st)) →
  Owned E st'.
Proof.
  intros HE HB [HL HO] Hl Hfr Hhw. split.
  { by rewrite Hhw, !clearOwner_length. }
  intros r j Ht Hr. rewrite Hhw in Hr.
  apply clearOwner_lookup in Hr as [[=]|[Hr HneV]].
  apply clearOwner_lookup in Hr as [[=]|[Hr HneG]].
  destruct (HO r j Ht Hr) as (sj & Hlj & Hloc).
  destruct (decide (j = i)) as [->|Hne].
  - rewrite Hl in Hlj. injection Hlj as <-.
    pose proof (isTemp_valid _ Ht) as Hv. exfalso.
    destruct (classOf r); simpl in Hloc; rewrite Hloc in *;
      [by apply HneG|by apply HneV].
  - exists sj. split; [|done]. rewrite Hfr.
    by rewrite list_lookup_insert_ne.
Qed.

(** One iteration of [freeAllTempExcept({})]: afterwards the register it
    visited has no owner. *)
Lemma twp_freeOneTemp hw st :
  EnvOK E → Bound E st → Owned E st → isTemp E hw →
  twp (freeOneTemp E FRInvalid hw)
      (λ _ st', Bound E st' ∧ Owned E st' ∧
         (∀ k, hwRegs_ st !! k = Some FRInvalid →
               hwRegs_ st' !! k = Some FRInvalid) ∧
         hwRegs_ st' !! combinedIndex hw = Some FRInvalid) st.
Proof.
  intros HE HB HO Ht. unfold freeOneTemp.
  destruct (Owned_lookup st hw HE HO Ht) as [fr Hfr].
  apply twp_bind. eapply twp_contains; [done|].
  destruct fr as [|i]; simpl; [apply twp_ret; by split_and!|].
  destruct (proj2 HO hw i Ht Hfr) as (s & Hl & Hloc).
  apply twp_freeFRTemp with (s := s); [done..|].
  intros st' Hfr' Hhw' _ HB'. split_and!; [done| | |].
  - by apply (freeFRTemp_Owned st st' i s).
  - intros k Hk. rewrite Hhw'. by do 2 apply clearOwner_stable.
  - rewrite Hhw'. pose proof (isTemp_valid _ Ht) as Hv.
    assert (combinedIndex hw < length (hwRegs_ st))%nat as Hlt
      by (by eapply lookup_lt_Some).
    destruct (classOf hw); simpl in Hloc; rewrite Hloc.
    + apply clearOwner_stable. by apply clearOwner_cleared.
    + apply clearOwner_cleared; [done|]. by rewrite clearOwner_length.
Qed.

Lemma twp_freeLoop TAG (D : nat → Prop) st :
  EnvOK E → Bound E st → Owned E st →
  (∀ k, D k → hwRegs_ st !! k = Some FRInvalid) →
  twp (forEach (rangeOf (rangeOfClass E TAG))
         (λ r, freeOneTemp E FRInvalid (HWReg_of r TAG)))
      (λ _ st', Bound E st' ∧ Owned E st' ∧
         (∀ k, D k → hwRegs_ st' !! k = Some FRInvalid) ∧
         ∀ r, r ∈ rangeOf (rangeOfClass E TAG) →
              hwRegs_ st' !! combinedIndex (HWReg_of r TAG) = Some FRInvalid)
      st.
Proof.
  intros HE HB HO HD.
  apply (twp_forEach_prefix
    (λ l1 st1, Bound E st1 ∧ Owned E st1 ∧
       (∀ k, D k → hwRegs_ st1 !! k = Some FRInvalid) ∧
       ∀ r, r ∈ l1 →
            hwRegs_ st1 !! combinedIndex (HWReg_of r TAG) = Some FRInvalid)).
  - split_and!; [done..|]. intros r Hr. by apply elem_of_nil in Hr.
  - intros l1 x l2 st1 Hl (HB1 & HO1 & HD1 & Hl1).
    eapply twp_mono; [apply twp_freeOneTemp; [done..|]|].
    + apply in_range_isTemp. rewrite Hl. set_solver.
    + intros [] st2 (HB2 & HO2 & Hst & Hx). split_and!; [done..| |].
      * intros k Hk. auto.
      * intros r [Hr|Hr%list_elem_of_singleton]%elem_of_app; [auto|].
        by subst r.
Qed.

(** [freeAllTempExcept({})] returns and leaves no frame register with a
    local register. *)
Lemma twp_freeAllTemp st :
  EnvOK E → Bound E st → Owned E st →
  twp (freeAllTempExcept E FRInvalid)
      (λ _ st', NoLocalExcept [] st') st.
Proof.
  intros HE HB HO. unfold freeAllTempExcept. apply twp_bind.
  eapply twp_mono; [apply (twp_freeLoop GpX (λ _, False)); done|].
  intros [] st1 (HB1 & HO1 & _ & HG).
  eapply twp_mono;
    [apply (twp_freeLoop VecD
              (λ k, ∃ r, r ∈ rangeOf (rangeOfClass E GpX) ∧
                         k = combinedIndex (HWReg_of r GpX))); [done..|]|].
  { intros k (r & Hr & ->). auto. }
  intros [] st2 (HB2 & HO2 & HG2 & HV2).
  intros i s Hl _.
  assert (∀ TAG, localOf TAG s = HWInvalid) as Hno.
  { intros TAG. destruct (isValid (localOf TAG s)) eqn:Hv;
      [|by apply not_valid_invalid].
    apply Is_true_true in Hv.
    destruct (Bound_local st2 i s TAG HB2 Hl Hv) as [Hc (Ht & Hhw & _)].
    destruct (isTemp_in_range _ Ht) as [Hr Hin]. rewrite Hc in Hr, Hin.
    rewrite Hr in Hhw. destruct TAG.
    - rewrite (HG2 _ (ex_intro _ _ (conj Hin eq_refl))) in Hhw. done.
    - rewrite (HV2 _ Hin) in Hhw. done. }
  split; [apply (Hno GpX)|apply (Hno VecD)].
Qed.

(** The loop of [newBasicBlock] over the frame registers. *)
Lemma twp_resetLoop st :
  NoLocalExcept [] st →
  twp (forEach (seq 0 (length (frameRegs_ st)))
         (λ i,
            updFR (FRIdx i) (λ s, set_localType (globalType s) s) ;;
            s ← frState (FRIdx i);
            assert (negb (isValid (localGpX s))) "!frState.localGpX" ;;
            assert (negb (isValid (localVecD s))) "!frState.localVecD"))
      (λ _ st', ∀ i s, frameRegs_ st' !! i = Some s →
                  localGpX s = HWInvalid ∧ localVecD s = HWInvalid ∧
                  localType s = globalType s) st.
Proof.
  intros HN.
  eapply twp_mono.
  - apply (twp_forEach_prefix
      (λ l1 st1, length (frameRegs_ st1) = length (frameRegs_ st) ∧
         NoLocalExcept [] st1 ∧
         ∀ i s, i ∈ l1 → frameRegs_ st1 !! i = Some s →
                localType s = globalType s)).
    + split_and!; [done..|]. intros i s Hi. by apply elem_of_nil in Hi.
    + intros l1 x l2 st1 Hl (HL1 & HN1 & HT1).
      assert (x < length (frameRegs_ st1))%nat as Hx.
      { rewrite HL1. assert (x ∈ seq 0 (length (frameRegs_ st))) as Hin
          by (rewrite Hl; set_solver).
        apply elem_of_seq in Hin. lia. }
      destruct (lookup_lt_is_Some_2 _ _ Hx) as [s Hs].
      destruct (HN1 x s Hs) as [HG HV]; [apply not_elem_of_nil|].
      apply twp_bind. eapply twp_updFR; [done|].
      apply twp_bind. eapply twp_frState.
      { simpl. by apply list_lookup_insert_eq. }
      simpl. apply twp_bind, twp_assert; [by rewrite HG|].
      apply twp_assert; [by rewrite HV|]. simpl.
      split_and!.
      * by rewrite length_insert.
      * intros j sj Hj _. simpl in Hj.
        apply list_lookup_insert_Some in Hj as [(-> & <- & _)|[Hne Hj]];
          [done|]. apply (HN1 j sj Hj), not_elem_of_nil.
      * intros j sj Hin Hj. simpl in Hj.
        apply list_lookup_insert_Some in Hj as [(-> & <- & _)|[Hne Hj]];
          [done|].
        apply elem_of_app in Hin as [Hin|Hin%list_elem_of_singleton];
          [by eapply HT1|done].
  - intros [] st' (HL' & HN' & HT') i s Hl.
    destruct (HN' i s Hl) as [HG HV]; [apply not_elem_of_nil|].
    split_and!; [done..|]. eapply HT'; [|done].
    apply elem_of_seq. apply lookup_lt_Some in Hl. lia.
Qed.

(** C5: [newBasicBlock] returns, and immediately after it no frame register
    has a local (temporary) register in either class, and the local type of
    every frame register is its global type.  The emitter starts from a
    state in which the bindings and the table of hardware registers agree
    ([Bound], [Owned]). *)
Theorem newBasicBlock_resets (label : Label) (st : Emitter) :
  EnvOK E → Bound E st → Owned E st →
  ∃ st', newBasicBlock E label st = Ok ((), st') ∧
    ∀ i s, frameRegs_ st' !! i = Some s →
      localGpX s = HWInvalid ∧ localVecD s = HWInvalid ∧
      localType s = globalType s.
Proof.
  intros HE HB HO. apply twp_unit. unfold newBasicBlock.
  apply twp_bind.
  eapply twp_mono; [by apply twp_syncAllTempExcept|].
  intros [] st1 HS1. apply twp_bind.
  eapply twp_mono;
    [apply twp_freeAllTemp;
       [done|by eapply syncStep_Bound|by eapply syncStep_Owned]|].
  intros [] st2 HN2. apply twp_bind, twp_get. apply twp_bind.
  eapply twp_mono; [by apply twp_resetLoop|].
  intros [] st3 H3. by apply twp_emit.
Qed.

Lemma checkOwned_sound st : checkOwned E st = true → Owned E st.
Proof.
  unfold checkOwned. intros [HL HF]%andb_true_iff.
  apply bool_decide_eq_true in HL. split; [done|].
  intros r i Ht Hhw. rewrite forallb_forall in HF.
  destruct (isTemp_in_range _ Ht) as [Hr Hin].
  assert (r ∈ (HWGpX <$> rangeOf (kGPTemp E)) ++
              (HWVecD <$> rangeOf (kVecTemp E))) as Hmem.
  { apply elem_of_app. rewrite Hr. destruct (classOf r); [left|right];
      apply list_elem_of_fmap; eauto. }
  apply list_elem_of_In, HF in Hmem. rewrite Hhw in Hmem.
  destruct (frameRegs_ st !! i) as [s|]; [|done].
  apply bool_decide_eq_true in Hmem. eauto.
Qed.

(** ** What the allocator and the sync passes emit *)

#[local] Instance emitsOnly_preorder P : PreOrder (emitsOnly P).
Proof.
  split.
  - intros st. split_and!; [done..|]. exists []. by rewrite app_nil_r.
  - intros st1 st2 st3 (S1 & T1 & K1 & c1 & H1 & P1)
      (S2 & T2 & K2 & c2 & H2 & P2).
    split_and!; [congruence|congruence|auto|]. exists (c1 ++ c2). split.
    + by rewrite H2, H1, app_assoc.
    + rewrite forallb_app. by rewrite P1, P2.
Qed.

Lemma emitsOnly_frame P st st' :
  a st' = a st → slowPaths_ st' = slowPaths_ st →
  fp64ConstMap_ st' = fp64ConstMap_ st →
  thunkMap_ st' = thunkMap_ st → thunks_ st' = thunks_ st →
  emitsOnly P st st'.
Proof.
  intros Ha Hs Hc Hm Ht. split_and!; [done|by rewrite Hm, Ht|by rewrite Hc|].
  exists []. by rewrite Ha, app_nil_r.
Qed.

Lemma emitsOnly_emit P i : P i = true → Pres (emitsOnly P) (emit i).
Proof.
  intros Hi. apply Pres_modify. intros st. split_and!; [done..|].
  exists [i]. split; [done|]. simpl. by rewrite Hi.
Qed.

Lemma emitsOnly_updFR P fr f : Pres (emitsOnly P) (updFR fr f).
Proof. apply Pres_updFR. intros st i s _ _. by apply emitsOnly_frame. Qed.

Lemma emitsOnly_ra_alloc P TAG pr : Pres (emitsOnly P) (ra_alloc TAG pr).
Proof.
  intros st x st'. unfold ra_alloc.
  destruct (TempRegAlloc.alloc pr (pool TAG st)) as [[r ra']|];
    intros [= <- <-]; [|reflexivity].
  apply emitsOnly_frame; by destruct TAG.
Qed.

Lemma emitsOnly_newLabel P name : Pres (emitsOnly P) (newLabel name).
Proof.
  intros st x st' [= _ <-]. split_and!; [done..|]. exists [].
  by rewrite app_nil_r.
Qed.
#[local] Hint Resolve emitsOnly_updFR emitsOnly_ra_alloc
  emitsOnly_newLabel : pres.

Ltac solve_emits :=
  repeat first
    [ pres_step
    | solve [eauto with pres]
    | apply emitsOnly_emit; solve [reflexivity | auto]
    | apply Pres_modify; intros ?; apply emitsOnly_frame; reflexivity ].

Section EmitsOnly.
Context (P : Instr → bool) (HP : ∀ i, isMove i = true → P i = true).

Lemma emitsOnly_setContains r fr : Pres (emitsOnly P) (setContains r fr).
Proof. unfold setContains. solve_emits. Qed.
Lemma emitsOnly_useReg r : Pres (emitsOnly P) (useReg E r).
Proof. unfold useReg. solve_emits. Qed.
Hint Resolve emitsOnly_setContains emitsOnly_useReg : pres.

Lemma emitsOnly_movHWReg u dst src : Pres (emitsOnly P) (movHWReg E u dst src).
Proof. unfold movHWReg. solve_emits. Qed.
Lemma emitsOnly_loadFrame dst fr : Pres (emitsOnly P) (_loadFrame dst fr).
Proof. unfold _loadFrame. solve_emits. Qed.
Lemma emitsOnly_storeHWRegToFrame fr src :
  Pres (emitsOnly P) (_storeHWRegToFrame fr src).
Proof. unfold _storeHWRegToFrame, _storeFrame. solve_emits. Qed.
Hint Resolve emitsOnly_movHWReg emitsOnly_loadFrame
  emitsOnly_storeHWRegToFrame : pres.

Lemma emitsOnly_freeReg r : Pres (emitsOnly P) (freeReg E r).
Proof. unfold freeReg. solve_emits. Qed.
Lemma emitsOnly_spillTempReg r : Pres (emitsOnly P) (spillTempReg E r).
Proof. unfold spillTempReg. solve_emits. Qed.
Lemma emitsOnly_isFRInRegister fr : Pres (emitsOnly P) (isFRInRegister E fr).
Proof. unfold isFRInRegister. solve_emits. Qed.
Hint Resolve emitsOnly_freeReg emitsOnly_spillTempReg
  emitsOnly_isFRInRegister : pres.

Lemma emitsOnly_syncToMem fr : Pres (emitsOnly P) (syncToMem E fr).
Proof. unfold syncToMem. solve_emits. Qed.
Lemma emitsOnly_syncAllTempExcept ex :
  Pres (emitsOnly P) (syncAllTempExcept E ex).
Proof. unfold syncAllTempExcept, syncOneTemp. solve_emits. Qed.
Lemma emitsOnly_freeFRTemp fr : Pres (emitsOnly P) (freeFRTemp E fr).
Proof. unfold freeFRTemp. solve_emits. Qed.
Hint Resolve emitsOnly_syncToMem emitsOnly_syncAllTempExcept
  emitsOnly_freeFRTemp : pres.

Lemma emitsOnly_freeAllTempExcept ex :
  Pres (emitsOnly P) (freeAllTempExcept E ex).
Proof. unfold freeAllTempExcept, freeOneTemp. solve_emits. Qed.
Lemma emitsOnly_assignAllocatedLocalHWReg fr r :
  Pres (emitsOnly P) (assignAllocatedLocalHWReg fr r).
Proof. unfold assignAllocatedLocalHWReg. solve_emits. Qed.
Hint Resolve emitsOnly_freeAllTempExcept
  emitsOnly_assignAllocatedLocalHWReg : pres.

Lemma emitsOnly_allocTemp TAG pr : Pres (emitsOnly P) (_allocTemp E TAG pr).
Proof.
  unfold _allocTemp. solve_emits.
  apply Pres_modify. intros st. apply emitsOnly_frame; by destruct TAG.
Qed.
Hint Resolve emitsOnly_allocTemp : pres.

Lemma emitsOnly_getOrAllocFRInVecD fr load :
  Pres (emitsOnly P) (getOrAllocFRInVecD E fr load).
Proof. unfold getOrAllocFRInVecD, allocTempVecD. solve_emits. Qed.
Lemma emitsOnly_getOrAllocFRInGpX fr load :
  Pres (emitsOnly P) (getOrAllocFRInGpX E fr load).
Proof. unfold getOrAllocFRInGpX, allocTempGpX. solve_emits. Qed.
Lemma emitsOnly_getOrAllocFRInAnyReg fr load pr :
  Pres (emitsOnly P) (getOrAllocFRInAnyReg E fr load pr).
Proof. unfold getOrAllocFRInAnyReg, allocTempGpX. solve_emits. Qed.
Lemma emitsOnly_frUpdatedWithHWReg fr r ty :
  Pres (emitsOnly P) (frUpdatedWithHWReg E fr r ty).
Proof. unfold frUpdatedWithHWReg, frUpdateType. solve_emits. Qed.
Hint Resolve emitsOnly_getOrAllocFRInVecD emitsOnly_getOrAllocFRInGpX
  emitsOnly_getOrAllocFRInAnyReg emitsOnly_frUpdatedWithHWReg : pres.

Lemma emitsOnly_movFRFromHW dst src ty :
  Pres (emitsOnly P) (movFRFromHW E dst src ty).
Proof. unfold movFRFromHW, frUpdateType. solve_emits. Qed.
Hint Resolve emitsOnly_movFRFromHW : pres.

Lemma emitsOnly_placeInFrame slot src :
  Pres (emitsOnly P) (placeInFrame E slot src).
Proof. unfold placeInFrame. solve_emits. Qed.

End EmitsOnly.

(** ** Arithmetic *)

Lemma moves_no_guard code :
  forallb isMove code = true →
  List.filter isGuard code = [] ∧ List.filter isFast code = [].
Proof.
  induction code as [|i code IH]; [done|]. simpl.
  intros [Hi Hc]%andb_true_iff. destruct (IH Hc) as [-> ->].
  by destruct i.
Qed.

Lemma guardedBy_moves g st st1 st2 :
  guardedBy g st st1 → emitsOnly isMove st1 st2 → guardedBy g st st2.
Proof.
  intros [S1 (c1 & H1 & G1 & F1)] (S2 & _ & _ & c2 & H2 & P2).
  destruct (moves_no_guard _ P2) as [G2 F2].
  split; [congruence|]. exists (c1 ++ c2). split_and!.
  - by rewrite H2, H1, app_assoc.
  - by rewrite List.filter_app, G1, G2, app_nil_r.
  - by rewrite List.filter_app, F1, F2.
Qed.

Lemma guardedBy_start st st1 : emitsOnly isMove st st1 → guardedBy [] st st1.
Proof.
  apply guardedBy_moves. split; [done|]. exists []. by rewrite app_nil_r.
Qed.

Lemma guardedBy_guard g hw lab st st1 :
  guardedBy g st st1 →
  wp (guardNumber hw lab)
     (λ _ st2, guardedBy (g ++ guardOf false hw lab) st st2) st1.
Proof.
  intros [S1 (c1 & H1 & G1 & F1)]. unfold guardNumber.
  apply wp_bind, wp_emit, wp_emit. split; [done|]. simpl.
  exists (c1 ++ [ICmp (a64GpX hw) xDoubleLim; IB_hs lab]). split_and!.
  - rewrite H1, <- !app_assoc. done.
  - by rewrite List.filter_app, G1.
  - by rewrite List.filter_app, F1.
Qed.

Lemma fastAfter_fast g f st st1 :
  guardedBy g st st1 → isGuard f = false →
  wp (emit f) (λ _ st2, fastAfter g f st st2) st1.
Proof.
  intros [S1 (c1 & H1 & G1 & F1)] Hf. apply wp_emit. split; [done|]. simpl.
  exists c1, []. split_and!; [|done|done|by rewrite app_nil_r].
  by rewrite H1, <- app_assoc.
Qed.

Lemma fastAfter_more g f c st st1 st2 :
  fastAfter g f st st1 →
  slowPaths_ st2 = slowPaths_ st1 →
  instrs (a st2) = instrs (a st1) ++ c →
  List.filter isGuard c = [] → List.filter isFast c = [] →
  fastAfter g f st st2.
Proof.
  intros [S1 (pre & post & H1 & G1 & G1' & F1)] S2 H2 G2 F2.
  split; [congruence|]. exists pre, (post ++ c). split_and!.
  - rewrite H2, H1, <- !app_assoc. done.
  - done.
  - by rewrite List.filter_app, G1', G2.
  - rewrite app_assoc, List.filter_app, F1, F2. done.
Qed.

Lemma fastAfter_moves g f st st1 st2 :
  fastAfter g f st st1 → emitsOnly isMove st1 st2 → fastAfter g f st st2.
Proof.
  intros H1 (S2 & _ & _ & c2 & H2 & P2).
  destruct (moves_no_guard _ P2) as [G2 F2].
  by eapply fastAfter_more.
Qed.

Ltac pose_moves :=
  pose proof (emitsOnly_syncToMem isMove (λ _ H, H)) as Hmv1;
  pose proof (emitsOnly_syncAllTempExcept isMove (λ _ H, H)) as Hmv2;
  pose proof (emitsOnly_freeAllTempExcept isMove) as Hmv3;
  pose proof (emitsOnly_getOrAllocFRInVecD isMove (λ _ H, H)) as Hmv4;
  pose proof (emitsOnly_getOrAllocFRInGpX isMove (λ _ H, H)) as Hmv5;
  pose proof (emitsOnly_frUpdatedWithHWReg isMove) as Hmv6.

(** The operand of [arithBinOp]: the register that holds it and, unless it
    is known to be a number, its guard. *)
Lemma wp_operand (known : bool) fr lab g st st1 :
  guardedBy g st st1 →
  wp (if known then getOrAllocFRInVecD E fr true
      else hw ← getOrAllocFRInGpX E fr true;
           guardNumber hw lab ;; mret hw)
     (λ hw st2, guardedBy (g ++ guardOf known hw lab) st st2) st1.
Proof.
  intros Hg. pose_moves. destruct known.
  - eapply (Pres_wp (emitsOnly isMove)); [done|]. intros hw st2 He.
    simpl. rewrite app_nil_r. by eapply guardedBy_moves.
  - apply wp_bind. eapply (Pres_wp (emitsOnly isMove)); [done|].
    intros hw st2 He. apply wp_bind.
    eapply wp_mono; [apply guardedBy_guard; by eapply guardedBy_moves|].
    intros [] st3 H3. by apply wp_ret.
Qed.


(** ** Frame slots stay up to date *)

#[local] Instance stored_preorder X : PreOrder (stored X).
Proof.
  split.
  - intros st. split; [done|]. intros i s s' _ H1 H2. congruence.
  - intros st1 st2 st3 [L1 H1] [L2 H2]. split; [congruence|].
    intros i s s' HX Hl Hl' Hs.
    destruct (lookup_lt_is_Some_2 (frameRegs_ st2) i) as [s2 Hl2].
    { rewrite L1. by eapply lookup_lt_Some. }
    eauto.
Qed.

Lemma syncStep_stored X st st' : syncStep st st' → stored X st st'.
Proof.
  intros [H _]. split; [symmetry; by eapply Forall2_length|].
  intros i s s' _ Hl Hl'.
  destruct (Forall2_lookup_lr _ _ _ _ _ _ H Hl Hl') as (_&_&_&_&_&Hf&_).
  done.
Qed.

Lemma stored_frameRegs X st st' :
  frameRegs_ st' = frameRegs_ st → stored X st st'.
Proof. intros H. split; rewrite H; [done|]. intros; congruence. Qed.

Lemma stored_of_sameView X {A} (m : M A) : Pres sameView m → Pres (stored X) m.
Proof.
  apply Pres_weaken. intros st st' H. by apply syncStep_stored, sameView_syncStep.
Qed.
Lemma stored_of_syncStep X {A} (m : M A) : Pres syncStep m → Pres (stored X) m.
Proof. apply Pres_weaken, syncStep_stored. Qed.

Lemma stored_insert X st i s s' :
  frameRegs_ st !! i = Some s → (FRIdx i ∈ X ∨ (frameUpToDate s → frameUpToDate s')) →
  stored X st (with_frameRegs (<[i := s']> (frameRegs_ st)) st).
Proof.
  intros Hl H. split; simpl; [by rewrite length_insert|].
  intros j s1 s2 Hj Hl1 Hl2. destruct (decide (j = i)) as [->|Hne].
  - rewrite list_lookup_insert_eq in Hl2 by (by eapply lookup_lt_Some).
    injection Hl2 as <-. destruct H as [?|H]; [done|].
    rewrite Hl in Hl1. by injection Hl1 as <-.
  - rewrite list_lookup_insert_ne in Hl2 by done.
    rewrite Hl1 in Hl2. by injection Hl2 as <-.
Qed.

Lemma stored_updFR X fr f :
  (∀ s, frameUpToDate s → frameUpToDate (f s)) → Pres (stored X) (updFR fr f).
Proof.
  intros H. apply Pres_updFR. intros st i s _ Hl.
  eapply stored_insert; [done|]. right. apply H.
Qed.
Lemma stored_updFR_in X fr f : fr ∈ X → Pres (stored X) (updFR fr f).
Proof.
  intros H. apply Pres_updFR. intros st i s -> Hl.
  eapply stored_insert; [done|]. by left.
Qed.

Lemma stored_ra_alloc X TAG pr : Pres (stored X) (ra_alloc TAG pr).
Proof.
  intros st x st'. unfold ra_alloc.
  destruct (TempRegAlloc.alloc pr (pool TAG st)) as [[r ra']|];
    intros [= <- <-]; [|reflexivity].
  apply stored_frameRegs. by destruct TAG.
Qed.
#[local] Hint Resolve stored_ra_alloc : pres.

Ltac solve_stored :=
  repeat first
    [ pres_step
    | solve [eauto with pres]
    | apply stored_of_sameView; solve [eauto with pres]
    | apply stored_of_syncStep; solve [eauto with pres]
    | apply Pres_modify; intros ?; apply stored_frameRegs; reflexivity
    | apply stored_updFR; intros ?; simpl; solve [done]
    | apply stored_updFR_in; set_solver ].

Lemma stored_setContains X r fr : Pres (stored X) (setContains r fr).
Proof. unfold setContains. solve_stored. Qed.
#[local] Hint Resolve stored_setContains : pres.

Lemma stored_freeReg X r : Pres (stored X) (freeReg E r).
Proof. unfold freeReg. solve_stored. Qed.
#[local] Hint Resolve stored_freeReg : pres.

Lemma stored_spillTempReg X r : Pres (stored X) (spillTempReg E r).
Proof. unfold spillTempReg, _storeHWRegToFrame. solve_stored. Qed.
#[local] Hint Resolve stored_spillTempReg : pres.

Lemma stored_syncAndFreeTempReg X r : Pres (stored X) (syncAndFreeTempReg E r).
Proof. unfold syncAndFreeTempReg. solve_stored. Qed.

Lemma stored_freeFRTemp X fr : Pres (stored X) (freeFRTemp E fr).
Proof. unfold freeFRTemp. solve_stored. Qed.
#[local] Hint Resolve stored_syncAndFreeTempReg stored_freeFRTemp : pres.

Lemma stored_freeAllTempExcept X ex : Pres (stored X) (freeAllTempExcept E ex).
Proof. unfold freeAllTempExcept, freeOneTemp. solve_stored. Qed.

Lemma stored_assignAllocatedLocalHWReg X fr r :
  Pres (stored X) (assignAllocatedLocalHWReg fr r).
Proof. unfold assignAllocatedLocalHWReg. solve_stored. Qed.
#[local] Hint Resolve stored_freeAllTempExcept
  stored_assignAllocatedLocalHWReg : pres.

Lemma stored_allocTemp X TAG pr : Pres (stored X) (_allocTemp E TAG pr).
Proof.
  unfold _allocTemp. solve_stored.
  apply Pres_modify. intros st. apply stored_frameRegs. by destruct TAG.
Qed.
#[local] Hint Resolve stored_allocTemp : pres.

Lemma stored_getOrAllocFRInVecD X fr load :
  Pres (stored X) (getOrAllocFRInVecD E fr load).
Proof. unfold getOrAllocFRInVecD, allocTempVecD. solve_stored. Qed.
Lemma stored_getOrAllocFRInGpX X fr load :
  Pres (stored X) (getOrAllocFRInGpX E fr load).
Proof. unfold getOrAllocFRInGpX, allocTempGpX. solve_stored. Qed.
Lemma stored_getOrAllocFRInAnyReg X fr load pr :
  Pres (stored X) (getOrAllocFRInAnyReg E fr load pr).
Proof. unfold getOrAllocFRInAnyReg, allocTempGpX. solve_stored. Qed.
#[local] Hint Resolve stored_getOrAllocFRInVecD stored_getOrAllocFRInGpX
  stored_getOrAllocFRInAnyReg : pres.

Lemma stored_frUpdatedWithHWReg X fr r ty :
  fr ∈ X → Pres (stored X) (frUpdatedWithHWReg E fr r ty).
Proof. intros H. unfold frUpdatedWithHWReg, frUpdateType. solve_stored. Qed.

Lemma stored_movFRFromHW X dst src ty :
  dst ∈ X → Pres (stored X) (movFRFromHW E dst src ty).
Proof.
  intros H. unfold movFRFromHW, frUpdateType.
  pose proof (stored_frUpdatedWithHWReg X dst) as Hupd.
  solve_stored.
Qed.

Lemma stored_placeInFrame X slot src :
  slot ∈ X → Pres (stored X) (placeInFrame E slot src).
Proof.
  intros H. unfold placeInFrame.
  pose proof (stored_movFRFromHW X slot) as Hmov. solve_stored.
Qed.

Lemma stored_loadConstBits64 X fr bits ty :
  fr ∈ X → Pres (stored X) (loadConstBits64 E fr bits ty).
Proof.
  intros H. unfold loadConstBits64.
  pose proof (stored_frUpdatedWithHWReg X fr) as Hupd. solve_stored.
Qed.

(** ** Calls *)

Lemma moves_notBl i : isMove i = true → notBl i = true.
Proof. by destruct i. Qed.

Lemma emitsOnly_uint64Const P bits : Pres (emitsOnly P) (uint64Const bits).
Proof.
  intros st ofs st'. unfold uint64Const, reserveData, memcpy64. msimpl.
  destruct (fp64ConstMap_ st !! bits) as [o|] eqn:Hm.
  - intros [= <- <-]. reflexivity.
  - case_bool_decide; [discriminate|]. intros [= <- <-].
    split_and!; simpl; [done..| |].
    + intros b o Hb. rewrite lookup_insert_ne; [done|]. congruence.
    + exists []. by rewrite app_nil_r.
Qed.

Lemma uint64Const_interned bits st :
  wp (uint64Const bits)
     (λ ofs st', fp64ConstMap_ st' !! bits = Some ofs ∧ a st' = a st) st.
Proof.
  intros ofs st'. unfold uint64Const, reserveData, memcpy64. msimpl.
  destruct (fp64ConstMap_ st !! bits) as [o|] eqn:Hm.
  - intros [= <- <-]. done.
  - case_bool_decide; [discriminate|]. intros [= <- <-]. simpl.
    split; [apply lookup_insert_eq|done].
Qed.

(** The instruction that [loadBits64InGp] emits. *)
Lemma wp_loadBits64InGp dst bits st :
  wp (loadBits64InGp dst bits)
     (λ _ st', emitsOnly notBl st st' ∧
        ∃ i, instrs (a st') = instrs (a st) ++ [i] ∧
             if isCheapConst bits then i = IMovImm dst bits
             else ∃ ofs, i = ILdrRoData dst ofs ∧
                         fp64ConstMap_ st' !! bits = Some ofs) st.
Proof.
  unfold loadBits64InGp. destruct (isCheapConst bits) eqn:Hc.
  - apply wp_emit. split.
    + apply (emitsOnly_emit notBl (IMovImm dst bits) eq_refl st ()).
      reflexivity.
    + by exists (IMovImm dst bits).
  - apply wp_bind.
    eapply wp_mono;
      [apply wp_conj;
         [apply (Pres_wp (emitsOnly notBl) (uint64Const bits)
                   (λ _ st1, emitsOnly notBl st st1));
            [apply emitsOnly_uint64Const|done]
         |apply uint64Const_interned]|].
    intros ofs st1 [He [Hm Ha]]. apply wp_emit. split.
    + etrans; [done|].
      apply (emitsOnly_emit notBl (ILdrRoData dst ofs) eq_refl st1 ()).
      reflexivity.
    + exists (ILdrRoData dst ofs). simpl. rewrite Ha.
      split; [done|]. eauto.
Qed.

Lemma loadsConst_more bits c0 c c' P st1 st2 :
  loadsConst bits c st1 → emitsOnly P st1 st2 →
  loadsConst bits (c0 ++ c ++ c') st2.
Proof.
  intros [dst H] (_ & _ & HK & _). exists dst.
  destruct (isCheapConst bits).
  - set_solver.
  - destruct H as (ofs & Hin & Hm). exists ofs. split; [set_solver|auto].
Qed.

Ltac pose_notBl :=
  pose proof (emitsOnly_syncToMem notBl moves_notBl) as Hnb1;
  pose proof (emitsOnly_syncAllTempExcept notBl moves_notBl) as Hnb2;
  pose proof (emitsOnly_freeAllTempExcept notBl) as Hnb3;
  pose proof (emitsOnly_getOrAllocFRInGpX notBl moves_notBl) as Hnb4;
  pose proof (emitsOnly_getOrAllocFRInAnyReg notBl moves_notBl) as Hnb5;
  pose proof (emitsOnly_frUpdatedWithHWReg notBl) as Hnb6;
  pose proof (emitsOnly_placeInFrame notBl moves_notBl) as Hnb7;
  pose proof (emitsOnly_movHWReg notBl moves_notBl) as Hnb8.

Lemma notBl_filter code :
  forallb notBl code = true → List.filter isBl code = [].
Proof.
  induction code as [|i code IH]; [done|]. simpl.
  intros [Hi Hc]%andb_true_iff. rewrite (IH Hc).
  unfold notBl in Hi. by destruct (isBl i).
Qed.

(** [loadConstBits64] emits the load of its constant. *)
Lemma wp_loadConstBits64_code fr bits ty st :
  wp (loadConstBits64 E fr bits ty)
     (λ _ st', emitsOnly notBl st st' ∧
        ∃ code, instrs (a st') = instrs (a st) ++ code ∧
                loadsConst bits code st') st.
Proof.
  pose_notBl. unfold loadConstBits64. apply wp_bind.
  eapply (Pres_wp (emitsOnly notBl)); [done|]. intros hw st1 H1.
  apply wp_bind. eapply wp_mono; [apply wp_loadBits64InGp|].
  intros [] st2 [H2 (i & Hi & Hload)].
  eapply (Pres_wp (emitsOnly notBl)); [done|]. intros [] st3 H3.
  split; [by do 2 (etrans; [done|])|].
  destruct H1 as (_ & _ & _ & c1 & Hc1 & _).
  pose proof H3 as (_ & _ & _ & c3 & Hc3 & _).
  exists (c1 ++ [i] ++ c3). split.
  - rewrite Hc3, Hi, Hc1, <- !app_assoc. done.
  - apply (loadsConst_more bits c1 [i] c3 notBl st2 st3); [|done].
    exists (a64GpX hw). destruct (isCheapConst bits).
    + subst i. set_solver.
    + destruct Hload as (ofs & -> & Hm). exists ofs. split; [set_solver|done].
Qed.

Lemma storedIn_stored X Y st st' :
  storedIn X st → stored Y st st' → (∀ x, x ∈ X → x ∉ Y) →
  storedIn X st'.
Proof.
  intros HS [HL HK] Hd i s' Hi Hl'.
  destruct (lookup_lt_is_Some_2 (frameRegs_ st) i) as [s Hl].
  { rewrite <- HL. by eapply lookup_lt_Some. }
  apply (HK i s s'); [by apply Hd|done..|]. by apply (HS i s).
Qed.

Lemma storedIn_app X Y st : storedIn X st → storedIn Y st → storedIn (X ++ Y) st.
Proof. intros HX HY i s [?|?]%elem_of_app; eauto. Qed.

Lemma storedIn_nil st : storedIn [] st.
Proof. intros i s Hi. by apply elem_of_nil in Hi. Qed.

(** [syncToMem(fr)] stores [fr] and keeps what was stored. *)
Lemma wp_syncToMem_stored fr st :
  wp (syncToMem E fr)
     (λ _ st', storedIn [fr] st' ∧ stored [] st st' ∧ emitsOnly notBl st st')
     st.
Proof.
  pose_notBl. apply wp_conj; [|apply wp_conj].
  - apply wp_syncToMem. intros st' i s -> Hl Hfr _ j sj Hj Hlj.
    apply list_elem_of_singleton in Hj as [= ->]. rewrite Hfr in Hlj.
    rewrite list_lookup_insert_eq in Hlj by (by eapply lookup_lt_Some).
    injection Hlj as <-. apply memSynced_frame.
  - eapply (Pres_wp (stored [])); [|done].
    apply stored_of_syncStep, syncStep_syncToMem.
  - by eapply (Pres_wp (emitsOnly notBl)).
Qed.

Lemma registerCall_frame fn name l st st1 :
  registerCall fn name st = Ok (l, st1) →
  instrs (a st1) = instrs (a st) ∧ fp64ConstMap_ st1 = fp64ConstMap_ st ∧
  slowPaths_ st1 = slowPaths_ st.
Proof.
  unfold registerCall, reserveData, memcpy64, newLabel. msimpl.
  destruct (thunkMap_ st !! fn) as [idx|] eqn:Hm.
  - destruct (thunks_ st !! idx) as [th|] eqn:Ht; [|discriminate].
    by intros [= <- <-].
  - case_bool_decide; [discriminate|]. simpl.
    rewrite lookup_app_r by done. rewrite Nat.sub_diag. simpl.
    by intros [= <- <-].
Qed.

(** [EMIT_RUNTIME_CALL] emits one branch-and-link, to the thunk of the
    helper. *)
Lemma wp_EMIT_RUNTIME_CALL func st :
  wp (EMIT_RUNTIME_CALL E func)
     (λ _ st', ∃ lab idx ofs,
        instrs (a st') = instrs (a st) ++ [IBl lab] ∧
        thunkMap_ st' !! addrOf E func = Some idx ∧
        thunks_ st' !! idx = Some (lab, ofs) ∧
        (∀ bits o, fp64ConstMap_ st !! bits = Some o →
                   fp64ConstMap_ st' !! bits = Some o)) st.
Proof.
  unfold EMIT_RUNTIME_CALL, call_fn. apply wp_bind.
  intros l st1 Hrun.
  destruct (registerCall_inv _ _ _ _ _ Hrun) as (idx & [l' ofs] & Hm & Ht & Hl & _).
  destruct (registerCall_frame _ _ _ _ _ Hrun) as (Ha & Hc & _).
  simpl in Hl. subst l'. apply wp_emit. exists l, idx, ofs. simpl.
  rewrite Ha. split_and!; [done..|]. intros bits o. by rewrite Hc.
Qed.

Lemma emitsOnly_resultFromX0 fr pr u :
  Pres (emitsOnly notBl) (resultFromX0 E fr pr u).
Proof. pose_notBl. unfold resultFromX0. solve_emits. Qed.

(** The loop of [call] over the outgoing arguments. *)
Lemma wp_syncArgs (l : list Z) nR st :
  wp (forEach l (λ i, syncToMem E (argSlot E nR i)))
     (λ _ st', storedIn (argSlot E nR <$> l) st' ∧ stored [] st st' ∧
               emitsOnly notBl st st') st.
Proof.
  apply (wp_forEach_prefix
    (λ l1 st1, storedIn (argSlot E nR <$> l1) st1 ∧ stored [] st st1 ∧
               emitsOnly notBl st st1)).
  - split_and!; [apply storedIn_nil|reflexivity..].
  - intros l1 x l2 st1 _ (HS & HK & HE).
    eapply wp_mono; [apply wp_syncToMem_stored|].
    intros [] st2 (HS2 & HK2 & HE2). split_and!; [|by etrans..].
    rewrite fmap_app. apply storedIn_app; [|done].
    eapply storedIn_stored; [done..|]. intros x' _. apply not_elem_of_nil.
Qed.

Lemma storedIn_cons fr X st :
  storedIn [fr] st → storedIn X st → storedIn (fr :: X) st.
Proof. apply (storedIn_app [fr] X). Qed.

Lemma storedIn_keep X st st' :
  storedIn X st → stored [] st st' → storedIn X st'.
Proof.
  intros HS HK. eapply storedIn_stored; [done..|].
  intros x _. apply not_elem_of_nil.
Qed.

Lemma emitsOnly_emitted P i st :
  P i = true →
  emitsOnly P st (with_a (mkAssembler (instrs (a st) ++ [i]) (labels (a st))) st).
Proof. intros Hi. by apply (emitsOnly_emit P i Hi st ()). Qed.

(** What [call] has done when it reaches the call instruction. *)
Lemma wp_call_before_bl frCallee argc st :
  wp (call_before_bl E frCallee argc)
     (λ _ st1,
        storedIn (outgoingSlots E (nRegs st) argc) st1 ∧
        emitsOnly notBl st st1 ∧
        ∃ pre, instrs (a st1) =
                 instrs (a st) ++ pre ++
                 [IMov (X 0) xRuntime; IMov (X 1) xFrame;
                  IMovImm (W 2) (uint32 (argc - 1))] ∧
               List.filter isBl pre = [] ∧
               loadsConst (undefinedRaw E) pre st1) st.
Proof.
  pose_notBl. unfold call_before_bl. apply wp_bind, wp_get. apply wp_bind.
  eapply (Pres_wp (emitsOnly notBl)); [done|]. intros [] st1 H1.
  apply wp_bind.
  eapply (Pres_wp (emitsOnly notBl)); [done|]. intros [] st2 H2.
  apply wp_bind. eapply wp_mono; [apply wp_loadConstBits64_code|].
  intros [] st3 (H3 & c & Hc & Hload).
  apply wp_bind. eapply wp_mono; [apply wp_syncToMem_stored|].
  intros [] st4 (HS4 & _ & H4).
  apply wp_bind. eapply wp_mono; [apply wp_syncToMem_stored|].
  intros [] st5 (HS5 & HK5 & H5).
  apply wp_bind. eapply wp_mono; [apply (wp_syncArgs _ (nRegs st))|].
  intros [] st6 (HS6 & HK6 & H6).
  apply wp_bind.
  eapply wp_mono;
    [apply wp_conj;
       [apply (Pres_wp (emitsOnly notBl) _ (λ _ st7, emitsOnly notBl st6 st7));
          [done|done]
       |apply (Pres_wp (stored []) _ (λ _ st7, stored [] st6 st7));
          [apply stored_freeAllTempExcept|done]]|].
  intros [] st7 [H7 HK7].
  assert (emitsOnly notBl st st2) as H02 by (by etrans).
  assert (emitsOnly notBl st3 st7) as H37 by (by do 3 (etrans; [done|])).
  apply wp_bind, wp_emit, wp_bind, wp_emit, wp_emit.
  match goal with |- _ ∧ emitsOnly _ _ ?fin ∧ _ =>
    assert (emitsOnly notBl st7 fin) as Hfin
      by (etrans; [|etrans]; by apply emitsOnly_emitted)
  end.
  split_and!.
  - intros i s Hi Hl. simpl in Hl. revert i s Hi Hl.
    change (storedIn (outgoingSlots E (nRegs st) argc) st7).
    apply storedIn_cons; [|apply storedIn_cons].
    + eapply storedIn_keep; [done|]. by do 3 (etrans; [done|]).
    + eapply storedIn_keep; [done|]. by etrans.
    + by eapply storedIn_keep.
  - by do 3 (etrans; [done|]).
  - destruct H02 as (_ & _ & _ & cA & HcA & PA).
    pose proof H37 as (_ & _ & _ & cB & HcB & PB).
    pose proof H3 as (_ & _ & _ & c' & Hc' & Pc).
    assert (c' = c) as -> by (rewrite Hc in Hc'; by apply app_inv_head in Hc').
    exists (cA ++ c ++ cB). simpl. split_and!.
    + rewrite HcB, Hc, HcA, <- !app_assoc. done.
    + apply notBl_filter. by rewrite !forallb_app, PA, Pc, PB.
    + apply (loadsConst_more _ cA c cB notBl st3); [done|by etrans].
Qed.

Lemma storedIn_subset X Y st :
  storedIn X st → (∀ x, x ∈ Y → x ∈ X) → storedIn Y st.
Proof. intros HS Hsub i s Hi. apply HS. by apply Hsub. Qed.

(** The loop of [callN] over the arguments: each is placed in its slot, which
    is then stored. *)
Lemma wp_placeArgs nR (l : list (Z * FR)) (f : Z * FR → M unit) X st :
  (∀ i arg, f (i, arg) =
     (placeInFrame E (argSlot E nR i) arg ;; syncToMem E (argSlot E nR i))) →
  NoDup (argSlot E nR <$> (fst <$> l)) →
  (∀ i, i ∈ fst <$> l → argSlot E nR i ∉ X) →
  storedIn X st →
  wp (forEach l f)
     (λ _ st', storedIn (X ++ (argSlot E nR <$> (fst <$> l))) st' ∧
               emitsOnly notBl st st') st.
Proof.
  intros Hf HND HX HS. pose_notBl.
  apply (wp_forEach_prefix
    (λ l1 st1, storedIn (X ++ (argSlot E nR <$> (fst <$> l1))) st1 ∧
               emitsOnly notBl st st1)).
  - split; [by rewrite app_nil_r|reflexivity].
  - intros l1 [i arg] l2 st1 Hl [HS1 HE1]. rewrite Hf. apply wp_bind.
    eapply wp_mono;
      [apply wp_conj;
         [apply (Pres_wp (emitsOnly notBl) _ (λ _ st2, emitsOnly notBl st1 st2));
            [done|done]
         |apply (Pres_wp (stored [argSlot E nR i]) _
                   (λ _ st2, stored [argSlot E nR i] st1 st2));
            [apply stored_placeInFrame; set_solver|done]]|].
    intros [] st2 [HE2 HK2].
    eapply wp_mono; [apply wp_syncToMem_stored|].
    intros [] st3 (HS3 & HK3 & HE3). split; [|by do 2 (etrans; [done|])].
    rewrite !fmap_app, app_assoc. simpl. apply storedIn_app; [|done].
    eapply storedIn_keep; [|done].
    eapply storedIn_stored; [done..|].
    intros x Hx Hin. apply list_elem_of_singleton in Hin as ->.
    apply elem_of_app in Hx as [Hx|Hx].
    + apply (HX i); [|done]. rewrite Hl, fmap_app. set_solver.
    + rewrite Hl, !fmap_app in HND. simpl in HND.
      apply NoDup_app in HND as (_ & HND & _). apply (HND _ Hx). left.
Qed.

Lemma imap_indices (args : list FR) :
  fst <$> imap (λ i arg, (Z.of_nat i, arg)) args
  = seqZ 0 (Z.of_nat (length args)).
Proof.
  apply list_eq. intros k. rewrite list_lookup_fmap, list_lookup_imap.
  destruct (args !! k) as [x|] eqn:Hk; simpl.
  - symmetry. apply lookup_seqZ. apply lookup_lt_Some in Hk. lia.
  - symmetry. apply lookup_seqZ_ge. apply lookup_ge_None in Hk. lia.
Qed.

(** What [callN] has done when it reaches the call instruction. *)
Lemma wp_callN_before_bl frCallee args st :
  NoDup (outgoingSlots E (nRegs st) (Z.of_nat (length args))) →
  wp (callN_before_bl E frCallee args)
     (λ _ st1,
        storedIn (outgoingSlots E (nRegs st) (Z.of_nat (length args))) st1 ∧
        emitsOnly notBl st st1 ∧
        ∃ pre, instrs (a st1) =
                 instrs (a st) ++ pre ++
                 [IMov (X 0) xRuntime; IMov (X 1) xFrame;
                  IMovImm (W 2) (uint32 (Z.of_nat (length args) - 1))] ∧
               List.filter isBl pre = [] ∧
               loadsConst (undefinedRaw E) pre st1) st.
Proof.
  intros HND. pose_notBl. unfold callN_before_bl.
  apply wp_bind, wp_get.
  set (callee := mkFR (nRegs st + CalleeClosureOrCB E)).
  set (nt := mkFR (nRegs st + NewTarget E)).
  unfold outgoingSlots, argSlots in *.
  change (calleeSlot E (nRegs st)) with callee in *.
  change (newTargetSlot E (nRegs st)) with nt in *.
  apply NoDup_cons in HND as [Hc HND]. apply NoDup_cons in HND as [Hn HND].
  apply wp_bind.
  eapply (Pres_wp (emitsOnly notBl)); [done|]. intros [] st1 H1.
  apply wp_bind. eapply wp_mono; [apply wp_syncToMem_stored|].
  intros [] st2 (HS2 & _ & H2).
  apply wp_bind.
  eapply wp_mono;
    [apply (wp_placeArgs (nRegs st) _ _ [callee]); [done| | |done]|].
  { by rewrite imap_indices. }
  { rewrite imap_indices. intros i Hi Hin.
    apply list_elem_of_singleton in Hin. apply Hc. right.
    rewrite <- Hin. apply list_elem_of_fmap. eauto. }
  intros [] st3 [HS3 H3]. rewrite imap_indices in HS3.
  apply wp_bind.
  eapply wp_mono;
    [apply wp_conj;
       [apply wp_loadConstBits64_code
       |apply (Pres_wp (stored [nt]) _ (λ _ st4, stored [nt] st3 st4));
          [apply stored_loadConstBits64; set_solver|done]]|].
  intros [] st4 [(H4 & c & Hcode & Hload) HK4].
  apply wp_bind. eapply wp_mono; [apply wp_syncToMem_stored|].
  intros [] st5 (HS5 & HK5 & H5).
  apply wp_bind.
  eapply wp_mono;
    [apply wp_conj;
       [apply (Pres_wp (emitsOnly notBl) _ (λ _ st6, emitsOnly notBl st5 st6));
          [done|done]
       |apply (Pres_wp (stored []) _ (λ _ st6, stored [] st5 st6));
          [apply stored_of_syncStep, syncStep_syncAllTempExcept|done]]|].
  intros [] st6 [H6 HK6].
  apply wp_bind.
  eapply wp_mono;
    [apply wp_conj;
       [apply (Pres_wp (emitsOnly notBl) _ (λ _ st7, emitsOnly notBl st6 st7));
          [done|done]
       |apply (Pres_wp (stored []) _ (λ _ st7, stored [] st6 st7));
          [apply stored_freeAllTempExcept|done]]|].
  intros [] st7 [H7 HK7].
  assert (emitsOnly notBl st st3) as H03 by (by do 2 (etrans; [done|])).
  assert (emitsOnly notBl st4 st7) as H47 by (by do 2 (etrans; [done|])).
  apply wp_bind, wp_emit, wp_bind, wp_emit, wp_emit.
  match goal with |- _ ∧ emitsOnly _ _ ?fin ∧ _ =>
    assert (emitsOnly notBl st7 fin) as Hfin
      by (etrans; [|etrans]; by apply emitsOnly_emitted)
  end.
  split_and!.
  - intros i s Hi Hl. simpl in Hl. revert i s Hi Hl.
    change (storedIn (callee :: nt ::
                      (argSlot E (nRegs st) <$>
                       seqZ 0 (Z.of_nat (length args)))) st7).
    assert (storedIn ([callee] ++
                      (argSlot E (nRegs st) <$>
                       seqZ 0 (Z.of_nat (length args)))) st7) as HA.
    { apply (storedIn_keep _ st4);
        [|exact (transitivity HK5 (transitivity HK6 HK7))].
      apply (storedIn_stored _ [nt] st3); [done..|].
      intros x Hx Hin. apply list_elem_of_singleton in Hin as ->.
      apply elem_of_app in Hx as [Hx|Hx]; [|done].
      apply list_elem_of_singleton in Hx. apply Hc. rewrite <- Hx. left. }
    assert (storedIn [nt] st7) as HN.
    { apply (storedIn_keep _ st5); [done|exact (transitivity HK6 HK7)]. }
    eapply storedIn_subset; [apply (storedIn_app _ _ _ HA HN)|].
    intros x Hx. apply elem_of_app.
    apply elem_of_cons in Hx as [->|Hx]; [left; left|].
    apply elem_of_cons in Hx as [->|Hx]; [right; left|].
    left. by right.
  - by do 3 (etrans; [done|]).
  - destruct H03 as (_ & _ & _ & cA & HcA & PA).
    pose proof H47 as (_ & _ & _ & cB & HcB & PB).
    pose proof H4 as (_ & _ & _ & c' & Hc' & Pc).
    assert (c' = c) as ->
      by (rewrite Hcode in Hc'; by apply app_inv_head in Hc').
    exists (cA ++ c ++ cB). simpl. split_and!.
    + rewrite HcB, Hcode, HcA, <- !app_assoc. done.
    + apply notBl_filter. by rewrite !forallb_app, PA, Pc, PB.
    + apply (loadsConst_more _ cA c cB notBl st4); [done|by etrans].
Qed.

(** From the state at the call instruction to the end of the member
    function: the call itself and the binding of the result. *)
Lemma callsOnce_intro (m : M unit) (Φ : Emitter → Prop) func count frRes pr u
    st st' :
  wp m (λ _ st1,
          Φ st1 ∧ emitsOnly notBl st st1 ∧
          ∃ pre, instrs (a st1) =
                   instrs (a st) ++ pre ++
                   [IMov (X 0) xRuntime; IMov (X 1) xFrame;
                    IMovImm (W 2) count] ∧
                 List.filter isBl pre = [] ∧
                 loadsConst (undefinedRaw E) pre st1) st →
  (m ;; EMIT_RUNTIME_CALL E func ;; resultFromX0 E frRes pr u) st
    = Ok ((), st') →
  callsOnce E func count st st' ∧ ∃ st1, m st = Ok ((), st1) ∧ Φ st1.
Proof.
  intros Hm Hrun.
  apply bind_Ok in Hrun as ([] & st1 & Hrun1 & Hrun).
  apply bind_Ok in Hrun as ([] & st2 & Hrun2 & Hrun3).
  destruct (Hm _ _ Hrun1) as (HΦ & _ & pre & Hpre & Hbl & dst & Hload).
  destruct (wp_EMIT_RUNTIME_CALL func st1 _ _ Hrun2)
    as (lab & idx & ofs & Hi2 & Hmap & Hth & HK2).
  destruct (emitsOnly_resultFromX0 frRes pr u _ _ _ Hrun3)
    as (_ & HT & HK3 & post & Hi3 & Hpost).
  injection HT as HT1 HT2.
  split; [|eauto]. exists lab, pre, post. split_and!.
  - rewrite Hi3, Hi2, Hpre, <- !app_assoc. done.
  - by rewrite List.filter_app, Hbl, (notBl_filter _ Hpost).
  - exists dst. destruct (isCheapConst (undefinedRaw E)); [done|].
    destruct Hload as (o & Hin & Ho). exists o. split; [done|]. auto.
  - exists idx, ofs. by rewrite HT1, HT2.
Qed.


(** ** The class of the register of a frame register *)

Lemma holdsIn_flags TAG hw s s' :
  localGpX s' = localGpX s → localVecD s' = localVecD s →
  globalReg s' = globalReg s → holdsIn TAG hw s → holdsIn TAG hw s'.
Proof.
  intros HG HV Hg (Hv & Hc & H). split_and!; [done..|].
  destruct TAG; simpl in *; by rewrite ?HG, ?HV, Hg.
Qed.

(** A step that leaves the binding state alone, in the allocating branch. *)
Lemma wp_sameView_holds {A} (m : M A) TAG i hw s (K : Emitter → Prop) st :
  Pres sameView m → Bound E st → frameRegs_ st !! i = Some s →
  holdsIn TAG hw s →
  (∀ st' s', frameRegs_ st' !! i = Some s' → holdsIn TAG hw s' →
             Bound E st' → K st') →
  wp m (λ _ st', K st') st.
Proof.
  intros Hm HB Hl Hh HQ. eapply Pres_wp; [done|]. intros x st3 Hv.
  eapply HQ; [|done|by eapply sameView_Bound].
  by rewrite (sameView_frameRegs _ _ Hv).
Qed.

Lemma wp_mark_holds (f : FRState → FRState) TAG i hw s
    (K : Emitter → Prop) st :
  (∀ s, localGpX (f s) = localGpX s ∧ localVecD (f s) = localVecD s ∧
        globalReg (f s) = globalReg s) →
  Bound E st → frameRegs_ st !! i = Some s → holdsIn TAG hw s →
  (∀ st' s', frameRegs_ st' !! i = Some s' → holdsIn TAG hw s' →
             Bound E st' → K st') →
  wp (updFR (FRIdx i) f) (λ _ st', K st') st.
Proof.
  intros Hf HB Hl Hh HQ. destruct (Hf s) as (HG & HV & Hg).
  apply wp_updFR. intros ? s3 [= <-] Hl3. rewrite Hl in Hl3.
  injection Hl3 as <-. eapply HQ.
  - simpl. apply list_lookup_insert_eq. by eapply lookup_lt_Some.
  - by eapply holdsIn_flags.
  - by eapply (Bound_flags st _ i s).
Qed.

Lemma wp_getOrAllocFRInVecD_holds fr load (Q : HWReg → Emitter → Prop) st :
  EnvOK E → Bound E st →
  (∀ hw st' i s', fr = FRIdx i → frameRegs_ st' !! i = Some s' →
                  holdsIn VecD hw s' → Bound E st' → Q hw st') →
  wp (getOrAllocFRInVecD E fr load) Q st.
Proof.
  intros HE HB HQ. unfold getOrAllocFRInVecD, allocTempVecD.
  apply wp_bind, wp_frState. intros i s -> Hl.
  assert (∀ hw st' s', frameRegs_ st' !! i = Some s' → holdsIn VecD hw s' →
             Bound E st' → Q hw st') as HQ' by (intros; by eapply HQ).
  clear HQ.
  destruct (isValid (localVecD s)) eqn:Hv.
  { apply Is_true_true in Hv.
    destruct (Bound_local st i s VecD HB Hl Hv) as [Hc _].
    intros hw st' Hrun.
    destruct (useReg_fields (localVecD s) st) as (st2 & Hrun2 & Hfr & Hhw & Ha).
    rewrite Hrun2 in Hrun. injection Hrun as <- <-.
    eapply (wp_sameView_holds (useReg E (localVecD s)) VecD i (localVecD s) s
              (λ st', Q (localVecD s) st'));
      [apply sameView_useReg|done|done| |by eauto|exact Hrun2].
    split_and!; [done|done|by left]. }
  destruct (isValidVecD (globalReg s)) eqn:Hg.
  { assert (holdsIn VecD (globalReg s) s) as Hh.
    { split_and!; [by destruct (globalReg s)|by destruct (globalReg s)|].
      right. split; [|done]. simpl. by apply not_valid_invalid. }
    apply wp_bind.
    apply wp_when; [intros _|intros _; apply wp_ret; by eapply HQ'].
    apply wp_bind, wp_assert. intros _. apply wp_bind.
    eapply (wp_sameView_holds _ VecD i (globalReg s) s);
      [apply sameView_movHWReg|done..|].
    intros st1 s1 Hl1 Hh1 HB1.
    eapply (wp_mark_holds _ VecD i (globalReg s) s1); [done..|].
    intros st2 s2 Hl2 Hh2 HB2. apply wp_ret. by eapply HQ'. }
  apply wp_bind, wp_allocTemp; [done..|].
  intros hw st1 Ht Hc Hav Hfree Heff HB1.
  apply wp_bind. rewrite <- Hc in Hav, Hfree.
  apply wp_assignAllocatedLocalHWReg; [done..|].
  intros st2 ? s1 [= <-] Hl1 Hfr2 _ HB2.
  assert (frameRegs_ st2 !! i = Some (set_local (classOf hw) hw s1)) as Hl2.
  { rewrite Hfr2. apply list_lookup_insert_eq. by eapply lookup_lt_Some. }
  assert (holdsIn VecD hw (set_local (classOf hw) hw s1)) as Hh.
  { split_and!; [by apply isTemp_valid|done|left]. rewrite Hc. done. }
  clear Hl1 Hfr2. revert Hl2 Hh. generalize (set_local (classOf hw) hw s1).
  intros s2 Hl2 Hh. apply wp_bind.
  apply wp_when; [intros _|intros _; apply wp_ret; by eapply HQ'].
  apply wp_bind, wp_frState. intros ? s2' [= <-] Hl2'.
  rewrite Hl2 in Hl2'. injection Hl2' as <-.
  destruct (isValid (localGpX s2)).
  { eapply (wp_sameView_holds _ VecD i hw s2);
      [apply sameView_movHWReg|done..|].
    intros st3 s3 Hl3 Hh3 HB3. apply wp_ret. by eapply HQ'. }
  destruct (isValidGpX (globalReg s2)).
  { apply wp_bind, wp_assert. intros _.
    eapply (wp_sameView_holds _ VecD i hw s2);
      [apply sameView_movHWReg|done..|].
    intros st3 s3 Hl3 Hh3 HB3. apply wp_ret. by eapply HQ'. }
  apply wp_bind.
  eapply (wp_sameView_holds _ VecD i hw s2);
    [apply sameView_loadFrame|done..|].
  intros st3 s3 Hl3 Hh3 HB3.
  eapply (wp_mark_holds _ VecD i hw s3); [done..|].
  intros st4 s4 Hl4 Hh4 HB4. apply wp_ret. by eapply HQ'.
Qed.

Lemma wp_getOrAllocFRInGpX_holds fr load (Q : HWReg → Emitter → Prop) st :
  EnvOK E → Bound E st →
  (∀ hw st' i s', fr = FRIdx i → frameRegs_ st' !! i = Some s' →
                  holdsIn GpX hw s' → Bound E st' → Q hw st') →
  wp (getOrAllocFRInGpX E fr load) Q st.
Proof.
  intros HE HB HQ. unfold getOrAllocFRInGpX, allocTempGpX.
  apply wp_bind, wp_frState. intros i s -> Hl.
  assert (∀ hw st' s', frameRegs_ st' !! i = Some s' → holdsIn GpX hw s' →
             Bound E st' → Q hw st') as HQ' by (intros; by eapply HQ).
  clear HQ.
  destruct (isValid (localGpX s)) eqn:Hv.
  { apply Is_true_true in Hv.
    destruct (Bound_local st i s GpX HB Hl Hv) as [Hc _].
    intros hw st' Hrun.
    destruct (useReg_fields (localGpX s) st) as (st2 & Hrun2 & Hfr & Hhw & Ha).
    rewrite Hrun2 in Hrun. injection Hrun as <- <-.
    eapply (wp_sameView_holds (useReg E (localGpX s)) GpX i (localGpX s) s
              (λ st', Q (localGpX s) st'));
      [apply sameView_useReg|done|done| |by eauto|exact Hrun2].
    split_and!; [done|done|by left]. }
  destruct (isValidGpX (globalReg s)) eqn:Hg.
  { assert (holdsIn GpX (globalReg s) s) as Hh.
    { split_and!; [by destruct (globalReg s)|by destruct (globalReg s)|].
      right. split; [|done]. simpl. by apply not_valid_invalid. }
    apply wp_bind.
    apply wp_when; [intros _|intros _; apply wp_ret; by eapply HQ'].
    apply wp_bind, wp_assert. intros _. apply wp_bind.
    eapply (wp_sameView_holds _ GpX i (globalReg s) s);
      [apply sameView_movHWReg|done..|].
    intros st1 s1 Hl1 Hh1 HB1.
    eapply (wp_mark_holds _ GpX i (globalReg s) s1); [done..|].
    intros st2 s2 Hl2 Hh2 HB2. apply wp_ret. by eapply HQ'. }
  apply wp_bind, wp_allocTemp; [done..|].
  intros hw st1 Ht Hc Hav Hfree Heff HB1.
  apply wp_bind. rewrite <- Hc in Hav, Hfree.
  apply wp_assignAllocatedLocalHWReg; [done..|].
  intros st2 ? s1 [= <-] Hl1 Hfr2 _ HB2.
  assert (frameRegs_ st2 !! i = Some (set_local (classOf hw) hw s1)) as Hl2.
  { rewrite Hfr2. apply list_lookup_insert_eq. by eapply lookup_lt_Some. }
  assert (holdsIn GpX hw (set_local (classOf hw) hw s1)) as Hh.
  { split_and!; [by apply isTemp_valid|done|left]. rewrite Hc. done. }
  clear Hl1 Hfr2. revert Hl2 Hh. generalize (set_local (classOf hw) hw s1).
  intros s2 Hl2 Hh. apply wp_bind.
  apply wp_when; [intros _|intros _; apply wp_ret; by eapply HQ'].
  apply wp_bind, wp_frState. intros ? s2' [= <-] Hl2'.
  rewrite Hl2 in Hl2'. injection Hl2' as <-.
  destruct (isValid (localVecD s2)).
  { eapply (wp_sameView_holds _ GpX i hw s2);
      [apply sameView_movHWReg|done..|].
    intros st3 s3 Hl3 Hh3 HB3. apply wp_ret. by eapply HQ'. }
  destruct (isValidVecD (globalReg s2)).
  { apply wp_bind, wp_assert. intros _.
    eapply (wp_sameView_holds _ GpX i hw s2);
      [apply sameView_movHWReg|done..|].
    intros st3 s3 Hl3 Hh3 HB3. apply wp_ret. by eapply HQ'. }
  apply wp_bind.
  eapply (wp_sameView_holds _ GpX i hw s2);
    [apply sameView_loadFrame|done..|].
  intros st3 s3 Hl3 Hh3 HB3.
  eapply (wp_mark_holds _ GpX i hw s3); [done..|].
  intros st4 s4 Hl4 Hh4 HB4. apply wp_ret. by eapply HQ'.
Qed.

(** X1: a frame register asked for in a register class gets a register of
    that class.  In a state where every local binding is a temporary
    register of the right class owned by its frame register, whenever
    [getOrAllocFRInVecD] (or [getOrAllocFRInGpX]) returns, the register it
    returns is a vector (integer) register, and it is the local register of
    that class of the frame register, or its global register when that one
    is of the class and the frame register has no local register of the
    class; the bindings are again well formed. *)
Theorem getOrAlloc_register_class (TAG : RegClass) (fr : FR) (load : bool)
    (st st' : Emitter) (hw : HWReg) :
  EnvOK E → Bound E st →
  (match TAG with
   | VecD => getOrAllocFRInVecD E fr load
   | GpX => getOrAllocFRInGpX E fr load
   end) st = Ok (hw, st') →
  Bound E st' ∧
  ∃ i s', fr = FRIdx i ∧ frameRegs_ st' !! i = Some s' ∧ holdsIn TAG hw s'.
Proof.
  intros HE HB Hrun. revert hw st' Hrun.
  change (wp (match TAG with
              | VecD => getOrAllocFRInVecD E fr load
              | GpX => getOrAllocFRInGpX E fr load
              end)
            (λ hw st', Bound E st' ∧
               ∃ i s', fr = FRIdx i ∧ frameRegs_ st' !! i = Some s' ∧
                       holdsIn TAG hw s') st).
  destruct TAG.
  - apply wp_getOrAllocFRInGpX_holds; [done..|]. eauto 10.
  - apply wp_getOrAllocFRInVecD_holds; [done..|]. eauto 10.
Qed.

(** ** Releasing a temporary register *)

Lemma HWReg_of_classOf r : isValid r → HWReg_of (indexInClass r) (classOf r) = r.
Proof. by destruct r. Qed.

Lemma Bound_unowned st r :
  Bound E st → isValid r → hwRegs_ st !! combinedIndex r = Some FRInvalid →
  ∀ j sj, frameRegs_ st !! j = Some sj → localOf (classOf r) sj ≠ r.
Proof.
  intros HB Hv Hhw j sj Hl Heq.
  assert (isValid (localOf (classOf r) sj)) as Hv' by (by rewrite Heq).
  destruct (Bound_local st j sj _ HB Hl Hv') as [_ (_ & Hh & _)].
  rewrite Heq, Hhw in Hh. done.
Qed.

(** [freeReg] of a register that no frame register owns returns it to its
    pool, when it is a temporary register, and does nothing else. *)
Lemma freeReg_unowned_run r st :
  isValid r → hwRegs_ st !! combinedIndex r = Some FRInvalid →
  freeReg E r st =
    Ok ((), if isTemp E r
            then with_pool (classOf r)
                   (TempRegAlloc.free (indexInClass r) (pool (classOf r) st)) st
            else st).
Proof.
  intros Hv Hhw. unfold freeReg.
  assert (with_hwRegs (<[combinedIndex r:=FRInvalid]> (hwRegs_ st)) st = st)
    as Hid by (rewrite list_insert_id by done; by destruct st).
  destruct r as [|k|k]; [done|..]; simpl in *;
    unfold contains, setContains, contains, mbind, M_bind, mret, M_ret, modify;
    simpl; rewrite Hhw; simpl; rewrite Hhw; simpl; rewrite Hid;
    unfold isTemp, when; simpl; rewrite ?orb_false_r.
  - by destruct (isTempGpX E (HWGpX k)).
  - by destruct (isTempVecD E (HWVecD k)).
Qed.

Lemma isAvail_free st r :
  PoolOK E (classOf r) st → isTemp E r →
  TempRegAlloc.isAvail
    (TempRegAlloc.free (indexInClass r) (pool (classOf r) st))
    (indexInClass r) = true.
Proof.
  intros HP Ht.
  pose proof (isTemp_inRange st (classOf r) (indexInClass r) HP) as Hr.
  rewrite HWReg_of_classOf in Hr by (by apply isTemp_valid).
  specialize (Hr Ht).
  unfold TempRegAlloc.isAvail, TempRegAlloc.inRange, TempRegAlloc.free. simpl.
  rewrite length_insert, bool_decide_eq_true_2 by done. simpl.
  rewrite list_lookup_insert_eq by lia. done.
Qed.

(** X2: [syncAndFreeTempReg] of a temporary register leaves it without an
    owner.  If no frame register owned it, nothing changes.  If frame
    register [i] owned it, its value is first written back as [spillTempReg]
    does (to the global register when that one is stale, else to the frame
    slot when that one is stale: at most one instruction), the binding is
    removed from the record of [i], no other frame register changes, and the
    register is available in its pool again.  The bindings stay well
    formed. *)
Theorem syncAndFreeTempReg_releases (r : HWReg) (st st' : Emitter) :
  EnvOK E → Bound E st → isTemp E r →
  syncAndFreeTempReg E r st = Ok ((), st') →
  Bound E st' ∧
  hwRegs_ st' !! combinedIndex r = Some FRInvalid ∧
  (∀ j sj, frameRegs_ st' !! j = Some sj → localOf (classOf r) sj ≠ r) ∧
  match hwRegs_ st !! combinedIndex r with
  | Some (FRIdx i) =>
      ∃ s, frameRegs_ st !! i = Some s ∧
           frameRegs_ st' =
             <[i := set_local (classOf r) HWInvalid (spillFlags s)]>
               (frameRegs_ st) ∧
           instrs (a st') = instrs (a st) ++ spillInstrs r i s ∧
           TempRegAlloc.isAvail (pool (classOf r) st') (indexInClass r) = true
  | _ => st' = st
  end.
Proof.
  intros HE HB Ht Hrun. pose proof (isTemp_valid _ Ht) as Hv.
  unfold syncAndFreeTempReg in Hrun.
  rewrite (Is_true_true_1 _ Ht), (Is_true_true_1 _ Hv) in Hrun.
  simpl in Hrun. apply bind_Ok in Hrun as (fr & st0 & Hc & Hrun).
  unfold contains in Hc.
  destruct (hwRegs_ st !! combinedIndex r) as [fr'|] eqn:Hhw; [|done].
  injection Hc as <- <-. destruct fr' as [|i]; simpl in Hrun.
  { apply ret_Ok in Hrun as [_ <-]. split_and!; try done.
    by apply Bound_unowned. }
  apply bind_Ok in Hrun as ([] & st1 & Hspill & Hfree).
  destruct (spillTempReg_spec r st HE HB _ _ Hspill)
    as (i' & s & Hhw' & Hl & Hloc & _ & Hfr1 & Hhw1 & Hgp1 & Hvec1 & Hi1 & HB1).
  rewrite Hhw in Hhw'. injection Hhw' as <-.
  assert (hwRegs_ st1 !! combinedIndex r = Some FRInvalid) as Hun.
  { rewrite Hhw1. apply list_lookup_insert_eq. by eapply lookup_lt_Some. }
  rewrite freeReg_unowned_run in Hfree by done.
  rewrite (Is_true_true_1 _ Ht) in Hfree. injection Hfree as <-.
  pose proof (Bound_unowned st1 r HB1 Hv Hun) as Hnone.
  assert (Bound E (with_pool (classOf r)
            (TempRegAlloc.free (indexInClass r) (pool (classOf r) st1)) st1))
    as HB2.
  { apply Bound_free_unbound; rewrite ?HWReg_of_classOf; done. }
  split_and!.
  - done.
  - by destruct (classOf r).
  - intros j sj Hlj. apply (Hnone j sj). by destruct (classOf r).
  - exists s. split_and!; [done|by destruct (classOf r)|by destruct (classOf r)|].
    replace (pool (classOf r) (with_pool (classOf r)
               (TempRegAlloc.free (indexInClass r) (pool (classOf r) st1)) st1))
      with (TempRegAlloc.free (indexInClass r) (pool (classOf r) st1))
      by (by destruct (classOf r)).
    apply isAvail_free; [by apply Bound_PoolOK|done].
Qed.

(** ** [freeAllTempExcept] with an exempted frame register *)

Lemma dropped_refl ex st : dropped ex st st.
Proof. split_and!; [done..|]. intros i s Hl. exists s. auto. Qed.

Lemma dropped_step ex st0 st st' i s :
  dropped ex st0 st → FRIdx i ≠ ex → frameRegs_ st !! i = Some s →
  frameRegs_ st' = <[i := clearLocals s]> (frameRegs_ st) → a st' = a st →
  dropped ex st0 st'.
Proof.
  intros (Ha & Hlen & Hd) Hne Hl Hfr Ha'. split_and!.
  - by rewrite Ha'.
  - by rewrite Hfr, length_insert.
  - intros j s0 Hl0. destruct (Hd j s0 Hl0) as (s1 & Hl1 & Hs1).
    rewrite Hfr. destruct (decide (i = j)) as [<-|Hij].
    + rewrite list_lookup_insert_eq by (by eapply lookup_lt_Some).
      rewrite Hl in Hl1. injection Hl1 as <-.
      exists (clearLocals s). split; [done|]. right. split; [done|].
      by destruct Hs1 as [->|[_ ->]].
    + rewrite list_lookup_insert_ne by done. eauto.
Qed.

Lemma idle_clearOwner ex r t k :
  (t !! k = Some FRInvalid ∨ t !! k = Some ex) →
  clearOwner r t !! k = Some FRInvalid ∨ clearOwner r t !! k = Some ex.
Proof.
  intros [H|H]; [left; by apply clearOwner_stable|].
  unfold clearOwner. destruct (isValid r); [|by right].
  destruct (decide (combinedIndex r = k)) as [<-|Hne].
  - left. apply list_lookup_insert_eq. by eapply lookup_lt_Some.
  - right. by rewrite list_lookup_insert_ne.
Qed.

(** One iteration of [freeAllTempExcept(ex)]. *)
Lemma twp_freeOneTemp_except ex hw st0 st :
  EnvOK E → Bound E st → Owned E st → isTemp E hw → dropped ex st0 st →
  twp (freeOneTemp E ex hw)
      (λ _ st', Bound E st' ∧ Owned E st' ∧ dropped ex st0 st' ∧
         (∀ k, idle ex st k → idle ex st' k) ∧
         idle ex st' (combinedIndex hw)) st.
Proof.
  intros HE HB HO Ht Hd. unfold freeOneTemp.
  destruct (Owned_lookup st hw HE HO Ht) as [fr Hfr].
  apply twp_bind. eapply twp_contains; [done|].
  destruct fr as [|i]; simpl; [apply twp_ret; split_and!; try done; by left|].
  case_bool_decide as Hex;
    [apply twp_ret; split_and!; try done; right; by rewrite <- Hex|].
  destruct (proj2 HO hw i Ht Hfr) as (s & Hl & Hloc).
  apply twp_freeFRTemp with (s := s); [done..|].
  intros st' Hfr' Hhw' Ha' HB'. split_and!; [done| | | |].
  - by apply (freeFRTemp_Owned st st' i s).
  - by eapply dropped_step.
  - intros k Hk. unfold idle. rewrite Hhw'. by do 2 apply idle_clearOwner.
  - left. rewrite Hhw'. pose proof (isTemp_valid _ Ht) as Hv.
    assert (combinedIndex hw < length (hwRegs_ st))%nat as Hlt
      by (by eapply lookup_lt_Some).
    destruct (classOf hw); simpl in Hloc; rewrite Hloc.
    + apply clearOwner_stable. by apply clearOwner_cleared.
    + apply clearOwner_cleared; [done|]. by rewrite clearOwner_length.
Qed.

Lemma twp_freeLoop_except TAG ex (D : nat → Prop) st0 st :
  EnvOK E → Bound E st → Owned E st → dropped ex st0 st →
  (∀ k, D k → idle ex st k) →
  twp (forEach (rangeOf (rangeOfClass E TAG))
         (λ r, freeOneTemp E ex (HWReg_of r TAG)))
      (λ _ st', Bound E st' ∧ Owned E st' ∧ dropped ex st0 st' ∧
         (∀ k, D k → idle ex st' k) ∧
         ∀ r, r ∈ rangeOf (rangeOfClass E TAG) →
              idle ex st' (combinedIndex (HWReg_of r TAG)))
      st.
Proof.
  intros HE HB HO Hd HD.
  apply (twp_forEach_prefix
    (λ l1 st1, Bound E st1 ∧ Owned E st1 ∧ dropped ex st0 st1 ∧
       (∀ k, D k → idle ex st1 k) ∧
       ∀ r, r ∈ l1 → idle ex st1 (combinedIndex (HWReg_of r TAG)))).
  - split_and!; [done..|]. intros r Hr. by apply elem_of_nil in Hr.
  - intros l1 x l2 st1 Hl (HB1 & HO1 & Hd1 & HD1 & Hl1).
    eapply twp_mono; [apply (twp_freeOneTemp_except ex _ st0); [done..| |done]|].
    + apply in_range_isTemp. rewrite Hl. set_solver.
    + intros [] st2 (HB2 & HO2 & Hd2 & Hst & Hx). split_and!; [done..| |].
      * intros k Hk. auto.
      * intros r [Hr|Hr%list_elem_of_singleton]%elem_of_app; [auto|].
        by subst r.
Qed.

Lemma clearLocals_id s :
  localGpX s = HWInvalid → localVecD s = HWInvalid → clearLocals s = s.
Proof. destruct s. simpl. by intros -> ->. Qed.

(** X3: [freeAllTempExcept(ex)] always returns, in a state where the
    bindings and the table of hardware registers agree.  It takes the local
    registers away from every frame register other than [ex] and changes
    nothing else: the record of [ex], all flags and types stay as they are,
    and no instruction is emitted (a value that lived only in a temporary
    register is not written back). *)
Theorem freeAllTempExcept_drops_temporaries (ex : FR) (st : Emitter) :
  EnvOK E → Bound E st → Owned E st →
  ∃ st', freeAllTempExcept E ex st = Ok ((), st') ∧
    frameRegs_ st' =
      imap (λ i s, if decide (FRIdx i = ex) then s else clearLocals s)
           (frameRegs_ st) ∧
    a st' = a st ∧ Bound E st' ∧ Owned E st'.
Proof.
  intros HE HB HO. apply twp_unit. unfold freeAllTempExcept. apply twp_bind.
  eapply twp_mono;
    [apply (twp_freeLoop_except GpX ex (λ _, False) st);
       [done..|apply dropped_refl|done]|].
  intros [] st1 (HB1 & HO1 & Hd1 & _ & HG).
  eapply twp_mono;
    [apply (twp_freeLoop_except VecD ex
              (λ k, ∃ r, r ∈ rangeOf (rangeOfClass E GpX) ∧
                         k = combinedIndex (HWReg_of r GpX)) st);
       [done..|]|].
  { intros k (r & Hr & ->). auto. }
  intros [] st2 (HB2 & HO2 & (Ha & Hlen & Hd2) & HG2 & HV2).
  split_and!; [|done..].
  apply list_eq. intros i. rewrite list_lookup_imap.
  destruct (frameRegs_ st !! i) as [s|] eqn:Hl; simpl.
  2:{ apply lookup_ge_None. rewrite Hlen. by apply lookup_ge_None. }
  destruct (Hd2 i s Hl) as (s2 & Hl2 & Hs2). rewrite Hl2. f_equal.
  case_decide as Hex; [by destruct Hs2 as [->|[? _]]|].
  destruct Hs2 as [->|[_ ->]]; [|done]. symmetry.
  assert (∀ TAG, localOf TAG s = HWInvalid) as Hno.
  { intros TAG. destruct (isValid (localOf TAG s)) eqn:Hv;
      [|by apply not_valid_invalid].
    apply Is_true_true in Hv.
    destruct (Bound_local st2 i s TAG HB2 Hl2 Hv) as [Hc (Ht & Hhw & _)].
    destruct (isTemp_in_range _ Ht) as [Hr Hin]. rewrite Hc in Hr, Hin.
    rewrite Hr in Hhw. destruct TAG.
    - destruct (HG2 _ (ex_intro _ _ (conj Hin eq_refl))) as [H|H];
        rewrite Hhw in H; [done|]. by injection H as <-.
    - destruct (HV2 _ Hin) as [H|H]; rewrite Hhw in H; [done|].
      by injection H as <-. }
  apply clearLocals_id; [apply (Hno GpX)|apply (Hno VecD)].
Qed.

(** ** A second sync pass does nothing *)

Lemma quiet_run b ex hw st :
  quiet b ex hw st → syncOneTemp E b ex hw st = Ok ((), st).
Proof.
  intros (fr & Hhw & H). unfold syncOneTemp.
  rewrite (bind_run _ _ st fr st) by (unfold contains; by rewrite Hhw).
  destruct H as [->|[->|(i & s & -> & Hl & Hloc & Hq)]]; [done|..].
  { destruct ex; [done|]. simpl. by rewrite bool_decide_eq_true_2. }
  simpl. case_bool_decide; [done|].
  rewrite (bind_run _ _ st s st) by (unfold frState; by rewrite Hl).
  rewrite bool_decide_eq_true_2 by done. simpl.
  unfold mbind, M_bind, mret, M_ret. simpl.
  destruct (b && isValid (localGpX s)); [done|]. simpl in Hq.
  unfold settled in Hq. destruct (isValid (globalReg s)); by rewrite Hq.
Qed.

Lemma flagsUp_settled s s' : flagsUp s s' → settled s → settled s'.
Proof.
  intros (_ & _ & Hg & _ & _ & Hf & Hgu). unfold settled. rewrite Hg.
  destruct (isValid (globalReg s)); auto.
Qed.

Lemma quiet_syncStep b ex hw st st' :
  syncStep st st' → quiet b ex hw st → quiet b ex hw st'.
Proof.
  intros HS (fr & Hhw & H). exists fr.
  rewrite (syncStep_hwRegs _ _ HS). split; [done|].
  destruct H as [->|[->|(i & s & -> & Hl & Hloc & Hq)]]; [by left|by right; left|].
  right. right. destruct HS as [HF _].
  destruct (Forall2_lookup_l _ _ _ _ _ HF Hl) as (s' & Hl' & Hfl).
  exists i, s'. split_and!; [done..| |].
  - destruct Hfl as (_ & _ & _ & -> & -> & _). done.
  - apply orb_true_iff in Hq as [Hq|Hq]; apply orb_true_iff; [left|right].
    + destruct Hfl as (_ & _ & _ & -> & _). done.
    + apply Is_true_true. eapply flagsUp_settled; [done|by apply Is_true_true].
Qed.

Lemma wp_syncOneTemp_quiet b ex hw st :
  wp (syncOneTemp E b ex hw)
     (λ _ st', syncStep st st' ∧ quiet b ex hw st') st.
Proof.
  apply wp_conj; [eapply Pres_wp; [apply syncStep_syncOneTemp|done]|].
  unfold syncOneTemp. apply wp_bind, wp_contains. intros fr Hhw.
  destruct (negb (FR_isValid fr) || bool_decide (fr = ex)) eqn:Hskip.
  { apply wp_ret. exists fr. split; [done|].
    apply orb_true_iff in Hskip as [Hv|Hx%bool_decide_eq_true].
    - left. by destruct fr.
    - right. by left. }
  apply wp_bind, wp_frState. intros i s -> Hl.
  apply wp_bind, wp_assert. intros Hloc%bool_decide_eq_true.
  assert (∀ st' s', hwRegs_ st' = hwRegs_ st → frameRegs_ st' !! i = Some s' →
            localGpX s' = localGpX s → localVecD s' = localVecD s →
            (b && isValid (localGpX s) || settled s') = true →
            quiet b ex hw st') as Hq.
  { intros st' s' Hh Hl' HG HV Hs. exists (FRIdx i). rewrite Hh.
    split; [done|]. right. right. exists i, s'.
    split_and!; [done..|by rewrite HG, HV|by rewrite HG]. }
  destruct (b && isValid (localGpX s)) eqn:Hb.
  { apply wp_ret. by apply (Hq st s). }
  destruct (isValid (globalReg s)) eqn:Hg.
  - apply wp_when.
    + intros Hup. apply wp_bind.
      eapply Pres_wp; [apply sameView_movHWReg|]. intros [] st1 Hv.
      apply wp_updFR. intros ? s0 [= <-] Hl0.
      rewrite (sameView_frameRegs _ _ Hv), Hl in Hl0. injection Hl0 as <-.
      apply (Hq _ (set_globalRegUpToDate true s)); simpl; [| |done..|].
      * by apply sameView_hwRegs.
      * apply list_lookup_insert_eq. rewrite (sameView_frameRegs _ _ Hv).
        by eapply lookup_lt_Some.
      * unfold settled. simpl. by rewrite Hg.
    + intros Hup%negb_false_iff. apply (Hq st s); try done.
      unfold settled. by rewrite Hg.
  - apply wp_when.
    + intros Hup. unfold _storeHWRegToFrame, _storeFrame.
      apply wp_bind, wp_emit. apply wp_updFR.
      intros ? s0 [= <-] Hl0. simpl in Hl0.
      rewrite Hl in Hl0. injection Hl0 as <-.
      apply (Hq _ (set_frameUpToDate true s)); simpl; [done| |done..|].
      * apply list_lookup_insert_eq. by eapply lookup_lt_Some.
      * unfold settled. simpl. by rewrite Hg.
    + intros Hup%negb_false_iff. apply (Hq st s); try done.
      unfold settled. by rewrite Hg.
Qed.

Lemma wp_syncLoop_quiet b TAG ex (D : HWReg → Prop) st :
  (∀ r, D r → quiet false ex r st) →
  wp (forEach (rangeOf (rangeOfClass E TAG))
        (λ r, syncOneTemp E b ex (HWReg_of r TAG)))
     (λ _ st', syncStep st st' ∧ (∀ r, D r → quiet false ex r st') ∧
        ∀ r, r ∈ rangeOf (rangeOfClass E TAG) →
             quiet b ex (HWReg_of r TAG) st') st.
Proof.
  intros HD.
  apply (wp_forEach_prefix
    (λ l1 st1, syncStep st st1 ∧ (∀ r, D r → quiet false ex r st1) ∧
       ∀ r, r ∈ l1 → quiet b ex (HWReg_of r TAG) st1)).
  - split_and!; [reflexivity|done|]. intros r Hr. by apply elem_of_nil in Hr.
  - intros l1 x l2 st1 _ (HS & HD1 & HI).
    eapply wp_mono; [apply wp_syncOneTemp_quiet|].
    intros ? st2 [HS2 Hx]. split_and!; [by etrans| |].
    + intros r Hr. eapply quiet_syncStep; eauto.
    + intros r [Hr|Hr%list_elem_of_singleton]%elem_of_app.
      * eapply quiet_syncStep; eauto.
      * by subst r.
Qed.

Lemma forEach_unchanged {A} (l : list A) (f : A → M unit) st :
  (∀ x, x ∈ l → f x st = Ok ((), st)) → forEach l f st = Ok ((), st).
Proof.
  induction l as [|x l IH]; intros H; simpl; [done|].
  rewrite (bind_run _ _ st () st) by (apply H; left).
  apply IH. intros y Hy. apply H. by right.
Qed.

(** X4: a sync pass is idempotent.  Whenever [syncAllTempExcept(ex)]
    returns, running it again from the emitter it left returns as well,
    emits nothing and changes nothing: the first pass has brought the global
    register, or else the frame slot, of every owner of a temporary register
    up to date. *)
Theorem syncAllTempExcept_idempotent (ex : FR) (st st1 : Emitter) :
  syncAllTempExcept E ex st = Ok ((), st1) →
  syncAllTempExcept E ex st1 = Ok ((), st1).
Proof.
  revert st1.
  apply (wp_unit _ (λ st1, syncAllTempExcept E ex st1 = Ok ((), st1))).
  unfold syncAllTempExcept at 1. apply wp_bind.
  eapply wp_mono; [apply (wp_syncLoop_quiet false GpX ex (λ _, False)); done|].
  intros [] st1 (_ & _ & HG).
  eapply wp_mono;
    [apply (wp_syncLoop_quiet true VecD ex
              (λ r, ∃ k, k ∈ rangeOf (rangeOfClass E GpX) ∧
                         r = HWReg_of k GpX))|].
  { intros r (k & Hk & ->). auto. }
  intros [] st2 (_ & HG2 & HV2). unfold syncAllTempExcept.
  rewrite (bind_run _ _ st2 () st2).
  - apply forEach_unchanged. intros k Hk. apply quiet_run. auto.
  - apply forEach_unchanged. intros k Hk. apply quiet_run. apply HG2. eauto.
Qed.

(** ** Read-only data: reserving aligned space *)

Lemma land_align (n k : Z) :
  0 ≤ k →
  Z.land (n + 2 ^ k - 1) (Z.lnot (2 ^ k - 1)) =
  (n + 2 ^ k - 1) / 2 ^ k * 2 ^ k.
Proof.
  intros Hk. rewrite <- Z.ldiff_land.
  replace (2 ^ k - 1) with (Z.ones k) by (rewrite Z.ones_equiv; lia).
  rewrite Z.ldiff_ones_r by lia.
  by rewrite Z.shiftr_div_pow2, Z.shiftl_mul_pow2 by lia.
Qed.

Lemma align_up_spec (n k : Z) :
  0 ≤ k →
  let ofs := Z.land (n + 2 ^ k - 1) (Z.lnot (2 ^ k - 1)) in
  ofs mod 2 ^ k = 0 ∧ n ≤ ofs < n + 2 ^ k.
Proof.
  intros Hk ofs. subst ofs. rewrite land_align by done.
  assert (0 < 2 ^ k) as Hp by (apply Z.pow_pos_nonneg; lia).
  split; [by apply Z.mod_mul; lia|].
  pose proof (Z.div_mod (n + 2 ^ k - 1) (2 ^ k) ltac:(lia)) as Hd.
  pose proof (Z.mod_pos_bound (n + 2 ^ k - 1) (2 ^ k) Hp) as Hm.
  lia.
Qed.

(** X5: [reserveData(dsize, align)] with a power of two as alignment places
    the new block at the first multiple of [align] at or after the old end of
    the read-only data.  If that offset is below [INT32_MAX] it is returned,
    and the data grows by zero bytes up to the end of the block; the bytes
    that were there are kept.  Otherwise the compilation stops with a fatal
    error. *)
Theorem reserveData_aligns (dsize k : Z) (st : Emitter) :
  0 ≤ k → 0 ≤ dsize →
  ∃ ofs,
    ofs mod 2 ^ k = 0 ∧
    Z.of_nat (length (roData_ st)) ≤ ofs <
      Z.of_nat (length (roData_ st)) + 2 ^ k ∧
    reserveData dsize (2 ^ k) st =
      if bool_decide (INT32_MAX ≤ ofs)
      then Err (Fatal "JIT RO data overflow")
      else Ok (ofs,
               with_roData
                 (roData_ st ++
                  replicate
                    (Z.to_nat (ofs + dsize - Z.of_nat (length (roData_ st))))
                    0) st).
Proof.
  intros Hk Hd.
  destruct (align_up_spec (Z.of_nat (length (roData_ st))) k Hk) as [Hm Hr].
  eexists. split; [exact Hm|]. split; [exact Hr|].
  unfold reserveData. msimpl. case_bool_decide; [done|].
  do 3 f_equal. rewrite resize_ge by lia. do 2 f_equal. lia.
Qed.

(** ** Read-only data: interned values stay where they are *)

Lemma modify_Ok f st x st' : modify f st = Ok (x, st') → st' = f st.
Proof. by intros [= <-]. Qed.

Lemma memcpy64_Ok ofs v st x st' :
  memcpy64 ofs v st = Ok (x, st') →
  st' = with_roData
          (take (Z.to_nat ofs) (roData_ st) ++ bytes64 v ++
           drop (Z.to_nat ofs + 8) (roData_ st)) st.
Proof. by intros [= <-]. Qed.

Lemma reserve8_run st ofs st1 :
  reserveData 8 8 st = Ok (ofs, st1) →
  ofs mod 8 = 0 ∧ Z.of_nat (length (roData_ st)) ≤ ofs ∧
  st1 = with_roData
          (roData_ st ++
           replicate (Z.to_nat (ofs + 8 - Z.of_nat (length (roData_ st)))) 0)
          st.
Proof.
  destruct (align_up_spec (Z.of_nat (length (roData_ st))) 3 ltac:(lia))
    as [Hm Hr].
  change (2 ^ 3) with 8 in Hm, Hr.
  unfold reserveData. msimpl. case_bool_decide; [done|].
  intros [= <- <-]. split_and!; [done|lia|].
  f_equal. rewrite resize_ge by lia. do 2 f_equal. lia.
Qed.

(** The read-only data after [reserveData(8, 8)] and the [memcpy] of [v] to
    the new block. *)
Lemma memcpy64_fresh (l : list Z) (ofs v : Z) :
  Z.of_nat (length l) ≤ ofs →
  let l1 := l ++ replicate (Z.to_nat (ofs + 8 - Z.of_nat (length l))) 0 in
  take (Z.to_nat ofs) l1 ++ bytes64 v ++ drop (Z.to_nat ofs + 8) l1 =
  l ++ replicate (Z.to_nat ofs - length l) 0 ++ bytes64 v.
Proof.
  intros Hle l1. subst l1.
  rewrite drop_ge by (rewrite length_app, length_replicate; lia).
  rewrite app_nil_r. rewrite take_app_ge by lia. rewrite take_replicate.
  rewrite <- app_assoc. do 3 f_equal. lia.
Qed.

Lemma slot_kept (l pad : list Z) (ofs : Z) (b : list Z) :
  0 ≤ ofs → length b = 8%nat →
  take 8 (drop (Z.to_nat ofs) l) = b →
  take 8 (drop (Z.to_nat ofs) (l ++ pad)) = b.
Proof.
  intros Ho Hb Hs.
  assert (8 ≤ length (drop (Z.to_nat ofs) l))%nat as Hlen.
  { rewrite <- Hb, <- Hs, length_take. lia. }
  rewrite length_drop in Hlen.
  rewrite drop_app_le by lia. rewrite take_app_le by (rewrite length_drop; lia).
  done.
Qed.

Lemma slot_new (l : list Z) (ofs v : Z) :
  Z.of_nat (length l) ≤ ofs →
  take 8 (drop (Z.to_nat ofs)
            (l ++ replicate (Z.to_nat ofs - length l) 0 ++ bytes64 v)) =
  bytes64 v.
Proof.
  intros Hle. rewrite app_assoc.
  rewrite drop_app_length' by (rewrite length_app, length_replicate; lia).
  done.
Qed.

Lemma slotHolds_kept st st' pad ofs v :
  roData_ st' = roData_ st ++ pad → slotHolds st ofs v → slotHolds st' ofs v.
Proof.
  intros Hro (H0 & Hm & Hs). split_and!; [done..|]. rewrite Hro.
  by apply slot_kept.
Qed.

(** [uint64Const] keeps the interned data in place, puts the constant in the
    slot it returns, and touches neither the code nor the bindings. *)
Lemma uint64Const_slot bits st ofs st' :
  DataOK st → uint64Const bits st = Ok (ofs, st') →
  DataOK st' ∧ slotHolds st' ofs bits ∧ a st' = a st ∧
  bindingView st' = bindingView st.
Proof.
  intros [HC HT] Hrun. unfold uint64Const in Hrun.
  rewrite (bind_run _ _ st st st) in Hrun by done.
  destruct (fp64ConstMap_ st !! bits) as [o|] eqn:Hm.
  { apply ret_Ok in Hrun as [-> <-]. split_and!; [done|by apply HC|done..]. }
  apply bind_Ok in Hrun as (d & st1 & Hres & Hrun).
  apply reserve8_run in Hres as (Hmod & Hle & ->).
  apply bind_Ok in Hrun as ([] & st2 & Hcpy & Hrun).
  apply memcpy64_Ok in Hcpy as ->.
  apply bind_Ok in Hrun as ([] & st3 & Hins & Hrun).
  apply modify_Ok in Hins as ->.
  apply ret_Ok in Hrun as [<- <-].
  match goal with |- DataOK ?s ∧ _ => set (st' := s) end.
  assert (roData_ st' =
          roData_ st ++ (replicate (Z.to_nat d - length (roData_ st)) 0 ++
                         bytes64 bits)) as Hro
    by (rewrite <- memcpy64_fresh by done; reflexivity).
  assert (slotHolds st' d bits) as Hnew.
  { split_and!; [lia|done|]. rewrite Hro. by apply slot_new. }
  split_and!; [|done|reflexivity|reflexivity]. split.
  - intros b o Hb.
    change (<[bits:=d]> (fp64ConstMap_ st) !! b = Some o) in Hb.
    apply lookup_insert_Some in Hb as [[<- <-]|[Hne Hb]]; [done|].
    eapply slotHolds_kept; [exact Hro|by apply HC].
  - intros fn idx Hfn. destruct (HT fn idx Hfn) as (l & o & Hl & Hs).
    exists l, o. split; [done|]. eapply slotHolds_kept; [exact Hro|done].
Qed.

(** X6: interned data stays where it was put.  If every interned constant is
    found at its recorded offset of the read-only data and every registered
    function has a thunk whose 8-byte slot holds its address, the same is
    true after [uint64Const] and after [registerCall], and the offset
    (the thunk) they return is one at which the constant (the address of
    the function) is stored. *)
Theorem interned_data_stays_put :
  (∀ bits st ofs st',
     DataOK st → uint64Const bits st = Ok (ofs, st') →
     DataOK st' ∧ slotHolds st' ofs bits) ∧
  (∀ fn name st l st',
     DataOK st → registerCall fn name st = Ok (l, st') →
     DataOK st' ∧
     ∃ idx ofs, thunkMap_ st' !! fn = Some idx ∧
                thunks_ st' !! idx = Some (l, ofs) ∧ slotHolds st' ofs fn).
Proof.
  split.
  - intros bits st ofs st' HD Hrun.
    destruct (uint64Const_slot bits st ofs st' HD Hrun) as (HD' & Hs & _).
    done.
  - intros fn name st l st' [HC HT] Hrun. unfold registerCall in Hrun.
    rewrite (bind_run _ _ st st st) in Hrun by done.
    destruct (thunkMap_ st !! fn) as [idx|] eqn:Hm.
    { destruct (HT fn idx Hm) as (l0 & o & Hl & Hs). revert Hrun. msimpl.
      rewrite Hl. intros [= <- <-]. split; [done|]. eauto. }
    apply bind_Ok in Hrun as (idx & st4 & Hnew & Hrun).
    apply bind_Ok in Hnew as ([] & st1 & Hmod & Hnew).
    apply modify_Ok in Hmod as ->.
    apply bind_Ok in Hnew as (d & st2 & Hres & Hnew).
    apply reserve8_run in Hres as (Hmod & Hle & ->).
    apply bind_Ok in Hnew as ([] & st2 & Hcpy & Hnew).
    apply memcpy64_Ok in Hcpy as ->.
    apply bind_Ok in Hnew as (l0 & st3 & Hlab & Hnew).
    unfold newLabel in Hlab. injection Hlab as <- <-.
    apply bind_Ok in Hnew as ([] & st4' & Hth & Hnew).
    apply modify_Ok in Hth as ->.
    apply ret_Ok in Hnew as [<- <-].
    rewrite (bind_run _ _ _ _ _ eq_refl) in Hrun.
    cbn [thunks_ with_thunks with_a with_roData with_thunkMap] in Hrun.
    rewrite lookup_app_r in Hrun by done. rewrite Nat.sub_diag in Hrun.
    apply ret_Ok in Hrun as [<- <-].
    match goal with |- DataOK ?s ∧ _ => set (st' := s) end.
    assert (roData_ st' =
            roData_ st ++ (replicate (Z.to_nat d - length (roData_ st)) 0 ++
                           bytes64 fn)) as Hro
      by (rewrite <- memcpy64_fresh by done; reflexivity).
    assert (slotHolds st' d fn) as Hslot.
    { split_and!; [lia|done|]. rewrite Hro. by apply slot_new. }
    assert (thunks_ st' !! length (thunks_ st) =
            Some (LId (length (labels (a st))), d)) as Hth.
    { subst st'. cbn [thunks_ with_thunks].
      rewrite lookup_app_r by done. by rewrite Nat.sub_diag. }
    split.
    + split.
      * intros b o Hb. eapply slotHolds_kept; [exact Hro|by apply HC].
      * intros fn' idx' Hb.
        change (<[fn:=length (thunks_ st)]> (thunkMap_ st) !! fn' = Some idx')
          in Hb.
        apply lookup_insert_Some in Hb as [[<- <-]|[Hne Hb]]; [eauto|].
        destruct (HT fn' idx' Hb) as (l' & o & Hl & Hs).
        exists l', o. split; [by apply lookup_app_l_Some|].
        eapply slotHolds_kept; [exact Hro|done].
    + exists (length (thunks_ st)), d. split_and!; [|done..].
      apply lookup_insert_eq.
Qed.

(** ** One thunk per function *)

Lemma registerCall_fresh_run fn name st :
  thunkMap_ st !! fn = None →
  (∃ msg, registerCall fn name st = Err (Fatal msg)) ∨
  ∃ d ro,
    registerCall fn name st =
      Ok (LId (length (labels (a st))),
          with_thunks (thunks_ st ++ [(LId (length (labels (a st))), d)])
            (with_a (mkAssembler (instrs (a st)) (labels (a st) ++ [name]))
               (with_roData ro
                  (with_thunkMap (<[fn := length (thunks_ st)]> (thunkMap_ st))
                     st)))).
Proof.
  intros Hm. unfold registerCall.
  rewrite (bind_run _ _ st st st) by done. rewrite Hm.
  unfold reserveData, memcpy64, newLabel, hermes_fatal, fail. msimpl.
  case_bool_decide; [left; eauto|right].
  simpl. rewrite lookup_app_r by done. rewrite Nat.sub_diag. simpl.
  eauto.
Qed.

(** X7: every function gets one thunk of its own.  In a state where the map
    of registered functions and the list of thunks agree, [registerCall]
    fails only with the fatal overflow of the read-only data (it never reads
    outside of the list of thunks); when it returns, the map and the list
    agree again, the label it returns is the label of the thunk of the
    function, and no other function has a thunk with that label. *)
Theorem registerCall_thunk_per_function (fn : Z) (name : option string)
    (st : Emitter) :
  ThunksOK st →
  match registerCall fn name st with
  | Ok (l, st') =>
      ThunksOK st' ∧
      (∃ idx ofs, thunkMap_ st' !! fn = Some idx ∧
                  thunks_ st' !! idx = Some (l, ofs)) ∧
      ∀ fn' idx' l' ofs', fn' ≠ fn → thunkMap_ st' !! fn' = Some idx' →
                          thunks_ st' !! idx' = Some (l', ofs') → l' ≠ l
  | Err e => ∃ msg, e = Fatal msg
  end.
Proof.
  intros HT.
  assert (∀ l st', ThunksOK st' →
            (∃ idx ofs, thunkMap_ st' !! fn = Some idx ∧
                        thunks_ st' !! idx = Some (l, ofs)) →
            ∀ fn' idx' l' ofs', fn' ≠ fn → thunkMap_ st' !! fn' = Some idx' →
               thunks_ st' !! idx' = Some (l', ofs') → l' ≠ l) as Hdist.
  { intros l st' (_ & Hinj & _ & Hnd) (idx & ofs & Hm & Hl) fn' idx' l' ofs'
      Hne Hm' Hl' ->.
    assert (idx' = idx) as ->.
    { eapply (NoDup_lookup (fst <$> thunks_ st')); [done|..];
        rewrite list_lookup_fmap; [by rewrite Hl'|by rewrite Hl]. }
    apply Hne. by eapply Hinj. }
  destruct (thunkMap_ st !! fn) as [idx|] eqn:Hm.
  - destruct HT as (Hr & Hinj & Hlab & Hnd).
    destruct (lookup_lt_is_Some_2 _ _ (Hr fn idx Hm)) as [[l ofs] Hl].
    rewrite (registerCall_known fn name idx (l, ofs) st Hm Hl). simpl.
    assert (ThunksOK st) as HT by done.
    split_and!; [done|by eauto|]. apply Hdist; eauto.
  - destruct (registerCall_fresh_run fn name st Hm) as [[msg ->]|(d & ro & ->)];
      [by eauto|].
    match goal with |- ThunksOK ?s ∧ _ => set (st' := s) end.
    destruct HT as (Hr & Hinj & Hlab & Hnd).
    assert (thunks_ st' !! length (thunks_ st) =
            Some (LId (length (labels (a st))), d)) as Hnew.
    { subst st'. cbn [thunks_ with_thunks].
      rewrite lookup_app_r by done. by rewrite Nat.sub_diag. }
    assert (ThunksOK st') as HT'.
    { split_and!.
      - intros fn' idx' H.
        change (<[fn:=length (thunks_ st)]> (thunkMap_ st) !! fn' = Some idx')
          in H.
        change (idx' < length (thunks_ st ++
                                 [(LId (length (labels (a st))), d)]))%nat.
        rewrite length_app. simpl.
        apply lookup_insert_Some in H as [[<- <-]|[Hne H]]; [lia|].
        apply Hr in H. lia.
      - intros f1 f2 idx' H1 H2.
        change (<[fn:=length (thunks_ st)]> (thunkMap_ st) !! f1 = Some idx')
          in H1.
        change (<[fn:=length (thunks_ st)]> (thunkMap_ st) !! f2 = Some idx')
          in H2.
        apply lookup_insert_Some in H1 as [[<- <-]|[Hne1 H1]];
          apply lookup_insert_Some in H2 as [[<- Heq]|[Hne2 H2]]; try done.
        + apply Hr in H2. lia.
        + apply Hr in H1. lia.
        + by eapply Hinj.
      - intros idx' l ofs H.
        change ((thunks_ st ++ [(LId (length (labels (a st))), d)]) !! idx' =
                Some (l, ofs)) in H.
        change (∃ k, l = LId k ∧
                     (k < length (labels (a st) ++ [name]))%nat).
        rewrite length_app. simpl.
        apply lookup_app_Some in H as [H|[_ H]].
        + destruct (Hlab _ _ _ H) as (k & -> & Hk). exists k. split; [done|lia].
        + apply list_lookup_singleton_Some in H as [_ [= <- <-]].
          eexists. split; [done|lia].
      - change (NoDup (fst <$> thunks_ st ++
                                 [(LId (length (labels (a st))), d)])).
        rewrite fmap_app. apply NoDup_app. split_and!; [done| |].
        + intros l Hl Hin. simpl in Hin. apply list_elem_of_singleton in Hin.
          subst l. apply list_elem_of_fmap in Hl as ([l o] & Heq & Hl).
          simpl in Heq. subst l.
          apply list_elem_of_lookup in Hl as [i Hi].
          destruct (Hlab _ _ _ Hi) as (k & [= <-] & Hk). lia.
        + simpl. apply NoDup_singleton. }
    assert (∃ idx ofs, thunkMap_ st' !! fn = Some idx ∧
              thunks_ st' !! idx = Some (LId (length (labels (a st))), ofs))
      as Hfn.
    { exists (length (thunks_ st)), d. split; [|done]. apply lookup_insert_eq. }
    split_and!; [done..|]. by apply Hdist.
Qed.

(** ** Cheap constants *)

Lemma land_halfword (k n : Z) :
  0 ≤ n →
  Z.land k (Z.shiftl 65535 n) = (k / 2 ^ n) mod 2 ^ 16 * 2 ^ n.
Proof.
  intros Hn. change 65535 with (Z.ones 16).
  rewrite <- Z.shiftl_mul_pow2, <- Z.land_ones, <- Z.shiftr_div_pow2 by lia.
  apply Z.bits_inj'. intros m Hm.
  rewrite Z.land_spec. destruct (decide (m < n)) as [Hlt|Hge].
  - rewrite !Z.shiftl_spec_low by lia. apply andb_false_r.
  - rewrite !Z.shiftl_spec by lia. rewrite Z.land_spec, Z.shiftr_spec by lia.
    by replace (m - n + n) with m by lia.
Qed.

Lemma halfwords_sum (k : Z) :
  0 ≤ k < 2 ^ 64 →
  k = k mod 2 ^ 16 + (k / 2 ^ 16) mod 2 ^ 16 * 2 ^ 16 +
      (k / 2 ^ 32) mod 2 ^ 16 * 2 ^ 32 + (k / 2 ^ 48) mod 2 ^ 16 * 2 ^ 48.
Proof.
  intros Hk. change (2 ^ 16) with 65536. change (2 ^ 32) with 4294967296.
  change (2 ^ 48) with 281474976710656.
  change (2 ^ 64) with 18446744073709551616 in Hk.
  Z.div_mod_to_equations. lia.
Qed.

(** X8: a 64-bit constant is cheap exactly when it is made of at most two
    16-bit words: [isCheapConst k] holds if and only if [k] is
    [a * 2^(16 i) + b * 2^(16 j)] for two positions [i < j] among the four
    words and two 16-bit values [a] and [b] (what a [mov] and a [movk] can
    load). *)
Theorem isCheapConst_two_halfwords (k : Z) :
  0 ≤ k < 2 ^ 64 →
  isCheapConst k = true ↔
  ∃ i j a b, 0 ≤ i < j ∧ j ≤ 3 ∧ 0 ≤ a < 2 ^ 16 ∧ 0 ≤ b < 2 ^ 16 ∧
             k = a * 2 ^ (16 * i) + b * 2 ^ (16 * j).
Proof.
  intros Hk. unfold isCheapConst. rewrite bool_decide_eq_true.
  pose proof (halfwords_sum k Hk) as Hsum.
  rewrite !filter_cons, !filter_nil. rewrite !land_halfword by lia.
  change (16 * 0) with 0. change (16 * 1) with 16. change (16 * 2) with 32.
  change (16 * 3) with 48.
  change (2 ^ 0) with 1 in *. change (2 ^ 16) with 65536 in *.
  change (2 ^ 32) with 4294967296 in *.
  change (2 ^ 48) with 281474976710656 in *.
  change (2 ^ 64) with 18446744073709551616 in *.
  rewrite Z.div_1_r.
  pose proof (Z.mod_pos_bound k 65536 ltac:(lia)) as B0.
  pose proof (Z.mod_pos_bound (k / 65536) 65536 ltac:(lia)) as B1.
  pose proof (Z.mod_pos_bound (k / 4294967296) 65536 ltac:(lia)) as B2.
  pose proof (Z.mod_pos_bound (k / 281474976710656) 65536 ltac:(lia)) as B3.
  split.
  - intros Hc.
    set (h0 := k mod 65536) in *. set (h1 := (k / 65536) mod 65536) in *.
    set (h2 := (k / 4294967296) mod 65536) in *.
    set (h3 := (k / 281474976710656) mod 65536) in *.
    destruct (decide (h0 = 0)) as [E0|N0];
      destruct (decide (h1 = 0)) as [E1|N1];
      destruct (decide (h2 = 0)) as [E2|N2];
      destruct (decide (h3 = 0)) as [E3|N3];
      repeat (case_decide; try lia); simpl in Hc; try lia.
    all: first
      [ exists 0, 1, h0, h1; split_and!; try done; lia
      | exists 0, 2, h0, h2; split_and!; try done; lia
      | exists 0, 3, h0, h3; split_and!; try done; lia
      | exists 1, 2, h1, h2; split_and!; try done; lia
      | exists 1, 3, h1, h3; split_and!; try done; lia
      | exists 2, 3, h2, h3; split_and!; try done; lia ].
  - intros (i & j & a & b & Hi & Hj & Ha & Hb & Heq).
    assert ((i = 0 ∧ j = 1) ∨ (i = 0 ∧ j = 2) ∨ (i = 0 ∧ j = 3) ∨
            (i = 1 ∧ j = 2) ∨ (i = 1 ∧ j = 3) ∨ (i = 2 ∧ j = 3)) as Hij by lia.
    clear Hsum B0 B1 B2 B3.
    destruct Hij as [[-> ->]|[[-> ->]|[[-> ->]|[[-> ->]|[[-> ->]|[-> ->]]]]]];
      simpl in Heq.
    + assert ((k / 4294967296) mod 65536 = 0) as E2
        by (Z.div_mod_to_equations; lia).
      assert ((k / 281474976710656) mod 65536 = 0) as E3
        by (Z.div_mod_to_equations; lia).
      rewrite E2, E3. repeat case_decide; simpl; lia.
    + assert ((k / 65536) mod 65536 = 0) as E1
        by (Z.div_mod_to_equations; lia).
      assert ((k / 281474976710656) mod 65536 = 0) as E3
        by (Z.div_mod_to_equations; lia).
      rewrite E1, E3. repeat case_decide; simpl; lia.
    + assert ((k / 65536) mod 65536 = 0) as E1
        by (Z.div_mod_to_equations; lia).
      assert ((k / 4294967296) mod 65536 = 0) as E2
        by (Z.div_mod_to_equations; lia).
      rewrite E1, E2. repeat case_decide; simpl; lia.
    + assert (k mod 65536 = 0) as E0 by (Z.div_mod_to_equations; lia).
      assert ((k / 281474976710656) mod 65536 = 0) as E3
        by (Z.div_mod_to_equations; lia).
      rewrite E0, E3. repeat case_decide; simpl; lia.
    + assert (k mod 65536 = 0) as E0 by (Z.div_mod_to_equations; lia).
      assert ((k / 4294967296) mod 65536 = 0) as E2
        by (Z.div_mod_to_equations; lia).
      rewrite E0, E2. repeat case_decide; simpl; lia.
    + assert (k mod 65536 = 0) as E0 by (Z.div_mod_to_equations; lia).
      assert ((k / 65536) mod 65536 = 0) as E1
        by (Z.div_mod_to_equations; lia).
      rewrite E0, E1. repeat case_decide; simpl; lia.
Qed.

(** ** The slow paths are emitted in the order of the queue *)

#[local] Instance appends_preorder : PreOrder appends.
Proof.
  split.
  - intros st. split_and!; [done..|]. exists []. by rewrite app_nil_r.
  - intros st1 st2 st3 (Hv1 & Hs1 & c1 & Hc1) (Hv2 & Hs2 & c2 & Hc2).
    split_and!; [congruence..|]. exists (c1 ++ c2).
    by rewrite Hc2, Hc1, app_assoc.
Qed.

Lemma appends_emit i : Pres appends (emit i).
Proof.
  apply Pres_modify. intros st. split_and!; [done..|]. by exists [i].
Qed.

Lemma appends_frame st st' :
  bindingView st' = bindingView st → slowPaths_ st' = slowPaths_ st →
  a st' = a st → appends st st'.
Proof.
  intros Hv Hs Ha. split_and!; [done..|]. exists []. by rewrite Ha, app_nil_r.
Qed.

Lemma appends_newLabel name : Pres appends (newLabel name).
Proof.
  intros st l st' [= <- <-]. split_and!; [done..|]. exists [].
  by rewrite app_nil_r.
Qed.

#[local] Hint Resolve appends_emit appends_newLabel : pres.

Ltac solve_appends :=
  repeat first
    [ pres_step
    | solve [eauto with pres]
    | apply Pres_modify; intros ?; apply appends_frame; reflexivity ].

Lemma appends_reserveData dsize align : Pres appends (reserveData dsize align).
Proof. unfold reserveData. solve_appends. Qed.
Lemma appends_memcpy64 ofs v : Pres appends (memcpy64 ofs v).
Proof. unfold memcpy64. solve_appends. Qed.
#[local] Hint Resolve appends_reserveData appends_memcpy64 : pres.
Lemma appends_uint64Const bits : Pres appends (uint64Const bits).
Proof. unfold uint64Const. solve_appends. Qed.
Lemma appends_registerCall fn name : Pres appends (registerCall fn name).
Proof. unfold registerCall. solve_appends. Qed.
#[local] Hint Resolve appends_uint64Const appends_registerCall : pres.
Lemma appends_call_fn fn name : Pres appends (call_fn fn name).
Proof. unfold call_fn. solve_appends. Qed.
Lemma appends_loadBits64InGp dst bits : Pres appends (loadBits64InGp dst bits).
Proof. unfold loadBits64InGp. solve_appends. Qed.
Lemma appends_loadFrameAddr dst fr : Pres appends (loadFrameAddr dst fr).
Proof. unfold loadFrameAddr. solve_appends. Qed.
Lemma appends_useReg r : Pres appends (useReg E r).
Proof. unfold useReg. solve_appends. Qed.
#[local] Hint Resolve appends_useReg : pres.
Lemma appends_movHWReg u dst src : Pres appends (movHWReg E u dst src).
Proof. unfold movHWReg. solve_appends. Qed.
#[local] Hint Resolve appends_movHWReg : pres.
#[local] Hint Resolve appends_call_fn appends_loadBits64InGp
  appends_loadFrameAddr : pres.

(** A step of a block that only appends instructions. *)
Lemma wp_appends_step (m k : M unit) st0 st (Q : unit → Emitter → Prop) :
  Pres appends m → appends st0 st →
  (∀ st1, appends st0 st1 → wp k Q st1) →
  wp (m ;; k) Q st.
Proof.
  intros Hm H0 Hk. apply wp_bind. eapply Pres_wp; [exact Hm|].
  intros [] st1 H1. apply Hk. by etrans.
Qed.

Lemma wp_emitSlowPath sl st :
  wp (emitSlowPath E sl)
     (λ _ st', bindingView st' = bindingView st ∧
               slowPaths_ st' = slowPaths_ st ∧
               ∃ blk, slowBlock sl blk ∧
                      instrs (a st') = instrs (a st) ++ blk) st.
Proof.
  assert (∀ st1,
            appends (with_a (mkAssembler (instrs (a st) ++
                                            [IBind (slowPathLab sl)])
                               (labels (a st))) st) st1 →
            wp (emit (IB (contLab sl)))
               (λ _ st', bindingView st' = bindingView st ∧
                  slowPaths_ st' = slowPaths_ st ∧
                  ∃ blk, slowBlock sl blk ∧
                         instrs (a st') = instrs (a st) ++ blk) st1) as Hend.
  { intros st1 (Hv & Hs & mid & Hc). apply wp_emit.
    split_and!; [done..|]. eexists. split; [by exists mid|].
    simpl. rewrite Hc. simpl. by rewrite <- !app_assoc. }
  unfold emitSlowPath.
  destruct (kind sl); apply wp_bind, wp_emit;
    repeat (eapply wp_appends_step;
            [solve [solve_appends]
            |first [eassumption|reflexivity]
            |let H := fresh "H" in intros ? H]);
    by apply Hend.
Qed.

Lemma emitSlowPaths_spec n : ∀ st,
  length (slowPaths_ st) = n →
  ∃ r, emitSlowPaths E n st = Some r ∧
    ∀ st', r = Ok ((), st') →
      slowPaths_ st' = [] ∧ bindingView st' = bindingView st ∧
      ∃ blocks, Forall2 slowBlock (slowPaths_ st) blocks ∧
                instrs (a st') = instrs (a st) ++ concat blocks.
Proof.
  induction n as [|n IH]; intros st Hn.
  - destruct (slowPaths_ st) as [|sp q] eqn:Hq; [|done].
    exists (Ok ((), st)). split; [by destruct st; simpl in *; subst|].
    intros st' [= <-]. split_and!; [done..|]. exists [].
    split; [constructor|]. by rewrite app_nil_r.
  - destruct (slowPaths_ st) as [|sp q] eqn:Hq; [done|].
    simpl. rewrite Hq.
    destruct (emitSlowPath E sp st) as [[[] st1]|e] eqn:Hemit.
    2:{ exists (Err e). split; [done|]. done. }
    destruct (wp_emitSlowPath sp st _ _ Hemit) as (Hv & Hs & blk & Hblk & Hc).
    destruct (IH (with_slowPaths (tail (slowPaths_ st1)) st1))
      as (r & Hr & Hpost).
    { simpl. rewrite Hs, Hq. simpl. simpl in Hn. lia. }
    exists r. split; [done|]. intros st' ->.
    destruct (Hpost st' eq_refl) as (He & Hv' & blocks & HF & Hc').
    split_and!; [done|by rewrite Hv'|].
    exists (blk :: blocks). split.
    + constructor; [done|]. simpl in HF. by rewrite Hs, Hq in HF.
    + rewrite Hc'. simpl. rewrite Hc. by rewrite <- app_assoc.
Qed.

(** X9: [emitSlowPaths] drains the queue in order.  The loop ends after as
    many iterations as there are queued slow paths (emitting a slow path
    does not queue another one).  Unless the emission of a slow path fails,
    the queue is empty afterwards, the binding state is untouched, and the
    code that was appended is one block per queued slow path, in the order
    of the queue; the block of a slow path starts by binding its label and
    ends with the branch back to its continuation label. *)
Theorem emitSlowPaths_drains_queue (st : Emitter) :
  ∃ r, emitSlowPaths E (length (slowPaths_ st)) st = Some r ∧
    ∀ st', r = Ok ((), st') →
      slowPaths_ st' = [] ∧ bindingView st' = bindingView st ∧
      ∃ blocks, Forall2 slowBlock (slowPaths_ st) blocks ∧
                instrs (a st') = instrs (a st) ++ concat blocks.
Proof. by apply emitSlowPaths_spec. Qed.

(** ** Global registers and types are never reassigned *)

#[local] Instance statics_preorder X : PreOrder (statics X).
Proof.
  split.
  - intros st. split; [done|]. intros i s s' H1 H2.
    rewrite H1 in H2. by injection H2 as <-.
  - intros st1 st2 st3 [L1 H1] [L2 H2]. split; [congruence|].
    intros i s s' Hl Hl'.
    destruct (lookup_lt_is_Some_2 (frameRegs_ st2) i) as [s2 Hl2].
    { rewrite L1. by eapply lookup_lt_Some. }
    destruct (H1 i s s2 Hl Hl2) as (Ha & Hb & Hc).
    destruct (H2 i s2 s' Hl2 Hl') as (Ha' & Hb' & Hc').
    split_and!; [congruence..|]. intros HX.
    rewrite (Hc' HX). by apply Hc.
Qed.

Lemma statics_frameRegs X st st' :
  frameRegs_ st' = frameRegs_ st → statics X st st'.
Proof.
  intros H. split; rewrite H; [done|]. intros i s s' H1 H2.
  rewrite H1 in H2. by injection H2 as <-.
Qed.

Lemma sameView_statics X st st' : sameView st st' → statics X st st'.
Proof. intros H. by apply statics_frameRegs, sameView_frameRegs. Qed.

Lemma syncStep_statics X st st' : syncStep st st' → statics X st st'.
Proof.
  intros [HF _]. split; [symmetry; by eapply Forall2_length|].
  intros i s s' Hl Hl'.
  destruct (Forall2_lookup_lr _ _ _ _ _ _ HF Hl Hl')
    as (HT & HL & HG & _). done.
Qed.

Lemma statics_of_sameView X {A} (m : M A) :
  Pres sameView m → Pres (statics X) m.
Proof. apply Pres_weaken, sameView_statics. Qed.
Lemma statics_of_syncStep X {A} (m : M A) :
  Pres syncStep m → Pres (statics X) m.
Proof. apply Pres_weaken, syncStep_statics. Qed.

Lemma statics_insert (X : FR → Prop) st i s s' :
  frameRegs_ st !! i = Some s →
  globalReg s' = globalReg s → globalType s' = globalType s →
  (X (FRIdx i) ∨ localType s' = localType s) →
  statics X st (with_frameRegs (<[i := s']> (frameRegs_ st)) st).
Proof.
  intros Hl Hg Ht H. split; simpl; [by rewrite length_insert|].
  intros j s1 s2 Hl1 Hl2. destruct (decide (j = i)) as [->|Hne].
  - rewrite list_lookup_insert_eq in Hl2 by (by eapply lookup_lt_Some).
    injection Hl2 as <-. rewrite Hl in Hl1. injection Hl1 as <-.
    split_and!; [done..|]. by destruct H.
  - rewrite list_lookup_insert_ne in Hl2 by done.
    rewrite Hl1 in Hl2. by injection Hl2 as <-.
Qed.

Lemma statics_updFR X fr f :
  (∀ s, globalReg (f s) = globalReg s ∧ globalType (f s) = globalType s ∧
        localType (f s) = localType s) →
  Pres (statics X) (updFR fr f).
Proof.
  intros H. apply Pres_updFR. intros st i s _ Hl.
  destruct (H s) as (? & ? & ?). apply (statics_insert X st i s); auto.
Qed.
Lemma statics_updFR_in (X : FR → Prop) fr f :
  X fr →
  (∀ s, globalReg (f s) = globalReg s ∧ globalType (f s) = globalType s) →
  Pres (statics X) (updFR fr f).
Proof.
  intros HX H. apply Pres_updFR. intros st i s -> Hl.
  destruct (H s) as (? & ?). apply (statics_insert X st i s); auto.
Qed.

Lemma statics_ra_alloc X TAG pr : Pres (statics X) (ra_alloc TAG pr).
Proof.
  intros st x st'. unfold ra_alloc.
  destruct (TempRegAlloc.alloc pr (pool TAG st)) as [[r ra']|];
    intros [= <- <-]; [|reflexivity].
  apply statics_frameRegs. by destruct TAG.
Qed.
#[local] Hint Resolve statics_ra_alloc : pres.

Ltac solve_statics :=
  repeat first
    [ pres_step
    | solve [eauto with pres]
    | apply statics_of_sameView; solve [eauto with pres]
    | apply statics_of_syncStep; solve [eauto with pres]
    | apply Pres_modify; intros ?; apply statics_frameRegs; reflexivity
    | apply statics_updFR; intros ?; done
    | apply statics_updFR_in; [solve [auto]|intros ?; done] ].

Section Statics.
Context (X : FR → Prop).

Lemma statics_setContains r fr : Pres (statics X) (setContains r fr).
Proof. unfold setContains. solve_statics. Qed.
Hint Resolve statics_setContains : pres.

Lemma statics_freeReg r : Pres (statics X) (freeReg E r).
Proof. unfold freeReg. solve_statics. Qed.
Lemma statics_spillTempReg r : Pres (statics X) (spillTempReg E r).
Proof. unfold spillTempReg, _storeHWRegToFrame. solve_statics. Qed.
Hint Resolve statics_freeReg statics_spillTempReg : pres.

Lemma statics_syncAndFreeTempReg r : Pres (statics X) (syncAndFreeTempReg E r).
Proof. unfold syncAndFreeTempReg. solve_statics. Qed.
Lemma statics_freeFRTemp fr : Pres (statics X) (freeFRTemp E fr).
Proof. unfold freeFRTemp. solve_statics. Qed.
Hint Resolve statics_syncAndFreeTempReg statics_freeFRTemp : pres.

Lemma statics_freeAllTempExcept ex : Pres (statics X) (freeAllTempExcept E ex).
Proof. unfold freeAllTempExcept, freeOneTemp. solve_statics. Qed.
Lemma statics_assignAllocatedLocalHWReg fr r :
  Pres (statics X) (assignAllocatedLocalHWReg fr r).
Proof. unfold assignAllocatedLocalHWReg. solve_statics. Qed.
Hint Resolve statics_freeAllTempExcept statics_assignAllocatedLocalHWReg : pres.

Lemma statics_allocTemp TAG pr : Pres (statics X) (_allocTemp E TAG pr).
Proof.
  unfold _allocTemp. solve_statics.
  apply Pres_modify. intros st. apply statics_frameRegs. by destruct TAG.
Qed.
Hint Resolve statics_allocTemp : pres.

Lemma statics_getOrAllocFRInVecD fr load :
  Pres (statics X) (getOrAllocFRInVecD E fr load).
Proof. unfold getOrAllocFRInVecD, allocTempVecD. solve_statics. Qed.
Lemma statics_getOrAllocFRInGpX fr load :
  Pres (statics X) (getOrAllocFRInGpX E fr load).
Proof. unfold getOrAllocFRInGpX, allocTempGpX. solve_statics. Qed.
Lemma statics_getOrAllocFRInAnyReg fr load pr :
  Pres (statics X) (getOrAllocFRInAnyReg E fr load pr).
Proof. unfold getOrAllocFRInAnyReg, allocTempGpX. solve_statics. Qed.
Hint Resolve statics_getOrAllocFRInVecD statics_getOrAllocFRInGpX
  statics_getOrAllocFRInAnyReg : pres.

Lemma statics_frUpdatedWithHWReg fr r ty :
  X fr ∨ ty = None → Pres (statics X) (frUpdatedWithHWReg E fr r ty).
Proof.
  intros [H| ->]; unfold frUpdatedWithHWReg, frUpdateType; solve_statics.
Qed.

Lemma statics_movFRFromHW dst src ty :
  X dst ∨ ty = None → Pres (statics X) (movFRFromHW E dst src ty).
Proof.
  intros H. unfold movFRFromHW, frUpdateType, _storeHWRegToFrame.
  pose proof (statics_frUpdatedWithHWReg dst) as Hupd.
  destruct H as [H| ->]; solve_statics.
Qed.

Lemma statics_placeInFrame slot src :
  X slot → Pres (statics X) (placeInFrame E slot src).
Proof.
  intros H. unfold placeInFrame.
  pose proof (statics_movFRFromHW slot) as Hmov. solve_statics.
Qed.

Lemma statics_loadConstBits64 fr bits ty :
  X fr → Pres (statics X) (loadConstBits64 E fr bits ty).
Proof.
  intros H. unfold loadConstBits64.
  pose proof (statics_frUpdatedWithHWReg fr) as Hupd. solve_statics.
Qed.

Lemma statics_resultFromX0 fr pr u :
  Pres (statics X) (resultFromX0 E fr pr u).
Proof.
  unfold resultFromX0.
  pose proof (statics_frUpdatedWithHWReg fr) as Hupd. solve_statics.
Qed.

Lemma statics_mov frRes frInput lc :
  X frRes → Pres (statics X) (mov E frRes frInput lc).
Proof.
  intros H. unfold mov.
  pose proof (statics_frUpdatedWithHWReg frRes) as Hupd. solve_statics.
Qed.

End Statics.

Section StaticsAll.
Context (X : FR → Prop) (HX : ∀ fr, X fr).

Lemma sa_frUpdatedWithHWReg fr r ty :
  Pres (statics X) (frUpdatedWithHWReg E fr r ty).
Proof. apply statics_frUpdatedWithHWReg. by left. Qed.
Lemma sa_movFRFromHW dst src ty : Pres (statics X) (movFRFromHW E dst src ty).
Proof. apply statics_movFRFromHW. by left. Qed.
Lemma sa_placeInFrame slot src : Pres (statics X) (placeInFrame E slot src).
Proof. by apply statics_placeInFrame. Qed.
Lemma sa_loadConstBits64 fr bits ty :
  Pres (statics X) (loadConstBits64 E fr bits ty).
Proof. by apply statics_loadConstBits64. Qed.
Lemma sa_mov frRes frInput lc : Pres (statics X) (mov E frRes frInput lc).
Proof. by apply statics_mov. Qed.

Hint Resolve statics_setContains statics_freeReg statics_spillTempReg
  statics_syncAndFreeTempReg statics_freeFRTemp statics_freeAllTempExcept
  statics_assignAllocatedLocalHWReg statics_allocTemp
  statics_getOrAllocFRInVecD statics_getOrAllocFRInGpX
  statics_getOrAllocFRInAnyReg statics_resultFromX0
  sa_frUpdatedWithHWReg sa_movFRFromHW sa_placeInFrame sa_loadConstBits64
  sa_mov : pres.

Lemma sa_newBasicBlock label : Pres (statics X) (newBasicBlock E label).
Proof. unfold newBasicBlock. solve_statics. Qed.

Lemma sa_loadParam frRes paramIndex :
  Pres (statics X) (loadParam E frRes paramIndex).
Proof.
  unfold loadParam, loadParam_cmp, loadParam_ldur, SaveAndRestore, tryEmit,
    handleError, allocAndLogTempGpX, allocTempGpX, newSlowPathLabel,
    newContLabel.
  solve_statics.
Qed.

Lemma sa_toNumber frRes frInput : Pres (statics X) (toNumber E frRes frInput).
Proof.
  unfold toNumber, isFRKnownNumber, newSlowPathLabel, newContLabel.
  solve_statics.
Qed.

Lemma sa_arithBinOp force frRes frLeft frRight name slowCall slowCallName :
  Pres (statics X)
    (arithBinOp E force frRes frLeft frRight name slowCall slowCallName).
Proof.
  unfold arithBinOp, isFRKnownNumber, newSlowPathLabel, newContLabel.
  solve_statics.
Qed.

Lemma sa_jmpTrueFalse onTrue target frInput :
  Pres (statics X) (jmpTrueFalse E onTrue target frInput).
Proof. unfold jmpTrueFalse, jmpTrueFalse_before_bl. solve_statics. Qed.

Lemma sa_emitOp op : Pres (statics X) (emitOp E op).
Proof.
  destruct op; simpl;
    [apply sa_newBasicBlock|apply sa_mov|apply sa_loadParam
    |apply sa_loadConstBits64|apply sa_toNumber|apply sa_arithBinOp
    |apply sa_jmpTrueFalse|..].
  - unfold call, call_before_bl. solve_statics.
  - unfold callN, callN_before_bl. solve_statics.
  - unfold callBuiltin, callBuiltin_before_bl. solve_statics.
  - unfold callWithNewTarget, callWithNewTarget_before_bl. solve_statics.
  - unfold getBuiltinClosure, getBuiltinClosure_before_bl. solve_statics.
  - unfold loadConstString, loadConstString_before_bl. solve_statics.
  - unfold declareGlobalVar, declareGlobalVar_before_bl. solve_statics.
  - unfold createTopLevelEnvironment, createTopLevelEnvironment_before_bl.
    solve_statics.
  - unfold storeToEnvironment, storeToEnvironment_before_bl. solve_statics.
  - unfold createClosure, createClosure_before_bl. solve_statics.
  - unfold putByValImpl, putByValImpl_before_bl. solve_statics.
  - unfold getByIdImpl, getByIdImpl_before_bl. solve_statics.
  - unfold getByVal, getByVal_before_bl. solve_statics.
  - unfold getByIndex, getByIndex_before_bl. solve_statics.
  - unfold putByIdImpl, putByIdImpl_before_bl. solve_statics.
  - unfold isIn, isIn_before_bl. solve_statics.
Qed.

End StaticsAll.

(** X10: no operation emitter reassigns a global register.  Whenever one of
    the operation emitters returns, the emitter has as many frame registers
    as before and every frame register has the global register and the
    global type that it had: the pinning done by the constructor holds for
    the whole function. *)
Theorem emitters_keep_global_registers (op : EmitOp) (st st' : Emitter) :
  emitOp E op st = Ok ((), st') →
  length (frameRegs_ st') = length (frameRegs_ st) ∧
  ∀ i s s', frameRegs_ st !! i = Some s → frameRegs_ st' !! i = Some s' →
            globalReg s' = globalReg s ∧ globalType s' = globalType s.
Proof.
  intros Hrun.
  destruct (sa_emitOp (λ _, True) (λ _, I) op st () st' Hrun) as [HL H].
  split; [done|]. intros i s s' Hl Hl'.
  destruct (H i s s' Hl Hl') as (? & ? & _). done.
Qed.

(** ** [toNumber] *)

(** The frame register [fr] is known to be a number. *)
Lemma knownNumber_statics X fr st st' :
  ¬ X fr → statics X st st' →
  (∃ i s, fr = FRIdx i ∧ frameRegs_ st !! i = Some s ∧
          localType s = FRType.Number) →
  ∃ i s, fr = FRIdx i ∧ frameRegs_ st' !! i = Some s ∧
         localType s = FRType.Number.
Proof.
  intros HX [HL H] (i & s & -> & Hl & Ht).
  destruct (lookup_lt_is_Some_2 (frameRegs_ st') i) as [s' Hl'].
  { rewrite HL. by eapply lookup_lt_Some. }
  exists i, s'. split_and!; [done..|].
  destruct (H i s s' Hl Hl') as (_ & _ & Hty). by rewrite Hty.
Qed.

Lemma wp_frUpdatedWithHWReg_type fr hw ty st :
  wp (frUpdatedWithHWReg E fr hw (Some ty))
     (λ _ st', ∃ i s, fr = FRIdx i ∧ frameRegs_ st' !! i = Some s ∧
                      localType s = ty) st.
Proof.
  unfold frUpdatedWithHWReg. apply wp_bind. intros ? st1 _.
  apply wp_bind. intros ? st2 _. apply wp_bind. intros ? st3 _.
  unfold frUpdateType. apply wp_updFR. intros i s -> Hl.
  exists i, (set_localType ty s). split_and!; [done| |done]. simpl.
  apply list_lookup_insert_eq. by eapply lookup_lt_Some.
Qed.

Lemma toNumber_type frRes iI sI st :
  frameRegs_ st !! iI = Some sI →
  wp (toNumber E frRes (FRIdx iI))
     (λ _ st', ∃ i s, frRes = FRIdx i ∧ frameRegs_ st' !! i = Some s ∧
                      localType s = FRType.Number) st.
Proof.
  intros Hl. set (X := λ _ : FR, False).
  assert (∀ fr, ¬ X fr) as HX by (intros fr H; exact H).
  unfold toNumber, isFRKnownNumber, isFRKnownType.
  apply wp_bind, wp_bind, wp_frState. intros ? s [= <-] Hs.
  rewrite Hl in Hs. injection Hs as <-. apply wp_ret.
  case_bool_decide as Hknown.
  - unfold mov. case_bool_decide as Heq.
    { apply wp_ret. subst frRes. eauto. }
    apply wp_bind.
    eapply (Pres_wp (statics X)); [apply statics_getOrAllocFRInAnyReg|].
    intros hwInput st1 H1. apply wp_bind.
    eapply (Pres_wp (statics X)); [apply statics_getOrAllocFRInAnyReg|].
    intros hwDest st2 H2. apply wp_bind.
    eapply (Pres_wp (statics X));
      [apply statics_of_sameView, sameView_movHWReg|].
    intros [] st3 H3. apply wp_bind, wp_frState. intros ? s3 [= <-] Hl3.
    destruct (knownNumber_statics X (FRIdx iI) st st3 (HX _))
      as (? & s3' & [= <-] & Hl3' & Hty); [by do 2 (etrans; [|done])|eauto|].
    rewrite Hl3 in Hl3'. injection Hl3' as <-. rewrite Hty.
    apply wp_frUpdatedWithHWReg_type.
  - apply wp_bind. intros slowPathLab st1 _.
    apply wp_bind. intros contLab st2 _.
    apply wp_bind. intros ? st3 _. apply wp_bind. intros ? st4 _.
    apply wp_bind. intros hwInput st5 _.
    apply wp_bind. intros ? st6 _. apply wp_bind. intros ? st7 _.
    apply wp_bind. intros hwRes st8 _. apply wp_bind.
    eapply wp_mono; [apply wp_frUpdatedWithHWReg_type|].
    intros [] st9 H9. apply wp_bind.
    eapply (Pres_wp (statics X)); [apply statics_freeAllTempExcept|].
    intros [] st10 H10. apply wp_bind.
    eapply (Pres_wp (statics X));
      [apply statics_of_sameView, sameView_emit|].
    intros [] st11 H11.
    eapply (Pres_wp (statics X));
      [apply statics_of_sameView, sameView_pushSlowPath|].
    intros [] st12 H12.
    eapply (knownNumber_statics X); [apply HX| |exact H9].
    by do 2 (etrans; [|done]).
Qed.

Lemma emitsOnly_code P st st' :
  emitsOnly P st st' →
  slowPaths_ st' = slowPaths_ st ∧
  ∃ code, instrs (a st') = instrs (a st) ++ code ∧ forallb P code = true.
Proof. intros (? & _ & _ & ?). done. Qed.

Lemma toNumber_shape frRes iI sI st :
  frameRegs_ st !! iI = Some sI →
  wp (toNumber E frRes (FRIdx iI))
     (λ _ st',
        if bool_decide (localType sI = FRType.Number) then
          emitsOnly isMove st st'
        else
          ∃ hwIn hwRes pre post,
            instrs (a st') =
              instrs (a st) ++ pre ++
              [ICmp (a64GpX hwIn) xDoubleLim;
               IB_hs (LId (length (labels (a st))))] ++ post ++
              [IBind (LId (S (length (labels (a st)))))] ∧
            forallb isMove pre = true ∧ forallb isMove post = true ∧
            slowPaths_ st' =
              slowPaths_ st ++
              [mkSlowPath (LId (length (labels (a st))))
                 (LId (S (length (labels (a st))))) LInvalid "toNumber" frRes
                 (FRIdx iI) FRInvalid hwRes false
                 (Some (addrOf E "_sh_ljs_to_double_rjs"))
                 "_sh_ljs_to_double_rjs" SlowToNumber]) st.
Proof.
  intros Hl. pose_moves.
  pose proof (emitsOnly_getOrAllocFRInAnyReg isMove (λ _ H, H)) as Hmv7.
  pose proof (emitsOnly_movHWReg isMove (λ _ H, H)) as Hmv8.
  unfold toNumber, isFRKnownNumber, isFRKnownType.
  apply wp_bind, wp_bind, wp_frState. intros ? s [= <-] Hs.
  rewrite Hl in Hs. injection Hs as <-. apply wp_ret.
  case_bool_decide as Hknown.
  - eapply (Pres_wp (emitsOnly isMove)); [|done]. unfold mov. solve_emits.
  - unfold newSlowPathLabel, newContLabel.
    apply wp_bind. intros ? ? [= <- <-]. apply wp_bind. intros ? ? [= <- <-].
    set (st2 := with_a _ (with_a _ st)).
    assert (instrs (a st2) = instrs (a st)) as Hi2 by done.
    assert (slowPaths_ st2 = slowPaths_ st) as Hs2 by done.
    assert (length (labels (a st) ++ [None]) = S (length (labels (a st))))
      as Hlen by (rewrite length_app; simpl; lia).
    apply wp_bind. eapply (Pres_wp (emitsOnly isMove)); [done|].
    intros [] st3 H3. apply wp_bind.
    eapply (Pres_wp (emitsOnly isMove)); [done|].
    intros [] st4 H4. apply wp_bind.
    eapply (Pres_wp (emitsOnly isMove)); [done|].
    intros hwIn st5 H5.
    assert (emitsOnly isMove st2 st5) as HA by (by do 2 (etrans; [|done])).
    apply emitsOnly_code in HA as (HsA & pre & HcA & HpA).
    apply wp_bind, wp_emit, wp_bind, wp_emit.
    set (st7 := with_a _ (with_a _ st5)).
    apply wp_bind.
    apply wp_mono with (Q := λ _ st8, emitsOnly isMove st7 st8).
    { case_bool_decide.
      - apply wp_bind. eapply (Pres_wp (emitsOnly isMove)); [done|].
        intros hwRes st8 H8. apply wp_bind.
        eapply (Pres_wp (emitsOnly isMove)); [done|].
        intros [] st9 H9. apply wp_ret. by etrans.
      - apply wp_ret. reflexivity. }
    intros hwRes st8 H8. apply wp_bind.
    eapply (Pres_wp (emitsOnly isMove)); [done|].
    intros [] st9 H9. apply wp_bind.
    eapply (Pres_wp (emitsOnly isMove)); [done|].
    intros [] st10 H10.
    assert (emitsOnly isMove st7 st10) as HB by (by do 2 (etrans; [|done])).
    apply emitsOnly_code in HB as (HsB & post & HcB & HpB).
    apply wp_bind, wp_emit. unfold pushSlowPath. apply wp_modify.
    exists hwIn, hwRes, pre, post. simpl.
    split_and!; [|done|done|].
    + rewrite HcB. subst st7. simpl. rewrite HcA, Hi2, Hlen.
      by rewrite <- !app_assoc.
    + rewrite HsB. subst st7. simpl. by rewrite HsA, Hs2, Hlen.
Qed.


(** ** The constructor pins each frame register to a register of its own *)

Lemma pinsBelow_step fV fG nV nG frs frIndex hw ty frs' nV' nG' :
  pinsBelow fV fG nV nG frs →
  setGlobal frIndex hw ty frs = Some frs' →
  (hw = HWVecD nV ∧ (fV ≤ nV)%nat ∧ nV' = S nV ∧ nG' = nG) ∨
  (hw = HWGpX nG ∧ (fG ≤ nG)%nat ∧ nG' = S nG ∧ nV' = nV) →
  pinsBelow fV fG nV' nG' frs' ∧ length frs' = length frs.
Proof.
  intros [Hr Hd] Hset Hhw. unfold setGlobal in Hset.
  destruct (frs !! frIndex) as [s0|] eqn:Hl0; [|done].
  simpl in Hset. injection Hset as <-.
  assert (frIndex < length frs)%nat as Hlt by (by eapply lookup_lt_Some).
  assert (∀ j sj, frs !! j = Some sj → globalReg sj ≠ hw) as Hfresh.
  { intros j sj Hj Heq. specialize (Hr j sj Hj). rewrite Heq in Hr.
    destruct Hhw as [(-> & _)|(-> & _)]; lia. }
  split; [|by rewrite length_insert]. split.
  - intros i s Hi. destruct (decide (i = frIndex)) as [->|Hne].
    + rewrite list_lookup_insert_eq in Hi by done. injection Hi as <-. simpl.
      destruct Hhw as [(-> & ? & -> & ->)|(-> & ? & -> & ->)]; lia.
    + rewrite list_lookup_insert_ne in Hi by done. specialize (Hr i s Hi).
      destruct (globalReg s); [done|..];
        destruct Hhw as [(_ & _ & -> & ->)|(_ & _ & -> & ->)]; lia.
  - intros i j si sj Hi Hj Hv Heq.
    destruct (decide (i = frIndex)) as [->|Hni];
      destruct (decide (j = frIndex)) as [->|Hnj]; [done|..].
    + rewrite list_lookup_insert_eq in Hi by done. injection Hi as <-.
      rewrite list_lookup_insert_ne in Hj by done. simpl in Heq.
      by destruct (Hfresh j sj Hj).
    + rewrite list_lookup_insert_eq in Hj by done. injection Hj as <-.
      rewrite list_lookup_insert_ne in Hi by done. simpl in Heq.
      by destruct (Hfresh i si Hi).
    + rewrite list_lookup_insert_ne in Hi, Hj by done. eauto.
Qed.

Lemma assignNumbers_spec kG kV idxs : ∀ nV nG frs nV' nG' frs',
  pinsBelow (fst kV) (fst kG) nV nG frs →
  (fst kV ≤ nV ≤ S (snd kV))%nat → (fst kG ≤ nG ≤ S (snd kG))%nat →
  assignNumbers kG kV idxs nV nG frs = Some (nV', nG', frs') →
  pinsBelow (fst kV) (fst kG) nV' nG' frs' ∧ length frs' = length frs ∧
  (fst kV ≤ nV' ≤ S (snd kV))%nat ∧ (fst kG ≤ nG' ≤ S (snd kG))%nat.
Proof.
  induction idxs as [|frIndex rest IH]; intros nV nG frs nV' nG' frs' HP HV HG;
    simpl.
  { intros [= <- <- <-]. done. }
  case_bool_decide as H1; [|case_bool_decide as H2].
  - destruct (setGlobal frIndex (HWVecD nV) FRType.Number frs) as [frs1|]
      eqn:Hset; [|done].
    simpl. intros Hrec.
    destruct (pinsBelow_step _ _ _ _ _ _ _ _ _ (S nV) nG HP Hset) as [HP1 HL1];
      [left; split_and!; [done|lia|done..]|].
    destruct (IH _ _ _ _ _ _ HP1 ltac:(lia) HG Hrec) as (? & ? & ? & ?).
    split_and!; first [done|congruence|lia].
  - destruct (setGlobal frIndex (HWGpX nG) FRType.Number frs) as [frs1|]
      eqn:Hset; [|done].
    simpl. intros Hrec.
    destruct (pinsBelow_step _ _ _ _ _ _ _ _ _ nV (S nG) HP Hset) as [HP1 HL1];
      [right; split_and!; [done|lia|done..]|].
    destruct (IH _ _ _ _ _ _ HP1 HV ltac:(lia) Hrec) as (? & ? & ? & ?).
    split_and!; first [done|congruence|lia].
  - intros [= <- <- <-]. done.
Qed.

Lemma assignNonPointers_spec kG kV idxs : ∀ nV nG frs nV' nG' frs',
  pinsBelow (fst kV) (fst kG) nV nG frs →
  (fst kV ≤ nV ≤ S (snd kV))%nat → (fst kG ≤ nG ≤ S (snd kG))%nat →
  assignNonPointers kG kV idxs nV nG frs = Some (nV', nG', frs') →
  pinsBelow (fst kV) (fst kG) nV' nG' frs' ∧ length frs' = length frs ∧
  (fst kV ≤ nV' ≤ S (snd kV))%nat ∧ (fst kG ≤ nG' ≤ S (snd kG))%nat.
Proof.
  induction idxs as [|frIndex rest IH]; intros nV nG frs nV' nG' frs' HP HV HG;
    simpl.
  { intros [= <- <- <-]. done. }
  case_bool_decide as H1; [|case_bool_decide as H2].
  - destruct (setGlobal frIndex (HWGpX nG) FRType.Unknown frs) as [frs1|]
      eqn:Hset; [|done].
    simpl. intros Hrec.
    destruct (pinsBelow_step _ _ _ _ _ _ _ _ _ nV (S nG) HP Hset) as [HP1 HL1];
      [right; split_and!; [done|lia|done..]|].
    destruct (IH _ _ _ _ _ _ HP1 HV ltac:(lia) Hrec) as (? & ? & ? & ?).
    split_and!; first [done|congruence|lia].
  - destruct (setGlobal frIndex (HWVecD nV) FRType.Unknown frs) as [frs1|]
      eqn:Hset; [|done].
    simpl. intros Hrec.
    destruct (pinsBelow_step _ _ _ _ _ _ _ _ _ (S nV) nG HP Hset) as [HP1 HL1];
      [left; split_and!; [done|lia|done..]|].
    destruct (IH _ _ _ _ _ _ HP1 ltac:(lia) HG Hrec) as (? & ? & ? & ?).
    split_and!; first [done|congruence|lia].
  - intros [= <- <- <-]. done.
Qed.

Lemma assignGlobals_spec kG kV numCount npCount frs nV nG frs' :
  (fst kG ≤ S (snd kG))%nat → (fst kV ≤ S (snd kV))%nat →
  Forall (λ s, globalReg s = HWInvalid) frs →
  assignGlobals kG kV numCount npCount frs = Some (nV, nG, frs') →
  pinsBelow (fst kV) (fst kG) nV nG frs' ∧ length frs' = length frs ∧
  (fst kV ≤ nV ≤ S (snd kV))%nat ∧ (fst kG ≤ nG ≤ S (snd kG))%nat.
Proof.
  intros HG HV Hinit. unfold assignGlobals.
  destruct (assignNumbers kG kV (seq 0 numCount) (fst kV) (fst kG) frs)
    as [[[nV1 nG1] frs1]|] eqn:H1; [|done].
  simpl. intros H2.
  assert (pinsBelow (fst kV) (fst kG) (fst kV) (fst kG) frs) as HP0.
  { rewrite Forall_lookup in Hinit. split.
    - intros i s Hl. by rewrite (Hinit i s Hl).
    - intros i j si sj Hi _ Hv. by rewrite (Hinit i si Hi) in Hv. }
  destruct (assignNumbers_spec _ _ _ _ _ _ _ _ _ HP0 ltac:(lia) ltac:(lia) H1)
    as (HP1 & HL1 & HV1 & HG1).
  destruct (assignNonPointers_spec _ _ _ _ _ _ _ _ _ HP1 HV1 HG1 H2)
    as (HP2 & HL2 & HV2 & HG2).
  split_and!; first [done|congruence|lia].
Qed.

(** X12: the constructor gives every pinned frame register a callee-saved
    register of its own.  When the frame registers start without global
    registers, after the two loops of the constructor no two frame registers
    have the same global register, every global register is a vector
    register or an integer register of the callee-saved ranges, and the
    number of frame registers is unchanged. *)
Theorem global_registers_are_distinct (kGPSaved kVecSaved : nat * nat)
    (numCount npCount : nat) (frs frs' : list FRState) (nextVec nextGp : nat) :
  (fst kGPSaved ≤ S (snd kGPSaved))%nat →
  (fst kVecSaved ≤ S (snd kVecSaved))%nat →
  Forall (λ s, globalReg s = HWInvalid) frs →
  assignGlobals kGPSaved kVecSaved numCount npCount frs =
    Some (nextVec, nextGp, frs') →
  length frs' = length frs ∧
  (∀ i j si sj, frs' !! i = Some si → frs' !! j = Some sj →
     isValid (globalReg si) → globalReg si = globalReg sj → i = j) ∧
  ∀ i s, frs' !! i = Some s →
    match globalReg s with
    | HWInvalid => True
    | HWGpX k => (fst kGPSaved ≤ k ≤ snd kGPSaved)%nat
    | HWVecD k => (fst kVecSaved ≤ k ≤ snd kVecSaved)%nat
    end.
Proof.
  intros HG HV Hinit Hrun.
  destruct (assignGlobals_spec _ _ _ _ _ _ _ _ HG HV Hinit Hrun)
    as ([Hr Hd] & HL & HV' & HG').
  split_and!; [done..|]. intros i s Hl. specialize (Hr i s Hl).
  destruct (globalReg s); [done|lia|lia].
Qed.

(** ** The stack frame *)

Lemma nat_ind2 (P : nat → Prop) :
  P 0%nat → P 1%nat → (∀ n, P n → P (S (S n))) → ∀ n, P n.
Proof.
  intros H0 H1 HS n. cut (P n ∧ P (S n)); [by intros [? _]|].
  induction n as [|n [IH1 IH2]]; [done|]. split; [done|by apply HS].
Qed.

Lemma pairLoop_ofs pair single reg n : ∀ i o,
  snd (pairLoop pair single reg n i o) = o + 16 * Z.of_nat ((n + 1) / 2).
Proof.
  induction n as [| |n IH] using nat_ind2; intros i o; [simpl; lia..|].
  assert (((S (S n) + 1) / 2)%nat = S ((n + 1) / 2)) as Hdiv.
  { replace (S (S n) + 1)%nat with (n + 1 + 1 * 2)%nat by lia.
    rewrite Nat.div_add by lia. lia. }
  rewrite Hdiv. cbn [pairLoop]. specialize (IH (i + 2)%nat (o + 16)).
  destruct (pairLoop pair single reg n (i + 2) (o + 16)) as [code ofs].
  cbn [snd] in *. rewrite IH. lia.
Qed.

Lemma pairLoop_restore reg n : ∀ i o,
  pairLoop SLdp SLdr reg n i o =
  (restoreOf <$> fst (pairLoop SStp SStr reg n i o),
   snd (pairLoop SStp SStr reg n i o)).
Proof.
  induction n as [| |n IH] using nat_ind2; intros i o; [done..|].
  cbn [pairLoop]. rewrite (IH (i + 2)%nat (o + 16)).
  by destruct (pairLoop SStp SStr reg n (i + 2) (o + 16)) as [code ofs].
Qed.

Lemma savedSlots_app l1 l2 :
  savedSlots (l1 ++ l2) = savedSlots l1 ++ savedSlots l2.
Proof. unfold savedSlots. apply bind_app. Qed.

Lemma pairLoop_slots reg n : ∀ i o,
  savedSlots (fst (pairLoop SStp SStr reg n i o)) =
  (λ k : nat, (reg (i + k)%nat, o + 8 * Z.of_nat k)) <$> seq 0 n.
Proof.
  induction n as [| |n IH] using nat_ind2; intros i o.
  - done.
  - simpl. by rewrite Nat.add_0_r, Z.add_0_r.
  - cbn [pairLoop]. specialize (IH (i + 2)%nat (o + 16)).
    destruct (pairLoop SStp SStr reg n (i + 2) (o + 16)) as [code ofs].
    simpl in IH. cbn [fst]. change (SStp ?a ?b ?c :: code)
      with ([SStp a b c] ++ code).
    rewrite savedSlots_app, IH. cbn [seq fmap list_fmap].
    rewrite <- !fmap_S_seq, <- !list_fmap_compose. simpl.
    rewrite Nat.add_0_r, Z.add_0_r. f_equal. f_equal.
    apply list_fmap_ext. intros ? k _. simpl. f_equal; [f_equal; lia|lia].
Qed.

Lemma land_even (n : nat) :
  Z.land (Z.of_nat n + 1) (Z.lnot 1) = 2 * Z.of_nat ((n + 1) / 2).
Proof.
  pose proof (land_align (Z.of_nat n) 1 ltac:(lia)) as H.
  change (2 ^ 1) with 2 in H. change (2 - 1) with 1 in H.
  replace (Z.of_nat n + 2 - 1) with (Z.of_nat n + 1) in H by lia.
  rewrite H. rewrite Nat2Z.inj_div, Nat2Z.inj_add. simpl. lia.
Qed.

Lemma frameSize_eq g v :
  frameSize g v =
  32 + 16 * Z.of_nat ((g + 1) / 2) + 16 * Z.of_nat ((v + 1) / 2) + 16.
Proof. unfold frameSize. rewrite !land_even. lia. Qed.

Lemma frameSetup_stack_inv kG kV gp vec code g v :
  frameSetup_stack kG kV gp vec = Ok (code, (g, v)) →
  (gp ≤ snd kG - fst kG + 1)%nat ∧ (vec ≤ snd kV - fst kV + 1)%nat ∧
  g = ((if bool_decide (gp = 0%nat) then 1 else gp) + 3)%nat ∧ v = vec ∧
  code =
    SSubSp (frameSize g v) ::
    fst (pairLoop SStp SStr (λ i, X (19 + i)) g 0 32) ++
    fst (pairLoop SStp SStr (λ i, D (fst kV + i)) v 0
           (32 + 16 * Z.of_nat ((g + 1) / 2))) ++
    [SStp (X 29) (X 30) (frameSize g v - 16); SAddFp (frameSize g v - 16)].
Proof.
  unfold frameSetup_stack.
  case_bool_decide as H1; [|done]. case_bool_decide as H2; [|done].
  cbn [negb].
  set (g' := ((if bool_decide (gp = 0%nat) then 1 else gp) + 3)%nat).
  pose proof (pairLoop_ofs SStp SStr (λ i, X (19 + i)) g' 0 (4 * 8)) as Ho1.
  destruct (pairLoop SStp SStr (λ i, X (19 + i)) g' 0 (4 * 8))
    as [gpCode ofs1] eqn:Hp1.
  cbn [snd] in Ho1. subst ofs1.
  pose proof (pairLoop_ofs SStp SStr (λ i, D (fst kV + i)) vec 0
                (4 * 8 + 16 * Z.of_nat ((g' + 1) / 2))) as Ho2.
  destruct (pairLoop SStp SStr (λ i, D (fst kV + i)) vec 0
              (4 * 8 + 16 * Z.of_nat ((g' + 1) / 2)))
    as [vecCode ofs2] eqn:Hp2.
  cbn [snd] in Ho2. subst ofs2. intros [= <- <- <-].
  split_and!; [done..|].
  change 32 with (4 * 8). rewrite Hp1, Hp2. cbn [fst].
  rewrite frameSize_eq.
  replace (32 + 16 * Z.of_nat ((g' + 1) / 2) + 16 * Z.of_nat ((vec + 1) / 2) +
           16 - 16)
    with (4 * 8 + 16 * Z.of_nat ((g' + 1) / 2) + 16 * Z.of_nat ((vec + 1) / 2))
    by lia.
  done.
Qed.

Lemma leave_stack_eq kV g v :
  leave_stack kV g v =
  (restoreOf <$> fst (pairLoop SStp SStr (λ i, X (19 + i)) g 0 32)) ++
  (restoreOf <$> fst (pairLoop SStp SStr (λ i, D (fst kV + i)) v 0
                        (32 + 16 * Z.of_nat ((g + 1) / 2)))) ++
  [SLdp (X 29) (X 30) (frameSize g v - 16); SAddSp (frameSize g v); SRet].
Proof.
  unfold leave_stack. change (4 * 8) with 32.
  rewrite (pairLoop_restore (λ i, X (19 + i)) g 0 32), pairLoop_ofs.
  rewrite (pairLoop_restore (λ i, D (fst kV + i)) v 0), pairLoop_ofs.
  assert (frameSize g v - 16 =
          32 + 16 * Z.of_nat ((g + 1) / 2) + 16 * Z.of_nat ((v + 1) / 2))
    as -> by (rewrite frameSize_eq; lia).
  reflexivity.
Qed.

(** X13: the epilogue restores what the prologue saved.  The loads of
    [leave] are the stores of [frameSetup] turned into loads, in the same
    order, of the same registers, from the same offsets, and [leave] adds to
    the stack pointer what [frameSetup] subtracted from it. *)
Theorem leave_restores_saved_registers (kGPSaved kVecSaved : nat * nat)
    (gpSaveCount vecSaveCount : nat) (code : list StackInstr) (g v : nat) :
  frameSetup_stack kGPSaved kVecSaved gpSaveCount vecSaveCount =
    Ok (code, (g, v)) →
  ∃ stores ofs,
    code = SSubSp (frameSize g v) :: stores ++ [SAddFp ofs] ∧
    leave_stack kVecSaved g v =
      (restoreOf <$> stores) ++ [SAddSp (frameSize g v); SRet].
Proof.
  intros Hrun.
  destruct (frameSetup_stack_inv _ _ _ _ _ _ _ Hrun)
    as (_ & _ & _ & _ & ->).
  rewrite leave_stack_eq.
  set (c1 := fst (pairLoop SStp SStr (λ i, X (19 + i)) g 0 32)).
  set (c2 := fst (pairLoop SStp SStr (λ i, D (fst kVecSaved + i)) v 0
                    (32 + 16 * Z.of_nat ((g + 1) / 2)))).
  exists (c1 ++ c2 ++ [SStp (X 29) (X 30) (frameSize g v - 16)]),
         (frameSize g v - 16).
  split.
  - by rewrite <- !app_assoc.
  - by rewrite !fmap_app, <- !app_assoc.
Qed.

Lemma half_bounds (n : nat) : (n ≤ 2 * ((n + 1) / 2) ≤ n + 1)%nat.
Proof.
  pose proof (Nat.div_mod (n + 1) 2 ltac:(lia)).
  pose proof (Nat.mod_upper_bound (n + 1) 2 ltac:(lia)). lia.
Qed.

(** The slots that [frameSetup] writes. *)
Lemma savedSlots_frame kG kV gp vec code g v :
  frameSetup_stack kG kV gp vec = Ok (code, (g, v)) →
  savedSlots code =
    ((λ k : nat, (X (19 + k), 32 + 8 * Z.of_nat k)) <$> seq 0 g) ++
    ((λ k : nat, (D (fst kV + k),
                  32 + 16 * Z.of_nat ((g + 1) / 2) + 8 * Z.of_nat k))
       <$> seq 0 v) ++
    [(X 29, frameSize g v - 16); (X 30, frameSize g v - 16 + 8)].
Proof.
  intros Hrun.
  destruct (frameSetup_stack_inv _ _ _ _ _ _ _ Hrun) as (_ & _ & _ & _ & ->).
  change (SSubSp ?n :: ?l) with ([SSubSp n] ++ l).
  rewrite !savedSlots_app, !pairLoop_slots. reflexivity.
Qed.

(** X14: the layout of the stack frame.  With the callee-saved integer
    registers [x22] to at most [x28], the size of the frame that
    [frameSetup] reserves is a multiple of 16; every register is stored in
    an 8-byte slot of its own, 8-aligned, above the 32 bytes of the locals
    header and inside the frame; no register is stored twice; and the pair
    [x29], [x30] is stored in the last 16 bytes, where the new frame pointer
    points. *)
Theorem frame_layout (kGPSaved kVecSaved : nat * nat)
    (gpSaveCount vecSaveCount : nat) (code : list StackInstr) (g v : nat) :
  fst kGPSaved = 22%nat → (snd kGPSaved ≤ 28)%nat →
  frameSetup_stack kGPSaved kVecSaved gpSaveCount vecSaveCount =
    Ok (code, (g, v)) →
  frameSize g v mod 16 = 0 ∧
  SAddFp (frameSize g v - 16) ∈ code ∧
  (X 29, frameSize g v - 16) ∈ savedSlots code ∧
  (X 30, frameSize g v - 8) ∈ savedSlots code ∧
  (∀ r o, (r, o) ∈ savedSlots code →
          32 ≤ o ∧ o + 8 ≤ frameSize g v ∧ o mod 8 = 0) ∧
  NoDup (snd <$> savedSlots code) ∧ NoDup (fst <$> savedSlots code).
Proof.
  intros HF HS Hrun. pose proof (savedSlots_frame _ _ _ _ _ _ _ Hrun) as Hsl.
  destruct (frameSetup_stack_inv _ _ _ _ _ _ _ Hrun)
    as (Hgp & _ & Hg & _ & Hcode).
  assert (g ≤ 10)%nat as Hg10 by (rewrite Hg; case_bool_decide; lia).
  pose proof (half_bounds g) as Hhg. pose proof (half_bounds v) as Hhv.
  pose proof (frameSize_eq g v) as Hn.
  set (n := frameSize g v) in *.
  set (hg := Z.of_nat ((g + 1) / 2)) in *.
  set (hv := Z.of_nat ((v + 1) / 2)) in *.
  assert (Z.of_nat g ≤ 2 * hg) as Hbg by lia.
  assert (Z.of_nat v ≤ 2 * hv) as Hbv by lia.
  assert (∀ r o, (r, o) ∈ savedSlots code →
            (∃ k : nat, (k < g)%nat ∧ r = X (19 + k) ∧ o = 32 + 8 * Z.of_nat k) ∨
            (∃ k : nat, (k < v)%nat ∧ r = D (fst kVecSaved + k) ∧
                        o = 32 + 16 * hg + 8 * Z.of_nat k) ∨
            (r = X 29 ∧ o = n - 16) ∨ (r = X 30 ∧ o = n - 8)) as Hcases.
  { intros r o. rewrite Hsl, !elem_of_app, !list_elem_of_fmap.
    intros [(k & [= -> ->] & Hk%elem_of_seq)|
            [(k & [= -> ->] & Hk%elem_of_seq)|Hin]].
    - left. exists k. split_and!; [lia|done..].
    - right. left. exists k. split_and!; [lia|done..].
    - right. right. apply elem_of_cons in Hin as [[= -> ->]|Hin]; [by left|].
      apply list_elem_of_singleton in Hin as [= -> ->]. right.
      split; [done|lia]. }
  split_and!.
  - rewrite Hn. replace (32 + 16 * hg + 16 * hv + 16)
      with ((3 + hg + hv) * 16) by lia. apply Z.mod_mul. lia.
  - rewrite Hcode. rewrite !elem_of_cons, !elem_of_app. right. right. right.
    rewrite !elem_of_cons. right. by left.
  - rewrite Hsl, !elem_of_app. right. right. by left.
  - rewrite Hsl, !elem_of_app. right. right. right.
    apply list_elem_of_singleton. f_equal. lia.
  - intros r o Hin.
    destruct (Hcases r o Hin)
      as [(k & Hk & -> & ->)|[(k & Hk & -> & ->)|[[-> ->]|[-> ->]]]].
    + split_and!; [lia|lia|].
      replace (32 + 8 * Z.of_nat k) with ((4 + Z.of_nat k) * 8) by lia.
      apply Z.mod_mul. lia.
    + split_and!; [lia|lia|].
      replace (32 + 16 * hg + 8 * Z.of_nat k)
        with ((4 + 2 * hg + Z.of_nat k) * 8) by lia.
      apply Z.mod_mul. lia.
    + split_and!; [lia|lia|]. rewrite Hn.
      replace (32 + 16 * hg + 16 * hv + 16 - 16)
        with ((4 + 2 * hg + 2 * hv) * 8) by lia.
      apply Z.mod_mul. lia.
    + split_and!; [lia|lia|]. rewrite Hn.
      replace (32 + 16 * hg + 16 * hv + 16 - 8)
        with ((5 + 2 * hg + 2 * hv) * 8) by lia.
      apply Z.mod_mul. lia.
  - rewrite Hsl, !fmap_app, <- !list_fmap_compose.
    apply NoDup_app. split_and!.
    + apply NoDup_fmap_2; [|apply NoDup_seq]. intros x y. simpl. lia.
    + intros o (k & -> & Hk%elem_of_seq)%list_elem_of_fmap.
      rewrite elem_of_app, list_elem_of_fmap. simpl.
      intros [(k' & Heq & Hk'%elem_of_seq)|Hin]; [lia|].
      apply elem_of_cons in Hin as [Heq|Hin]; [lia|].
      apply list_elem_of_singleton in Hin. lia.
    + apply NoDup_app. split_and!.
      * apply NoDup_fmap_2; [|apply NoDup_seq]. intros x y. simpl. lia.
      * intros o (k & -> & Hk%elem_of_seq)%list_elem_of_fmap. simpl.
        intros Hin. apply elem_of_cons in Hin as [Heq|Hin]; [lia|].
        apply list_elem_of_singleton in Hin. lia.
      * simpl. apply NoDup_cons. split; [|apply NoDup_singleton].
        rewrite list_elem_of_singleton. lia.
  - rewrite Hsl, !fmap_app, <- !list_fmap_compose.
    apply NoDup_app. split_and!.
    + apply NoDup_fmap_2; [|apply NoDup_seq]. intros x y [= H]. lia.
    + intros r (k & -> & Hk%elem_of_seq)%list_elem_of_fmap.
      rewrite elem_of_app, list_elem_of_fmap. simpl.
      intros [(k' & [=] & _)|Hin].
      apply elem_of_cons in Hin as [[= Heq]|Hin]; [lia|].
      apply list_elem_of_singleton in Hin. injection Hin as Heq. lia.
    + apply NoDup_app. split_and!.
      * apply NoDup_fmap_2; [|apply NoDup_seq]. intros x y [= H]. lia.
      * intros r (k & -> & Hk%elem_of_seq)%list_elem_of_fmap. simpl.
        intros Hin. apply elem_of_cons in Hin as [[=]|Hin].
        by apply list_elem_of_singleton in Hin.
      * simpl. apply NoDup_cons. split; [|apply NoDup_singleton].
        rewrite list_elem_of_singleton. done.
Qed.

(** X15: the prologue saves every register that the constructor pinned.
    With the callee-saved integer registers starting at [x22], the counts
    that the constructor passes to [frameSetup] never fail its assertions,
    and every global register that the constructor assigned to a frame
    register is among the registers that [frameSetup] stores in the stack
    frame. *)
Theorem pinned_registers_are_saved (kGPSaved kVecSaved : nat * nat)
    (numCount npCount : nat) (frs frs' : list FRState) (nextVec nextGp : nat) :
  fst kGPSaved = 22%nat →
  (fst kGPSaved ≤ S (snd kGPSaved))%nat →
  (fst kVecSaved ≤ S (snd kVecSaved))%nat →
  Forall (λ s, globalReg s = HWInvalid) frs →
  assignGlobals kGPSaved kVecSaved numCount npCount frs =
    Some (nextVec, nextGp, frs') →
  ∃ code counts,
    frameSetup_stack kGPSaved kVecSaved (nextGp - fst kGPSaved)
      (nextVec - fst kVecSaved) = Ok (code, counts) ∧
    ∀ i s, frs' !! i = Some s → isValid (globalReg s) →
           a64Reg (globalReg s) ∈ (fst <$> savedSlots code).
Proof.
  intros HF HG HV Hinit Hrun.
  destruct (assignGlobals_spec _ _ _ _ _ _ _ _ HG HV Hinit Hrun)
    as ([Hr _] & _ & HV' & HG').
  destruct (frameSetup_stack kGPSaved kVecSaved (nextGp - fst kGPSaved)
              (nextVec - fst kVecSaved)) as [[code [g v]]|e] eqn:Hfs.
  2:{ exfalso. unfold frameSetup_stack in Hfs.
      rewrite (bool_decide_eq_true_2
                 (nextGp - fst kGPSaved ≤ snd kGPSaved - fst kGPSaved + 1)%nat)
        in Hfs by lia.
      rewrite (bool_decide_eq_true_2
                 (nextVec - fst kVecSaved ≤
                  snd kVecSaved - fst kVecSaved + 1)%nat) in Hfs by lia.
      cbn [negb] in Hfs.
      destruct (pairLoop _ _ _ _ _ _) as [c1 o1] in Hfs.
      destruct (pairLoop _ _ _ _ _ _) as [c2 o2] in Hfs. done. }
  exists code, (g, v). split; [done|]. intros i s Hl Hv.
  pose proof (savedSlots_frame _ _ _ _ _ _ _ Hfs) as Hsl.
  destruct (frameSetup_stack_inv _ _ _ _ _ _ _ Hfs)
    as (_ & _ & Hg & Hvv & _).
  specialize (Hr i s Hl). rewrite Hsl, !fmap_app, <- !list_fmap_compose.
  rewrite !elem_of_app, !list_elem_of_fmap.
  destruct (globalReg s) as [|k|k]; simpl in Hr; [done|left|right; left].
  - exists (k - 19)%nat. unfold a64Reg, a64GpX, a64VecD. simpl. split; [f_equal; lia|].
    apply elem_of_seq. rewrite Hg. case_bool_decide; lia.
  - exists (k - fst kVecSaved)%nat. unfold a64Reg, a64GpX, a64VecD. simpl.
    split; [f_equal; lia|]. apply elem_of_seq. lia.
Qed.

(** ** [mov] between two frame registers *)

Lemma AuthExcept_all st :
  AuthExcept (FRIdx <$> seq 0 (length (frameRegs_ st))) st.
Proof.
  intros i s Hl Hni. exfalso. apply Hni. apply list_elem_of_fmap.
  exists i. split; [done|]. apply elem_of_seq.
  apply lookup_lt_Some in Hl. lia.
Qed.

(** [getOrAllocFRInAnyReg] returns a register, keeps the bindings well
    formed and leaves the types and the global registers alone. *)
Lemma wp_getOrAllocFRInAnyReg_valid fr load pr (Q : HWReg → Emitter → Prop) st :
  EnvOK E → Bound E st →
  (∀ hw st', isValid hw → Bound E st' → statics (λ _, False) st st' →
             Q hw st') →
  wp (getOrAllocFRInAnyReg E fr load pr) Q st.
Proof.
  intros HE HB HQ.
  eapply wp_mono;
    [apply wp_conj;
       [apply (wp_getOrAllocFRInAnyReg fr load pr _
                 (λ hw st', isValid hw ∧ Bound E st') st HE HB
                 (AuthExcept_all st)); by intros
       |eapply (Pres_wp (statics (λ _, False)));
          [apply statics_getOrAllocFRInAnyReg|intros hw st' H; exact H]]|].
  intros hw st' [[Hv HB'] HS]. by apply HQ.
Qed.

Lemma updatedWith_in_register hw ty s :
  isValid hw →
  globalReg s = hw ∨ hw = localGpX s ∨ hw = localVecD s →
  frameUpToDate (updatedWith hw ty s) = false ∧
  (hasLocal (updatedWith hw ty s) ∨
   (isValid (globalReg (updatedWith hw ty s)) ∧
    globalRegUpToDate (updatedWith hw ty s))).
Proof.
  intros Hv Hhw. unfold updatedWith, hasLocal.
  case_bool_decide as H1; [|case_bool_decide as H2].
  - destruct ty; simpl; (split; [done|]); right; by rewrite H1.
  - destruct ty; simpl; (split; [done|]); left; left; by rewrite <- H2.
  - destruct Hhw as [?|[?|H3]]; [done..|].
    destruct ty; simpl; (split; [done|]); left; right; by rewrite <- H3.
Qed.

Lemma localType_updatedWith hw ty s :
  localType (updatedWith hw (Some ty) s) = ty.
Proof. unfold updatedWith. by repeat case_bool_decide. Qed.


(** ** The type of the result of [arithBinOp] *)

#[local] Hint Resolve statics_setContains statics_freeReg statics_spillTempReg
  statics_syncAndFreeTempReg statics_freeFRTemp statics_freeAllTempExcept
  statics_assignAllocatedLocalHWReg statics_allocTemp
  statics_getOrAllocFRInVecD statics_getOrAllocFRInGpX
  statics_getOrAllocFRInAnyReg : pres.

(** [arithBinOp] after the types of its operands are determined. *)
Lemma statics_arithBinOp_rest X frRes frLeft frRight name slowCall
    slowCallName (leftIsNum rightIsNum slow : bool) :
  (X frRes ∨ slow = true) →
  Pres (statics X)
    ('(slowPathLab, contLab) ←
       (if slow then
          slowPathLab ← newSlowPathLabel;
          contLab ← newContLabel;
          syncAllTempExcept E
            (if bool_decide (frRes ≠ frLeft) && bool_decide (frRes ≠ frRight)
             then frRes else FRInvalid) ;;
          syncToMem E frLeft ;;
          syncToMem E frRight ;;
          mret (slowPathLab, contLab)
        else mret (LInvalid, LInvalid));
     hwLeft ←
       (if leftIsNum then getOrAllocFRInVecD E frLeft true
        else
          hwLeft ← getOrAllocFRInGpX E frLeft true;
          guardNumber hwLeft slowPathLab ;;
          mret hwLeft);
     hwRight ←
       (if rightIsNum then getOrAllocFRInVecD E frRight true
        else
          hwRight ← getOrAllocFRInGpX E frRight true;
          guardNumber hwRight slowPathLab ;;
          mret hwRight);
     hwLeft ← (if negb leftIsNum then getOrAllocFRInVecD E frLeft true
               else mret hwLeft);
     hwRight ← (if negb rightIsNum then getOrAllocFRInVecD E frRight true
                else mret hwRight);
     hwRes ← getOrAllocFRInVecD E frRes false;
     emit (IFast (a64VecD hwRes) (a64VecD hwLeft) (a64VecD hwRight)) ;;
     frUpdatedWithHWReg E frRes hwRes
       (if negb slow then Some FRType.Number else None) ;;
     if negb slow then mret ()
     else
       freeAllTempExcept E frRes ;;
       emit (IBind contLab) ;;
       pushSlowPath
         (mkSlowPath slowPathLab contLab LInvalid name frRes frLeft frRight
            hwRes false (Some slowCall) slowCallName SlowArithBinOp)).
Proof.
  intros HX.
  assert (∀ hw, Pres (statics X)
                  (frUpdatedWithHWReg E frRes hw
                     (if negb slow then Some FRType.Number else None)))
    as Hupd.
  { intros hw. apply statics_frUpdatedWithHWReg.
    destruct HX as [?| ->]; [by left|by right]. }
  unfold newSlowPathLabel, newContLabel. solve_statics.
Qed.

(** X17: the local type that [arithBinOp] leaves.  When the operation
    forces numbers or both operands are known to be numbers, the result
    register is known to be a number afterwards, and the only local types
    that change are those of the result and, when numbers are forced, of the
    operands.  Otherwise (an operand needs a guard) no local type changes at
    all: the result register keeps the local type it had.  In both cases no
    global register and no global type changes. *)
Theorem arithBinOp_result_type (forceNumber : bool) (frRes : FR) (iL iR : nat)
    (sL sR : FRState) (name : string) (slowCall : Z) (slowCallName : string)
    (st st' : Emitter) :
  frameRegs_ st !! iL = Some sL → frameRegs_ st !! iR = Some sR →
  arithBinOp E forceNumber frRes (FRIdx iL) (FRIdx iR) name slowCall
    slowCallName st = Ok ((), st') →
  if forceNumber ||
     (bool_decide (localType sL = FRType.Number) &&
      bool_decide (localType sR = FRType.Number))
  then
    (∃ i s, frRes = FRIdx i ∧ frameRegs_ st' !! i = Some s ∧
            localType s = FRType.Number) ∧
    statics (λ fr, fr = frRes ∨
                   (forceNumber = true ∧ (fr = FRIdx iL ∨ fr = FRIdx iR)))
      st st'
  else statics (λ _, False) st st'.
Proof.
  intros HlL HlR.
  set (L := bool_decide (localType sL = FRType.Number)).
  set (R := bool_decide (localType sR = FRType.Number)).
  set (X := λ fr, fr = frRes ∨
                  (forceNumber = true ∧ (fr = FRIdx iL ∨ fr = FRIdx iR))).
  assert (wp (if forceNumber then
                updFR (FRIdx iL) (set_localType FRType.Number) ;;
                updFR (FRIdx iR) (set_localType FRType.Number) ;;
                mret (true, true, false)
              else
                leftIsNum ← isFRKnownNumber (FRIdx iL);
                rightIsNum ← isFRKnownNumber (FRIdx iR);
                mret (leftIsNum, rightIsNum, negb (rightIsNum && leftIsNum)))
            (λ x st1, x = (forceNumber || L, forceNumber || R,
                           negb (forceNumber || (L && R))) ∧
               statics (λ fr, forceNumber = true ∧
                              (fr = FRIdx iL ∨ fr = FRIdx iR)) st st1) st)
    as Hwp.
  { destruct forceNumber; simpl.
    - set (X1 := λ fr, true = true ∧ (fr = FRIdx iL ∨ fr = FRIdx iR)).
      assert (X1 (FRIdx iL)) as HXL by (split; [done|by left]).
      assert (X1 (FRIdx iR)) as HXR by (split; [done|by right]).
      apply wp_bind.
      eapply (Pres_wp (statics X1)); [by apply statics_updFR_in|].
      intros [] st1 H1. apply wp_bind.
      eapply (Pres_wp (statics X1)); [by apply statics_updFR_in|].
      intros [] st2 H2. apply wp_ret. split; [done|by etrans].
    - unfold isFRKnownNumber, isFRKnownType.
      apply wp_bind, wp_bind, wp_frState. intros ? s [= <-] Hs.
      apply wp_ret. apply wp_bind, wp_bind, wp_frState.
      intros ? s' [= <-] Hs'. apply wp_ret, wp_ret.
      rewrite HlL in Hs. rewrite HlR in Hs'.
      injection Hs as <-. injection Hs' as <-.
      split; [by rewrite andb_comm|reflexivity]. }
  intros Hrun. unfold arithBinOp in Hrun.
  apply bind_Ok in Hrun as ([[l r] slow] & st1 & Hfirst & Hrest).
  destruct (Hwp _ _ Hfirst) as [Heq HS1]. clear Hwp Hfirst.
  injection Heq as -> -> ->.
  destruct (forceNumber || L && R) eqn:Hfast.
  - split.
    + simpl in Hrest. revert st' Hrest.
      apply (wp_unit _ (λ st', ∃ i s, _)).
      apply wp_bind. intros [? ?] st2 _. apply wp_bind. intros ? st3 _.
      apply wp_bind. intros ? st4 _. apply wp_bind. intros ? st5 _.
      apply wp_bind. intros ? st6 _. apply wp_bind. intros hwRes st7 _.
      apply wp_bind. intros ? st8 _. apply wp_bind.
      eapply wp_mono; [apply wp_frUpdatedWithHWReg_type|].
      intros [] st9 H9. by apply wp_ret.
    + etrans.
      * destruct HS1 as [HL1 H1]. split; [done|]. intros i s s' Hl Hl'.
        destruct (H1 i s s' Hl Hl') as (? & ? & HT).
        split_and!; [done..|]. intros Hn. apply HT. intros [Hf Hx].
        apply Hn. right. done.
      * eapply (statics_arithBinOp_rest X frRes (FRIdx iL) (FRIdx iR) name
                  slowCall slowCallName (forceNumber || L) (forceNumber || R)
                  false); [left; by left|].
        exact Hrest.
  - assert (forceNumber = false) as -> by (by destruct forceNumber).
    etrans.
    + destruct HS1 as [HL1 H1]. split; [done|]. intros i s s' Hl Hl'.
      destruct (H1 i s s' Hl Hl') as (? & ? & HT).
      split_and!; [done..|]. intros _. apply HT. by intros [? _].
    + eapply (statics_arithBinOp_rest (λ _, False) frRes (FRIdx iL)
                (FRIdx iR) name slowCall slowCallName (false || L)
                (false || R) true); [by right|].
      exact Hrest.
Qed.

(** ** The operation emitters keep the bindings consistent *)

Section Consistency.
Context (HE : EnvOK E).

#[local] Instance boundKept_preorder : PreOrder (boundKept E).
Proof.
  split; [intros st HB; exact HB|].
  intros st1 st2 st3 H1 H2 HB. apply H2, H1, HB.
Qed.

Lemma boundKept_of_sameView {A} (m : M A) :
  Pres sameView m → Pres (boundKept E) m.
Proof.
  apply Pres_weaken. intros st st' Hv HB. by eapply sameView_Bound.
Qed.
Lemma boundKept_of_syncStep {A} (m : M A) :
  Pres syncStep m → Pres (boundKept E) m.
Proof.
  apply Pres_weaken. intros st st' Hv HB. by eapply syncStep_Bound.
Qed.
Lemma boundKept_of_wp {A} (m : M A) :
  (∀ st, Bound E st → wp m (λ _ st', Bound E st') st) →
  Pres (boundKept E) m.
Proof. intros H st x st' Hrun HB. exact (H st HB x st' Hrun). Qed.

Lemma boundKept_updFR fr f :
  (∀ s, localGpX (f s) = localGpX s ∧ localVecD (f s) = localVecD s) →
  Pres (boundKept E) (updFR fr f).
Proof.
  intros Hf. apply Pres_updFR. intros st i s _ Hl HB.
  destruct (Hf s) as [HG HV]. by apply (Bound_flags st _ i s (f s)).
Qed.

Lemma boundKept_freeReg r : Pres (boundKept E) (freeReg E r).
Proof.
  apply boundKept_of_wp. intros st HB. apply wp_freeReg; [done..| | |].
  - done.
  - by intros.
  - by intros.
Qed.
Lemma boundKept_spillTempReg r : Pres (boundKept E) (spillTempReg E r).
Proof.
  apply boundKept_of_wp. intros st HB.
  eapply wp_mono; [by apply spillTempReg_spec|].
  intros [] st' (i & s & H). apply H.
Qed.
Lemma boundKept_allocTemp TAG pr : Pres (boundKept E) (_allocTemp E TAG pr).
Proof.
  apply boundKept_of_wp. intros st HB. apply wp_allocTemp; [done..|].
  by intros.
Qed.
Lemma boundKept_freeFRTemp fr : Pres (boundKept E) (freeFRTemp E fr).
Proof.
  apply boundKept_of_wp. intros st HB. apply wp_freeFRTemp; [done..|].
  by intros.
Qed.
Lemma boundKept_getOrAllocFRInVecD fr load :
  Pres (boundKept E) (getOrAllocFRInVecD E fr load).
Proof.
  apply boundKept_of_wp. intros st HB.
  apply wp_getOrAllocFRInVecD_holds; [done..|]. by intros.
Qed.
Lemma boundKept_getOrAllocFRInGpX fr load :
  Pres (boundKept E) (getOrAllocFRInGpX E fr load).
Proof.
  apply boundKept_of_wp. intros st HB.
  apply wp_getOrAllocFRInGpX_holds; [done..|]. by intros.
Qed.
Lemma boundKept_getOrAllocFRInAnyReg fr load pr :
  Pres (boundKept E) (getOrAllocFRInAnyReg E fr load pr).
Proof.
  apply boundKept_of_wp. intros st HB.
  apply wp_getOrAllocFRInAnyReg_valid; [done..|]. by intros.
Qed.
Lemma boundKept_frUpdatedWithHWReg fr hw ty :
  Pres (boundKept E) (frUpdatedWithHWReg E fr hw ty).
Proof.
  apply boundKept_of_wp. intros st HB. apply wp_frUpdatedWithHWReg; [done..|].
  by intros.
Qed.

Hint Resolve boundKept_freeReg boundKept_spillTempReg boundKept_allocTemp
  boundKept_freeFRTemp boundKept_getOrAllocFRInVecD
  boundKept_getOrAllocFRInGpX boundKept_getOrAllocFRInAnyReg
  boundKept_frUpdatedWithHWReg : pres.

Ltac solve_bound :=
  repeat first
    [ pres_step
    | solve [eauto with pres]
    | apply boundKept_of_sameView; solve [eauto with pres]
    | apply boundKept_of_syncStep; solve [eauto with pres]
    | apply boundKept_updFR; intros ?; done
    | apply Pres_modify; intros ? ?; eapply Bound_view; [|eassumption];
      reflexivity ].

Lemma boundKept_syncAndFreeTempReg r :
  Pres (boundKept E) (syncAndFreeTempReg E r).
Proof. unfold syncAndFreeTempReg. solve_bound. Qed.
Lemma boundKept_freeAllTempExcept ex :
  Pres (boundKept E) (freeAllTempExcept E ex).
Proof. unfold freeAllTempExcept, freeOneTemp. solve_bound. Qed.
Lemma boundKept_movFRFromHW dst src ty :
  Pres (boundKept E) (movFRFromHW E dst src ty).
Proof. unfold movFRFromHW, frUpdateType. solve_bound. Qed.
Hint Resolve boundKept_syncAndFreeTempReg boundKept_freeAllTempExcept
  boundKept_movFRFromHW : pres.
Lemma boundKept_placeInFrame slot src :
  Pres (boundKept E) (placeInFrame E slot src).
Proof. unfold placeInFrame. solve_bound. Qed.
Lemma boundKept_loadConstBits64 fr bits ty :
  Pres (boundKept E) (loadConstBits64 E fr bits ty).
Proof. unfold loadConstBits64. solve_bound. Qed.
Lemma boundKept_resultFromX0 fr pr use :
  Pres (boundKept E) (resultFromX0 E fr pr use).
Proof. unfold resultFromX0. solve_bound. Qed.
Lemma boundKept_mov frRes frInput lc :
  Pres (boundKept E) (mov E frRes frInput lc).
Proof. unfold mov. solve_bound. Qed.
Hint Resolve boundKept_placeInFrame boundKept_loadConstBits64
  boundKept_resultFromX0 boundKept_mov : pres.

(** *** After the sync pass *)

Lemma synced_authoritative s : synced s → authoritative s.
Proof. by right. Qed.

Lemma AllSynced_Consistent X st : AllSynced E X st → Consistent E X st.
Proof.
  intros [HB HS]. split; [done|]. intros i s Hl Hi.
  apply synced_authoritative. by eapply HS.
Qed.

Lemma AllSynced_weaken X Y st : AllSynced E X st → X ⊆ Y → AllSynced E Y st.
Proof. intros [HB HS] H. split; [done|]. by eapply SyncedExcept_weaken. Qed.

(** A step that keeps the bindings consistent and the frame registers
    outside of [Z] synced. *)
Lemma wp_settled {A} (m : M A) Y Z (Q : A → Emitter → Prop) st :
  Pres (boundKept E) m → Pres (keeps Z) m → AllSynced E Y st →
  (∀ x st', AllSynced E (Y ++ Z) st' → Q x st') →
  wp m Q st.
Proof.
  intros Hb Hk [HB HS] HQ x st' Hrun. apply HQ. split.
  - by eapply Hb.
  - eapply SyncedExcept_keeps; [done|]. by eapply Hk.
Qed.

Lemma wp_settled_same {A} (m : M A) Y (Q : A → Emitter → Prop) st :
  Pres (boundKept E) m → Pres (keeps []) m → AllSynced E Y st →
  (∀ x st', AllSynced E Y st' → Q x st') →
  wp m Q st.
Proof.
  intros Hb Hk HS HQ. eapply wp_settled; [done..|].
  intros x st' HS'. apply HQ. by rewrite app_nil_r in HS'.
Qed.

Lemma wp_syncToMem_settled fr Y (Q : unit → Emitter → Prop) st :
  AllSynced E Y st →
  (∀ st', AllSynced E (list_difference Y [fr]) st' → Q () st') →
  wp (syncToMem E fr) Q st.
Proof.
  intros [HB HS] HQ.
  eapply wp_mono;
    [apply (wp_conj _ (λ _ st', Bound E st')
                      (λ _ st', SyncedExcept (list_difference Y [fr]) st'))|].
  - eapply Pres_wp; [apply syncStep_syncToMem|].
    intros _ st' Hs. by eapply syncStep_Bound.
  - by apply wp_syncToMem_synced with (X := Y).
  - intros [] st' [HB' HS']. by apply HQ.
Qed.

Ltac settled_rest HS :=
  eapply wp_settled_same; [solve_bound|solve_keeps|exact HS|];
  intros [] ? ?; eapply AllSynced_weaken; [eassumption|set_solver].

(** When a member function that calls a helper of the runtime reaches the
    branch to the helper, the bindings are consistent and every frame
    register other than the exempted one is synced. *)
Lemma beforeCall_settled op st :
  Consistent E [] st →
  wp (beforeCall E op) (λ _ st', AllSynced E [exemptOf op] st') st.
Proof.
  intros [HB HA].
  assert (∀ ex st0 (Q : unit → Emitter → Prop),
            Bound E st0 → AuthExcept [] st0 →
            (∀ st', AllSynced E [ex] st' → Q () st') →
            wp (syncAllTempExcept E ex) Q st0) as Hsync.
  { intros ex st0 Q HB0 HA0 HQ.
    apply syncAllTempExcept_synced with (X := []); [done..|].
    intros st' _ HB' HS'. by apply HQ. }
  destruct op; cbn [beforeCall exemptOf].
  - (* call *)
    unfold call_before_bl. apply wp_bind, wp_get. apply wp_bind.
    apply Hsync; [done..|]. intros st1 HS1. apply wp_bind.
    set (callee := mkFR (nRegs st + CalleeClosureOrCB E)).
    set (nt := mkFR (nRegs st + NewTarget E)).
    eapply (wp_settled _ _ [callee; nt]);
      [solve_bound|apply keeps_placeInFrame; set_solver|done|].
    intros [] st2 HS2. apply wp_bind.
    eapply (wp_settled _ _ [callee; nt]);
      [solve_bound|apply keeps_loadConstBits64; set_solver|done|].
    intros [] st3 HS3.
    apply wp_bind, wp_syncToMem_settled with (1 := HS3). intros st4 HS4.
    apply wp_bind, wp_syncToMem_settled with (1 := HS4). intros st5 HS5.
    assert (AllSynced E [FRInvalid] st5) as HS.
    { eapply AllSynced_weaken; [done|]. intros x.
      rewrite !list_elem_of_difference, !elem_of_app.
      assert (∀ y : FR, y ∈ [callee; nt] → y ∉ [callee] → y ∉ [nt] → False)
        as Hno.
      { intros y [->|Hy]%elem_of_cons Hc Hn; [apply Hc; left|].
        apply list_elem_of_singleton in Hy as ->. apply Hn. left. }
      intros [[[[Hx|Hx]|Hx] Hc] Hn]; [done|by destruct (Hno x)..]. }
    settled_rest HS.
  - (* callN *)
    unfold callN_before_bl. apply wp_bind, wp_get. apply wp_bind.
    apply wp_placeInFrame_J with (X := []); [done..|]. intros st1 HB1 HA1.
    apply wp_bind.
    eapply wp_syncStep_J; [apply syncStep_syncToMem|done..|].
    intros [] st2 _ HB2 HA2. apply wp_bind.
    eapply Pres_syncLoop_J; [done..| |].
    { intros [i arg] st3 HB3 HA3. apply wp_bind.
      apply wp_placeInFrame_J with (X := []); [done..|]. intros st4 HB4 HA4.
      eapply wp_syncStep_J; [apply syncStep_syncToMem|done..|]. done. }
    intros st3 HB3 HA3. apply wp_bind.
    apply wp_loadConstBits64_J with (X := []); [done..|]. intros st4 HB4 HA4.
    apply wp_bind.
    eapply wp_syncStep_J; [apply syncStep_syncToMem|done..|].
    intros [] st5 _ HB5 HA5. apply wp_bind.
    apply Hsync; [done..|]. intros st6 HS. settled_rest HS.
  - (* callBuiltin *)
    unfold callBuiltin_before_bl. apply wp_bind, wp_get. apply wp_bind.
    eapply (wp_syncStep_J _ []); [|done..|].
    { apply Pres_forEach; [exact _|]. intros i. apply syncStep_syncToMem. }
    intros [] st1 _ HB1 HA1. apply wp_bind.
    apply Hsync; [done..|]. intros st2 HS. settled_rest HS.
  - (* callWithNewTarget *)
    unfold callWithNewTarget_before_bl. apply wp_bind, wp_get. apply wp_bind.
    apply wp_placeInFrame_J with (X := []); [done..|]. intros st1 HB1 HA1.
    apply wp_bind.
    apply wp_placeInFrame_J with (X := []); [done..|]. intros st2 HB2 HA2.
    apply wp_bind.
    eapply (wp_syncStep_J _ []); [|done..|].
    { apply Pres_forEach; [exact _|]. intros i. apply syncStep_syncToMem. }
    intros [] st3 _ HB3 HA3. apply wp_bind.
    eapply wp_syncStep_J; [apply syncStep_syncToMem|done..|].
    intros [] st4 _ HB4 HA4. apply wp_bind.
    eapply wp_syncStep_J; [apply syncStep_syncToMem|done..|].
    intros [] st5 _ HB5 HA5. apply wp_bind.
    apply Hsync; [done..|]. intros st6 HS. settled_rest HS.
  - unfold getBuiltinClosure_before_bl. apply wp_bind.
    apply Hsync; [done..|]. intros st1 HS. settled_rest HS.
  - unfold loadConstString_before_bl. apply wp_bind.
    apply Hsync; [done..|]. intros st1 HS. settled_rest HS.
  - unfold declareGlobalVar_before_bl. apply wp_bind.
    apply Hsync; [done..|]. intros st1 HS. settled_rest HS.
  - unfold createTopLevelEnvironment_before_bl. apply wp_bind.
    apply Hsync; [done..|]. intros st1 HS. settled_rest HS.
  - (* storeToEnvironment *)
    unfold storeToEnvironment_before_bl.
    do 4 (apply wp_bind;
          apply wp_syncAndFreeTempReg_J with (X := []); [done..|];
          clear dependent st; intros st HB HA).
    apply wp_bind.
    apply Hsync; [done..|]. intros st1 HS. settled_rest HS.
  - unfold createClosure_before_bl. apply wp_bind.
    apply Hsync; [done..|]. intros st1 HS. settled_rest HS.
  - unfold putByValImpl_before_bl. apply wp_bind.
    apply Hsync; [done..|]. intros st1 HS. settled_rest HS.
  - unfold getByIdImpl_before_bl. apply wp_bind.
    apply Hsync; [done..|]. intros st1 HS. settled_rest HS.
  - unfold getByVal_before_bl. apply wp_bind.
    apply Hsync; [done..|]. intros st1 HS. settled_rest HS.
  - unfold getByIndex_before_bl. apply wp_bind.
    apply Hsync; [done..|]. intros st1 HS. settled_rest HS.
  - unfold putByIdImpl_before_bl. apply wp_bind.
    apply Hsync; [done..|]. intros st1 HS. settled_rest HS.
  - unfold isIn_before_bl. apply wp_bind.
    apply Hsync; [done..|]. intros st1 HS. settled_rest HS.
  - unfold jmpTrueFalse_before_bl. apply wp_bind.
    apply Hsync; [done..|]. intros st1 HS. settled_rest HS.
Qed.

(** *** The result of a call *)

#[local] Instance recordKept_preorder fr : PreOrder (recordKept fr).
Proof.
  split; [by intros st i _|].
  intros st1 st2 st3 H1 H2 i Hi. by rewrite (H2 i Hi), (H1 i Hi).
Qed.

Lemma recordKept_frameRegs fr st st' :
  frameRegs_ st' = frameRegs_ st → recordKept fr st st'.
Proof. intros H i _. by rewrite H. Qed.

Lemma recordKept_updFR fr fr' f :
  fr' ≠ fr → Pres (recordKept fr) (updFR fr' f).
Proof.
  intros Hne. apply Pres_updFR. intros st i s -> Hl j ->. simpl.
  apply list_lookup_insert_ne. congruence.
Qed.

Lemma recordKept_freeFRTemp fr fr' :
  fr' ≠ fr → Pres (recordKept fr) (freeFRTemp E fr').
Proof.
  intros Hne. unfold freeFRTemp, setContains.
  repeat first
    [ pres_step
    | apply Pres_modify; intros ?; apply recordKept_frameRegs; reflexivity
    | by apply recordKept_updFR ].
Qed.

Lemma recordKept_freeAllTempExcept fr :
  Pres (recordKept fr) (freeAllTempExcept E fr).
Proof.
  assert (∀ hw, Pres (recordKept fr) (freeOneTemp E fr hw)) as Hone.
  { intros hw. unfold freeOneTemp. apply Pres_bind; [exact _|solve_pres|].
    intros fr'. case_bool_decide as Hfr; simpl.
    - rewrite orb_true_r. apply Pres_ret. exact _.
    - destruct (negb (FR_isValid fr')); simpl; [apply Pres_ret; exact _|].
      by apply recordKept_freeFRTemp. }
  unfold freeAllTempExcept. solve_pres.
Qed.

Lemma AuthAt_recordKept fr st st' :
  recordKept fr st st' → AuthAt fr st → AuthAt fr st'.
Proof.
  intros HR HA i s Hi Hl. rewrite (HR i Hi) in Hl. by eapply HA.
Qed.

Lemma AuthAt_frameRegs fr st st' :
  frameRegs_ st' = frameRegs_ st → AuthAt fr st → AuthAt fr st'.
Proof. intros H. apply AuthAt_recordKept. by apply recordKept_frameRegs. Qed.

Lemma AuthAt_invalid st : AuthAt FRInvalid st.
Proof. by intros i s. Qed.

(** [freeAllTempExcept(fr)] after the sync pass: the other frame registers
    stay synced, [fr] keeps its location. *)
Lemma wp_freeAllTempExcept_settled fr Y (Q : unit → Emitter → Prop) st :
  AllSynced E Y st → AuthAt fr st →
  (∀ st', AllSynced E Y st' → AuthAt fr st' → Q () st') →
  wp (freeAllTempExcept E fr) Q st.
Proof.
  intros HS HA HQ.
  eapply wp_mono;
    [apply (wp_conj _ (λ _ st', AllSynced E Y st') (λ _ st', AuthAt fr st'))|].
  - eapply wp_settled_same; [solve_bound|solve_keeps|done|done].
  - eapply Pres_wp; [apply recordKept_freeAllTempExcept|].
    intros _ st' HR. by eapply AuthAt_recordKept.
  - intros [] st' [HS' HA']. by apply HQ.
Qed.

(** A step after the result is bound that leaves the frame registers
    alone. *)
Lemma wp_settled_view {A} (m : M A) fr Y (Q : A → Emitter → Prop) st :
  Pres sameView m → AllSynced E Y st → AuthAt fr st →
  (∀ x st', AllSynced E Y st' → AuthAt fr st' → Q x st') →
  wp m Q st.
Proof.
  intros Hm [HB HS] HA HQ. eapply Pres_wp; [done|]. intros x st' Hv.
  pose proof (sameView_frameRegs _ _ Hv) as Hfr. apply HQ.
  - split; [by eapply sameView_Bound|].
    intros i s Hl. rewrite Hfr in Hl. by apply HS.
  - by eapply AuthAt_frameRegs.
Qed.

(** Binding the result to a valid register gives it a location. *)
Lemma wp_frUpdatedWithHWReg_settled fr hw ty Y (Q : unit → Emitter → Prop) st :
  AllSynced E Y st → isValid hw →
  (∀ st', AllSynced E (Y ++ [fr]) st' → AuthAt fr st' → Q () st') →
  wp (frUpdatedWithHWReg E fr hw ty) Q st.
Proof.
  intros HS Hv HQ.
  eapply wp_mono;
    [apply (wp_conj _ (λ _ st', AllSynced E (Y ++ [fr]) st')
                      (λ _ st', AuthAt fr st'))|].
  - eapply wp_settled; [solve_bound| |done|done].
    apply keeps_frUpdatedWithHWReg. set_solver.
  - destruct HS as [HB _]. apply wp_frUpdatedWithHWReg; [done..|].
    intros st' i s -> Hl Hreg Hfr _ _ j sj [= <-] Hlj. rewrite Hfr in Hlj.
    rewrite list_lookup_insert_eq in Hlj by (by eapply lookup_lt_Some).
    injection Hlj as <-. by apply updatedWith_authoritative.
  - intros [] st' [HS' HA']. by apply HQ.
Qed.

Lemma wp_resultFromX0_settled fr pr use Y (Q : unit → Emitter → Prop) st :
  AllSynced E Y st →
  (∀ st', AllSynced E (Y ++ [fr]) st' → AuthAt fr st' → Q () st') →
  wp (resultFromX0 E fr pr use) Q st.
Proof.
  intros HS HQ. unfold resultFromX0. apply wp_bind.
  eapply wp_mono;
    [apply (wp_conj _ (λ _ st', AllSynced E Y st') (λ hw _, isValid hw))|].
  - eapply wp_settled_same; [solve_bound|solve_keeps|done|done].
  - destruct HS as [HB _]. apply wp_getOrAllocFRInAnyReg_valid; [done..|].
    by intros.
  - intros hw st1 [HS1 Hv]. apply wp_bind.
    eapply wp_settled_same; [solve_bound|solve_keeps|done|].
    intros [] st2 HS2.
    by apply wp_frUpdatedWithHWReg_settled with (Y := Y).
Qed.

(** The invariant at the end of a member function. *)
Lemma settled_finish fr Y st :
  AllSynced E Y st → AuthAt fr st →
  Forall (λ y, y = fr ∨ y = FRInvalid) Y →
  Consistent E [] st.
Proof.
  intros [HB HS] HA HY. split; [done|]. intros i s Hl _.
  destruct (decide (FRIdx i ∈ Y)) as [Hin|Hout].
  - rewrite Forall_forall in HY. destruct (HY _ Hin) as [<-|[=]].
    by eapply HA.
  - apply synced_authoritative. by eapply HS.
Qed.

Lemma wp_getOrAllocFRInGpX_settled fr load Y (Q : HWReg → Emitter → Prop) st :
  AllSynced E Y st →
  (∀ hw st', isValid hw → AllSynced E Y st' → Q hw st') →
  wp (getOrAllocFRInGpX E fr load) Q st.
Proof.
  intros HS HQ.
  eapply wp_mono;
    [apply (wp_conj _ (λ _ st', AllSynced E Y st') (λ hw _, isValid hw))|].
  - eapply wp_settled_same; [solve_bound|solve_keeps|done|done].
  - destruct HS as [HB _]. apply wp_getOrAllocFRInGpX_holds; [done..|].
    by intros hw st' i s' _ _ [Hv _] _.
  - intros hw st' [HS' Hv]. by apply HQ.
Qed.

Lemma wp_getOrAllocFRInVecD_settled fr load Y (Q : HWReg → Emitter → Prop) st :
  AllSynced E Y st →
  (∀ hw st', isValid hw → AllSynced E Y st' → Q hw st') →
  wp (getOrAllocFRInVecD E fr load) Q st.
Proof.
  intros HS HQ.
  eapply wp_mono;
    [apply (wp_conj _ (λ _ st', AllSynced E Y st') (λ hw _, isValid hw))|].
  - eapply wp_settled_same; [solve_bound|solve_keeps|done|done].
  - destruct HS as [HB _]. apply wp_getOrAllocFRInVecD_holds; [done..|].
    by intros hw st' i s' _ _ [Hv _] _.
  - intros hw st' [HS' Hv]. by apply HQ.
Qed.

Ltac settled_step :=
  lazymatch goal with
  | HS : AllSynced _ _ ?st |- wp (_ ≫= _) _ ?st => apply wp_bind
  | HS : AllSynced _ _ ?st |- wp (mret _) _ ?st => apply wp_ret
  | |- wp (if negb true then _ else _) _ _ => cbn [negb]
  | |- wp (if negb false then _ else _) _ _ => cbn [negb]
  | HS : AllSynced _ _ ?st |- wp (if ?b then _ else _) _ ?st => destruct b
  | HS : AllSynced _ _ ?st, HA : AuthAt ?fr ?st
    |- wp (freeAllTempExcept _ ?fr) _ ?st =>
      apply (wp_freeAllTempExcept_settled _ _ _ _ HS HA);
      clear HS HA; intros ? HS HA
  | HS : AllSynced _ _ ?st, HA : AuthAt ?fr ?st |- wp _ _ ?st =>
      eapply (wp_settled_view _ fr); [solve [solve_pres]|exact HS|exact HA|];
      clear HS HA; intros ? ? HS HA
  | HS : AllSynced _ _ ?st |- wp (resultFromX0 _ _ _ _) _ ?st =>
      apply (wp_resultFromX0_settled _ _ _ _ _ _ HS);
      clear HS; intros ? HS ?
  | HS : AllSynced _ _ ?st |- wp (getOrAllocFRInGpX _ _ _) _ ?st =>
      apply (wp_getOrAllocFRInGpX_settled _ _ _ _ _ HS);
      clear HS; intros ? ? ? HS
  | HS : AllSynced _ _ ?st |- wp (getOrAllocFRInVecD _ _ _) _ ?st =>
      apply (wp_getOrAllocFRInVecD_settled _ _ _ _ _ HS);
      clear HS; intros ? ? ? HS
  | HS : AllSynced _ _ ?st, Hv : Is_true (isValid ?hw)
    |- wp (frUpdatedWithHWReg _ _ ?hw _) _ ?st =>
      apply (wp_frUpdatedWithHWReg_settled _ _ _ _ _ _ HS Hv);
      clear HS; intros ? HS ?
  | HS : AllSynced _ _ ?st |- wp _ _ ?st =>
      eapply wp_settled_same; [solve_bound|solve_keeps|exact HS|];
      clear HS; intros ? ? HS
  end.

Ltac settled_done :=
  lazymatch goal with
  | HS : AllSynced _ _ ?st, HA : AuthAt _ ?st |- Consistent _ [] ?st =>
      apply (settled_finish _ _ _ HS HA)
  | HS : AllSynced _ _ ?st |- Consistent _ [] ?st =>
      apply (settled_finish FRInvalid _ _ HS (AuthAt_invalid _))
  end;
  repeat case_bool_decide; simpl;
  repeat (apply List.Forall_cons; [first [by left|by right]|]);
  apply List.Forall_nil.

Ltac call_start HC co :=
  apply wp_bind;
  eapply wp_mono; [apply (beforeCall_settled co); exact HC|];
  cbn [beforeCall exemptOf]; intros [] ? ?.

Lemma callOut_consistent op st :
  Consistent E [] st →
  match op with
  | OpNewBasicBlock _ | OpMov _ _ _ | OpLoadParam _ _
  | OpLoadConstBits64 _ _ _ | OpToNumber _ _
  | OpArithBinOp _ _ _ _ _ _ _ | OpJmpTrueFalse _ _ _ => True
  | _ => wp (emitOp E op) (λ _ st', Consistent E [] st') st
  end.
Proof.
  intros HC. destruct op; try exact I; cbn [emitOp].
  all: lazymatch goal with
       | |- wp (call _ ?r ?c ?n) _ _ =>
           unfold call; call_start HC (CoCall r c n)
       | |- wp (callN _ ?r ?c ?l) _ _ =>
           unfold callN; call_start HC (CoCallN r c l)
       | |- wp (callBuiltin _ ?r ?b ?n) _ _ =>
           unfold callBuiltin; call_start HC (CoCallBuiltin r b n)
       | |- wp (callWithNewTarget _ ?r ?c ?t ?n) _ _ =>
           unfold callWithNewTarget;
           call_start HC (CoCallWithNewTarget r c t n)
       | |- wp (getBuiltinClosure _ ?r ?b) _ _ =>
           unfold getBuiltinClosure; call_start HC (CoGetBuiltinClosure r b)
       | |- wp (loadConstString _ ?r ?m ?i) _ _ =>
           unfold loadConstString; call_start HC (CoLoadConstString r m i)
       | |- wp (declareGlobalVar _ ?i) _ _ =>
           unfold declareGlobalVar; call_start HC (CoDeclareGlobalVar i)
       | |- wp (createTopLevelEnvironment _ ?r ?n) _ _ =>
           unfold createTopLevelEnvironment;
           call_start HC (CoCreateTopLevelEnvironment r n)
       | |- wp (storeToEnvironment _ ?np ?e ?sl ?v) _ _ =>
           unfold storeToEnvironment;
           call_start HC (CoStoreToEnvironment np e sl v)
       | |- wp (createClosure _ ?r ?e ?m ?f) _ _ =>
           unfold createClosure; call_start HC (CoCreateClosure r e m f)
       | |- wp (putByValImpl _ ?t ?k ?v _ _) _ _ =>
           unfold putByValImpl; call_start HC (CoPutByValImpl t k v)
       | |- wp (getByIdImpl _ ?r ?i ?src ?c _ _) _ _ =>
           unfold getByIdImpl; call_start HC (CoGetByIdImpl r i src c)
       | |- wp (getByVal _ ?r ?src ?k) _ _ =>
           unfold getByVal; call_start HC (CoGetByVal r src k)
       | |- wp (getByIndex _ ?r ?src ?k) _ _ =>
           unfold getByIndex; call_start HC (CoGetByIndex r src k)
       | |- wp (putByIdImpl _ ?t ?i ?v ?c _ _) _ _ =>
           unfold putByIdImpl; call_start HC (CoPutByIdImpl t i v c)
       | |- wp (isIn _ ?r ?l ?rr) _ _ =>
           unfold isIn; call_start HC (CoIsIn r l rr)
       end.
  all: repeat settled_step.
  all: settled_done.
Qed.

(** *** The emitters that do not call out *)

(** Allocating a temporary of class [TAG] for [fr] and binding it. *)
Lemma wp_alloc_assign_tag {B} TAG pr fr X (Q : B → Emitter → Prop) st
    (k : HWReg → M B) :
  Bound E st → AuthExcept X st →
  (∀ hw st', isValid hw → Bound E st' → AuthExcept X st' →
             wp (k hw) Q st') →
  wp (hw ← _allocTemp E TAG pr; assignAllocatedLocalHWReg fr hw ;; k hw)
     Q st.
Proof.
  intros HB HA HQ. apply wp_bind, wp_allocTemp; [done..|].
  intros hw st1 Ht Hc Hav Hfree Heff HB1.
  apply wp_bind. rewrite <- Hc in Hav, Hfree.
  apply wp_assignAllocatedLocalHWReg; [done..|].
  intros st2 i s -> Hl Hfr _ HB2.
  apply HQ; [by apply isTemp_valid|done|].
  eapply AuthExcept_insert; [by eapply allocEffect_AuthExcept|done..|].
  intros _. left. apply isTemp_valid in Ht.
  unfold hasLocal. destruct (classOf hw); simpl; auto.
Qed.

Lemma wp_getOrAllocFRInVecD_J fr load X (Q : HWReg → Emitter → Prop) st :
  Bound E st → AuthExcept X st →
  (∀ hw st', isValid hw → Bound E st' → AuthExcept X st' → Q hw st') →
  wp (getOrAllocFRInVecD E fr load) Q st.
Proof.
  intros HB HA HQ. unfold getOrAllocFRInVecD, allocTempVecD.
  apply wp_bind, wp_frState. intros i s -> Hl.
  destruct (isValid (localVecD s)) eqn:Hv.
  { eapply wp_useReg_J; [done..|]. intros st1 HB1 HA1.
    apply HQ; by try apply Is_true_true. }
  destruct (isValidVecD (globalReg s)) eqn:Hg.
  { assert (isValid (globalReg s)) as Hgv by (by destruct (globalReg s)).
    apply wp_bind. apply wp_when; [intros _|intros _; by apply wp_ret, HQ].
    apply wp_bind, wp_assert. intros _. apply wp_bind.
    eapply wp_sameView_J; [apply sameView_movHWReg|done..|].
    intros [] st1 _ HB1 HA1. eapply wp_updFR_J; [done..| |].
    - intros s1. split_and!; [done..|]. intros [Hloc|Hs]; [by left|right].
      destruct Hs as [[H1 H2]|H]; [by left|by right].
    - intros st2 HB2 HA2. by apply wp_ret, HQ. }
  apply wp_alloc_assign_tag with (X := X); [done..|].
  intros hw st2 Hhw HB2 HA2. apply wp_bind.
  apply wp_when; [intros _|intros _; by apply wp_ret, HQ].
  apply wp_bind, wp_frState. intros ? s2 [= <-] Hl2.
  destruct (isValid (localGpX s2)).
  { eapply wp_sameView_J; [apply sameView_movHWReg|done..|].
    intros [] st3 _ HB3 HA3. by apply wp_ret, HQ. }
  destruct (isValidGpX (globalReg s2)).
  { apply wp_bind, wp_assert. intros _.
    eapply wp_sameView_J; [apply sameView_movHWReg|done..|].
    intros [] st3 _ HB3 HA3. by apply wp_ret, HQ. }
  apply wp_bind.
  eapply wp_sameView_J; [apply sameView_loadFrame|done..|].
  intros [] st3 _ HB3 HA3. eapply wp_updFR_J; [done..| |].
  - intros s3. split_and!; [done..|]. intros _. right. by right.
  - intros st4 HB4 HA4. by apply wp_ret, HQ.
Qed.

Lemma wp_mov_consistent frRes frInput lc X st :
  Consistent E X st →
  wp (mov E frRes frInput lc) (λ _ st', Consistent E X st') st.
Proof.
  intros [HB HA]. unfold mov. case_bool_decide; [by apply wp_ret|].
  apply wp_bind, wp_getOrAllocFRInAnyReg with (X := X); [done..|].
  intros hwIn st1 _ HB1 HA1.
  apply wp_bind, wp_getOrAllocFRInAnyReg with (X := X); [done..|].
  intros hwDest st2 Hv HB2 HA2. apply wp_bind.
  eapply wp_sameView_J; [apply sameView_movHWReg|done..|].
  intros [] st3 _ HB3 HA3. apply wp_bind.
  eapply wp_sameView_J; [apply (Pres_frState sameView)|done..|].
  intros s st4 _ HB4 HA4.
  apply wp_frUpdatedWithHWReg_J with (X := X); [done|done| |done|done].
  eapply AuthExcept_weaken; [done|]. set_solver.
Qed.

Lemma wp_syncAllTempExcept_settled ex (Q : unit → Emitter → Prop) st :
  Consistent E [] st →
  (∀ st', AllSynced E [ex] st' → Q () st') →
  wp (syncAllTempExcept E ex) Q st.
Proof.
  intros [HB HA] HQ.
  apply syncAllTempExcept_synced with (X := []); [done..|].
  intros st' _ HB' HS'. by apply HQ.
Qed.

Lemma wp_newBasicBlock_consistent label st :
  Consistent E [] st →
  wp (newBasicBlock E label) (λ _ st', Consistent E [] st') st.
Proof.
  intros HC. unfold newBasicBlock. apply wp_bind.
  apply wp_syncAllTempExcept_settled; [done|]. intros st1 HS.
  repeat settled_step. settled_done.
Qed.

Lemma wp_jmpTrueFalse_consistent onTrue target frInput st :
  Consistent E [] st →
  wp (jmpTrueFalse E onTrue target frInput) (λ _ st', Consistent E [] st') st.
Proof.
  intros HC. unfold jmpTrueFalse, jmpTrueFalse_before_bl. apply wp_bind.
  apply wp_syncAllTempExcept_settled; [done|]. intros st1 HS.
  repeat settled_step; settled_done.
Qed.

Lemma wp_view_consistent {A} (m : M A) X (Q : A → Emitter → Prop) st :
  Pres sameView m → Consistent E X st →
  (∀ x st', Consistent E X st' → Q x st') →
  wp m Q st.
Proof.
  intros Hm [HB HA] HQ. eapply wp_sameView_J; [done..|].
  intros x st' _ HB' HA'. by apply HQ.
Qed.

Lemma wp_getOrAllocFRInVecD_consistent fr load X
    (Q : HWReg → Emitter → Prop) st :
  Consistent E X st →
  (∀ hw st', isValid hw → Consistent E X st' → Q hw st') →
  wp (getOrAllocFRInVecD E fr load) Q st.
Proof.
  intros [HB HA] HQ. apply wp_getOrAllocFRInVecD_J with (X := X); [done..|].
  intros hw st' Hv HB' HA'. by apply HQ.
Qed.

Lemma wp_getOrAllocFRInGpX_consistent fr load X
    (Q : HWReg → Emitter → Prop) st :
  Consistent E X st →
  (∀ hw st', isValid hw → Consistent E X st' → Q hw st') →
  wp (getOrAllocFRInGpX E fr load) Q st.
Proof.
  intros [HB HA] HQ. apply wp_getOrAllocFRInGpX with (X := X); [done..|].
  intros hw st' Hv HB' HA'. by apply HQ.
Qed.

Lemma wp_frUpdatedWithHWReg_consistent fr hw ty X
    (Q : unit → Emitter → Prop) st :
  Consistent E X st → isValid hw →
  (∀ st', Consistent E X st' → Q () st') →
  wp (frUpdatedWithHWReg E fr hw ty) Q st.
Proof.
  intros [HB HA] Hv HQ.
  apply wp_frUpdatedWithHWReg_J with (X := X); [done|done| |done|].
  - eapply AuthExcept_weaken; [done|]. set_solver.
  - intros st' HB' HA'. by apply HQ.
Qed.

Lemma wp_set_localType_consistent fr ty X (Q : unit → Emitter → Prop) st :
  Consistent E X st →
  (∀ st', Consistent E X st' → Q () st') →
  wp (updFR fr (set_localType ty)) Q st.
Proof.
  intros [HB HA] HQ. eapply wp_updFR_J; [done..| |].
  - intros s. by split_and!.
  - intros st' HB' HA'. by apply HQ.
Qed.

Ltac consistent_step :=
  lazymatch goal with
  | HC : Consistent _ _ ?st |- wp (_ ≫= _) _ ?st => apply wp_bind
  | HC : Consistent _ _ ?st |- wp (mret _) _ ?st => apply wp_ret
  | |- wp (if negb true then _ else _) _ _ => cbn [negb]
  | |- wp (if negb false then _ else _) _ _ => cbn [negb]
  | HC : Consistent _ _ ?st |- wp (if ?b then _ else _) _ ?st => destruct b
  | HC : Consistent _ _ ?st |- wp (getOrAllocFRInGpX _ _ _) _ ?st =>
      apply (wp_getOrAllocFRInGpX_consistent _ _ _ _ _ HC);
      clear HC; intros ? ? ? HC
  | HC : Consistent _ _ ?st |- wp (getOrAllocFRInVecD _ _ _) _ ?st =>
      apply (wp_getOrAllocFRInVecD_consistent _ _ _ _ _ HC);
      clear HC; intros ? ? ? HC
  | HC : Consistent _ _ ?st, Hv : Is_true (isValid ?hw)
    |- wp (frUpdatedWithHWReg _ _ ?hw _) _ ?st =>
      apply (wp_frUpdatedWithHWReg_consistent _ _ _ _ _ _ HC Hv);
      clear HC; intros ? HC
  | HC : Consistent _ _ ?st |- wp (updFR _ (set_localType _)) _ ?st =>
      apply (wp_set_localType_consistent _ _ _ _ _ HC);
      clear HC; intros ? HC
  | HC : Consistent _ _ ?st |- wp _ _ ?st =>
      eapply wp_view_consistent; [solve [solve_pres]|exact HC|];
      clear HC; intros ? ? HC
  end.

Lemma wp_toNumber_consistent frRes frInput st :
  Consistent E [] st →
  wp (toNumber E frRes frInput) (λ _ st', Consistent E [] st') st.
Proof.
  intros HC. unfold toNumber, isFRKnownNumber, newSlowPathLabel, newContLabel.
  apply wp_bind. consistent_step. destruct x; [by apply wp_mov_consistent|].
  do 2 (apply wp_bind; consistent_step). apply wp_bind.
  apply wp_syncAllTempExcept_settled; [done|]. intros st1 HS.
  repeat settled_step; settled_done.
Qed.

Lemma wp_arithBinOp_consistent force frRes frLeft frRight name slowCall
    slowCallName st :
  Consistent E [] st →
  wp (arithBinOp E force frRes frLeft frRight name slowCall slowCallName)
     (λ _ st', Consistent E [] st') st.
Proof.
  intros HC. unfold arithBinOp, isFRKnownNumber, newSlowPathLabel,
    newContLabel, guardNumber.
  apply wp_bind.
  apply wp_mono with (Q := λ _ st1, Consistent E [] st1).
  { repeat consistent_step; done. }
  intros [[l r] slow] st1 HC1. apply wp_bind. destruct slow.
  - do 2 (apply wp_bind; consistent_step). apply wp_bind.
    apply wp_syncAllTempExcept_settled; [done|]. intros st2 HS.
    repeat settled_step; settled_done.
  - apply wp_ret. repeat consistent_step; done.
Qed.

(** *** Scratch registers *)

Lemma unowned_frameRegs r st st' :
  frameRegs_ st' = frameRegs_ st → unowned r st → unowned r st'.
Proof. intros H Hu j sj Hl. rewrite H in Hl. by eapply Hu. Qed.

Lemma allocEffect_unowned TAG r st st' :
  isValid r → allocEffect E TAG st st' → unowned r st → unowned r st'.
Proof.
  intros Hv [[Hfr _]|(v & i & s & _ & _ & _ & Hl & _ & Hfr & _)] Hu.
  - by eapply unowned_frameRegs.
  - intros j sj Hlj. rewrite Hfr in Hlj.
    destruct (decide (i = j)) as [<-|Hne].
    + rewrite list_lookup_insert_eq in Hlj by (by eapply lookup_lt_Some).
      injection Hlj as <-. pose proof (Hu i s Hl) as Hs.
      unfold spillFlags.
      destruct (isValid (globalReg s)), TAG, (classOf r); simpl in *;
        try done; intros <-; done.
    + rewrite list_lookup_insert_ne in Hlj by done. by eapply Hu.
Qed.

Lemma wp_allocTemp_scratch TAG pr X (Q : HWReg → Emitter → Prop) st :
  Consistent E X st →
  (∀ hw st', isValid hw → Consistent E X st' → unowned hw st' →
     (∀ r, isValid r → unowned r st → unowned r st') → Q hw st') →
  wp (_allocTemp E TAG pr) Q st.
Proof.
  intros [HB HA] HQ. apply wp_allocTemp; [done..|].
  intros hw st' Ht Hc _ Hfree Heff HB'. apply HQ.
  - by apply isTemp_valid.
  - split; [done|]. by eapply allocEffect_AuthExcept.
  - intros j sj Hl. rewrite Hc. by eapply Hfree.
  - intros r Hr. by eapply allocEffect_unowned.
Qed.

Lemma wp_freeReg_scratch r X (Q : unit → Emitter → Prop) st :
  Consistent E X st → unowned r st →
  (∀ st', Consistent E X st' → frameRegs_ st' = frameRegs_ st → Q () st') →
  wp (freeReg E r) Q st.
Proof.
  intros [HB HA] Hu HQ. apply wp_freeReg; [done..| | |].
  - intros _. by apply HQ.
  - intros st' _ _ Hfr _ HB'. apply HQ; [|done].
    split; [done|]. by eapply AuthExcept_frameRegs.
  - intros st' i s _ _ Hl Hloc. by destruct (Hu i s Hl).
Qed.

Lemma wp_view_scratch {A} (m : M A) X (Q : A → Emitter → Prop) st :
  Pres sameView m → Consistent E X st →
  (∀ x st', Consistent E X st' → frameRegs_ st' = frameRegs_ st → Q x st') →
  wp m Q st.
Proof.
  intros Hm [HB HA] HQ. eapply wp_sameView_J; [done..|].
  intros x st' Hv HB' HA'. apply HQ; [done|]. by apply sameView_frameRegs.
Qed.

Lemma sameView_tryEmit_scope err i expected :
  Pres sameView (SaveAndRestore expected (tryEmit err i)).
Proof. unfold SaveAndRestore, tryEmit, handleError. solve_pres. Qed.

Lemma sameView_loadParam_ldur hwRes ofs :
  Pres sameView (loadParam_ldur E hwRes ofs).
Proof.
  unfold loadParam_ldur.
  pose proof sameView_tryEmit_scope as Hscope. solve_pres.
Qed.

Lemma wp_loadParam_cmp_scratch wTmp idx X r (Q : unit → Emitter → Prop) st :
  Consistent E X st → isValid r → unowned r st →
  (∀ st', Consistent E X st' → unowned r st' → Q () st') →
  wp (loadParam_cmp E wTmp idx) Q st.
Proof.
  intros HC Hv Hu HQ. unfold loadParam_cmp, allocAndLogTempGpX, allocTempGpX.
  apply wp_bind.
  eapply wp_view_scratch; [apply sameView_tryEmit_scope|done|].
  intros err st1 HC1 Hfr1.
  assert (unowned r st1) as Hu1 by (by eapply unowned_frameRegs).
  apply wp_when; [intros _|intros _; by apply HQ].
  apply wp_bind, wp_allocTemp_scratch with (X := X); [done|].
  intros hw2 st2 Hv2 HC2 Hu2 Hkeep. apply wp_bind.
  eapply wp_view_scratch; [solve_pres|done|]. intros [] st3 HC3 Hfr3.
  apply wp_bind.
  eapply wp_view_scratch; [solve_pres|done|]. intros [] st4 HC4 Hfr4.
  apply wp_freeReg_scratch with (X := X); [done| |].
  - by do 2 (eapply unowned_frameRegs; [done|]).
  - intros st5 HC5 Hfr5. apply HQ; [done|].
    do 3 (eapply unowned_frameRegs; [done|]). by apply Hkeep.
Qed.

Lemma wp_loadParam_consistent frRes paramIndex st :
  Consistent E [] st →
  wp (loadParam E frRes paramIndex) (λ _ st', Consistent E [] st') st.
Proof.
  intros HC. unfold loadParam, allocAndLogTempGpX, allocTempGpX,
    newSlowPathLabel, newContLabel.
  do 2 (apply wp_bind; consistent_step).
  apply wp_bind, wp_allocTemp_scratch with (X := []); [done|].
  intros hwTmp st1 Hv1 HC1 Hu1 _. apply wp_bind.
  eapply wp_view_scratch; [solve_pres|done|]. intros [] st2 HC2 Hfr2.
  apply wp_bind.
  apply wp_loadParam_cmp_scratch with (X := []) (r := hwTmp);
    [done|done|by eapply unowned_frameRegs|].
  intros st3 HC3 Hu3. apply wp_bind.
  eapply wp_view_scratch; [solve_pres|done|]. intros [] st4 HC4 Hfr4.
  apply wp_bind.
  apply wp_freeReg_scratch with (X := []);
    [done|by eapply unowned_frameRegs|].
  intros st5 HC5 _. clear HC HC1 HC2 HC3 HC4.
  pose proof sameView_loadParam_ldur as Hldur.
  repeat consistent_step; done.
Qed.

(** X18: every operation emitter keeps the binding state consistent.  From
    a state in which every local binding is a temporary register owned by its
    frame register ([Bound]) and every frame register has an authoritative
    location (a local register, or the pinned register or the frame slot
    marked up to date), each member function that emits the code of one
    operation, when it returns, leaves a state with the same two properties:
    no operation leaves a frame register without a location that holds its
    latest value, although many of them drop temporary registers without
    writing them back. *)
Theorem emitters_keep_bindings_consistent (op : EmitOp) (st st' : Emitter) :
  Bound E st → AuthExcept [] st →
  emitOp E op st = Ok ((), st') →
  Bound E st' ∧ AuthExcept [] st'.
Proof.
  intros HB HA.
  assert (Consistent E [] st) as HC by done.
  revert st'. apply (wp_unit _ (Consistent E [])).
  pose proof (callOut_consistent op st HC) as Hcall.
  destruct op; try exact Hcall; cbn [emitOp].
  - by apply wp_newBasicBlock_consistent.
  - by apply wp_mov_consistent.
  - by apply wp_loadParam_consistent.
  - destruct HC as [HB' HA'].
    by apply wp_loadConstBits64_J with (X := []).
  - by apply wp_toNumber_consistent.
  - by apply wp_arithBinOp_consistent.
  - by apply wp_jmpTrueFalse_consistent.
Qed.

End Consistency.

(** ** The register that holds a new value is the only location *)

(** X19: after [frUpdatedWithHWReg(fr, hwReg)] the register [hwReg] is the
    only location that the binding record of [fr] vouches for.  In a state
    with consistent bindings, whenever it returns for a valid register, the
    register is the global register of [fr], marked up to date, or one of
    its local registers; the frame slot is marked stale, the global register
    is marked up to date only if it is [hwReg], and a local register other
    than [hwReg] has been released.  The global register and the global type
    of [fr] stay, its local type becomes the given one (if any), no other
    frame register changes, no code is emitted, and the bindings are
    consistent again. *)
Theorem frUpdatedWithHWReg_single_location (fr : FR) (hwReg : HWReg)
    (ty : option FRType.t) (st st' : Emitter) :
  EnvOK E → Bound E st → isValid hwReg →
  frUpdatedWithHWReg E fr hwReg ty st = Ok ((), st') →
  ∃ i s s',
    fr = FRIdx i ∧ frameRegs_ st !! i = Some s ∧
    frameRegs_ st' !! i = Some s' ∧
    ((globalReg s' = hwReg ∧ globalRegUpToDate s') ∨
     localGpX s' = hwReg ∨ localVecD s' = hwReg) ∧
    frameUpToDate s' = false ∧
    (globalRegUpToDate s' → globalReg s' = hwReg) ∧
    (isValid (localGpX s') → localGpX s' = hwReg) ∧
    (isValid (localVecD s') → localVecD s' = hwReg) ∧
    globalReg s' = globalReg s ∧ globalType s' = globalType s ∧
    localType s' = default (localType s) ty ∧
    (∀ j, j ≠ i → frameRegs_ st' !! j = frameRegs_ st !! j) ∧
    a st' = a st ∧ Bound E st'.
Proof.
  intros HE HB Hv. revert st'.
  apply (wp_unit _ (λ st', ∃ i s s', _)).
  apply wp_frUpdatedWithHWReg; [done..|].
  intros st' i s -> Hl Hreg Hfr Ha HB'.
  exists i, s, (updatedWith hwReg ty s).
  assert (frameRegs_ st' !! i = Some (updatedWith hwReg ty s)) as Hl'.
  { rewrite Hfr. apply list_lookup_insert_eq. by eapply lookup_lt_Some. }
  assert (∀ j, j ≠ i → frameRegs_ st' !! j = frameRegs_ st !! j) as Hothers.
  { intros j Hj. rewrite Hfr. by apply list_lookup_insert_ne. }
  split_and!; try done.
  all: unfold updatedWith; destruct ty; repeat case_bool_decide; simpl;
    try done; try (by intros []); try (by left); try (by right; left);
    try (by right; right).
  all: destruct Hreg as [?|[?|?]]; try done; try (by right; right).
Qed.

(** ** Reading a frame register *)

Lemma movHWReg_code u dst src st st' :
  movHWReg E u dst src st = Ok ((), st') →
  instrs (a st') = instrs (a st) ++ movInstr dst src.
Proof.
  destruct (movHWReg_false dst src st) as (st0 & Hrun0 & _ & _ & _ & _ & Hc).
  destruct u; [|by intros [= <-]%(eq_trans (eq_sym Hrun0))].
  unfold movHWReg in *.
  apply bind_Ok in Hrun0 as ([] & st1 & H1 & H0).
  apply ret_Ok in H0 as [_ <-].
  intros ([] & st2 & H2 & Huse)%bind_Ok.
  rewrite H1 in H2. injection H2 as <-. simpl in Huse.
  apply bind_Ok in Huse as (r1 & st3 & Hu1 & Huse).
  apply bind_Ok in Huse as (r2 & st4 & Hu2 & Huse).
  apply ret_Ok in Huse as [_ <-].
  destruct (useReg_fields src st1) as (st3' & Hr3 & _ & _ & Ha3).
  destruct (useReg_fields dst st3) as (st4' & Hr4 & _ & _ & Ha4).
  rewrite Hr3 in Hu1. injection Hu1 as <- <-.
  rewrite Hr4 in Hu2. injection Hu2 as <- <-.
  by rewrite Ha4, Ha3.
Qed.

(** X20: [movHWFromFR] reads the latest value.  For a frame register that
    has an authoritative location, the one instruction it emits (none when
    the value is already in the destination) takes the value from a location
    that holds it: a local register, or the global register when that one is
    marked up to date, or else the frame slot, which is then marked up to
    date.  The bindings are not changed. *)
Theorem movHWFromFR_reads_latest (hwRes : HWReg) (i : nat) (s : FRState)
    (st st' : Emitter) :
  frameRegs_ st !! i = Some s → authoritative s →
  movHWFromFR E hwRes (FRIdx i) st = Ok ((), st') →
  bindingView st' = bindingView st ∧
  ((∃ r, isValid r ∧
         (r = localGpX s ∨ r = localVecD s ∨
          (r = globalReg s ∧ globalRegUpToDate s)) ∧
         instrs (a st') = instrs (a st) ++ movInstr hwRes r) ∨
   (frameUpToDate s ∧
    instrs (a st') = instrs (a st) ++ [ILoadFrame hwRes (FRIdx i)])).
Proof.
  intros Hl Hauth Hrun. split.
  { by apply (sameView_movHWFromFR hwRes (FRIdx i) st () st'). }
  unfold movHWFromFR in Hrun.
  apply bind_Ok in Hrun as (s0 & st0 & Hs & Hrun).
  unfold frState in Hs. rewrite Hl in Hs. injection Hs as <- <-.
  destruct (isValid (localGpX s)) eqn:HG.
  { left. exists (localGpX s). split_and!; [by rewrite HG|by left|].
    by eapply movHWReg_code. }
  destruct (isValid (localVecD s)) eqn:HV.
  { left. exists (localVecD s).
    split_and!; [by rewrite HV|by right; left|]. by eapply movHWReg_code. }
  destruct (isValid (globalReg s) && globalRegUpToDate s) eqn:Hglob.
  { apply andb_true_iff in Hglob as [Hg Hu]. left. exists (globalReg s).
    split_and!; [by rewrite Hg|right; right; split; [done|by rewrite Hu]|].
    by eapply movHWReg_code. }
  right.
  assert (frameUpToDate s) as Hframe.
  { destruct Hauth as [[H|H]|[[Hg Hu]|H]]; [| | |done].
    - by rewrite HG in H.
    - by rewrite HV in H.
    - apply Is_true_true in Hg, Hu. by rewrite Hg, Hu in Hglob. }
  split; [done|].
  apply bind_Ok in Hrun as (r & st1 & Huse & Hload).
  destruct (useReg_fields hwRes st) as (st1' & Hr1 & _ & _ & Ha1).
  rewrite Hr1 in Huse. injection Huse as <- <-.
  unfold _loadFrame, emit in Hload. apply modify_Ok in Hload as ->.
  simpl. by rewrite Ha1.
Qed.

(** ** A load brings the latest value *)

Lemma allocEffect_other TAG i s st st' :
  allocEffect E TAG st st' → frameRegs_ st !! i = Some s →
  isValid (localOf TAG s) = false →
  frameRegs_ st' !! i = Some s ∧
  ∃ spill, instrs (a st') = instrs (a st) ++ spill ∧ spillOf E TAG i st spill.
Proof.
  intros [[Hfr Hin]|(v & j & sj & Hcv & Htv & Hhw & Hlj & Hloc & Hfr & Hin)]
    Hl Hv.
  - split; [by rewrite Hfr|]. exists []. rewrite app_nil_r.
    split; [done|by left].
  - assert (j ≠ i) as Hne.
    { intros ->. rewrite Hl in Hlj. injection Hlj as <-.
      apply isTemp_valid in Htv. rewrite <- Hloc in Htv.
      by rewrite Hv in Htv. }
    split; [rewrite Hfr; by rewrite list_lookup_insert_ne|].
    exists (spillInstrs v j sj). split; [done|right].
    by exists v, j, sj.
Qed.

Lemma wp_getOrAllocFRInGpX_latest i s st :
  EnvOK E → Bound E st → frameRegs_ st !! i = Some s → authoritative s →
  wp (getOrAllocFRInGpX E (FRIdx i) true)
     (λ hw st', ∃ spill load,
        instrs (a st') = instrs (a st) ++ spill ++ load ∧
        spillOf E GpX i st spill ∧ latestIn GpX hw i s load) st.
Proof.
  intros HE HB Hl Hauth. unfold getOrAllocFRInGpX, allocTempGpX.
  apply wp_bind, wp_frState. intros ? s0 [= <-] Hl0.
  rewrite Hl in Hl0. injection Hl0 as <-.
  destruct (isValid (localGpX s)) eqn:Hv.
  { intros hw st' Hrun.
    destruct (useReg_fields (localGpX s) st) as (st2 & Hrun2 & _ & _ & Ha).
    rewrite Hrun2 in Hrun. injection Hrun as <- <-.
    exists [], []. rewrite Ha, !app_nil_r.
    split_and!; [done|by left|]. left. split; [done|by left]. }
  destruct (isValidGpX (globalReg s)) eqn:Hg.
  { apply wp_bind. apply wp_when.
    - intros Hstale%andb_true_iff. destruct Hstale as [_ Hu].
      apply wp_bind, wp_assert. intros Hlv. apply wp_bind.
      intros [] st1 Hmov. pose proof (movHWReg_code _ _ _ _ _ Hmov) as Hc1.
      apply wp_updFR. intros ? s1 _ _. apply wp_ret.
      exists [], (movInstr (globalReg s) (localVecD s)).
      split_and!; [done|by left|]. right. left.
      exists (localVecD s). split_and!; [by rewrite Hlv|by left|done].
    - intros Hu%andb_false_iff. destruct Hu as [[=]|Hu].
      apply negb_false_iff in Hu. apply wp_ret.
      exists [], []. rewrite !app_nil_r.
      split_and!; [done|by left|]. left. split; [done|right].
      split; [done|by rewrite Hu]. }
  apply wp_bind, wp_allocTemp; [done..|].
  intros hw st1 Ht Hc Hav Hfree Heff HB1.
  destruct (allocEffect_other GpX i s st st1 Heff Hl Hv)
    as (Hl1 & spill & Hc1 & Hspill).
  apply wp_bind. rewrite <- Hc in Hav, Hfree.
  apply wp_assignAllocatedLocalHWReg; [done..|].
  intros st2 ? s1 [= <-] Hl1' Hfr2 Ha2 HB2.
  rewrite Hl1 in Hl1'. injection Hl1' as <-.
  assert (frameRegs_ st2 !! i = Some (set_localGpX hw s)) as Hl2.
  { rewrite Hfr2, Hc. apply list_lookup_insert_eq. by eapply lookup_lt_Some. }
  apply wp_bind. apply wp_when; [intros _|intros [=]].
  apply wp_bind, wp_frState. intros ? s2 [= <-] Hl2'.
  rewrite Hl2 in Hl2'. injection Hl2' as <-. simpl.
  destruct (isValid (localVecD s)) eqn:HV.
  { apply wp_movHWReg_false. apply wp_ret.
    exists spill, (movInstr hw (localVecD s)). simpl.
    rewrite Ha2, Hc1, <- app_assoc. split_and!; [done..|]. right. left.
    exists (localVecD s). split_and!; [by rewrite HV|by left|done]. }
  destruct (isValidVecD (globalReg s)) eqn:HgV.
  { apply wp_bind, wp_assert. intros Hu.
    apply wp_movHWReg_false. apply wp_ret.
    exists spill, (movInstr hw (globalReg s)). simpl.
    rewrite Ha2, Hc1, <- app_assoc. split_and!; [done..|]. right. left.
    exists (globalReg s).
    split_and!; [by destruct (globalReg s)|right|done].
    split; [done|by rewrite Hu]. }
  apply wp_bind. unfold _loadFrame. apply wp_emit.
  apply wp_updFR. intros ? s3 _ _. apply wp_ret.
  exists spill, [ILoadFrame hw (FRIdx i)]. simpl.
  rewrite Ha2, Hc1, <- app_assoc. split_and!; [done..|]. right. right.
  split; [|done].
  destruct Hauth as [[H|H]|[[H1 H2]|H]]; [| | |done].
  - first [by rewrite Hv in H|by rewrite HV in H].
  - first [by rewrite Hv in H|by rewrite HV in H].
  - unfold isValidGpX in Hg. unfold isValidVecD in HgV.
    by destruct (globalReg s).
Qed.

Lemma wp_getOrAllocFRInVecD_latest i s st :
  EnvOK E → Bound E st → frameRegs_ st !! i = Some s → authoritative s →
  wp (getOrAllocFRInVecD E (FRIdx i) true)
     (λ hw st', ∃ spill load,
        instrs (a st') = instrs (a st) ++ spill ++ load ∧
        spillOf E VecD i st spill ∧ latestIn VecD hw i s load) st.
Proof.
  intros HE HB Hl Hauth. unfold getOrAllocFRInVecD, allocTempVecD.
  apply wp_bind, wp_frState. intros ? s0 [= <-] Hl0.
  rewrite Hl in Hl0. injection Hl0 as <-.
  destruct (isValid (localVecD s)) eqn:Hv.
  { intros hw st' Hrun.
    destruct (useReg_fields (localVecD s) st) as (st2 & Hrun2 & _ & _ & Ha).
    rewrite Hrun2 in Hrun. injection Hrun as <- <-.
    exists [], []. rewrite Ha, !app_nil_r.
    split_and!; [done|by left|]. left. split; [done|by left]. }
  destruct (isValidVecD (globalReg s)) eqn:Hg.
  { apply wp_bind. apply wp_when.
    - intros Hstale%andb_true_iff. destruct Hstale as [_ Hu].
      apply wp_bind, wp_assert. intros Hlv. apply wp_bind.
      intros [] st1 Hmov. pose proof (movHWReg_code _ _ _ _ _ Hmov) as Hc1.
      apply wp_updFR. intros ? s1 _ _. apply wp_ret.
      exists [], (movInstr (globalReg s) (localGpX s)).
      split_and!; [done|by left|]. right. left.
      exists (localGpX s). split_and!; [by rewrite Hlv|by left|done].
    - intros Hu%andb_false_iff. destruct Hu as [[=]|Hu].
      apply negb_false_iff in Hu. apply wp_ret.
      exists [], []. rewrite !app_nil_r.
      split_and!; [done|by left|]. left. split; [done|right].
      split; [done|by rewrite Hu]. }
  apply wp_bind, wp_allocTemp; [done..|].
  intros hw st1 Ht Hc Hav Hfree Heff HB1.
  destruct (allocEffect_other VecD i s st st1 Heff Hl Hv)
    as (Hl1 & spill & Hc1 & Hspill).
  apply wp_bind. rewrite <- Hc in Hav, Hfree.
  apply wp_assignAllocatedLocalHWReg; [done..|].
  intros st2 ? s1 [= <-] Hl1' Hfr2 Ha2 HB2.
  rewrite Hl1 in Hl1'. injection Hl1' as <-.
  assert (frameRegs_ st2 !! i = Some (set_localVecD hw s)) as Hl2.
  { rewrite Hfr2, Hc. apply list_lookup_insert_eq. by eapply lookup_lt_Some. }
  apply wp_bind. apply wp_when; [intros _|intros [=]].
  apply wp_bind, wp_frState. intros ? s2 [= <-] Hl2'.
  rewrite Hl2 in Hl2'. injection Hl2' as <-. simpl.
  destruct (isValid (localGpX s)) eqn:HV.
  { apply wp_movHWReg_false. apply wp_ret.
    exists spill, (movInstr hw (localGpX s)). simpl.
    rewrite Ha2, Hc1, <- app_assoc. split_and!; [done..|]. right. left.
    exists (localGpX s). split_and!; [by rewrite HV|by left|done]. }
  destruct (isValidGpX (globalReg s)) eqn:HgV.
  { apply wp_bind, wp_assert. intros Hu.
    apply wp_movHWReg_false. apply wp_ret.
    exists spill, (movInstr hw (globalReg s)). simpl.
    rewrite Ha2, Hc1, <- app_assoc. split_and!; [done..|]. right. left.
    exists (globalReg s).
    split_and!; [by destruct (globalReg s)|right|done].
    split; [done|by rewrite Hu]. }
  apply wp_bind. unfold _loadFrame. apply wp_emit.
  apply wp_updFR. intros ? s3 _ _. apply wp_ret.
  exists spill, [ILoadFrame hw (FRIdx i)]. simpl.
  rewrite Ha2, Hc1, <- app_assoc. split_and!; [done..|]. right. right.
  split; [|done].
  destruct Hauth as [[H|H]|[[H1 H2]|H]]; [| | |done].
  - first [by rewrite Hv in H|by rewrite HV in H].
  - first [by rewrite Hv in H|by rewrite HV in H].
  - unfold isValidVecD in Hg. unfold isValidGpX in HgV.
    by destruct (globalReg s).
Qed.

(** X21: a load brings the latest value.  In a state with consistent
    bindings, when [getOrAllocFRInVecD] (or [getOrAllocFRInGpX]) is asked to
    load a frame register that has an authoritative location, the code it
    emits is at most the write-back of one temporary register of another
    frame register, followed by at most one instruction that brings the value
    into the register it returns: a copy from the local register of the
    other class or from the global register marked up to date, or a load
    from the frame slot, which is then marked up to date; it emits no such
    instruction only if the register already held the value. *)
Theorem getOrAlloc_loads_latest (TAG : RegClass) (i : nat) (s : FRState)
    (st st' : Emitter) (hw : HWReg) :
  EnvOK E → Bound E st → frameRegs_ st !! i = Some s → authoritative s →
  (match TAG with
   | VecD => getOrAllocFRInVecD E (FRIdx i) true
   | GpX => getOrAllocFRInGpX E (FRIdx i) true
   end) st = Ok (hw, st') →
  ∃ spill load,
    instrs (a st') = instrs (a st) ++ spill ++ load ∧
    spillOf E TAG i st spill ∧ latestIn TAG hw i s load.
Proof.
  intros HE HB Hl Hauth Hrun. destruct TAG.
  - exact (wp_getOrAllocFRInGpX_latest i s st HE HB Hl Hauth hw st' Hrun).
  - exact (wp_getOrAllocFRInVecD_latest i s st HE HB Hl Hauth hw st' Hrun).
Qed.

(** ** Loading a constant *)

#[local] Instance dataKept_preorder : PreOrder dataKept.
Proof. split; [done|]. unfold dataKept. intros ???. congruence. Qed.

Lemma dataKept_DataOK st st' : dataKept st st' → DataOK st → DataOK st'.
Proof.
  unfold dataKept, dataView. intros [= Hro Hmap Htm Hth] [HC HT]. split.
  - intros bits ofs Hb. rewrite Hmap in Hb. unfold slotHolds.
    rewrite Hro. by apply HC.
  - intros fn idx Hfn. rewrite Htm in Hfn.
    destruct (HT fn idx Hfn) as (l & o & Hl & Hs). exists l, o.
    rewrite Hth. split; [done|]. unfold slotHolds. by rewrite Hro.
Qed.

Lemma dataKept_slotHolds st st' ofs v :
  dataKept st st' → slotHolds st ofs v → slotHolds st' ofs v.
Proof.
  unfold dataKept, dataView, slotHolds. intros [= Hro _ _ _]. by rewrite Hro.
Qed.

Lemma dataKept_ra_alloc TAG pr : Pres dataKept (ra_alloc TAG pr).
Proof.
  intros st x st'. unfold ra_alloc.
  destruct (TempRegAlloc.alloc pr (pool TAG st)) as [[r ra']|];
    intros [= <- <-]; [|reflexivity].
  by destruct TAG.
Qed.

Ltac solve_data :=
  repeat first
    [ pres_step
    | apply dataKept_ra_alloc
    | apply Pres_modify; intros ?; by destruct_all RegClass
    | apply Pres_updFR; intros; reflexivity ].

Lemma dataKept_getOrAllocFRInGpX fr load :
  Pres dataKept (getOrAllocFRInGpX E fr load).
Proof.
  unfold getOrAllocFRInGpX, allocTempGpX, _allocTemp, spillTempReg,
    _storeHWRegToFrame, _storeFrame, freeReg, movHWReg, _loadFrame,
    assignAllocatedLocalHWReg, setContains, emit, useReg.
  solve_data.
Qed.

Lemma dataKept_frUpdatedWithHWReg fr hw ty :
  Pres dataKept (frUpdatedWithHWReg E fr hw ty).
Proof.
  unfold frUpdatedWithHWReg, frUpdateType, freeReg, setContains.
  solve_data.
Qed.

(** X22: [loadConstBits64] brings the constant into the register of the
    result.  In a state with consistent bindings and interned data in place,
    whenever it returns, the result register is bound to an integer register
    (its local register, or its global register marked up to date), its frame
    slot is marked stale and its local type is the given one.  The code
    emitted is data movement followed by one instruction that loads the
    register: an immediate move of the constant when it is cheap, else a
    load from a slot of the read-only data that holds the constant.  The
    bindings stay consistent and the interned data in place. *)
Theorem loadConstBits64_loads_constant (frRes : FR) (bits : Z)
    (ty : FRType.t) (st st' : Emitter) :
  EnvOK E → Bound E st → DataOK st →
  loadConstBits64 E frRes bits ty st = Ok ((), st') →
  Bound E st' ∧ DataOK st' ∧
  ∃ i s' hw pre load,
    frRes = FRIdx i ∧ frameRegs_ st' !! i = Some s' ∧ isGpX hw ∧
    (localGpX s' = hw ∨ (globalReg s' = hw ∧ globalRegUpToDate s')) ∧
    frameUpToDate s' = false ∧ localType s' = ty ∧
    instrs (a st') = instrs (a st) ++ pre ++ [load] ∧
    forallb isMove pre = true ∧
    if isCheapConst bits then load = IMovImm (a64GpX hw) bits
    else ∃ ofs, load = ILdrRoData (a64GpX hw) ofs ∧ slotHolds st' ofs bits.
Proof.
  intros HE HB HD Hrun. unfold loadConstBits64 in Hrun.
  apply bind_Ok in Hrun as (hw & st1 & Halloc & Hrun).
  apply bind_Ok in Hrun as ([] & st2 & Hload & Hupd).
  (* the register *)
  assert (∃ i s1, frRes = FRIdx i ∧ frameRegs_ st1 !! i = Some s1 ∧
                  holdsIn GpX hw s1 ∧ Bound E st1)
    as (i & s1 & -> & Hl1 & (Hv & Hc & Hh) & HB1).
  { refine (wp_getOrAllocFRInGpX_holds frRes false
              (λ hw st1, ∃ i s1, frRes = FRIdx i ∧
                 frameRegs_ st1 !! i = Some s1 ∧ holdsIn GpX hw s1 ∧
                 Bound E st1) st HE HB _ hw st1 Halloc).
    intros hw0 st0 i s1 -> Hl Hh HB1. by exists i, s1. }
  destruct (emitsOnly_getOrAllocFRInGpX isMove (λ _ H, H) (FRIdx i) false
              st hw st1 Halloc) as (_ & _ & _ & pre & Hpre & Hmv).
  pose proof (dataKept_DataOK _ _
                (dataKept_getOrAllocFRInGpX _ _ st hw st1 Halloc) HD) as HD1.
  (* the load *)
  assert (∃ load, Bound E st2 ∧ DataOK st2 ∧
            frameRegs_ st2 = frameRegs_ st1 ∧
            instrs (a st2) = instrs (a st1) ++ [load] ∧
            if isCheapConst bits then load = IMovImm (a64GpX hw) bits
            else ∃ ofs, load = ILdrRoData (a64GpX hw) ofs ∧
                        slotHolds st2 ofs bits)
    as (load & HB2 & HD2 & Hfr2 & Hc2 & Hld).
  { unfold loadBits64InGp in Hload.
    destruct (isCheapConst bits) eqn:Hcheap.
    - unfold emit in Hload. apply modify_Ok in Hload as ->.
      exists (IMovImm (a64GpX hw) bits).
      split_and!; [by eapply Bound_view|by eapply dataKept_DataOK|done..].
    - apply bind_Ok in Hload as (ofs & st1' & Hconst & Hemit).
      destruct (uint64Const_slot bits st1 ofs st1' HD1 Hconst)
        as (HD1' & Hs & Ha & Hview).
      unfold emit in Hemit. apply modify_Ok in Hemit as ->.
      exists (ILdrRoData (a64GpX hw) ofs). split_and!.
      + eapply Bound_view; [|exact HB1]. exact Hview.
      + by eapply dataKept_DataOK.
      + simpl. by injection Hview.
      + simpl. by rewrite Ha.
      + exists ofs. split; [done|]. by eapply dataKept_slotHolds. }
  (* the binding *)
  rewrite <- Hfr2 in Hl1.
  pose proof (dataKept_frUpdatedWithHWReg _ _ _ st2 () st' Hupd) as Hd'.
  revert st' Hupd Hd'.
  apply (wp_unit _ (λ st', dataKept st2 st' → _)).
  apply wp_frUpdatedWithHWReg; [done..|].
  intros st' ? s2 [= <-] Hl2 _ Hfr' Ha' HB' Hd'.
  rewrite Hl1 in Hl2. injection Hl2 as <-.
  split_and!; [done|by eapply dataKept_DataOK|].
  exists i, (updatedWith hw (Some ty) s1), hw, pre, load.
  assert (isGpX hw) as Hgp.
  { unfold classOf in Hc. by destruct hw. }
  split; [done|].
  split.
  { rewrite Hfr'. apply list_lookup_insert_eq. by eapply lookup_lt_Some. }
  split; [done|].
  split.
  { unfold updatedWith. simpl in Hh. case_bool_decide as Hg; simpl.
    - right. by split.
    - destruct Hh as [Hh|[_ Hh]]; [|done].
      rewrite bool_decide_eq_true_2 by done. by left. }
  split; [unfold updatedWith; repeat case_bool_decide; reflexivity|].
  split; [unfold updatedWith; repeat case_bool_decide; reflexivity|].
  split; [by rewrite Ha', Hc2, Hpre, <- app_assoc|].
  split; [done|].
  destruct (isCheapConst bits); [done|].
  destruct Hld as (ofs & -> & Hs). exists ofs. split; [done|].
  by eapply dataKept_slotHolds.
Qed.

End Props.

(** * Concrete runs *)

Lemma syncToMem_stores_from_local_first_witness :
  ∃ st', syncToMem E0 (FRIdx 0) st_pinned_and_local = Ok ((), st') ∧
         instrs (a st') = [IStoreFrame (HWVecD 16) (FRIdx 0)].
Proof.
  destruct (syncToMem_stores_from_local_first E0 0%nat _ st_pinned_and_local
              eq_refl) as [_ H].
  destruct H as (st' & Hrun & Hi & _); [reflexivity|exact I|done|].
  exists st'. split; [exact Hrun|exact Hi].
Defined.

(** C3, as stated, fails: frame register 0 is pinned to [x22], which holds its
    latest value, and is also bound to [d16]; [syncToMem] stores from [d16],
    it does not prefer the pinned register as the source of the store. *)
Lemma syncToMem_prefers_pinned_counterexample :
  ¬ (∀ st', syncToMem E0 (FRIdx 0) st_pinned_and_local = Ok ((), st') →
            IStoreFrame (HWGpX 22) (FRIdx 0) ∈ instrs (a st')).
Proof.
  intros H. specialize (H _ eq_refl). vm_compute in H.
  apply list_elem_of_singleton in H. discriminate H.
Qed.

Lemma loadParam_recovers_expected_errors_witness :
  (∃ st', loadParam_cmp E0 (W 0) 5000 st_x0_scratch = Ok ((), st') ∧
          instrs (a st') = [IMovImm (W 1) 5000; ICmp (W 0) (W 1)] ∧
          TempRegAlloc.avail_ (gpTemp_ st') =
            TempRegAlloc.avail_ (gpTemp_ st_x0_scratch)) ∧
  (∃ st', loadParam_ldur E0 (HWGpX 0) (-40056) st_fresh = Ok ((), st') ∧
          instrs (a st') =
            [IMovImm (X 0) 40056; ISub (X 0) xFrame (X 0);
             ILdr (X 0) (X 0) 0]) ∧
  loadParam_cmp E0_broken_encoder (W 0) 5 st_x0_scratch =
    Err (Fatal "AsmJit error").
Proof.
  split_and!.
  - destruct (loadParam_recovers_expected_errors E0 (W 0) (HWGpX 0) 5000
                (-40056) st_x0_scratch) as (H & _).
    destruct (H eq_refl ltac:(lia) ltac:(split; reflexivity) 1%nat eq_refl
                eq_refl) as (st' & Hrun & Hi & Hav & _).
    exists st'. split_and!; [exact Hrun|exact Hi|exact Hav].
  - destruct (loadParam_recovers_expected_errors E0 (W 0) (HWGpX 0) 5000
                (-40056) st_fresh) as (_ & H & _).
    destruct (H eq_refl ltac:(lia)) as (st' & Hrun & Hi & _).
    exists st'. split; [exact Hrun|exact Hi].
  - destruct (loadParam_recovers_expected_errors E0_broken_encoder (W 0)
                (HWGpX 0) 5 (-40) st_x0_scratch) as (_ & _ & H & _).
    apply H; discriminate.
Defined.

(** The whole of [loadParam] stops with a fatal error when the encoder
    rejects the compare with an error that is not expected. *)
Example loadParam_unexpected_error_is_fatal :
  loadParam E0_broken_encoder (FRIdx 0) 5 st_fresh =
    Err (Fatal "AsmJit error").
Proof. vm_compute. reflexivity. Qed.

(** A parameter index that does not fit the compare immediate and whose frame
    offset does not fit the load displacement: both are recovered. *)
Example loadParam_wide_sequences :
  ∃ st', loadParam E0 (FRIdx 0) 5000 st_fresh = Ok ((), st') ∧
         instrs (a st') =
           [ILdur (W 0) xFrame (-32); IMovImm (W 1) 5000; ICmp (W 0) (W 1);
            IB_lo (LId 0); IMovImm (X 0) 40056; ISub (X 0) xFrame (X 0);
            ILdr (X 0) (X 0) 0; IBind (LId 1)].
Proof. eexists. split; vm_compute; reflexivity. Qed.

Lemma EnvOK_E0 : EnvOK E0.
Proof. split; simpl; lia. Qed.

(** [st_only_local] is what loading a constant into frame register 0 leaves
    behind. *)
Example st_only_local_reached :
  ∃ st', loadConstBits64 E0 (FRIdx 0) 5 FRType.Number st_fresh = Ok ((), st') ∧
         frameRegs_ st' = frameRegs_ st_only_local ∧
         hwRegs_ st' = hwRegs_ st_only_local ∧
         gpTemp_ st' = gpTemp_ st_only_local.
Proof. eexists. split_and!; vm_compute; reflexivity. Qed.

Lemma mutations_keep_a_location_witness :
  (∀ st', syncToMem E0 (FRIdx 0) st_only_local = Ok ((), st') →
          AuthExcept [] st') ∧
  (∀ st', spillTempReg E0 (HWGpX 0) st_only_local = Ok ((), st') →
          AuthExcept [] st').
Proof.
  destruct (mutations_keep_a_location E0 st_only_local EnvOK_E0
              (checkBound_sound E0 st_only_local eq_refl)
              (AuthExcept_check st_only_local eq_refl))
    as (_ & Hspill & Hsync & _).
  split; [apply Hsync|apply Hspill].
Defined.

(** C1, as stated, fails for [freeReg]: frame register 0 lives only in [x0];
    after [freeReg(x0)] none of its locations is authoritative. *)
Lemma freeReg_drops_last_location_counterexample :
  AuthExcept [] st_only_local ∧
  ¬ (∀ st', freeReg E0 (HWGpX 0) st_only_local = Ok ((), st') →
            AuthExcept [] st').
Proof.
  split; [apply AuthExcept_check; reflexivity|].
  intros H. specialize (H _ eq_refl 0%nat _ eq_refl).
  apply checkAuthoritative_complete in H; [discriminate H|].
  apply not_elem_of_nil.
Qed.

Lemma exhausted_check ra :
  forallb negb (TempRegAlloc.avail_ ra) = true →
  ∀ idx, TempRegAlloc.isAvail ra idx = false.
Proof.
  intros H idx. unfold TempRegAlloc.isAvail.
  destruct (TempRegAlloc.avail_ ra !! _) as [b|] eqn:Hb; simpl;
    [|apply andb_false_r].
  rewrite forallb_forall in H.
  apply list_elem_of_lookup_2, list_elem_of_In, H in Hb.
  destruct b; [done|apply andb_false_r].
Qed.

(** On [st_gp_exhausted], an unforced request evicts [x3], the least
    recently used register, and a request for [x7] evicts [x7]; in both
    cases the owner is stored to its frame slot first. *)
Lemma allocTemp_evicts_one_witness :
  (∃ st', _allocTemp E0 GpX None st_gp_exhausted = Ok (HWGpX 3, st') ∧
          instrs (a st') = [IStoreFrame (HWGpX 3) (FRIdx 0)]) ∧
  (∃ st', _allocTemp E0 GpX (Some (HWGpX 7)) st_gp_exhausted
            = Ok (HWGpX 7, st') ∧
          instrs (a st') = [IStoreFrame (HWGpX 7) (FRIdx 7)]).
Proof.
  split.
  - destruct (allocTemp_evicts_one E0 GpX None st_gp_exhausted 3 0
                (onlyInGpX 3) EnvOK_E0
                (checkBound_sound E0 st_gp_exhausted eq_refl)
                (exhausted_check (pool GpX st_gp_exhausted) eq_refl) eq_refl eq_refl eq_refl)
      as (st' & Hrun & _ & _ & Hi & _); [discriminate|].
    exists st'. split; [exact Hrun|exact Hi].
  - destruct (allocTemp_evicts_one E0 GpX (Some (HWGpX 7)) st_gp_exhausted
                7 7 (onlyInGpX 7) EnvOK_E0
                (checkBound_sound E0 st_gp_exhausted eq_refl)
                (exhausted_check (pool GpX st_gp_exhausted) eq_refl) eq_refl eq_refl eq_refl)
      as (st' & Hrun & _ & _ & Hi & _); [discriminate|].
    exists st'. split; [exact Hrun|exact Hi].
Defined.



(** [newBasicBlock] from [st_gp_exhausted], where sixteen frame registers
    live only in the integer temporaries. *)
Lemma newBasicBlock_resets_witness :
  ∃ st', newBasicBlock E0 (LId 7) st_gp_exhausted = Ok ((), st') ∧
    ∀ i s, frameRegs_ st' !! i = Some s →
      localGpX s = HWInvalid ∧ localVecD s = HWInvalid ∧
      localType s = globalType s.
Proof.
  apply (newBasicBlock_resets E0 (LId 7) st_gp_exhausted EnvOK_E0).
  - apply checkBound_sound. vm_compute. reflexivity.
  - apply checkOwned_sound. vm_compute. reflexivity.
Defined.

(** The code of that block entry: the sixteen frame registers are stored to
    their frame slots, in the order of the registers [x0 .. x15], then the
    label is bound. *)
Example newBasicBlock_stores :
  ∃ st', newBasicBlock E0 (LId 7) st_gp_exhausted = Ok ((), st') ∧
    take 4 (instrs (a st')) =
      [IStoreFrame (HWGpX 0) (FRIdx 1); IStoreFrame (HWGpX 1) (FRIdx 2);
       IStoreFrame (HWGpX 2) (FRIdx 3); IStoreFrame (HWGpX 3) (FRIdx 0)] ∧
    drop 16 (instrs (a st')) = [IBind (LId 7)].
Proof. eexists. split_and!; vm_compute; reflexivity. Qed.


(** The code of that operation, and of the same operation on operands known
    to be numbers. *)
Example arithBinOp_unknown_operands :
  ∃ st',
    arithBinOp E0 false (FRIdx 2) (FRIdx 0) (FRIdx 1) "add" 4096
      "_sh_ljs_add_rjs" st_fresh = Ok ((), st') ∧
    instrs (a st') =
      [ILoadFrame (HWGpX 0) (FRIdx 0); ICmp (X 0) xDoubleLim; IB_hs (LId 0);
       ILoadFrame (HWGpX 1) (FRIdx 1); ICmp (X 1) xDoubleLim; IB_hs (LId 0);
       IFmov (D 16) (X 0); IFmov (D 17) (X 1);
       IFast (D 18) (D 16) (D 17); IBind (LId 1)] ∧
    length (slowPaths_ st') = 1%nat.
Proof. eexists. split_and!; vm_compute; reflexivity. Qed.

Example arithBinOp_forced_numbers :
  ∃ st',
    arithBinOp E0 true (FRIdx 2) (FRIdx 0) (FRIdx 1) "addN" 4096
      "_sh_ljs_add_rjs" st_fresh = Ok ((), st') ∧
    instrs (a st') =
      [ILoadFrame (HWVecD 16) (FRIdx 0); ILoadFrame (HWVecD 17) (FRIdx 1);
       IFast (D 18) (D 16) (D 17)] ∧
    slowPaths_ st' = [].
Proof. eexists. split_and!; vm_compute; reflexivity. Qed.


(** The code of that call: the callee [r0] is stored to slot [r6], the
    constant [undefinedRaw] is loaded and stored to slot [r7], and the call
    follows with the count [2] in [w2]. *)
Example call_three_arguments :
  ∃ st', call E0 (FRIdx 1) (FRIdx 0) 3 st_fresh = Ok ((), st') ∧
    instrs (a st') =
      [ILoadFrame (HWGpX 0) (FRIdx 0); IStoreFrame (HWGpX 0) (FRIdx 6);
       IMovImm (X 1) (undefinedRaw E0); IStoreFrame (HWGpX 1) (FRIdx 7);
       IMov (X 0) xRuntime; IMov (X 1) xFrame; IMovImm (W 2) 2;
       IBl (LId 0)].
Proof. eexists. split; vm_compute; reflexivity. Qed.

(** Interning the constant [0x123456789abcdef] and registering the helper at
    address [4096] twice, from [st_fresh]. *)
Lemma interning_is_idempotent_witness :
  (∃ st1, uint64Const 0x123456789abcdef st_fresh = Ok (0, st1) ∧
          roData_ st1 = bytes64 0x123456789abcdef ∧
          uint64Const 0x123456789abcdef st1 = Ok (0, st1)) ∧
  (∃ l st1, registerCall 4096 (Some "_sh_ljs_call") st_fresh = Ok (l, st1) ∧
            registerCall 4096 None st1 = Ok (l, st1) ∧
            ∃ ofs, thunks_ st1 = [(l, ofs)]).
Proof.
  destruct interning_is_idempotent as (Hsame & Hfirst & Hcall). split.
  - destruct (Hfirst 0x123456789abcdef st_fresh) as (st1 & Hrun & Hdata);
      [reflexivity|reflexivity|reflexivity|].
    exists st1. split_and!; [exact Hrun|exact Hdata|].
    by apply (Hsame _ st_fresh).
  - assert (∃ l st1, registerCall 4096 (Some "_sh_ljs_call") st_fresh
                     = Ok (l, st1)) as (l & st1 & Hrun)
      by (eexists _, _; vm_compute; reflexivity).
    exists l, st1. destruct (Hcall 4096 _ None _ _ _ Hrun) as [Hagain Hnew].
    split_and!; [exact Hrun|exact Hagain|]. by apply Hnew.
Defined.

(** [getOrAllocFRInVecD] on a frame register that lives in its frame slot:
    it gets the vector temporary [d16]. *)
Lemma getOrAlloc_register_class_witness :
  ∃ hw st',
    getOrAllocFRInVecD E0 (FRIdx 0) true st_fresh = Ok (hw, st') ∧
    Bound E0 st' ∧
    ∃ i s', FRIdx 0 = FRIdx i ∧ frameRegs_ st' !! i = Some s' ∧
            holdsIn VecD hw s'.
Proof.
  assert (∃ hw st',
            getOrAllocFRInVecD E0 (FRIdx 0) true st_fresh = Ok (hw, st'))
    as (hw & st' & Hrun) by (do 2 eexists; vm_compute; reflexivity).
  exists hw, st'. split; [exact Hrun|].
  apply (getOrAlloc_register_class E0 VecD (FRIdx 0) true st_fresh st' hw
           EnvOK_E0);
    [apply checkBound_sound; vm_compute; reflexivity|exact Hrun].
Defined.

(** [syncAndFreeTempReg] of [x0], the only location of frame register 0:
    the value is stored to the frame and [x0] is released. *)
Lemma syncAndFreeTempReg_releases_witness :
  ∃ st',
    syncAndFreeTempReg E0 (HWGpX 0) st_only_local = Ok ((), st') ∧
    Bound E0 st' ∧
    hwRegs_ st' !! combinedIndex (HWGpX 0) = Some FRInvalid ∧
    (∀ j sj, frameRegs_ st' !! j = Some sj →
             localOf (classOf (HWGpX 0)) sj ≠ HWGpX 0) ∧
    match hwRegs_ st_only_local !! combinedIndex (HWGpX 0) with
    | Some (FRIdx i) =>
        ∃ s, frameRegs_ st_only_local !! i = Some s ∧
             frameRegs_ st' =
               <[i := set_local (classOf (HWGpX 0)) HWInvalid (spillFlags s)]>
                 (frameRegs_ st_only_local) ∧
             instrs (a st') =
               instrs (a st_only_local) ++ spillInstrs (HWGpX 0) i s ∧
             TempRegAlloc.isAvail (pool (classOf (HWGpX 0)) st')
               (indexInClass (HWGpX 0)) = true
    | _ => st' = st_only_local
    end.
Proof.
  assert (∃ st', syncAndFreeTempReg E0 (HWGpX 0) st_only_local = Ok ((), st'))
    as [st' Hrun] by (eexists; vm_compute; reflexivity).
  exists st'. split; [exact Hrun|].
  apply (syncAndFreeTempReg_releases E0 (HWGpX 0) st_only_local st' EnvOK_E0);
    [apply checkBound_sound; vm_compute; reflexivity|
     vm_compute; exact I|exact Hrun].
Defined.

Example syncAndFreeTempReg_stores :
  ∃ st', syncAndFreeTempReg E0 (HWGpX 0) st_only_local = Ok ((), st') ∧
         instrs (a st') = [IStoreFrame (HWGpX 0) (FRIdx 0)].
Proof. eexists. split; vm_compute; reflexivity. Qed.

(** [freeAllTempExcept] with frame register 1 exempted, when all integer
    temporaries are in use. *)
Lemma freeAllTempExcept_drops_temporaries_witness :
  ∃ st', freeAllTempExcept E0 (FRIdx 1) st_gp_exhausted = Ok ((), st') ∧
    frameRegs_ st' =
      imap (λ i s, if decide (FRIdx i = FRIdx 1) then s else clearLocals s)
           (frameRegs_ st_gp_exhausted) ∧
    a st' = a st_gp_exhausted ∧ Bound E0 st' ∧ Owned E0 st'.
Proof.
  apply (freeAllTempExcept_drops_temporaries E0 (FRIdx 1) st_gp_exhausted
           EnvOK_E0);
    [apply checkBound_sound|apply checkOwned_sound]; vm_compute; reflexivity.
Defined.

(** A sync pass over sixteen frame registers that live only in temporary
    registers stores them all; a second pass is silent. *)
Lemma syncAllTempExcept_idempotent_witness :
  ∃ st1, syncAllTempExcept E0 FRInvalid st_gp_exhausted = Ok ((), st1) ∧
         length (instrs (a st1)) = 16%nat ∧
         syncAllTempExcept E0 FRInvalid st1 = Ok ((), st1).
Proof.
  assert (∃ st1, syncAllTempExcept E0 FRInvalid st_gp_exhausted = Ok ((), st1))
    as [st1 Hrun] by (eexists; vm_compute; reflexivity).
  exists st1. split; [exact Hrun|]. split.
  - revert Hrun. vm_compute. intros [= <-]. reflexivity.
  - apply (syncAllTempExcept_idempotent E0 FRInvalid st_gp_exhausted st1 Hrun).
Defined.

(** Eight bytes, aligned to eight, reserved after three bytes of data: the
    block starts at offset 8. *)
Lemma reserveData_aligns_witness :
  ∃ ofs,
    ofs mod 2 ^ 3 = 0 ∧
    Z.of_nat (length (roData_ (with_roData [1; 2; 3] st_fresh))) ≤ ofs <
      Z.of_nat (length (roData_ (with_roData [1; 2; 3] st_fresh))) + 2 ^ 3 ∧
    reserveData 8 (2 ^ 3) (with_roData [1; 2; 3] st_fresh) =
      if bool_decide (INT32_MAX ≤ ofs)
      then Err (Fatal "JIT RO data overflow")
      else Ok (ofs,
               with_roData
                 (roData_ (with_roData [1; 2; 3] st_fresh) ++
                  replicate
                    (Z.to_nat
                       (ofs + 8 -
                        Z.of_nat
                          (length (roData_ (with_roData [1; 2; 3] st_fresh)))))
                    0) (with_roData [1; 2; 3] st_fresh)).
Proof.
  apply (reserveData_aligns 8 3 (with_roData [1; 2; 3] st_fresh)); lia.
Defined.

Example reserveData_pads :
  ∃ st', reserveData 8 8 (with_roData [1; 2; 3] st_fresh) = Ok (8, st') ∧
         roData_ st' = [1; 2; 3; 0; 0; 0; 0; 0; 0; 0; 0; 0; 0; 0; 0; 0].
Proof. eexists. split; vm_compute; reflexivity. Qed.

(** An emitter that has interned nothing satisfies [DataOK]. *)
Lemma DataOK_emitterOf frs hw gp vec : DataOK (emitterOf frs hw gp vec).
Proof. split; intros k v H; simpl in H; by rewrite lookup_empty in H. Qed.

(** Interning the bits of [1.5], then registering a helper: the constant and
    the address of the helper are where the pool says. *)
Lemma interned_data_stays_put_witness :
  ∃ ofs st1 l st2,
    uint64Const 0x3ff8000000000000 st_fresh = Ok (ofs, st1) ∧
    registerCall 0x10040 (Some "_sh_enter") st1 = Ok (l, st2) ∧
    (DataOK st1 ∧ slotHolds st1 ofs 0x3ff8000000000000) ∧
    (DataOK st2 ∧
     ∃ idx o, thunkMap_ st2 !! 0x10040 = Some idx ∧
              thunks_ st2 !! idx = Some (l, o) ∧ slotHolds st2 o 0x10040).
Proof.
  assert (∃ ofs st1, uint64Const 0x3ff8000000000000 st_fresh = Ok (ofs, st1))
    as (ofs & st1 & Hrun1) by (do 2 eexists; vm_compute; reflexivity).
  assert (∃ l st2, registerCall 0x10040 (Some "_sh_enter") st1 = Ok (l, st2))
    as (l & st2 & Hrun2).
  { revert Hrun1. vm_compute. intros [= <- <-]. do 2 eexists. reflexivity. }
  exists ofs, st1, l, st2.
  pose proof (proj1 interned_data_stays_put _ _ _ _
                (DataOK_emitterOf _ _ _ _) Hrun1) as H1.
  pose proof (proj2 interned_data_stays_put _ _ _ _ _ (proj1 H1) Hrun2) as H2.
  split; [exact Hrun1|]. split; [exact Hrun2|]. split; [exact H1|exact H2].
Defined.

(** An emitter without thunks satisfies [ThunksOK]. *)
Lemma ThunksOK_emitterOf frs hw gp vec : ThunksOK (emitterOf frs hw gp vec).
Proof.
  split_and!; simpl.
  - intros fn idx H. by rewrite lookup_empty in H.
  - intros f1 f2 idx H. by rewrite lookup_empty in H.
  - intros idx l ofs H. by rewrite lookup_nil in H.
  - apply NoDup_nil_2.
Qed.

Lemma registerCall_thunk_per_function_witness :
  match registerCall 0x10040 (Some "_sh_enter") st_fresh with
  | Ok (l, st') =>
      ThunksOK st' ∧
      (∃ idx ofs, thunkMap_ st' !! 0x10040 = Some idx ∧
                  thunks_ st' !! idx = Some (l, ofs)) ∧
      ∀ fn' idx' l' ofs', fn' ≠ 0x10040 → thunkMap_ st' !! fn' = Some idx' →
                          thunks_ st' !! idx' = Some (l', ofs') → l' ≠ l
  | Err e => ∃ msg, e = Fatal msg
  end.
Proof.
  apply (registerCall_thunk_per_function 0x10040 (Some "_sh_enter") st_fresh
           (ThunksOK_emitterOf _ _ _ _)).
Defined.

Example registerCall_two_helpers :
  ∃ l1 st1 l2 st2,
    registerCall 0x10040 (Some "_sh_enter") st_fresh = Ok (l1, st1) ∧
    registerCall 0x10080 (Some "_sh_leave") st1 = Ok (l2, st2) ∧
    l1 = LId 0 ∧ l2 = LId 1 ∧
    thunks_ st2 = [(LId 0, 0); (LId 1, 8)].
Proof. do 4 eexists. split_and!; vm_compute; reflexivity. Qed.

(** The bits of [1.5] are one 16-bit word at position 3. *)
Lemma isCheapConst_two_halfwords_witness :
  isCheapConst 0x3ff8000000000000 = true ↔
  ∃ i j a b, 0 ≤ i < j ∧ j ≤ 3 ∧ 0 ≤ a < 2 ^ 16 ∧ 0 ≤ b < 2 ^ 16 ∧
             0x3ff8000000000000 = a * 2 ^ (16 * i) + b * 2 ^ (16 * j).
Proof. apply (isCheapConst_two_halfwords 0x3ff8000000000000). lia. Defined.

Example isCheapConst_examples :
  isCheapConst 0x3ff8000000000000 = true ∧
  isCheapConst 0x0000123400005678 = true ∧
  isCheapConst 0x3ff3333333333333 = false.
Proof. split_and!; vm_compute; reflexivity. Qed.

(** Loading a constant into a frame register that is pinned to [x22]: the
    constant goes to [x22], which stays the global register. *)
Lemma emitters_keep_global_registers_witness :
  ∃ st',
    emitOp E0 (OpLoadConstBits64 (FRIdx 0) 5 FRType.Number)
      st_pinned_and_local = Ok ((), st') ∧
    length (frameRegs_ st') = length (frameRegs_ st_pinned_and_local) ∧
    ∀ i s s', frameRegs_ st_pinned_and_local !! i = Some s →
              frameRegs_ st' !! i = Some s' →
              globalReg s' = globalReg s ∧ globalType s' = globalType s.
Proof.
  assert (∃ st', emitOp E0 (OpLoadConstBits64 (FRIdx 0) 5 FRType.Number)
                   st_pinned_and_local = Ok ((), st'))
    as [st' Hrun] by (eexists; vm_compute; reflexivity).
  exists st'. split; [exact Hrun|].
  apply (emitters_keep_global_registers E0 _ _ _ Hrun).
Defined.

Example loadConstBits64_into_pinned :
  ∃ st',
    emitOp E0 (OpLoadConstBits64 (FRIdx 0) 5 FRType.Number)
      st_pinned_and_local = Ok ((), st') ∧
    instrs (a st') = [IMovImm (X 22) 5] ∧
    frameRegs_ st' =
      [mkFRState FRType.Number FRType.Number (HWGpX 22) HWInvalid HWInvalid
                 false true].
Proof. eexists. split_and!; vm_compute; reflexivity. Qed.


Example toNumber_unknown_input :
  ∃ st', toNumber E0 (FRIdx 1) (FRIdx 0) st_fresh = Ok ((), st') ∧
    instrs (a st') =
      [ILoadFrame (HWGpX 0) (FRIdx 0); ICmp (X 0) xDoubleLim; IB_hs (LId 0);
       IFmov (D 16) (X 0); IBind (LId 1)] ∧
    frameRegs_ st' !! 1%nat =
      Some (mkFRState FRType.Unknown FRType.Number HWInvalid HWInvalid
                      (HWVecD 16) false false).
Proof. eexists. split_and!; vm_compute; reflexivity. Qed.

(** The slow path that [toNumber] queued, emitted by [emitSlowPaths]. *)
Example toNumber_slow_path :
  ∃ st1 st2,
    toNumber E0 (FRIdx 1) (FRIdx 0) st_fresh = Ok ((), st1) ∧
    emitSlowPaths E0 (length (slowPaths_ st1)) st1 = Some (Ok ((), st2)) ∧
    drop 5 (instrs (a st2)) =
      [IBind (LId 0); IMov (X 0) xRuntime; IMov (X 1) xFrame; IBl (LId 2);
       IFmov (D 16) (D 0); IB (LId 1)] ∧
    slowPaths_ st2 = [].
Proof. do 2 eexists. split_and!; vm_compute; reflexivity. Qed.

(** The callee-saved registers of the AArch64 procedure call standard that
    the runs below use: [x22]-[x28] and [d8]-[d15]. *)
Lemma global_registers_are_distinct_witness :
  ∃ nextVec nextGp frs',
    assignGlobals (22, 28)%nat (8, 15)%nat 2 1 (replicate 3 inFrame) =
      Some (nextVec, nextGp, frs') ∧
    length frs' = length (replicate 3 inFrame) ∧
    (∀ i j si sj, frs' !! i = Some si → frs' !! j = Some sj →
       isValid (globalReg si) → globalReg si = globalReg sj → i = j) ∧
    ∀ i s, frs' !! i = Some s →
      match globalReg s with
      | HWInvalid => True
      | HWGpX k => (fst (22, 28) ≤ k ≤ snd (22, 28))%nat
      | HWVecD k => (fst (8, 15) ≤ k ≤ snd (8, 15))%nat
      end.
Proof.
  assert (∃ nextVec nextGp frs',
            assignGlobals (22, 28)%nat (8, 15)%nat 2 1 (replicate 3 inFrame) =
              Some (nextVec, nextGp, frs'))
    as (nextVec & nextGp & frs' & Hrun)
    by (do 3 eexists; vm_compute; reflexivity).
  exists nextVec, nextGp, frs'. split; [exact Hrun|].
  apply (global_registers_are_distinct (22, 28)%nat (8, 15)%nat 2 1
           (replicate 3 inFrame) frs' nextVec nextGp);
    [simpl; lia|simpl; lia|by repeat constructor|exact Hrun].
Defined.

(** Two number registers and one non-pointer register: both loops of the
    constructor start at frame register 0, so frame register 0 ends up in
    [x22] and [d8] is left without a frame register. *)
Example assignGlobals_run :
  assignGlobals (22, 28)%nat (8, 15)%nat 2 1 (replicate 3 inFrame) =
  Some (10%nat, 23%nat,
        [set_global (HWGpX 22) FRType.Unknown inFrame;
         set_global (HWVecD 9) FRType.Number inFrame;
         inFrame]).
Proof. vm_compute. reflexivity. Qed.

(** A frame for two pinned integer registers and three pinned vector
    registers. *)
Lemma leave_restores_saved_registers_witness :
  ∃ code g v,
    frameSetup_stack (22, 28)%nat (8, 15)%nat 2 3 = Ok (code, (g, v)) ∧
    ∃ stores ofs,
      code = SSubSp (frameSize g v) :: stores ++ [SAddFp ofs] ∧
      leave_stack (8, 15)%nat g v =
        (restoreOf <$> stores) ++ [SAddSp (frameSize g v); SRet].
Proof.
  assert (∃ code g v,
            frameSetup_stack (22, 28)%nat (8, 15)%nat 2 3 = Ok (code, (g, v)))
    as (code & g & v & Hrun) by (do 3 eexists; vm_compute; reflexivity).
  exists code, g, v. split; [exact Hrun|].
  apply (leave_restores_saved_registers (22, 28)%nat (8, 15)%nat 2 3 code g v
           Hrun).
Defined.

Example frameSetup_stack_run :
  frameSetup_stack (22, 28)%nat (8, 15)%nat 2 3 =
  Ok ([SSubSp 128;
       SStp (X 19) (X 20) 32; SStp (X 21) (X 22) 48; SStr (X 23) 64;
       SStp (D 8) (D 9) 80; SStr (D 10) 96;
       SStp (X 29) (X 30) 112; SAddFp 112], (5%nat, 3%nat)) ∧
  leave_stack (8, 15)%nat 5 3 =
    [SLdp (X 19) (X 20) 32; SLdp (X 21) (X 22) 48; SLdr (X 23) 64;
     SLdp (D 8) (D 9) 80; SLdr (D 10) 96;
     SLdp (X 29) (X 30) 112; SAddSp 128; SRet].
Proof. split; vm_compute; reflexivity. Qed.

Lemma frame_layout_witness :
  ∃ code g v,
    frameSetup_stack (22, 28)%nat (8, 15)%nat 2 3 = Ok (code, (g, v)) ∧
    frameSize g v mod 16 = 0 ∧
    SAddFp (frameSize g v - 16) ∈ code ∧
    (X 29, frameSize g v - 16) ∈ savedSlots code ∧
    (X 30, frameSize g v - 8) ∈ savedSlots code ∧
    (∀ r o, (r, o) ∈ savedSlots code →
            32 ≤ o ∧ o + 8 ≤ frameSize g v ∧ o mod 8 = 0) ∧
    NoDup (snd <$> savedSlots code) ∧ NoDup (fst <$> savedSlots code).
Proof.
  assert (∃ code g v,
            frameSetup_stack (22, 28)%nat (8, 15)%nat 2 3 = Ok (code, (g, v)))
    as (code & g & v & Hrun) by (do 3 eexists; vm_compute; reflexivity).
  exists code, g, v. split; [exact Hrun|].
  apply (frame_layout (22, 28)%nat (8, 15)%nat 2 3 code g v);
    [reflexivity|simpl; lia|exact Hrun].
Defined.

(** Four number registers and two non-pointer registers: the registers
    [d8]-[d11], [x22] and [x23] are handed out, and saved. *)
Lemma pinned_registers_are_saved_witness :
  ∃ nextVec nextGp frs',
    assignGlobals (22, 28)%nat (8, 15)%nat 4 2 (replicate 6 inFrame) =
      Some (nextVec, nextGp, frs') ∧
    ∃ code counts,
      frameSetup_stack (22, 28)%nat (8, 15)%nat (nextGp - fst (22, 28)%nat)%nat
        (nextVec - fst (8, 15)%nat)%nat = Ok (code, counts) ∧
      ∀ i s, frs' !! i = Some s → isValid (globalReg s) →
             a64Reg (globalReg s) ∈ (fst <$> savedSlots code).
Proof.
  assert (∃ nextVec nextGp frs',
            assignGlobals (22, 28)%nat (8, 15)%nat 4 2 (replicate 6 inFrame) =
              Some (nextVec, nextGp, frs'))
    as (nextVec & nextGp & frs' & Hrun)
    by (do 3 eexists; vm_compute; reflexivity).
  exists nextVec, nextGp, frs'. split; [exact Hrun|].
  apply (pinned_registers_are_saved (22, 28)%nat (8, 15)%nat 4 2
           (replicate 6 inFrame) frs' nextVec nextGp);
    [reflexivity|simpl; lia|simpl; lia|by repeat constructor|exact Hrun].
Defined.


Example mov_from_frame :
  ∃ st', mov E0 (FRIdx 1) (FRIdx 0) true st_fresh = Ok ((), st') ∧
    instrs (a st') = [ILoadFrame (HWGpX 0) (FRIdx 0); IMov (X 1) (X 0)].
Proof. eexists. split; vm_compute; reflexivity. Qed.


(** [arithBinOp] on two operands of unknown type: the guarded case, where no
    local type changes; and with numbers forced. *)
Lemma arithBinOp_result_type_witness :
  ∃ st',
    arithBinOp E0 false (FRIdx 2) (FRIdx 0) (FRIdx 1) "add"
      (addrOf E0 "_sh_ljs_add_rjs") "_sh_ljs_add_rjs" st_fresh
      = Ok ((), st') ∧
    if false ||
       (bool_decide (localType inFrame = FRType.Number) &&
        bool_decide (localType inFrame = FRType.Number))
    then
      (∃ i s, FRIdx 2 = FRIdx i ∧ frameRegs_ st' !! i = Some s ∧
              localType s = FRType.Number) ∧
      statics (λ fr, fr = FRIdx 2 ∨
                     (false = true ∧ (fr = FRIdx 0 ∨ fr = FRIdx 1)))
        st_fresh st'
    else statics (λ _, False) st_fresh st'.
Proof.
  assert (∃ st', arithBinOp E0 false (FRIdx 2) (FRIdx 0) (FRIdx 1) "add"
                   (addrOf E0 "_sh_ljs_add_rjs") "_sh_ljs_add_rjs" st_fresh
                   = Ok ((), st'))
    as [st' Hrun] by (eexists; vm_compute; reflexivity).
  exists st'. split; [exact Hrun|].
  apply (arithBinOp_result_type E0 false (FRIdx 2) 0 1 inFrame inFrame "add"
           (addrOf E0 "_sh_ljs_add_rjs") "_sh_ljs_add_rjs" st_fresh st');
    [vm_compute; reflexivity|vm_compute; reflexivity|exact Hrun].
Defined.

Example arithBinOp_forced_types :
  ∃ st',
    arithBinOp E0 true (FRIdx 2) (FRIdx 0) (FRIdx 1) "mul"
      (addrOf E0 "_sh_ljs_mul_rjs") "_sh_ljs_mul_rjs" st_fresh
      = Ok ((), st') ∧
    localType <$> take 4 (frameRegs_ st') =
      [FRType.Number; FRType.Number; FRType.Number; FRType.Unknown] ∧
    slowPaths_ st' = [].
Proof. eexists. split_and!; vm_compute; reflexivity. Qed.


(** [getByIdImpl(r1, 7, r0, 0)] from [st_only_local], where [r0] is only in
    [x0]: the emitter stores [r0] before it drops [x0], and binds the result
    to [r1]. *)
Lemma emitters_keep_bindings_consistent_witness :
  ∃ st',
    emitOp E0 (OpGetByIdImpl (FRIdx 1) 7 (FRIdx 0) 0
                 (addrOf E0 "_sh_ljs_get_by_id_rjs") "_sh_ljs_get_by_id_rjs")
      st_only_local = Ok ((), st') ∧
    Bound E0 st' ∧ AuthExcept [] st'.
Proof.
  assert (∃ st',
            emitOp E0 (OpGetByIdImpl (FRIdx 1) 7 (FRIdx 0) 0
                         (addrOf E0 "_sh_ljs_get_by_id_rjs")
                         "_sh_ljs_get_by_id_rjs")
              st_only_local = Ok ((), st'))
    as [st' Hrun] by (eexists; vm_compute; reflexivity).
  exists st'. split; [exact Hrun|].
  apply (emitters_keep_bindings_consistent E0 EnvOK_E0
           (OpGetByIdImpl (FRIdx 1) 7 (FRIdx 0) 0
              (addrOf E0 "_sh_ljs_get_by_id_rjs") "_sh_ljs_get_by_id_rjs")
           st_only_local st');
    [apply checkBound_sound; vm_compute; reflexivity
    |apply AuthExcept_check; reflexivity|exact Hrun].
Defined.

Example getByIdImpl_keeps_values :
  ∃ st',
    emitOp E0 (OpGetByIdImpl (FRIdx 1) 7 (FRIdx 0) 0
                 (addrOf E0 "_sh_ljs_get_by_id_rjs") "_sh_ljs_get_by_id_rjs")
      st_only_local = Ok ((), st') ∧
    checkBound E0 st' = true ∧
    forallb checkAuthoritative (frameRegs_ st') = true ∧
    take 2 (instrs (a st')) =
      [IStoreFrame (HWGpX 0) (FRIdx 0); IMov (X 0) xRuntime].
Proof. eexists. split_and!; vm_compute; reflexivity. Qed.


(** [frUpdatedWithHWReg(r0, x0, Number)] from [st_only_local], where [x0] is
    the local register of [r0]. *)
Lemma frUpdatedWithHWReg_single_location_witness :
  ∃ st',
    frUpdatedWithHWReg E0 (FRIdx 0) (HWGpX 0) (Some FRType.Number)
      st_only_local = Ok ((), st') ∧
    ∃ i s s',
      FRIdx 0 = FRIdx i ∧ frameRegs_ st_only_local !! i = Some s ∧
      frameRegs_ st' !! i = Some s' ∧
      ((globalReg s' = HWGpX 0 ∧ globalRegUpToDate s') ∨
       localGpX s' = HWGpX 0 ∨ localVecD s' = HWGpX 0) ∧
      frameUpToDate s' = false ∧
      (globalRegUpToDate s' → globalReg s' = HWGpX 0) ∧
      (isValid (localGpX s') → localGpX s' = HWGpX 0) ∧
      (isValid (localVecD s') → localVecD s' = HWGpX 0) ∧
      globalReg s' = globalReg s ∧ globalType s' = globalType s ∧
      localType s' = default (localType s) (Some FRType.Number) ∧
      (∀ j, j ≠ i → frameRegs_ st' !! j = frameRegs_ st_only_local !! j) ∧
      a st' = a st_only_local ∧ Bound E0 st'.
Proof.
  assert (∃ st', frUpdatedWithHWReg E0 (FRIdx 0) (HWGpX 0)
                   (Some FRType.Number) st_only_local = Ok ((), st'))
    as [st' Hrun] by (eexists; vm_compute; reflexivity).
  exists st'. split; [exact Hrun|].
  apply (frUpdatedWithHWReg_single_location E0 (FRIdx 0) (HWGpX 0)
           (Some FRType.Number) st_only_local st' EnvOK_E0);
    [apply checkBound_sound; vm_compute; reflexivity|exact I|exact Hrun].
Defined.


(** [movHWFromFR(x1, r0)] from [st_only_local]: the value is taken from
    [x0], the only location of [r0]; from [st_fresh] it is loaded from the
    frame. *)
Lemma movHWFromFR_reads_latest_witness :
  ∃ s st',
    frameRegs_ st_only_local !! 0%nat = Some s ∧
    movHWFromFR E0 (HWGpX 1) (FRIdx 0) st_only_local = Ok ((), st') ∧
    bindingView st' = bindingView st_only_local ∧
    ((∃ r, isValid r ∧
           (r = localGpX s ∨ r = localVecD s ∨
            (r = globalReg s ∧ globalRegUpToDate s)) ∧
           instrs (a st') =
             instrs (a st_only_local) ++ movInstr (HWGpX 1) r) ∨
     (frameUpToDate s ∧
      instrs (a st') =
        instrs (a st_only_local) ++ [ILoadFrame (HWGpX 1) (FRIdx 0)])).
Proof.
  assert (∃ s, frameRegs_ st_only_local !! 0%nat = Some s ∧
               checkAuthoritative s = true)
    as (s & Hl & Hauth) by (eexists; split; vm_compute; reflexivity).
  assert (∃ st', movHWFromFR E0 (HWGpX 1) (FRIdx 0) st_only_local
                   = Ok ((), st'))
    as [st' Hrun] by (eexists; vm_compute; reflexivity).
  exists s, st'. split; [exact Hl|]. split; [exact Hrun|].
  apply (movHWFromFR_reads_latest E0 (HWGpX 1) 0 s st_only_local st' Hl);
    [apply checkAuthoritative_sound; exact Hauth|exact Hrun].
Defined.

Example movHWFromFR_from_local_and_from_frame :
  (∃ st', movHWFromFR E0 (HWGpX 1) (FRIdx 0) st_only_local = Ok ((), st') ∧
          instrs (a st') = instrs (a st_only_local) ++ [IMov (X 1) (X 0)]) ∧
  (∃ st', movHWFromFR E0 (HWGpX 1) (FRIdx 0) st_fresh = Ok ((), st') ∧
          instrs (a st') = [ILoadFrame (HWGpX 1) (FRIdx 0)]).
Proof. split; eexists; split; vm_compute; reflexivity. Qed.


(** [getOrAllocFRInVecD(r0, true)] from [st_only_local]: the value of [r0]
    is copied from [x0], its only location. *)
Lemma getOrAlloc_loads_latest_witness :
  ∃ s hw st',
    frameRegs_ st_only_local !! 0%nat = Some s ∧
    getOrAllocFRInVecD E0 (FRIdx 0) true st_only_local = Ok (hw, st') ∧
    ∃ spill load,
      instrs (a st') = instrs (a st_only_local) ++ spill ++ load ∧
      spillOf E0 VecD 0 st_only_local spill ∧ latestIn VecD hw 0 s load.
Proof.
  assert (∃ s, frameRegs_ st_only_local !! 0%nat = Some s ∧
               checkAuthoritative s = true)
    as (s & Hl & Hauth) by (eexists; split; vm_compute; reflexivity).
  assert (∃ hw st', getOrAllocFRInVecD E0 (FRIdx 0) true st_only_local
                      = Ok (hw, st'))
    as (hw & st' & Hrun) by (do 2 eexists; vm_compute; reflexivity).
  exists s, hw, st'. split; [exact Hl|]. split; [exact Hrun|].
  apply (getOrAlloc_loads_latest E0 VecD 0 s st_only_local st' hw EnvOK_E0);
    [apply checkBound_sound; vm_compute; reflexivity|exact Hl
    |apply checkAuthoritative_sound; exact Hauth|exact Hrun].
Defined.

Example getOrAllocFRInVecD_copies_from_local :
  ∃ st', getOrAllocFRInVecD E0 (FRIdx 0) true st_only_local
           = Ok (HWVecD 16, st') ∧
         instrs (a st') =
           instrs (a st_only_local) ++ [IFmov (D 16) (X 0)].
Proof. eexists. split; vm_compute; reflexivity. Qed.


(** [loadConstBits64(r1, 0x3ff8000100000001, Number)] from [st_fresh]: the
    constant has three non-zero 16-bit words, so it is loaded from the
    read-only data. *)
Lemma loadConstBits64_loads_constant_witness :
  ∃ st',
    loadConstBits64 E0 (FRIdx 1) 0x3ff8000100000001 FRType.Number st_fresh
      = Ok ((), st') ∧
    Bound E0 st' ∧ DataOK st' ∧
    ∃ i s' hw pre load,
      FRIdx 1 = FRIdx i ∧ frameRegs_ st' !! i = Some s' ∧ isGpX hw ∧
      (localGpX s' = hw ∨ (globalReg s' = hw ∧ globalRegUpToDate s')) ∧
      frameUpToDate s' = false ∧ localType s' = FRType.Number ∧
      instrs (a st') = instrs (a st_fresh) ++ pre ++ [load] ∧
      forallb isMove pre = true ∧
      if isCheapConst 0x3ff8000100000001
      then load = IMovImm (a64GpX hw) 0x3ff8000100000001
      else ∃ ofs, load = ILdrRoData (a64GpX hw) ofs ∧
                  slotHolds st' ofs 0x3ff8000100000001.
Proof.
  assert (∃ st', loadConstBits64 E0 (FRIdx 1) 0x3ff8000100000001
                   FRType.Number st_fresh = Ok ((), st'))
    as [st' Hrun] by (eexists; vm_compute; reflexivity).
  exists st'. split; [exact Hrun|].
  apply (loadConstBits64_loads_constant E0 (FRIdx 1) 0x3ff8000100000001
           FRType.Number st_fresh st' EnvOK_E0);
    [apply checkBound_sound; vm_compute; reflexivity
    |apply DataOK_emitterOf|exact Hrun].
Defined.

Example loadConstBits64_from_pool :
  ∃ st',
    loadConstBits64 E0 (FRIdx 1) 0x3ff8000100000001 FRType.Number st_fresh
      = Ok ((), st') ∧
    instrs (a st') = [ILdrRoData (X 0) 0] ∧
    roData_ st' = [1; 0; 0; 0; 1; 0; 0xf8; 0x3f] ∧
    isCheapConst 0x3ff8000100000001 = false.
Proof. eexists. split_and!; vm_compute; reflexivity. Qed.

